(* ===== verification/_CoqProject ===== *)
-Q . S2P
Prelude.v
Types.v
Board.v
MoveGen.v
Chains.v
Apply.v
Terminal.v
Eval.v
Game.v
Order.v
Num.v
Search.v
Winning.v
Suggest.v
GameScreen.v
GameBoard.v
App.v
Storage.v
Ui.v
Views.v
System.v
Ghost.v
