(* ===== verification/Prelude.v ===== *)
(** * Ethiopian checkers (Dama): a verification development

    The program is a browser game written in TypeScript.  Its core is the
    rules engine of [src/src/game/logic.ts]: legal-move generation under
    mandatory capture with multi-jump chains, move application with
    promotion, terminal-state detection, a heuristic evaluator, an
    alpha-beta search and a hint engine.  Around it sit the board
    constructor ([src/src/constants/index.ts]), the data types
    ([src/src/types/index.ts]), the React screen that owns the game state
    and calls the engine ([src/src/screens/GameScreen.tsx]), the
    components it draws ([GameBoard.tsx], [GamePiece.tsx],
    [GameControls.tsx], [GameOverModal.tsx] under [src/src/components/])
    and the menu that starts it ([src/src/App.tsx],
    [src/src/screens/MainMenu.tsx]).  The screen keeps three preferences
    in the browser's [localStorage] and plays four sounds.

    ** How the program is modelled

    Every function of the engine and every handler of the screen is
    translated into an executable Rocq definition with the name it has in
    the source.  The translation keeps the code's shape:

    - numbers that index the board are [Z]: the code computes [from.row +
      dRow] and [from.row + 2 * dRow] before it tests bounds, so
      coordinates leave the range [0..7] and may be negative;
    - a [Board] is a [list (list Square)], a [Square] is an [option Piece]
      ([None] is JavaScript's [null]; [undefined], which every reader of
      the code treats like [null], is not distinguished from it);
    - a read [board[r]?.[c]] is [getSquare], which is total; a write
      [board[r][c] = v] is [setSquare], which fails with [TypeError] when
      row [r] does not exist (as JavaScript does), extends the row when [c]
      is past its end (as JavaScript does) and ignores a negative [c]
      (JavaScript stores a non-index property that the next JSON copy
      drops: the one approximation of the array model);
    - a function that can throw returns [res A] = [Ok a | Err e], and its
      callers propagate the error with the monad's bind, as JavaScript's
      exceptions propagate; the [try]/[catch] of the screen is [catch];
    - deep copies ([JSON.parse (JSON.stringify board)]) are the identity
      on immutable values;
    - loops that push on an array are [pushAllM], loops that accumulate are
      [foldM], [sumZ] or a [Fixpoint] on the list they run over; a [break]
      is the early return of that [Fixpoint];
    - the recursive capture search has no structural argument, so its model
      takes fuel.  [MoveGen.chainFuel] is 66: a chain captures each of the
      64 squares of the 8x8 window at most once, after a first jump that
      may start outside it.  Theorem [MoveGen.moveGen_terminates] shows
      that [Err OutOfFuel] is never returned, on any board;
    - [minimax] recurses on its depth, a natural number, as the source only
      counts it down to 0; its numbers are integers extended with the two
      infinities ([Num.num]);
    - [Math.random()] is an argument of the functions that call it;
    - the [useState] cells of a component are the fields of a record, a
      handler is a function on it, and the events are the constructors of
      a transition relation ([GameScreen.step], [App.appStep]); a timer
      with a cleanup fires only in the state that started it (the timer
      of the AI: it counts as pending whenever the conditions that start
      it hold, also after it has fired, and its callback takes any random
      number), a timer without one is counted as pending until it
      fires (the timer of the game-over modal, [modalTimers]);
    - React runs a handler, renders, and runs the effects whose
      dependencies changed: [Ui.react] is the handler followed by the
      board effect when [Ui.effectDue] says so, [System.gameStep] adds the
      sounds and the effects of the preferences.  The [setState] calls
      of one handler or of one timer callback are taken as one render, as
      React batches them since version 18 (the repository names no
      version).  Dependencies are compared by value; a restart, which
      always stores a new board, counts as a change; [gameMode],
      [difficulty] and [performMove] never change on their own and are
      left out of the list;
    - what a component returns is a record of what is drawn (texts, flags,
      the handler of every button); the handlers are values of a type the
      caller chooses, as props are;
    - [localStorage] is a table of strings ([gmap string string]) with two
      flags that say whether the browser grants reading and writing,
      fixed while the page lives; an access is [Granted] or [Refused],
      and the [try] blocks of the source turn a refusal into the default;
    - a sound that is played joins a log, with the mute flag its [Howl]
      had at that moment;
    - guards on [null] arguments ([if (!player) return []]) are omitted: the
      Rocq types have no [null].

    ** Files

    - [Prelude] (this file): the error monad [res] and its loops
      ([foldM], [pushAllM], [mapM]), the notations [m ⇓ a] and [m ↯ e], the
      running maximum [maxOf] and its filter [keepMax], sums, the stable
      sort [sortDesc], counting with filters, the hint databases.
    - [Types]: the types of [types/index.ts].
    - [Board]: constants, [isWithinBoard], [getOpponent], reads and writes
      of the board, [createInitialBoard], the well-formedness [wf_board]
      (eight rows of eight squares) and the read-after-write laws.
    - [MoveGen]: [findPieceCaptureMovesRecursive], [findPieceCaptureMoves],
      [findCaptureMoves], [getValidMoves], [findStandardMoves],
      [getAllPlayerMoves]; the rules as the relation [chain] and the
      predicate [legalMove].
    - [Chains]: what a chain does to the board; well-formedness of the
      generated moves.
    - [Apply]: [applyMove].
    - [Terminal]: [checkWinCondition] and the relation [verdict].
    - [Eval]: [evaluateBoard] and the reference [material].
    - [Game]: the positions of the game ([played]: the boards reached from
      the initial board by legal moves) and what all of them satisfy.
    - [Order]: the order in which the generator lists the moves: the
      strict total order [moveLt] with its instances, sortedness of the
      results of the loops.
    - [Num]: the numbers of the search, their order, the tactic
      [num_order], the window lemmas of alpha-beta.
    - [Search]: [minimax], [getEasyMove], [getMediumMove], [getHardMove],
      [getAIMove]; the reference [plainMinimax]; the class [Strategy], what
      the game loop is promised by a level of the AI, with the levels as
      its instances.
    - [Winning]: the range of the values of the search; the hard level
      takes a win in one move.
    - [Suggest]: [getSuggestedMoves].
    - [GameScreen]: the state of the game screen, [performMove], the board
      effect and its timers, [handleSquareClick], [handleRestart],
      [handleUndo]; the relation [step] and the invariant [inv].  The
      lemmas about the timer of the AI are proved for any [Strategy].
    - [GameBoard]: what the board component draws on each square: the
      highlight predicates, [squareView] with the coordinate labels,
      [render], and the props the screen passes.
    - [App]: the menu and the screen switch; the relation [appStep], the
      buttons of the menu ([mainMenu]) and their handlers ([appHandler]).
    - [Storage]: [localStorage] with refusals, [loadPreference] and
      [storePreference]; the four sounds, [muteAll] and [play].
    - [Ui]: the game screen as the player drives it: the events of the
      widgets and timers ([GameEvent]), which of them are there
      ([available]), [handler], [effectDue], [react], the runs [session];
      the invariant [settled].
    - [Views]: [gamePiece], [gameControls], [gameOverModal] and
      [gameScreen], the views of the four components, and the clicks a
      screen offers.
    - [System]: the page: [App] with the game screen it mounts, the
      storage and the sounds; [mount], [gameStep], [systemStep], the
      invariant [sysInv].
    - [Ghost]: the counter [modalTimers] is never read: the relation
      [sameCells] and the [Proper] instances of the handlers, the effect,
      [Ui.react] and the view.

    ** What the theorems show

    - refinement of the rules: [getAllPlayerMoves] returns exactly the
      legal moves ([MoveGen.getAllPlayerMoves_spec]); the recursive search
      returns exactly the maximal chains
      ([MoveGen.capture_chains_correct]); the longest-chain and the
      mandatory-capture filters ([MoveGen.findPieceCaptureMoves_spec],
      [MoveGen.mandatory_capture], [MoveGen.getValidMoves_filter]); the
      list is strictly increasing for [Order.moveLt], square by square in
      reading order, so it is determined by its members
      ([Order.generator_order]); the initial board
      ([Board.createInitialBoard_spec]);
    - the applicator, square by square ([Apply.applyMove_spec]), its
      agreement with the board of the generator
      ([Apply.applyMove_plays_chain]), its invariants
      ([Apply.applyMove_wf], [Apply.applyMove_pieces]) and its exceptions
      ([Apply.applyMove_throws]);
    - the positions of the game: 8x8 boards with at most twelve pieces a
      side on dark squares ([Game.played_invariant]), the piece counts
      after a move ([Game.applyMove_counts]), the heuristic below the
      score of a decided game ([Game.played_score_below_win]), the opening
      moves as a run of the generator ([Game.opening_moves]);
    - the terminal test against the rules
      ([Terminal.checkWinCondition_spec], [Terminal.terminal_symmetry]);
    - the evaluator against material counting, antisymmetry and bounds
      ([Eval.evaluateBoard_spec], [Eval.evaluateBoard_antisymmetric],
      [Eval.evaluateBoard_bounds], [Eval.evaluateBoard_throws]);
    - alpha-beta pruning returns the value of the search without a window
      ([Search.alpha_beta_correct]); the hard level plays the first best
      move ([Search.getHardMove_spec]), which wins at once when some move
      does ([Winning.hard_takes_win], from the range of the values of the
      search, [Winning.minimax_range]); every level plays a legal move
      ([Search.getAIMove_legal]); the hints ([Suggest.getSuggestedMoves_spec]);
    - the game loop: the invariant of the reachable states
      ([GameScreen.reachable_inv]: the history holds positions of the
      game only), only legal moves are played
      ([GameScreen.only_legal_moves]), the turn passes with every move
      that makes no king ([GameScreen.turn_passes]) and stays exactly when
      a new king has a capture among the legal moves, which are then the
      moves offered ([GameScreen.promotion_continues]), a decided game
      stands still
      ([GameScreen.game_over_stable]), undo ([GameScreen.handleUndo_spec]),
      the effect ([GameScreen.effect_spec]), the board drawn agrees with
      the rules ([GameBoard.gameBoard_sound]), the AI answers
      ([App.ai_answers], and on the page [System.page_ai_answers]);
    - the screen in use: the machine of events and effects refines the
      relation of the handlers ([Ui.session_refines]) and never raises an
      exception ([Ui.session_is_Ok]); between two events the winner, the
      game result and the mandatory captures stored are those of the
      board shown ([Ui.session_settled]); the widgets drawn are the
      events the machine admits ([Views.widgets_are_available]); the
      modal names the winner of the board shown and the banner of the
      mandatory capture is there exactly when a capture is
      ([Views.screen_tells_truth]);
    - the page: its parts stay consistent and no event raises an
      exception ([System.system_invariant]); the preferences survive the
      way through the menu when the browser grants the accesses
      ([Storage.preference_roundtrip], [System.preferences_persist]) and
      fall back to what the storage held at load when it refuses
      ([System.preferences_lost]); the sounds are muted exactly when the
      screen is ([System.sounds_follow_mute]);
    - the model's own counter of pending timers changes nothing the
      component computes or draws ([Ghost.react_proper],
      [Ghost.gameScreen_proper], [Ghost.late_timer_unseen]);
    - exception freedom and termination on well-formed boards
      ([MoveGen.moveGen_no_exception], [MoveGen.moveGen_terminates]);
    - behaviours of the code that differ from its specification are
      theorems with a witness on a concrete board: a capture that ends
      where it started erases the capturing piece
      ([Apply.ring_capture_erases_piece]); undo always gives the move to
      White, also while the AI is thinking ([Ui.undo_while_ai_thinks]); a
      blocked side loses to a side without pieces; the medium level is
      the easy level ([Search.medium_is_easy]); White has seven
      opening moves, not four ([Order.generator_order_witness]); a man
      that captures into its far row goes on capturing as a king
      ([GameScreen.promotion_continues]), and the
      player may go on with another piece
      ([Ui.capturing_piece_selectable], [Ui.turn_changes_piece]); the timer
      of the game-over modal outlives a restart
      ([GameScreen.modal_survives_restart]).

    Theorems about values the code returns are total on well-formed
    boards: they state that the function returns and what it returns.
    The runs [Ui.session] and [System.systemRun] take any list of events;
    an event whose widget is not on the screen is lost, as a click on a
    disabled button is.

    ** Not modelled

    Class names, colours, icons and animations of the markup; the
    size of the window, which the modal stores to size the confetti
    ([Views.handleResize]), is not part of the states of the screen and
    of the page; the default values of the optional
    props of [GameBoard.tsx], which the game screen never leaves out; the
    volumes and the files of the sounds, and the [Howl] library itself;
    the delay of the timers (a timer is an event that may fire while it
    is pending); changes of [localStorage] made outside the page.
    Non-integer coordinates are outside the model.
    [Array.prototype.sort] is taken to be stable, as ECMAScript 2019
    requires. *)

From stdpp Require Import prelude.
From Stdlib Require Import ZArith Lia.

(** ** Exceptions as values *)

Inductive exn : Set :=
  | TypeError   (* JavaScript: property access on undefined *)
  | OutOfFuel.  (* model only: the recursion bound was reached *)

Inductive res (A : Type) : Type :=
  | Ok (a : A)
  | Err (e : exn).

Arguments Ok {A} a.
Arguments Err {A} e.

#[export] Instance exn_eq_dec : EqDecision exn.
Proof. solve_decision. Defined.

#[export] Instance res_eq_dec `{EqDecision A} : EqDecision (res A).
Proof. solve_decision. Defined.

#[export] Instance res_ret : MRet res := @Ok.

#[export] Instance res_bind : MBind res :=
  λ A B f m, match m with Ok a => f a | Err e => Err e end.

#[export] Instance res_fmap : FMap res :=
  λ A B f m, match m with Ok a => Ok (f a) | Err e => Err e end.

Declare Scope res_scope.
Delimit Scope res_scope with res.
Notation "m ⇓ a" := (m = Ok a) (at level 70, no associativity) : res_scope.
Notation "m ↯ e" := (m = Err e) (at level 70, no associativity) : res_scope.
Open Scope res_scope.

Definition is_Ok {A} (m : res A) : Prop := ∃ a, m ⇓ a.

(** [try { m } catch { h }] *)
Definition catch {A} (m : res A) (h : exn → A) : A :=
  match m with Ok a => a | Err e => h e end.

(** [for (const x of l) { acc = f acc x }] with exceptions. *)
Fixpoint foldM {A B} (f : B → A → res B) (b : B) (l : list A) : res B :=
  match l with
  | [] => Ok b
  | a :: l => b' ← f b a; foldM f b' l
  end.

(** [for (const x of l) { out.push(...f x) }] with exceptions. *)
Definition pushAllM {A B} (f : A → res (list B)) (l : list A) : res (list B) :=
  foldM (λ out x, r ← f x; Ok (out ++ r)) [] l.

(** The running maximum the code computes with [forEach]:
    [let m = 0; l.forEach(x => { if (f x > m) m = f x })]. *)
Definition maxOf {A} (f : A → nat) (l : list A) : nat :=
  foldl (λ m x, if (m <? f x)%nat then f x else m) 0%nat l.

(** [l.filter(x => f x === maxOf f l)] *)
Definition keepMax {A} (f : A → nat) (l : list A) : list A :=
  filter (λ x, f x = maxOf f l) l.

(** [l.map(f)] with exceptions. *)
Fixpoint mapM {A B} (f : A → res B) (l : list A) : res (list B) :=
  match l with
  | [] => Ok []
  | x :: l => y ← f x; ys ← mapM f l; Ok (y :: ys)
  end.

(** [l.sort((a, b) => key(b) - key(a))]: a stable sort by descending key,
    as [Array.prototype.sort] is stable. *)
Fixpoint insertDesc {A} (key : A → Z) (x : A) (l : list A) : list A :=
  match l with
  | [] => [x]
  | y :: l' => if (key x <? key y)%Z then y :: insertDesc key x l' else x :: l
  end.

Definition sortDesc {A} (key : A → Z) (l : list A) : list A :=
  foldr (insertDesc key) [] l.

(** [let s = 0; for (x of l) s += f(x)]: the sum a loop accumulates. *)
Definition sumZ {A} (f : A → Z) (l : list A) : Z := foldr (λ x s, f x + s)%Z 0%Z l.

(** ** Automation *)

Create HintDb dama discriminated.
Create Rewrite HintDb dama_rw.

Lemma bind_Ok_l {A B} (f : A → res B) (a : A) : Ok a ≫= f = f a.
Proof. done. Qed.

Lemma bind_Ok {A B} (f : A → res B) (m : res A) (b : B) :
  m ≫= f ⇓ b ↔ ∃ a, m ⇓ a ∧ f a ⇓ b.
Proof.
  destruct m as [a|e]; cbn; split.
  - eauto.
  - by intros (a' & [= ->] & ?).
  - done.
  - by intros (? & ? & ?).
Qed.

Lemma bind_Err {A B} (f : A → res B) (m : res A) (e : exn) :
  m ≫= f ↯ e ↔ m ↯ e ∨ ∃ a, m ⇓ a ∧ f a ↯ e.
Proof.
  destruct m as [a|e']; cbn; split.
  - eauto.
  - by intros [?|(a' & [= ->] & ?)].
  - intros [= ->]. by left.
  - by intros [[= ->]|(? & ? & ?)].
Qed.

Lemma is_Ok_bind {A B} (f : A → res B) (m : res A) :
  is_Ok (m ≫= f) ↔ ∃ a, m ⇓ a ∧ is_Ok (f a).
Proof.
  unfold is_Ok. split.
  - intros [b (a & ? & ?)%bind_Ok]. eauto.
  - intros (a & ? & b & ?). exists b. apply bind_Ok. eauto.
Qed.

Lemma not_is_Ok {A} (m : res A) : ¬ is_Ok m ↔ ∃ e, m ↯ e.
Proof.
  unfold is_Ok. destruct m as [a|e]; split.
  - intros []. eauto.
  - by intros [? ?].
  - eauto.
  - by intros _ [? ?].
Qed.

Lemma is_Ok_dec {A} (m : res A) : is_Ok m ∨ ∃ e, m ↯ e.
Proof. unfold is_Ok. destruct m; eauto. Qed.

(** [res_inv]: decompose every hypothesis that says a monadic computation
    returned, and clear impossible cases. *)
Ltac res_inv :=
  repeat match goal with
  | H : Ok _ = Ok _ |- _ => injection H as H; try subst
  | H : Ok _ = Err _ |- _ => discriminate H
  | H : Err _ = Ok _ |- _ => discriminate H
  | H : Err _ = Err _ |- _ => injection H as H; try subst
  | H : mret _ = Ok _ |- _ => injection H as H; try subst
  | H : is_Ok (Err _) |- _ => destruct H as [? H]; discriminate H
  | H : _ ≫= _ = Ok _ |- _ =>
      apply bind_Ok in H; let a := fresh "r" in
      let H1 := fresh H in destruct H as (a & H1 & H)
  end.

#[export] Hint Extern 1 (is_Ok (Ok _)) => (eexists; reflexivity) : dama.

(** ** Loops *)

Section loops.
Context {A B : Type}.
Implicit Types (l : list A) (b : B).

Lemma foldM_app (f : B → A → res B) b l1 l2 :
  foldM f b (l1 ++ l2) = b' ← foldM f b l1; foldM f b' l2.
Proof.
  revert b. induction l1 as [|a l1 IH]; intros b; cbn; [done|].
  destruct (f b a); cbn; auto.
Qed.

(** Invariant rule for a loop that returned. *)
Lemma foldM_ind (I : list A → B → Prop) (f : B → A → res B) b l r :
  I [] b →
  (∀ done_ x b1 b2, x ∈ l → I done_ b1 → f b1 x ⇓ b2 → I (done_ ++ [x]) b2) →
  foldM f b l ⇓ r → I l r.
Proof.
  intros H0 Hstep.
  enough (∀ pre l' b1, l = pre ++ l' → I pre b1 → foldM f b1 l' ⇓ r → I l r)
    as H by (intros Hr; by eapply (H [] l b)).
  intros pre l'. revert pre. induction l' as [|x l' IH]; intros pre b1 -> Hb1 Hr.
  - cbn in Hr. res_inv. by rewrite app_nil_r.
  - cbn in Hr. res_inv. eapply (IH (pre ++ [x])); [by rewrite <-app_assoc| |done].
    eapply Hstep; [|done..]. set_solver.
Qed.

(** Totality rule: a loop whose body returns under the invariant returns. *)
Lemma foldM_total (I : B → Prop) (f : B → A → res B) b l :
  I b →
  (∀ x b1, x ∈ l → I b1 → ∃ b2, f b1 x ⇓ b2 ∧ I b2) →
  ∃ r, foldM f b l ⇓ r ∧ I r.
Proof.
  revert b. induction l as [|x l IH]; intros b Hb Hstep; cbn; [eauto|].
  destruct (Hstep x b) as (b2 & -> & Hb2); [set_solver|done|]. cbn.
  apply IH; [done|]. intros ???. apply Hstep. set_solver.
Qed.

(** The error of a loop is the error of one of its iterations. *)
Lemma foldM_ext (f g : B → A → res B) b l :
  (∀ b1 x, x ∈ l → f b1 x = g b1 x) → foldM f b l = foldM g b l.
Proof.
  revert b. induction l as [|x l IH]; intros b Hfg; [done|]. cbn.
  rewrite Hfg by left. destruct (g b x); cbn; [|done].
  apply IH. intros b1 y ?. apply Hfg. by right.
Qed.

(** A loop that returns has run every iteration to its end. *)
Lemma foldM_Ok_elem (f : B → A → res B) b l r x :
  foldM f b l ⇓ r → x ∈ l → ∃ b1, is_Ok (f b1 x).
Proof.
  revert b. induction l as [|y l IH]; intros b Hr Hx; [by apply elem_of_nil in Hx|].
  cbn in Hr. apply bind_Ok in Hr as (b' & Hy & Hr).
  apply elem_of_cons in Hx as [->|Hx]; [by exists b, b'|by eapply IH].
Qed.

Lemma foldM_Err (f : B → A → res B) b l e :
  foldM f b l ↯ e → ∃ x b1, x ∈ l ∧ f b1 x ↯ e.
Proof.
  revert b. induction l as [|x l IH]; intros b; cbn; [done|].
  intros [?|(b2 & _ & (y & b1 & ? & ?)%IH)]%bind_Err.
  - exists x, b. set_solver.
  - exists y, b1. set_solver.
Qed.
End loops.

Section pushAll.
Context {A B : Type}.
Implicit Types (f : A → res (list B)) (l : list A).

Lemma pushAllM_acc f l (acc : list B) :
  foldM (λ out x, r ← f x; Ok (out ++ r)) acc l
  = r ← pushAllM f l; Ok (acc ++ r).
Proof.
  unfold pushAllM. revert acc. induction l as [|x l IH]; intros acc; cbn.
  - by rewrite app_nil_r.
  - destruct (f x) as [r|e]; cbn; [|done].
    rewrite (IH (acc ++ r)), (IH r).
    destruct (foldM _ [] l); cbn; [|done]. by rewrite app_assoc.
Qed.

Lemma pushAllM_cons f x l :
  pushAllM f (x :: l) = r ← f x; rs ← pushAllM f l; Ok (r ++ rs).
Proof.
  unfold pushAllM at 1. cbn. destruct (f x) as [r|e]; cbn; [|done].
  apply pushAllM_acc.
Qed.

Lemma pushAllM_nil f : pushAllM f [] = Ok [].
Proof. done. Qed.

(** A push loop returns the concatenation of what its iterations return. *)
Lemma pushAllM_Ok f l out :
  pushAllM f l ⇓ out ↔
  ∃ rs, Forall2 (λ x r, f x ⇓ r) l rs ∧ out = mjoin rs.
Proof.
  revert out. induction l as [|x l IH]; intros out.
  - rewrite pushAllM_nil. split.
    + intros [= <-]. exists []. split; [constructor|done].
    + intros (rs & ->%Forall2_nil_inv_l & ->). done.
  - rewrite pushAllM_cons. split.
    + intros (r & Hr & (rs' & (rs & ? & ->)%IH & [= <-])%bind_Ok)%bind_Ok.
      exists (r :: rs). split; [by constructor|done].
    + intros (rs & (r & rs' & Hr & Hrs & ->)%Forall2_cons_inv_l & ->).
      rewrite Hr. cbn. assert (pushAllM f l ⇓ mjoin rs') as -> by (apply IH; eauto).
      done.
Qed.

Lemma pushAllM_elem f l out y :
  pushAllM f l ⇓ out → y ∈ out → ∃ x r, x ∈ l ∧ f x ⇓ r ∧ y ∈ r.
Proof.
  intros (rs & HF & ->)%pushAllM_Ok (r & Hy & Hr)%list_elem_of_join.
  apply list_elem_of_lookup in Hr as [i Hi].
  destruct (Forall2_lookup_r _ _ _ _ _ HF Hi) as (x & Hx & ?).
  exists x, r. split_and!; [|done..]. by eapply list_elem_of_lookup_2.
Qed.

Lemma pushAllM_elem_2 f l out x r y :
  pushAllM f l ⇓ out → x ∈ l → f x ⇓ r → y ∈ r → y ∈ out.
Proof.
  intros (rs & HF & ->)%pushAllM_Ok [i Hi]%list_elem_of_lookup Hr Hy.
  destruct (Forall2_lookup_l _ _ _ _ _ HF Hi) as (r' & Hr' & Hfx).
  assert (r' = r) as -> by congruence.
  apply list_elem_of_join. exists r. split; [done|].
  by eapply list_elem_of_lookup_2.
Qed.

(** Every iteration of a push loop that returned has returned, and what it
    returned is in the result. *)
Lemma pushAllM_iteration f l out x :
  pushAllM f l ⇓ out → x ∈ l → ∃ r, f x ⇓ r ∧ ∀ y, y ∈ r → y ∈ out.
Proof.
  intros Hout Hx. pose proof Hout as (rs & HF & ->)%pushAllM_Ok.
  pose proof Hx as [i Hi]%list_elem_of_lookup.
  destruct (Forall2_lookup_l _ _ _ _ _ HF Hi) as (r & Hr & Hfx).
  exists r. split; [done|]. intros y Hy. by eapply pushAllM_elem_2.
Qed.

(** A push loop throws what one of its iterations throws. *)
Lemma pushAllM_Err f l e : pushAllM f l ↯ e → ∃ x, x ∈ l ∧ f x ↯ e.
Proof.
  intros (x & out & Hx & [?|(r & _ & [=])]%bind_Err)%foldM_Err. eauto.
Qed.

Lemma pushAllM_total f l :
  (∀ x, x ∈ l → is_Ok (f x)) → is_Ok (pushAllM f l).
Proof.
  induction l as [|x l IH]; intros H; [by eexists|].
  rewrite pushAllM_cons. destruct (H x) as [r ->]; [set_solver|]. cbn.
  destruct IH as [rs ->]; [intros; apply H; set_solver|]. by eexists.
Qed.
End pushAll.

Lemma filter_all {A} (P : A → Prop) `{∀ x, Decision (P x)} (l : list A) :
  (∀ x, x ∈ l → P x) → filter P l = l.
Proof.
  induction l as [|x l IH]; intros HP; [done|].
  rewrite filter_cons_True by (apply HP; left). f_equal. apply IH.
  intros y ?. apply HP. by right.
Qed.

Lemma filter_none {A} (P : A → Prop) `{∀ x, Decision (P x)} (l : list A) :
  (∀ x, x ∈ l → ¬ P x) → filter P l = [].
Proof.
  induction l as [|x l IH]; intros HP; [done|].
  rewrite filter_cons_False by (apply HP; left). apply IH.
  intros y ?. apply HP. by right.
Qed.

(** ** The running maximum *)

Section maxOf.
Context {A : Type} (f : A → nat).
Implicit Types (l : list A).

Lemma maxOf_foldl l (m : nat) :
  foldl (λ m x, if (m <? f x)%nat then f x else m) m l = (m `max` maxOf f l)%nat.
Proof.
  unfold maxOf. revert m. induction l as [|x l IH]; intros m; cbn; [lia|].
  rewrite (IH (if (m <? f x)%nat then _ else _)),
    (IH (if (0 <? f x)%nat then _ else _)).
  destruct (Nat.ltb_spec m (f x)), (Nat.ltb_spec 0 (f x)); lia.
Qed.

Lemma maxOf_cons x l : maxOf f (x :: l) = (f x `max` maxOf f l)%nat.
Proof.
  unfold maxOf at 1. cbn [foldl]. rewrite maxOf_foldl.
  destruct (Nat.ltb_spec 0 (f x)); lia.
Qed.

Lemma maxOf_ge l x : x ∈ l → (f x ≤ maxOf f l)%nat.
Proof.
  induction 1 as [x l|x y l _ IH]; rewrite maxOf_cons; lia.
Qed.

Lemma maxOf_attained l : l ≠ [] → ∃ x, x ∈ l ∧ f x = maxOf f l.
Proof.
  induction l as [|x l IH]; [done|]. intros _. rewrite maxOf_cons.
  destruct l as [|y l'].
  - exists x. split; [set_solver|]. cbn. lia.
  - destruct IH as (z & Hz & Hfz); [done|].
    destruct (Nat.le_gt_cases (maxOf f (y :: l')) (f x)).
    + exists x. split; [left|lia].
    + exists z. split; [by right|lia].
Qed.

Lemma elem_of_keepMax l x : x ∈ keepMax f l ↔ x ∈ l ∧ f x = maxOf f l.
Proof. unfold keepMax. rewrite list_elem_of_filter. tauto. Qed.

(** The survivors of the filter are the elements no other element exceeds. *)
Lemma elem_of_keepMax_max l x :
  x ∈ keepMax f l ↔ x ∈ l ∧ ∀ y, y ∈ l → (f y ≤ f x)%nat.
Proof.
  rewrite elem_of_keepMax. split; intros [Hx Hmax]; (split; [done|]).
  - intros y Hy. rewrite Hmax. by apply maxOf_ge.
  - apply Nat.le_antisymm; [by apply maxOf_ge|].
    destruct (maxOf_attained l) as (z & Hz & <-); [by intros ->; inversion Hx|].
    by apply Hmax.
Qed.

Lemma keepMax_nonempty l : l ≠ [] → keepMax f l ≠ [].
Proof.
  intros (x & Hx & Hfx)%maxOf_attained.
  assert (x ∈ keepMax f l) by by apply elem_of_keepMax.
  by intros Hnil; rewrite Hnil in *; set_solver.
Qed.

(** Every element that survives the filter has the same measure. *)
Lemma keepMax_uniform l x y :
  x ∈ keepMax f l → y ∈ keepMax f l → f x = f y.
Proof. rewrite !elem_of_keepMax. intros [_ ->] [_ ->]. done. Qed.

(** Filtering twice changes nothing: the maximum of the survivors is the
    maximum of the list. *)
Lemma maxOf_keepMax l : maxOf f (keepMax f l) = maxOf f l.
Proof.
  destruct (decide (l = [])) as [->|Hne]; [done|].
  apply Nat.le_antisymm.
  - destruct (maxOf_attained (keepMax f l)) as (x & Hx & <-).
    { by apply keepMax_nonempty. }
    apply maxOf_ge. apply elem_of_keepMax in Hx. tauto.
  - destruct (maxOf_attained l Hne) as (x & Hx & Hfx).
    rewrite <-Hfx at 1. apply maxOf_ge. by apply elem_of_keepMax.
Qed.
(** When all the elements have the same measure the filter keeps them
    all. *)
Lemma keepMax_const l :
  (∀ x y, x ∈ l → y ∈ l → f x = f y) → keepMax f l = l.
Proof.
  intros Hconst. destruct (decide (l = [])) as [->|Hne]; [done|].
  destruct (maxOf_attained l Hne) as (y & Hy & Hmax).
  apply filter_all. intros x Hx. rewrite <-Hmax. by apply Hconst.
Qed.
End maxOf.

(** ** Selecting the contribution of one key from a concatenation *)

(** When every element of [g x] carries the key [x], filtering the
    concatenation over distinct keys by one key returns that key's part. *)
Lemma filter_bind_unique {A B} `{EqDecision A} (key : B → A) (g : A → list B)
    (l : list A) (a : A) :
  NoDup l → a ∈ l → (∀ x y, y ∈ g x → key y = x) →
  filter (λ y, key y = a) (l ≫= g) = g a.
Proof.
  intros Hnd Ha Hkey.
  induction Hnd as [|x l Hx Hnd IH]; [by apply elem_of_nil in Ha|].
  cbn. rewrite filter_app. apply elem_of_cons in Ha as [<-|Ha].
  - rewrite filter_all by (intros y; apply Hkey).
    rewrite filter_none; [by rewrite app_nil_r|].
    intros y (x & Hy & Hx')%list_elem_of_bind ?. apply Hkey in Hy. congruence.
  - rewrite filter_none, IH; [done..|].
    intros y ->%Hkey ->. done.
Qed.

(** ** Sums *)

Section sums.
Context {A : Type}.
Implicit Types (f g : A → Z) (l : list A).
Local Open Scope Z_scope.

Lemma sumZ_cons f x l : sumZ f (x :: l) = f x + sumZ f l.
Proof. done. Qed.

Lemma sumZ_ext f g l : (∀ x, x ∈ l → f x = g x) → sumZ f l = sumZ g l.
Proof.
  induction l as [|x l IH]; intros Hfg; [done|]. rewrite !sumZ_cons.
  rewrite (Hfg x), IH; [done| |left]. intros y ?. apply Hfg. by right.
Qed.

Lemma sumZ_opp f l : sumZ (λ x, - f x) l = - sumZ f l.
Proof. induction l as [|x l IH]; [done|]. rewrite !sumZ_cons, IH. lia. Qed.

Lemma sumZ_sub f g l : sumZ (λ x, f x - g x) l = sumZ f l - sumZ g l.
Proof. induction l as [|x l IH]; [done|]. rewrite !sumZ_cons, IH. lia. Qed.

(** A sum over the elements that pass a test is the sum of the guarded
    terms. *)
Lemma sumZ_filter (P : A → Prop) `{∀ x, Decision (P x)} f l :
  sumZ f (filter P l) = sumZ (λ x, if decide (P x) then f x else 0) l.
Proof.
  induction l as [|x l IH]; [done|]. rewrite sumZ_cons, <-IH.
  destruct (decide (P x)); [by rewrite filter_cons_True|by rewrite filter_cons_False].
Qed.

Lemma sumZ_bounds f l lo hi :
  (∀ x, x ∈ l → lo ≤ f x ≤ hi) →
  lo * Z.of_nat (length l) ≤ sumZ f l ≤ hi * Z.of_nat (length l).
Proof.
  induction l as [|x l IH]; intros Hf; [cbn; lia|].
  rewrite sumZ_cons, length_cons. specialize (Hf x) as Hx.
  destruct IH as [??]; [intros y ?; apply Hf; by right|].
  destruct Hx as [??]; [left|]. lia.
Qed.

(** A loop that adds the value read for each element returns the sum of
    the values when every read succeeds. *)
Lemma foldM_sum (read : A → res Z) f l (acc : Z) :
  (∀ x, x ∈ l → read x ⇓ f x) →
  foldM (λ s x, v ← read x; Ok (s + v)) acc l ⇓ acc + sumZ f l.
Proof.
  revert acc. induction l as [|x l IH]; intros acc Hread; [cbn; f_equal; lia|].
  rewrite sumZ_cons. cbn [foldM]. rewrite (Hread x) by left. cbn. rewrite IH.
  - f_equal. lia.
  - intros y ?. apply Hread. by right.
Qed.
End sums.

(** ** Maps with exceptions *)

Section mapM.
Context {A B : Type} (f : A → res B).

Lemma mapM_Ok l ys : mapM f l ⇓ ys ↔ Forall2 (λ x y, f x ⇓ y) l ys.
Proof.
  revert ys. induction l as [|x l IH]; intros ys; cbn.
  - split; [intros [= <-]; constructor|by intros ->%Forall2_nil_inv_l].
  - rewrite bind_Ok. setoid_rewrite bind_Ok. split.
    + intros (y & Hy & ys' & Hys%IH & [= <-]). by constructor.
    + intros (y & ys' & Hy & Hys%IH & ->)%Forall2_cons_inv_l. eauto 10.
Qed.

Lemma mapM_is_Ok l : (∀ x, x ∈ l → is_Ok (f x)) → is_Ok (mapM f l).
Proof.
  induction l as [|x l IH]; intros Hf; [by eexists|]. cbn.
  destruct (Hf x) as [y ->]; [left|]. destruct IH as [ys ->]; [|by eexists].
  intros x' ?. apply Hf. by right.
Qed.

Lemma mapM_Err l e : mapM f l ↯ e → ∃ x, x ∈ l ∧ f x ↯ e.
Proof.
  induction l as [|x l IH]; [done|]. cbn.
  intros [?|(y & _ & [(x' & ? & ?)%IH|(? & _ & [=])]%bind_Err)]%bind_Err.
  - exists x. split; [left|done].
  - exists x'. split; [by right|done].
Qed.
End mapM.

(** ** The stable sort *)

Section sortDesc.
Context {A : Type} (key : A → Z).
Implicit Types (l : list A).
Local Open Scope Z_scope.

Lemma elem_of_insertDesc x y l : y ∈ insertDesc key x l ↔ y = x ∨ y ∈ l.
Proof.
  induction l as [|z l IH]; cbn.
  - rewrite list_elem_of_singleton, elem_of_nil. tauto.
  - case_match; rewrite !elem_of_cons, ?IH; tauto.
Qed.

Lemma elem_of_sortDesc y l : y ∈ sortDesc key l ↔ y ∈ l.
Proof.
  induction l as [|x l IH]; [done|]. cbn. by rewrite elem_of_insertDesc, elem_of_cons, IH.
Qed.

(** Inserting does not disturb the elements of one key: the sort is
    stable. *)
Lemma filter_insertDesc (k : Z) x l :
  filter (λ y, key y = k) (insertDesc key x l) = filter (λ y, key y = k) (x :: l).
Proof.
  induction l as [|y l IH]; [done|]. cbn [insertDesc].
  destruct (Z.ltb_spec (key x) (key y)); [|done].
  rewrite filter_cons, IH, !filter_cons. repeat case_decide; try done. lia.
Qed.

Lemma filter_sortDesc (k : Z) l :
  filter (λ y, key y = k) (sortDesc key l) = filter (λ y, key y = k) l.
Proof.
  induction l as [|x l IH]; [done|]. cbn [sortDesc foldr].
  by rewrite filter_insertDesc, !filter_cons, <-IH.
Qed.

(** The first element of the sorted list has the greatest key. *)
Lemma sortDesc_head l h t :
  sortDesc key l = h :: t → h ∈ l ∧ ∀ y, y ∈ l → key y ≤ key h.
Proof.
  intros Hs. split; [apply elem_of_sortDesc; rewrite Hs; left|].
  revert h t Hs. induction l as [|x l IH]; intros h t; [done|]. cbn [sortDesc foldr].
  destruct (foldr (insertDesc key) [] l) as [|h' t'] eqn:E; cbn [insertDesc].
  - intros [= <- <-] y [->|Hy]%elem_of_cons; [done|].
    apply elem_of_sortDesc in Hy. unfold sortDesc in Hy. rewrite E in Hy.
    by apply elem_of_nil in Hy.
  - specialize (IH h' t' E).
    destruct (Z.ltb_spec (key x) (key h')); intros [= <- <-] y [->|Hy%IH]%elem_of_cons; lia.
Qed.

Lemma sortDesc_nil l : sortDesc key l = [] ↔ l = [].
Proof.
  split; [|by intros ->]. destruct l as [|x l]; [done|]. cbn.
  destruct (foldr _ _ l); cbn; [done|by case_match].
Qed.
End sortDesc.

#[export] Hint Resolve maxOf_ge keepMax_nonempty : dama.
#[export] Hint Rewrite @bind_Ok_l @pushAllM_nil @pushAllM_cons : dama_rw.

(** ** Counting with filters *)

Section counting.
Context {A : Type} `{EqDecision A}.
Context (P : A → Prop) `{∀ x, Decision (P x)}.
Implicit Types (l : list A).

Lemma filter_remove_length l a :
  NoDup l → a ∈ l → P a →
  length (filter P l) = S (length (filter (λ x, P x ∧ x ≠ a) l)).
Proof.
  intros Hnd Ha HP.
  assert (filter P l ≡ₚ a :: filter (λ x, P x ∧ x ≠ a) l) as ->; [|done].
  apply NoDup_Permutation; [by apply NoDup_filter| |].
  - constructor; [|by apply NoDup_filter]. rewrite list_elem_of_filter. tauto.
  - intros x. rewrite elem_of_cons, !list_elem_of_filter.
    destruct (decide (x = a)) as [->|]; tauto.
Qed.

Lemma filter_add_length l c :
  NoDup l → c ∈ l → ¬ P c →
  length (filter (λ x, x = c ∨ P x) l) = S (length (filter P l)).
Proof.
  intros Hnd Hc HP.
  assert (filter (λ x, x = c ∨ P x) l ≡ₚ c :: filter P l) as ->; [|done].
  apply NoDup_Permutation; [by apply NoDup_filter| |].
  - constructor; [|by apply NoDup_filter]. rewrite list_elem_of_filter. tauto.
  - intros x. rewrite elem_of_cons, !list_elem_of_filter.
    destruct (decide (x = c)) as [->|]; tauto.
Qed.

Lemma filter_ext_elem (Q : A → Prop) `{∀ x, Decision (Q x)} l :
  (∀ x, x ∈ l → P x ↔ Q x) → filter P l = filter Q l.
Proof.
  induction l as [|x l IH]; intros HPQ; [done|].
  rewrite !filter_cons, IH by (intros; apply HPQ; by right).
  pose proof (HPQ x ltac:(left)). by repeat case_decide; try tauto.
Qed.

Lemma filter_remove_all_length l (cs : list A) :
  NoDup l → NoDup cs → (∀ c, c ∈ cs → c ∈ l ∧ P c) →
  (length (filter (λ x, P x ∧ x ∉ cs) l) + length cs = length (filter P l))%nat.
Proof.
  intros Hnd Hcs Hin.
  rewrite <-(filter_app_complement (.∈ cs) (filter P l)), length_app.
  rewrite !list_filter_filter.
  assert (filter (λ x, x ∈ cs ∧ P x) l ≡ₚ cs) as ->.
  { apply NoDup_Permutation; [by apply NoDup_filter|done|].
    intros x. rewrite list_elem_of_filter. split; [tauto|].
    intros Hx. destruct (Hin x Hx). tauto. }
  rewrite Nat.add_comm. f_equal. f_equal. apply list_filter_iff. tauto.
Qed.
End counting.
