(* ===== verification/Types.v ===== *)
(** * Types: the data of the game ([src/src/types/index.ts])

    String-literal unions become inductive types with the source's
    constructor names, interfaces become records with the source's field
    names.  [Square] is [Piece | null]; [Board] is [Square[][]]. *)

From stdpp Require Import prelude strings.
From Stdlib Require Import ZArith.
From S2P Require Import Prelude.

Inductive Player : Set := BLACK | WHITE.

Inductive PieceType : Set := MAN | KING.

Record Piece : Set := mkPiece { player : Player; type : PieceType }.

(** [type Square = Piece | null] and [type Board = Square[][]] are
    abbreviations, so that the list library sees through them. *)
Abbreviation Square := (option Piece).

Abbreviation Board := (list (list Square)).

Record Position : Set := mkPosition { row : Z; col : Z }.

Record Move : Set := mkMove {
  from : Position;
  to : Position;
  captured : list Position
}.

Record ApplyMoveResult : Set := mkApplyMoveResult {
  newBoard : Board;
  promoted : bool
}.

Inductive GameMode : Set := single | two.

Inductive Difficulty : Set := easy | medium | hard.

Record GameResult : Set := mkGameResult {
  winner : Player;
  winnerName : string;
  score : Z;
  moves : Z;
  mode : GameMode
}.

#[export] Instance Player_eq_dec : EqDecision Player.
Proof. solve_decision. Defined.

#[export] Instance PieceType_eq_dec : EqDecision PieceType.
Proof. solve_decision. Defined.

#[export] Instance Piece_eq_dec : EqDecision Piece.
Proof. solve_decision. Defined.

#[export] Instance Position_eq_dec : EqDecision Position.
Proof. solve_decision. Defined.

#[export] Instance Move_eq_dec : EqDecision Move.
Proof. solve_decision. Defined.

#[export] Instance ApplyMoveResult_eq_dec : EqDecision ApplyMoveResult.
Proof. solve_decision. Defined.

#[export] Instance GameMode_eq_dec : EqDecision GameMode.
Proof. solve_decision. Defined.

#[export] Instance Difficulty_eq_dec : EqDecision Difficulty.
Proof. solve_decision. Defined.

#[export] Instance GameResult_eq_dec : EqDecision GameResult.
Proof. solve_decision. Defined.

#[export] Instance Player_inhabited : Inhabited Player := populate WHITE.

(** [{ ...m, from }]: a move with its origin replaced. *)
Definition withFrom (f : Position) (m : Move) : Move :=
  mkMove f (to m) (captured m).

(** [p.row === q.row && p.col === q.col] *)
Definition samePos (p q : Position) : bool :=
  (row p =? row q)%Z && (col p =? col q)%Z.

Lemma samePos_spec p q : samePos p q = true ↔ p = q.
Proof.
  unfold samePos. destruct p as [r c], q as [r' c']; cbn.
  rewrite andb_true_iff, !Z.eqb_eq. split; [intros [-> ->]|intros [= -> ->]]; done.
Qed.

Lemma samePos_false p q : samePos p q = false ↔ p ≠ q.
Proof. rewrite <-samePos_spec. by destruct (samePos p q). Qed.
