(* ===== verification/Board.v ===== *)
(** * Board: the 8x8 grid, its reads and writes, the initial position

    Models [src/src/constants/index.ts] ([BOARD_SIZE], [PLAYER_ONE],
    [PLAYER_TWO], the AI depths, [createInitialBoard]) and the two helpers at
    the top of [src/src/game/logic.ts] ([isWithinBoard], [getOpponent]).

    [getSquare] is the read [board[row]?.[col]] and [setSquare] the write
    [board[row][col] = v] of a JavaScript array of arrays.  The section
    [board_laws] proves the read-after-write equations every later file
    uses, and that writes inside the 8x8 window keep a board well formed. *)

From stdpp Require Import prelude.
From Stdlib Require Import ZArith Lia.
From S2P Require Import Prelude Types.

Local Open Scope Z_scope.

Definition BOARD_SIZE : Z := 8.
Definition PLAYER_ONE : Player := WHITE.
Definition PLAYER_TWO : Player := BLACK.

Definition AI_DEPTH_EASY : nat := 1.
Definition AI_DEPTH_MEDIUM : nat := 2.
Definition AI_DEPTH_HARD : nat := 4.
Definition AI_DEPTH_HARD_LATE_GAME : nat := 6.

Definition isWithinBoard (row col : Z) : bool :=
  (0 <=? row) && (row <? BOARD_SIZE) && (0 <=? col) && (col <? BOARD_SIZE).

Definition getOpponent (player : Player) : Player :=
  if decide (player = WHITE) then BLACK else WHITE.

(** [board[row]]: [None] is [undefined]. *)
Definition getRow (board : Board) (row : Z) : option (list Square) :=
  if row <? 0 then None else board !! Z.to_nat row.

(** [board[row]?.[col]], with [undefined] read as [null]. *)
Definition getSquare (board : Board) (row col : Z) : Square :=
  match getRow board row with
  | None => None
  | Some r => if col <? 0 then None else mjoin (r !! Z.to_nat col)
  end.

(** [r[col] = v] on one row array: in range it overwrites, past the end it
    extends the array with holes, and a negative index leaves every element
    as it was. *)
Definition setIndex (r : list Square) (col : Z) (v : Square) : list Square :=
  if col <? 0 then r
  else if (Z.to_nat col <? length r)%nat then <[Z.to_nat col := v]> r
  else r ++ replicate (Z.to_nat col - length r) None ++ [v].

(** [board[row][col] = v]: a [TypeError] when [board[row]] is undefined. *)
Definition setSquare (board : Board) (row col : Z) (v : Square) : res Board :=
  match getRow board row with
  | None => Err TypeError
  | Some r => Ok (<[Z.to_nat row := setIndex r col v]> board)
  end.

Definition getAt (board : Board) (p : Position) : Square :=
  getSquare board (row p) (col p).

Definition setAt (board : Board) (p : Position) (v : Square) : res Board :=
  setSquare board (row p) (col p) v.

Declare Scope board_scope.
Delimit Scope board_scope with board.
Notation "b .[ p ]" := (getAt b p) (at level 1, left associativity,
  format "b .[ p ]") : board_scope.
Open Scope board_scope.

(** The squares a double loop [for row in 0..7, for col in 0..7] visits, in
    the order it visits them. *)
Definition allPositions : list Position :=
  r ← seqZ 0 BOARD_SIZE; c ← seqZ 0 BOARD_SIZE; [mkPosition r c].

(** The inner loop of [createInitialBoard]: a man of [player] on every dark
    square of [row]. *)
Definition fillRow (player : Player) (board : Board) (row : Z) : res Board :=
  foldM (λ b col,
    if bool_decide (Z.rem (row + col) 2 ≠ 0)
    then setSquare b row col (Some (mkPiece player MAN))
    else Ok b) board (seqZ 0 BOARD_SIZE).

Definition createInitialBoard : res Board :=
  let board : Board :=
    replicate (Z.to_nat BOARD_SIZE) (replicate (Z.to_nat BOARD_SIZE) None) in
  board ← foldM (fillRow PLAYER_TWO) board (seqZ 0 3);
  foldM (fillRow PLAYER_ONE) board (seqZ (BOARD_SIZE - 3) 3).

(** The value [createInitialBoard] returns (theorem
    [createInitialBoard_spec]). *)
Definition initialBoard : Board :=
  Eval vm_compute in catch createInitialBoard (λ _, []).

(** Boards for examples: pieces placed on an empty 8x8 board. *)
Definition emptyBoard : Board :=
  replicate (Z.to_nat BOARD_SIZE) (replicate (Z.to_nat BOARD_SIZE) None).

Definition boardOf (l : list (Z * Z * Piece)) : Board :=
  foldl (λ b '(r, c, pc), catch (setSquare b r c (Some pc)) (λ _, b)) emptyBoard l.

(** ** Well-formed boards *)

Definition wf_board (board : Board) : Prop :=
  length board = Z.to_nat BOARD_SIZE ∧
  Forall (λ r : list Square, length r = Z.to_nat BOARD_SIZE) board.

#[export] Instance wf_board_dec board : Decision (wf_board board).
Proof. unfold wf_board. apply _. Defined.

Definition onBoard (p : Position) : Prop := isWithinBoard (row p) (col p) = true.

#[export] Instance onBoard_dec p : Decision (onBoard p).
Proof. unfold onBoard. apply _. Defined.

(** Pieces of [player] inside the 8x8 window, as the counting loops of the
    engine see them. *)
Definition ownedBy (board : Board) (pl : Player) (p : Position) : bool :=
  match board.[p] with Some pc => bool_decide (player pc = pl) | None => false end.

Definition piecesOf (board : Board) (pl : Player) : list Position :=
  filter (λ p, ownedBy board pl p = true) allPositions.

(** Every piece stored anywhere in the array of arrays. *)
Definition allPieces (board : Board) : list Piece :=
  omap id (mjoin board).

(** ** Laws *)

Lemma isWithinBoard_spec r c :
  isWithinBoard r c = true ↔ 0 ≤ r < 8 ∧ 0 ≤ c < 8.
Proof. unfold isWithinBoard, BOARD_SIZE. lia. Qed.

Lemma onBoard_spec p : onBoard p ↔ 0 ≤ row p < 8 ∧ 0 ≤ col p < 8.
Proof. apply isWithinBoard_spec. Qed.

Lemma getOpponent_involutive pl : getOpponent (getOpponent pl) = pl.
Proof. by destruct pl. Qed.

Lemma getOpponent_ne pl : getOpponent pl ≠ pl.
Proof. by destruct pl. Qed.

Lemma getOpponent_inj pl1 pl2 : getOpponent pl1 = getOpponent pl2 → pl1 = pl2.
Proof. by destruct pl1, pl2. Qed.

Lemma player_cases pl1 pl2 : pl1 = pl2 ∨ pl1 = getOpponent pl2.
Proof. destruct pl1, pl2; auto. Qed.

Lemma elem_of_allPositions p : p ∈ allPositions ↔ onBoard p.
Proof.
  unfold allPositions. rewrite onBoard_spec, list_elem_of_bind.
  setoid_rewrite list_elem_of_bind. setoid_rewrite elem_of_seqZ.
  setoid_rewrite list_elem_of_singleton. unfold BOARD_SIZE. split.
  - intros (r & (c & -> & ?) & ?). cbn. lia.
  - intros [??]. exists (row p). split; [|lia]. exists (col p).
    split; [by destruct p|lia].
Qed.

Lemma NoDup_allPositions : NoDup allPositions.
Proof. apply (bool_decide_unpack _). by vm_compute. Qed.

Section board_laws.
Implicit Types (b : Board) (r c : Z) (v : Square) (p q : Position).

Lemma getRow_Some b r l :
  getRow b r = Some l ↔ 0 ≤ r ∧ b !! Z.to_nat r = Some l.
Proof. unfold getRow. destruct (Z.ltb_spec r 0); [|tauto]. split; [done|lia]. Qed.

Lemma getRow_is_Some b r : is_Some (getRow b r) ↔ 0 ≤ r < Z.of_nat (length b).
Proof.
  unfold is_Some. setoid_rewrite getRow_Some. split.
  - intros (l & ? & ?%lookup_lt_Some). lia.
  - intros [??]. destruct (lookup_lt_is_Some_2 b (Z.to_nat r)) as [l ?]; [lia|eauto].
Qed.

(** A write throws exactly when its row is missing. *)
Lemma setSquare_is_Ok b r c v : is_Ok (setSquare b r c v) ↔ 0 ≤ r < Z.of_nat (length b).
Proof.
  rewrite <-getRow_is_Some. unfold setSquare, is_Ok, is_Some.
  destruct (getRow b r); split; intros [??]; eauto; done.
Qed.

Lemma setSquare_TypeError b r c v :
  setSquare b r c v ↯ TypeError ↔ ¬ (0 ≤ r < Z.of_nat (length b)).
Proof.
  rewrite <-getRow_is_Some. unfold setSquare.
  destruct (getRow b r) eqn:E; split; try done.
  intros []. eauto.
Qed.

Lemma setIndex_lookup (l : list Square) c v (i : nat) :
  mjoin (setIndex l c v !! i) =
  if decide (0 ≤ c ∧ i = Z.to_nat c) then v else mjoin (l !! i).
Proof.
  unfold setIndex. destruct (Z.ltb_spec c 0).
  { rewrite decide_False by lia. done. }
  destruct (Nat.ltb_spec (Z.to_nat c) (length l)), (decide (0 ≤ c ∧ i = Z.to_nat c))
    as [[_ ->]|Hne].
  - by rewrite list_lookup_insert_eq.
  - rewrite list_lookup_insert_ne by lia. done.
  - rewrite lookup_app_r by lia. rewrite lookup_app_r; rewrite length_replicate; [|lia].
    by rewrite Nat.sub_diag.
  - destruct (Nat.lt_ge_cases i (length l)).
    { by rewrite lookup_app_l. }
    rewrite (lookup_ge_None_2 l i) by done. rewrite lookup_app_r by done.
    destruct (Nat.lt_ge_cases (i - length l) (Z.to_nat c - length l)).
    + rewrite lookup_app_l by (by rewrite length_replicate).
      by rewrite lookup_replicate_2.
    + rewrite lookup_app_r by (by rewrite length_replicate).
      rewrite length_replicate. rewrite lookup_ge_None_2; [done|]. cbn. lia.
Qed.

(** Read after write. *)
Lemma getSquare_setSquare b b' r c v r' c' :
  setSquare b r c v ⇓ b' →
  getSquare b' r' c' =
  if decide (r' = r ∧ c' = c ∧ 0 ≤ c) then v else getSquare b r' c'.
Proof.
  unfold setSquare. destruct (getRow b r) as [l|] eqn:Hl; [|done].
  intros [= <-]. apply getRow_Some in Hl as [Hr Hl].
  unfold getSquare, getRow. destruct (Z.ltb_spec r' 0).
  { rewrite decide_False by lia. done. }
  destruct (decide (r' = r)) as [->|Hne].
  - rewrite list_lookup_insert_eq by (by eapply lookup_lt_Some). rewrite Hl.
    destruct (Z.ltb_spec c' 0).
    { rewrite decide_False by lia. done. }
    rewrite setIndex_lookup. repeat case_decide; try done; lia.
  - rewrite list_lookup_insert_ne by lia. rewrite decide_False by tauto. done.
Qed.

Lemma getAt_setAt b b' p q v :
  setAt b p v ⇓ b' → 0 ≤ col p →
  b'.[q] = if decide (q = p) then v else b.[q].
Proof.
  unfold setAt, getAt. intros H ?. rewrite (getSquare_setSquare _ _ _ _ _ _ _ H).
  destruct (decide (q = p)) as [->|Hne].
  - by rewrite decide_True.
  - rewrite decide_False; [done|]. intros (? & ? & _). apply Hne.
    destruct p, q; by simplify_eq/=.
Qed.

(** Clearing a square needs no bound on its column: a negative column is
    read as empty before and after. *)
Lemma getAt_setAt_None b b' p q :
  setAt b p None ⇓ b' → b'.[q] = if decide (q = p) then None else b.[q].
Proof.
  unfold setAt, getAt. intros H. rewrite (getSquare_setSquare _ _ _ _ _ _ _ H).
  destruct (decide (q = p)) as [->|Hne].
  - case_decide; [done|]. unfold getSquare.
    destruct (getRow b (row p)); [|done]. destruct (Z.ltb_spec (col p) 0); [done|tauto].
  - rewrite decide_False; [done|]. intros (? & ? & _). apply Hne.
    destruct p, q; by simplify_eq/=.
Qed.

Lemma setSquare_length b b' r c v : setSquare b r c v ⇓ b' → length b' = length b.
Proof.
  unfold setSquare. destruct (getRow b r); [|done]. intros [= <-].
  by rewrite length_insert.
Qed.

(** The only exception a write raises is [TypeError]. *)
Lemma setSquare_Err b r c v e : setSquare b r c v ↯ e → e = TypeError.
Proof. unfold setSquare. destruct (getRow b r); congruence. Qed.

Lemma setIndex_length (l : list Square) c v :
  0 ≤ c < Z.of_nat (length l) → length (setIndex l c v) = length l.
Proof.
  intros ?. unfold setIndex. destruct (Z.ltb_spec c 0); [done|].
  destruct (Nat.ltb_spec (Z.to_nat c) (length l)); [|lia].
  by rewrite length_insert.
Qed.

(** Writes inside the window keep the board 8x8, and do not throw. *)
Lemma setSquare_wf b r c v :
  wf_board b → isWithinBoard r c = true →
  ∃ b', setSquare b r c v ⇓ b' ∧ wf_board b'.
Proof.
  intros [Hlen Hrows] [??]%isWithinBoard_spec.
  destruct (proj2 (getRow_is_Some b r)) as [l Hl].
  { rewrite Hlen. unfold BOARD_SIZE. lia. }
  unfold setSquare. rewrite Hl. eexists. split; [done|].
  apply getRow_Some in Hl as [_ Hl]. split.
  - by rewrite length_insert.
  - apply Forall_insert; [done|].
    rewrite setIndex_length; [by eapply Forall_lookup_1 in Hrows|].
    eapply Forall_lookup_1 in Hrows; [|done]. cbn in Hrows. rewrite Hrows.
    unfold BOARD_SIZE. lia.
Qed.

Lemma setAt_wf b p v :
  wf_board b → onBoard p → ∃ b', setAt b p v ⇓ b' ∧ wf_board b'.
Proof. apply setSquare_wf. Qed.

(** A piece can only be read inside the lists. *)
Lemma getSquare_Some_bounds b r c pc :
  getSquare b r c = Some pc → 0 ≤ r < Z.of_nat (length b) ∧ 0 ≤ c.
Proof.
  unfold getSquare. destruct (getRow b r) as [l|] eqn:Hl; [|done].
  assert (is_Some (getRow b r)) as ?%getRow_is_Some by eauto.
  destruct (Z.ltb_spec c 0); [done|]. lia.
Qed.

Lemma getAt_Some_onBoard b p pc : wf_board b → b.[p] = Some pc → onBoard p.
Proof.
  intros [Hlen Hrows]. unfold getAt, getSquare.
  destruct (getRow b (row p)) as [l|] eqn:Hl; [|done].
  apply getRow_Some in Hl as [? Hl].
  destruct (Z.ltb_spec (col p) 0); [done|].
  destruct (l !! Z.to_nat (col p)) eqn:Hc; [|done]. intros _.
  apply lookup_lt_Some in Hc. pose proof (lookup_lt_Some _ _ _ Hl).
  eapply Forall_lookup_1 in Hrows; [|done]. cbn in Hrows.
  apply onBoard_spec. unfold BOARD_SIZE in *. lia.
Qed.
Lemma getAt_off_board b p : wf_board b → ¬ onBoard p → b.[p] = None.
Proof.
  intros Hwf Hp. destruct (b.[p]) eqn:E; [|done].
  destruct Hp. by eapply getAt_Some_onBoard.
Qed.

Lemma getAt_lookup b p :
  onBoard p →
  b.[p] = mjoin (b !! Z.to_nat (row p) ≫= (.!! Z.to_nat (col p))).
Proof.
  intros [??]%onBoard_spec. unfold getAt, getSquare, getRow.
  destruct (Z.ltb_spec (row p) 0); [lia|].
  destruct (b !! Z.to_nat (row p)); [|done]. cbn.
  destruct (Z.ltb_spec (col p) 0); [lia|done].
Qed.

(** Two well-formed boards with the same squares are the same board. *)
Lemma board_ext b1 b2 :
  wf_board b1 → wf_board b2 → (∀ p, onBoard p → b1.[p] = b2.[p]) → b1 = b2.
Proof.
  intros [Hl1 Hr1] [Hl2 Hr2] Heq. apply list_eq_same_length with 8%nat; [done..|].
  intros i r1 r2 Hi H1 H2.
  eapply Forall_lookup_1 in Hr1; [|done]. eapply Forall_lookup_1 in Hr2; [|done].
  apply list_eq_same_length with 8%nat; [done..|].
  intros j x y Hj Hx Hy.
  specialize (Heq (mkPosition (Z.of_nat i) (Z.of_nat j))).
  rewrite !getAt_lookup in Heq by (apply onBoard_spec; cbn; lia). cbn in Heq.
  rewrite !Nat2Z.id, H1, H2 in Heq. cbn in Heq. rewrite Hx, Hy in Heq.
  apply Heq, onBoard_spec. cbn. lia.
Qed.

(** At most 64 distinct squares lie on the board. *)
Lemma NoDup_onBoard_length (l : list Position) :
  NoDup l → Forall onBoard l → (length l ≤ 64)%nat.
Proof.
  intros Hnd Hall. change 64%nat with (length allPositions).
  apply submseteq_length, NoDup_submseteq; [done|].
  intros p Hp. apply elem_of_allPositions. by eapply Forall_forall in Hall.
Qed.
End board_laws.

(** ** The initial position *)

(** [ownedBy] as a proposition. *)
Lemma ownedBy_true b pl p : ownedBy b pl p = true ↔ player <$> b.[p] = Some pl.
Proof.
  unfold ownedBy. destruct (b.[p]); cbn; [|done].
  rewrite bool_decide_eq_true. split; congruence.
Qed.

Lemma initialBoard_wf : wf_board initialBoard.
Proof. apply (bool_decide_unpack _). by vm_compute. Qed.

(** The initial position, square by square. *)
Lemma initialBoard_getAt p :
  initialBoard.[p] =
  if bool_decide (onBoard p ∧ Z.odd (row p + col p) = true) then
    if bool_decide (row p < 3) then Some (mkPiece BLACK MAN)
    else if bool_decide (5 ≤ row p) then Some (mkPiece WHITE MAN)
    else None
  else None.
Proof.
  destruct (decide (onBoard p)) as [Hp|Hp].
  - apply elem_of_allPositions in Hp. revert p Hp. apply Forall_forall.
    apply (bool_decide_unpack _). by vm_compute.
  - rewrite getAt_off_board, bool_decide_eq_false_2 by (tauto || apply initialBoard_wf).
    done.
Qed.

(** [createInitialBoard] returns without an exception; the board it
    returns is 8x8, has a black man on every dark square of rows 0-2, a
    white man on every dark square of rows 5-7, and nothing anywhere
    else. *)
Theorem createInitialBoard_spec :
  createInitialBoard ⇓ initialBoard ∧
  wf_board initialBoard ∧
  ∀ p, initialBoard.[p] =
       if bool_decide (onBoard p ∧ Z.odd (row p + col p) = true) then
         if bool_decide (row p < 3) then Some (mkPiece BLACK MAN)
         else if bool_decide (5 ≤ row p) then Some (mkPiece WHITE MAN)
         else None
       else None.
Proof.
  split_and!; [by vm_compute|apply initialBoard_wf|apply initialBoard_getAt].
Qed.

#[export] Hint Resolve getOpponent_ne getOpponent_involutive : dama.
#[export] Hint Rewrite getOpponent_involutive : dama_rw.
