(* ===== verification/MoveGen.v ===== *)
(** * MoveGen: legal moves under mandatory capture

    Models lines 8-103 and 130-156 of [src/src/game/logic.ts]:
    [findPieceCaptureMovesRecursive], [findPieceCaptureMoves],
    [findCaptureMoves], [getValidMoves], [findStandardMoves] and
    [getAllPlayerMoves].

    The body of the [for] loop over directions is [captureInDirection]; the
    recursion is [findPieceCaptureMovesRecursive], on fuel.  The relation
    [chain] is the specification of a capture sequence, one [jump] at a
    time; the generator is proved sound and complete for the maximal chains
    of a piece, free of exceptions on well-formed boards, and never out of
    fuel. *)

From stdpp Require Import prelude.
From Stdlib Require Import ZArith Lia.
From S2P Require Import Prelude Types Board.

Local Open Scope Z_scope.

(** The direction table written three times in the source (lines 15-17,
    93-95, 136-138): a king steps along the four diagonals, a man only
    toward the far edge of its owner. *)
Definition directions (piece : Piece) : list (Z * Z) :=
  if decide (type piece = KING) then [(-1, -1); (-1, 1); (1, -1); (1, 1)]
  else if decide (player piece = WHITE) then [(-1, -1); (-1, 1)]
  else [(1, -1); (1, 1)].

(** [{ row: p.row + k * dRow, col: p.col + k * dCol }] *)
Definition offset (p : Position) (k : Z) (d : Z * Z) : Position :=
  mkPosition (row p + k * d.1) (col p + k * d.2).

(** The condition of the [if] at lines 27-31. *)
Definition canCapture (board : Board) (piece : Piece)
    (capturedSoFar : list Position) (opponentPos landingPos : Position) : bool :=
  bool_decide (board.[landingPos] = None)
  && bool_decide (player <$> board.[opponentPos] = Some (getOpponent (player piece)))
  && negb (existsb (λ p, samePos p opponentPos) capturedSoFar).

(** Lines 32-35: the copy of the board on which the jump has been played. *)
Definition jumpBoard (board : Board) (from : Position) (piece : Piece)
    (opponentPos landingPos : Position) : res Board :=
  newBoard ← setAt board landingPos (Some piece);
  newBoard ← setAt newBoard from None;
  setAt newBoard opponentPos None.

(** One iteration of the loop at lines 19-46; [rec] is the recursive call.
    The iteration returns what it pushes on [moves]. *)
Definition captureInDirection
    (rec : Board → Position → Piece → list Position → res (list Move))
    (board : Board) (from : Position) (piece : Piece)
    (capturedSoFar : list Position) (d : Z * Z) : res (list Move) :=
  let opponentPos := offset from 1 d in
  let landingPos := offset from 2 d in
  if negb (isWithinBoard (row landingPos) (col landingPos)) then Ok []
  else if canCapture board piece capturedSoFar opponentPos landingPos then
    newBoard ← jumpBoard board from piece opponentPos landingPos;
    let newCaptured := capturedSoFar ++ [opponentPos] in
    chainedMoves ← rec newBoard landingPos piece newCaptured;
    if (0 <? length chainedMoves)%nat
    then Ok (map (withFrom from) chainedMoves)
    else Ok [mkMove from landingPos newCaptured]
  else Ok [].

Fixpoint findPieceCaptureMovesRecursive (fuel : nat) (board : Board)
    (from : Position) (piece : Piece) (capturedSoFar : list Position)
    : res (list Move) :=
  match fuel with
  | O => Err OutOfFuel
  | S fuel =>
      pushAllM
        (captureInDirection (findPieceCaptureMovesRecursive fuel)
           board from piece capturedSoFar)
        (directions piece)
  end.

(** [move.captured?.length || 0] *)
Definition capturedCount (m : Move) : nat := length (captured m).

(** Fuel of the capture search: a chain captures every square of the 8x8
    window at most once, after a first jump that may start outside it. *)
Definition chainFuel : nat := 66.

Definition findPieceCaptureMoves (board : Board) (from : Position) (piece : Piece)
    : res (list Move) :=
  allPossibleChains ←
    findPieceCaptureMovesRecursive chainFuel board from piece [];
  if (length allPossibleChains =? 0)%nat then Ok []
  else Ok (keepMax capturedCount allPossibleChains).

(** The body of the double loop of [findCaptureMoves] (lines 68-72): what
    the square [pos] contributes to [captureMoves]. *)
Definition capturesAt (board : Board) (pl : Player) (pos : Position)
    : res (list Move) :=
  match board.[pos] with
  | Some piece =>
      if decide (player piece = pl) then findPieceCaptureMoves board pos piece
      else Ok []
  | None => Ok []
  end.

Definition findCaptureMoves (board : Board) (pl : Player) : res (list Move) :=
  captureMoves ← pushAllM (capturesAt board pl) allPositions;
  if (length captureMoves =? 0)%nat then Ok []
  else Ok (keepMax capturedCount captureMoves).

(** The loop at lines 96-101 and 139-144: the single steps of one piece onto
    empty squares of the board. *)
Definition stepMoves (board : Board) (from : Position) (piece : Piece) : list Move :=
  d ← directions piece;
  let to := offset from 1 d in
  if isWithinBoard (row to) (col to) && bool_decide (board.[to] = None)
  then [mkMove from to []] else [].

Definition getValidMoves (board : Board) (from : Position) : res (list Move) :=
  match board.[from] with
  | None => Ok []
  | Some piece =>
      captureMoves ← findCaptureMoves board (player piece);
      if (0 <? length captureMoves)%nat
      then Ok (filter (λ move, samePos (Types.from move) from = true) captureMoves)
      else Ok (stepMoves board from piece)
  end.

Definition findStandardMoves (board : Board) (pl : Player) : list Move :=
  pos ← allPositions;
  match board.[pos] with
  | Some piece =>
      if decide (player piece = pl) then stepMoves board pos piece else []
  | None => []
  end.

Definition getAllPlayerMoves (board : Board) (pl : Player) : res (list Move) :=
  captureMoves ← findCaptureMoves board pl;
  if (0 <? length captureMoves)%nat then Ok captureMoves
  else Ok (findStandardMoves board pl).

(** ** Specification of capture chains *)

(** One jump of [piece] from [from] over [opp] to [land], turning [b] into
    [b']: the rule of the game, without the bookkeeping of the code. *)
Inductive jump (piece : Piece) :
    Board → Position → Position → Board → Position → Prop :=
  | jump_dir b from d b' :
      d ∈ directions piece →
      onBoard (offset from 2 d) →
      b.[offset from 2 d] = None →
      player <$> b.[offset from 1 d] = Some (getOpponent (player piece)) →
      jumpBoard b from piece (offset from 1 d) (offset from 2 d) ⇓ b' →
      jump piece b from (offset from 1 d) b' (offset from 2 d).

(** A sequence of jumps, with the squares it captures in order. *)
Inductive chain (piece : Piece) :
    Board → Position → list Position → Board → Position → Prop :=
  | chain_nil b p : chain piece b p [] b p
  | chain_cons b p o b1 p1 os b2 p2 :
      jump piece b p o b1 p1 →
      chain piece b1 p1 os b2 p2 →
      chain piece b p (o :: os) b2 p2.

(** No jump is possible. *)
Definition stuck (piece : Piece) (b : Board) (p : Position) : Prop :=
  ∀ o b' p', ¬ jump piece b p o b' p'.

(** A chain that cannot be extended. *)
Definition maximalChain (piece : Piece) (b : Board) (p : Position)
    (os : list Position) (q : Position) : Prop :=
  ∃ b', chain piece b p os b' q ∧ stuck piece b' q.

(** No square of [cs] holds a piece of [pl]: what the code's list of
    captured squares means for the board it travels with. *)
Definition clearedOf (pl : Player) (b : Board) (cs : list Position) : Prop :=
  ∀ c, c ∈ cs → player <$> b.[c] ≠ Some pl.

(** ** Geometry of directions *)

Lemma directions_diagonal piece d :
  d ∈ directions piece → (d.1 = 1 ∨ d.1 = -1) ∧ (d.2 = 1 ∨ d.2 = -1).
Proof.
  unfold directions. repeat case_decide; rewrite !elem_of_cons, elem_of_nil;
    intros Hd; destruct_or?; simplify_eq/=; lia.
Qed.

Lemma directions_king_all pl d :
  d ∈ directions (mkPiece pl KING) ↔ (d.1 = 1 ∨ d.1 = -1) ∧ (d.2 = 1 ∨ d.2 = -1).
Proof.
  split; [apply directions_diagonal|]. destruct d as [dr dc]. unfold directions. simpl.
  rewrite !elem_of_cons. intros [[-> | ->] [-> | ->]]; tauto.
Qed.

(** A man moves toward the far edge of its owner: row 0 for White, row 7
    for Black. *)
Lemma directions_man pl d :
  d ∈ directions (mkPiece pl MAN) ↔
  d.1 = (if decide (pl = WHITE) then -1 else 1) ∧ (d.2 = 1 ∨ d.2 = -1).
Proof.
  destruct d as [dr dc], pl; unfold directions; simpl;
    rewrite !elem_of_cons, elem_of_nil;
    (split; [intros Hd; destruct_or?; simplify_eq/=; lia|]);
    intros [-> [-> | ->]]; tauto.
Qed.

(** The jumped square lies between two squares of the board. *)
Lemma offset_between piece p d :
  d ∈ directions piece → onBoard p → onBoard (offset p 2 d) → onBoard (offset p 1 d).
Proof.
  intros ?%directions_diagonal. rewrite !onBoard_spec. cbn. lia.
Qed.

Lemma offset_ne p d piece :
  d ∈ directions piece →
  offset p 1 d ≠ p ∧ offset p 2 d ≠ p ∧ offset p 2 d ≠ offset p 1 d.
Proof.
  intros ?%directions_diagonal. destruct p as [r c]. unfold offset. cbn.
  split_and!; intros [=]; lia.
Qed.

(** ** The board after a jump *)

Section jumpBoard.
Context (piece : Piece) (b b' : Board) (from opp land : Position).
Context (Hjump : jumpBoard b from piece opp land ⇓ b').

Lemma jumpBoard_getAt q :
  0 ≤ col land →
  b'.[q] = if decide (q = opp) then None
           else if decide (q = from) then None
           else if decide (q = land) then Some piece else b.[q].
Proof using Hjump.
  intros ?. unfold jumpBoard in Hjump.
  apply bind_Ok in Hjump as (b1 & H1 & (b2 & H2 & H3)%bind_Ok).
  rewrite (getAt_setAt_None _ _ _ _ H3), (getAt_setAt_None _ _ _ _ H2),
    (getAt_setAt _ _ _ _ _ H1) by done.
  done.
Qed.

Lemma jumpBoard_length : length b' = length b.
Proof using Hjump.
  unfold jumpBoard in Hjump.
  apply bind_Ok in Hjump as (b1 & H1 & (b2 & H2 & H3)%bind_Ok).
  apply setSquare_length in H1, H2, H3. congruence.
Qed.
End jumpBoard.

Lemma jumpBoard_Err b from piece opp land e :
  jumpBoard b from piece opp land ↯ e → e = TypeError.
Proof.
  unfold jumpBoard, setAt.
  intros [?%setSquare_Err|(? & _ & [?%setSquare_Err|(? & _ & ?%setSquare_Err)]%bind_Err)]%bind_Err;
    done.
Qed.

(** On a well-formed board a jump between squares of the board succeeds and
    leaves a well-formed board. *)
Lemma jumpBoard_wf b from piece opp land :
  wf_board b → onBoard from → onBoard opp → onBoard land →
  ∃ b', jumpBoard b from piece opp land ⇓ b' ∧ wf_board b'.
Proof.
  intros Hwf Hf Ho Hl. unfold jumpBoard.
  destruct (setAt_wf b land (Some piece) Hwf Hl) as (b1 & -> & Hwf1). cbn.
  destruct (setAt_wf b1 from None Hwf1 Hf) as (b2 & -> & Hwf2). cbn.
  by apply setAt_wf.
Qed.

(** ** One iteration of the direction loop *)

Section captureInDirection.
Context (rec : Board → Position → Piece → list Position → res (list Move)).
Context (b : Board) (from : Position) (piece : Piece) (cs : list Position).
Context (d : Z * Z).

Let opp := offset from 1 d.
Let land := offset from 2 d.

(** What an iteration that returned has done. *)
Lemma captureInDirection_Ok ms :
  captureInDirection rec b from piece cs d ⇓ ms →
  (ms = [] ∧ (¬ onBoard land ∨ canCapture b piece cs opp land = false)) ∨
  (onBoard land ∧ canCapture b piece cs opp land = true ∧
   ∃ b' chained,
     jumpBoard b from piece opp land ⇓ b' ∧
     rec b' land piece (cs ++ [opp]) ⇓ chained ∧
     ms = if decide (chained = []) then [mkMove from land (cs ++ [opp])]
          else map (withFrom from) chained).
Proof.
  unfold captureInDirection, onBoard. fold opp land.
  destruct (isWithinBoard (row land) (col land)); cbn; [|intros [= <-]; left; auto].
  destruct (canCapture b piece cs opp land); [|intros [= <-]; left; auto].
  intros (b' & Hj & (chained & Hrec & Hms)%bind_Ok)%bind_Ok. right.
  split_and!; [done..|]. exists b', chained. split_and!; [done..|].
  destruct chained; cbn in Hms; by injection Hms as <-.
Qed.

(** What an iteration that threw has done. *)
Lemma captureInDirection_Err e :
  captureInDirection rec b from piece cs d ↯ e →
  onBoard land ∧ canCapture b piece cs opp land = true ∧
  (jumpBoard b from piece opp land ↯ e ∨
   ∃ b', jumpBoard b from piece opp land ⇓ b' ∧
         rec b' land piece (cs ++ [opp]) ↯ e).
Proof.
  unfold captureInDirection, onBoard. fold opp land.
  destruct (isWithinBoard (row land) (col land)); cbn; [|done].
  destruct (canCapture b piece cs opp land); [|done].
  intros [?|(b' & ? & [?|(chained & ? & Hms)]%bind_Err)]%bind_Err.
  - auto.
  - eauto 6.
  - by case_match.
Qed.
End captureInDirection.

Lemma canCapture_spec b piece cs opp land :
  canCapture b piece cs opp land = true ↔
  b.[land] = None ∧
  player <$> b.[opp] = Some (getOpponent (player piece)) ∧
  opp ∉ cs.
Proof.
  unfold canCapture.
  rewrite !andb_true_iff, !bool_decide_eq_true, negb_true_iff.
  rewrite <-not_true_iff_false, existsb_exists.
  setoid_rewrite samePos_spec. setoid_rewrite <-list_elem_of_In.
  split.
  - intros [[??] Hn]. split_and!; [done..|]. intros ?. apply Hn. eauto.
  - intros (? & ? & Hn). split_and!; [done..|]. by intros (x & ? & ->).
Qed.

(** ** Termination: the search never runs out of fuel *)

Lemma findPieceCaptureMovesRecursive_S fuel b from piece cs :
  findPieceCaptureMovesRecursive (S fuel) b from piece cs =
  pushAllM (captureInDirection (findPieceCaptureMovesRecursive fuel) b from piece cs)
    (directions piece).
Proof. done. Qed.

Arguments findPieceCaptureMovesRecursive : simpl never.

(** The list of captured squares grows by a square of the board that is not
    yet in it. *)
Lemma captured_grows piece b from cs d :
  d ∈ directions piece → onBoard from → onBoard (offset from 2 d) →
  canCapture b piece cs (offset from 1 d) (offset from 2 d) = true →
  NoDup cs →
  NoDup (cs ++ [offset from 1 d]) ∧
  length (filter onBoard (cs ++ [offset from 1 d])) = S (length (filter onBoard cs)).
Proof.
  intros Hd Hfrom Hland (_ & _ & Hnotin)%canCapture_spec Hnd. split.
  - apply NoDup_app. split_and!; [done| |apply NoDup_singleton].
    by intros x Hx ->%list_elem_of_singleton.
  - rewrite filter_app, length_app, filter_cons_True by by eapply offset_between.
    cbn. lia.
Qed.

Lemma capture_rec_fuel fuel b from piece cs :
  onBoard from → NoDup cs →
  (64 < fuel + length (filter onBoard cs))%nat →
  findPieceCaptureMovesRecursive fuel b from piece cs ≠ Err OutOfFuel.
Proof.
  induction fuel as [|fuel IH] in b, from, cs |- *; intros Hfrom Hnd Hlen.
  - assert (length (filter onBoard cs) ≤ 64)%nat; [|cbn in Hlen; lia].
    apply NoDup_onBoard_length; [by apply NoDup_filter|].
    apply Forall_forall. by intros p [? _]%list_elem_of_filter.
  - rewrite findPieceCaptureMovesRecursive_S.
    intros (d & Hd & Herr)%pushAllM_Err.
    apply captureInDirection_Err in Herr as (Hland & Hcan & [Herr|(b' & Hj & Herr)]).
    { by apply jumpBoard_Err in Herr. }
    destruct (captured_grows piece b from cs d) as [Hnd' Hlen']; [done..|].
    revert Herr. apply IH; [done..|lia].
Qed.

(** ** Exception freedom on well-formed boards *)

Lemma capture_rec_wf fuel b from piece cs :
  wf_board b → onBoard from → NoDup cs →
  (64 < fuel + length (filter onBoard cs))%nat →
  is_Ok (findPieceCaptureMovesRecursive fuel b from piece cs).
Proof.
  induction fuel as [|fuel IH] in b, from, cs |- *; intros Hwf Hfrom Hnd Hlen.
  { by destruct (capture_rec_fuel 0 b from piece cs). }
  rewrite findPieceCaptureMovesRecursive_S. apply pushAllM_total. intros d Hd.
  unfold captureInDirection.
  destruct (isWithinBoard _ _) eqn:Hland; cbn; [|by eexists].
  destruct (canCapture _ _ _ _ _) eqn:Hcan; [|by eexists].
  destruct (jumpBoard_wf b from piece (offset from 1 d) (offset from 2 d))
    as (b' & -> & Hwf'); [done..|by eapply offset_between|done|]. cbn.
  destruct (captured_grows piece b from cs d) as [Hnd' Hlen']; [done..|].
  destruct (IH b' (offset from 2 d) (cs ++ [offset from 1 d])) as [chained ->];
    [done..|lia|].
  cbn. case_match; by eexists.
Qed.

Lemma findPieceCaptureMoves_Err b from piece e :
  findPieceCaptureMoves b from piece ↯ e → e = TypeError.
Proof.
  destruct e; [done|]. unfold findPieceCaptureMoves, chainFuel.
  intros [Herr|(ms & _ & Herr)]%bind_Err; [|by case_match]. exfalso.
  rewrite findPieceCaptureMovesRecursive_S in Herr.
  apply pushAllM_Err in Herr as (d & Hd & Herr).
  apply captureInDirection_Err in Herr as (Hland & Hcan & [Herr|(b' & Hj & Herr)]).
  { by apply jumpBoard_Err in Herr. }
  revert Herr. apply capture_rec_fuel; [done|apply NoDup_singleton|lia].
Qed.

Lemma findPieceCaptureMoves_wf b from piece :
  wf_board b → onBoard from → is_Ok (findPieceCaptureMoves b from piece).
Proof.
  intros Hwf Hfrom. unfold findPieceCaptureMoves.
  destruct (capture_rec_wf chainFuel b from piece []) as [ms ->];
    [done|done|constructor|unfold chainFuel; lia|].
  cbn. case_match; by eexists.
Qed.

Lemma capturesAt_wf b pl pos :
  wf_board b → onBoard pos → is_Ok (capturesAt b pl pos).
Proof.
  intros Hwf Hpos. unfold capturesAt. repeat case_match; try by eexists.
  by apply findPieceCaptureMoves_wf.
Qed.

Lemma capturesAt_Err b pl pos e : capturesAt b pl pos ↯ e → e = TypeError.
Proof.
  unfold capturesAt. repeat case_match; try done. apply findPieceCaptureMoves_Err.
Qed.

Lemma findCaptureMoves_Err b pl e : findCaptureMoves b pl ↯ e → e = TypeError.
Proof.
  unfold findCaptureMoves.
  intros [(pos & _ & Herr)%pushAllM_Err|(ms & _ & Herr)]%bind_Err; [|by case_match].
  by eapply capturesAt_Err.
Qed.

Lemma findCaptureMoves_wf b pl : wf_board b → is_Ok (findCaptureMoves b pl).
Proof.
  intros Hwf. unfold findCaptureMoves. apply is_Ok_bind.
  destruct (pushAllM_total (capturesAt b pl) allPositions) as [ms Hms].
  { intros pos Hpos%elem_of_allPositions. by apply capturesAt_wf. }
  exists ms. split; [done|]. case_match; by eexists.
Qed.

(** ** The generator against the specification of chains *)

Section chains.
Context (piece : Piece).
Let op := getOpponent (player piece).
Implicit Types (b : Board) (from : Position) (cs os : list Position) (m : Move).

(** With captured pieces removed from the board, the code's test that a
    square was not captured before is implied by the test that it holds an
    opposing piece. *)
Lemma canCapture_cleared b cs opp land :
  clearedOf op b cs →
  canCapture b piece cs opp land = true ↔
  b.[land] = None ∧ player <$> b.[opp] = Some op.
Proof.
  intros Hcl. rewrite canCapture_spec. fold op. split; [tauto|].
  intros [??]. split_and!; [done..|]. intros ?%Hcl. done.
Qed.

Lemma jump_of_capture b cs from d b' :
  d ∈ directions piece → onBoard (offset from 2 d) →
  canCapture b piece cs (offset from 1 d) (offset from 2 d) = true →
  jumpBoard b from piece (offset from 1 d) (offset from 2 d) ⇓ b' →
  jump piece b from (offset from 1 d) b' (offset from 2 d).
Proof. intros ?? (? & ? & _)%canCapture_spec ?. by constructor. Qed.

(** The invariant of the recursion: it holds again for the arguments of
    the recursive call. *)
Lemma clearedOf_jump b cs from o b' p :
  clearedOf op b cs → jump piece b from o b' p → clearedOf op b' (cs ++ [o]).
Proof.
  intros Hcl Hj. destruct Hj as [b from d b' Hd Hland Hempty Hopp Hjb].
  intros c Hc. rewrite (jumpBoard_getAt _ _ _ _ _ _ Hjb) by (apply onBoard_spec in Hland; lia).
  repeat case_decide; try done.
  - cbn. intros [=]. by eapply getOpponent_ne.
  - apply Hcl. apply elem_of_app in Hc as [?|?%list_elem_of_singleton]; done.
Qed.

(** An empty result means that no jump is possible. *)
Lemma capture_rec_nil_stuck fuel b from cs :
  clearedOf op b cs →
  findPieceCaptureMovesRecursive fuel b from piece cs ⇓ [] →
  stuck piece b from.
Proof.
  intros Hcl Hnil o b' p' Hj. destruct fuel as [|fuel]; [done|].
  destruct Hj as [b from d b' Hd Hland Hempty Hopp Hjb].
  rewrite findPieceCaptureMovesRecursive_S in Hnil.
  destruct (pushAllM_iteration _ _ _ d Hnil Hd) as (r & Hr & Hsub).
  apply captureInDirection_Ok in Hr as [[_ [?|Hcan]]|(_ & _ & ? & chained & _ & _ & ->)].
  - done.
  - rewrite (proj2 (canCapture_cleared b cs _ _ Hcl)) in Hcan; done.
  - case_decide as Hc; [by eapply elem_of_nil, Hsub; left|].
    destruct chained; [done|]. by eapply elem_of_nil, Hsub; left.
Qed.

Lemma capture_rec_sound fuel b from cs ms m :
  clearedOf op b cs →
  findPieceCaptureMovesRecursive fuel b from piece cs ⇓ ms → m ∈ ms →
  Types.from m = from ∧
  ∃ os, os ≠ [] ∧ captured m = cs ++ os ∧ maximalChain piece b from os (to m).
Proof.
  induction fuel as [|fuel IH] in b, from, cs, ms, m |- *; [done|].
  intros Hcl Hms Hm. rewrite findPieceCaptureMovesRecursive_S in Hms.
  destruct (pushAllM_elem _ _ _ _ Hms Hm) as (d & r & Hd & Hr & Hmr).
  apply captureInDirection_Ok in Hr
    as [[-> _]|(Hland & Hcan & b' & chained & Hjb & Hrec & ->)];
    [by apply elem_of_nil in Hmr|].
  pose proof (jump_of_capture _ _ _ _ _ Hd Hland Hcan Hjb) as Hj.
  pose proof (clearedOf_jump _ _ _ _ _ _ Hcl Hj) as Hcl'.
  case_decide as Hch.
  - apply list_elem_of_singleton in Hmr as ->. subst chained. split; [done|].
    exists [offset from 1 d]. split_and!; [done..|]. exists b'. split.
    + econstructor; [done|constructor].
    + by eapply capture_rec_nil_stuck.
  - apply list_elem_of_fmap in Hmr as (m' & -> & Hm').
    destruct (IH _ _ _ _ _ Hcl' Hrec Hm') as (Hfrom & os & Hne & Hcap & bq & Hchain & Hstuck).
    split; [done|]. exists (offset from 1 d :: os). split_and!; [done| |].
    + cbn. by rewrite Hcap, <-app_assoc.
    + exists bq. split; [|done]. econstructor; [done|]. exact Hchain.
Qed.

Lemma capture_rec_complete fuel b from cs ms os q :
  clearedOf op b cs →
  findPieceCaptureMovesRecursive fuel b from piece cs ⇓ ms →
  os ≠ [] → maximalChain piece b from os q →
  mkMove from q (cs ++ os) ∈ ms.
Proof.
  induction fuel as [|fuel IH] in b, from, cs, ms, os |- *; [done|].
  intros Hcl Hms Hne (bq & Hchain & Hstuck).
  destruct Hchain as [|b p o b1 p1 os' bq q Hj Hrest]; [done|].
  pose proof (clearedOf_jump _ _ _ _ _ _ Hcl Hj) as Hcl'.
  destruct Hj as [b from d b1 Hd Hland Hempty Hopp Hjb].
  rewrite findPieceCaptureMovesRecursive_S in Hms.
  destruct (pushAllM_iteration _ _ _ d Hms Hd) as (r & Hr & Hsub). apply Hsub.
  apply captureInDirection_Ok in Hr
    as [[_ [?|Hcan]]|(_ & _ & b' & chained & Hjb' & Hrec & ->)]; [done| |].
  { rewrite (proj2 (canCapture_cleared b cs _ _ Hcl)) in Hcan; done. }
  assert (b' = b1) as -> by congruence.
  destruct (decide (os' = [])) as [->|Hne'].
  - inversion Hrest; subst. rewrite decide_True; [left|].
    destruct chained as [|m' ?]; [done|].
    destruct (capture_rec_sound _ _ _ _ _ m' Hcl' Hrec) as (_ & os & ? & _ & b2 & Hc & _);
      [left|]. destruct Hc; [done|]. by edestruct Hstuck.
  - assert (mkMove (offset from 2 d) q ((cs ++ [offset from 1 d]) ++ os') ∈ chained) as Hin.
    { eapply IH; [done..|]. by exists bq. }
    rewrite decide_False by (intros ->; by apply elem_of_nil in Hin).
    apply list_elem_of_fmap. eexists. split; [|done].
    unfold withFrom. cbn. by rewrite <-app_assoc.
Qed.
End chains.

(** ** The rules of the game, and the generator against them *)

(** [m] is a complete capture by the piece that stands on [from]: a
    non-empty chain of jumps that cannot be continued. *)
Definition pieceChain (piece : Piece) (b : Board) (from : Position) (m : Move) : Prop :=
  Types.from m = from ∧ captured m ≠ [] ∧
  maximalChain piece b from (captured m) (to m).

(** [m] is a complete capture by a piece of [pl]. *)
Definition isCaptureMove (b : Board) (pl : Player) (m : Move) : Prop :=
  ∃ piece, onBoard (Types.from m) ∧ b.[Types.from m] = Some piece ∧
           player piece = pl ∧ pieceChain piece b (Types.from m) m.

(** [m] is a single step of a piece of [pl] onto an empty square. *)
Definition isStepMove (b : Board) (pl : Player) (m : Move) : Prop :=
  ∃ piece d, onBoard (Types.from m) ∧ b.[Types.from m] = Some piece ∧
             player piece = pl ∧ d ∈ directions piece ∧
             to m = offset (Types.from m) 1 d ∧ onBoard (to m) ∧
             b.[to m] = None ∧ captured m = [].

(** The legal moves of [pl] on [b]: when a capture exists, the captures of
    maximal length over all pieces of [pl]; otherwise the single steps. *)
Definition legalMove (b : Board) (pl : Player) (m : Move) : Prop :=
  (isCaptureMove b pl m ∧
   ∀ m', isCaptureMove b pl m' → (capturedCount m' ≤ capturedCount m)%nat)
  ∨ ((∀ m', ¬ isCaptureMove b pl m') ∧ isStepMove b pl m).

Lemma findPieceCaptureMoves_Ok b from piece ms :
  findPieceCaptureMoves b from piece ⇓ ms ↔
  ∃ chains, findPieceCaptureMovesRecursive chainFuel b from piece [] ⇓ chains
            ∧ ms = keepMax capturedCount chains.
Proof.
  unfold findPieceCaptureMoves. rewrite bind_Ok.
  apply exist_proper. intros chains. apply and_iff_compat_l.
  destruct chains; cbn; split; congruence.
Qed.

(** [C2] The recursive search computes exactly the complete captures of a
    piece: given that no square of [capturedSoFar] holds an opposing piece
    (true of the empty list the search starts with), a move is returned iff
    it starts on [from] and its captured squares are [capturedSoFar]
    followed by the squares of a non-empty chain of jumps that cannot be
    extended.  Intermediate stops are not returned. *)
Theorem capture_chains_correct fuel b from piece cs ms :
  clearedOf (getOpponent (player piece)) b cs →
  findPieceCaptureMovesRecursive fuel b from piece cs ⇓ ms →
  ∀ m, m ∈ ms ↔
       Types.from m = from ∧
       ∃ os, os ≠ [] ∧ captured m = cs ++ os ∧
             maximalChain piece b from os (to m).
Proof.
  intros Hcl Hms m. split; [by eapply capture_rec_sound|].
  intros (<- & os & Hne & Hcap & Hmax). destruct m as [f t c]. cbn in *. subst c.
  by eapply capture_rec_complete.
Qed.

Lemma capture_top_spec fuel b from piece chains m :
  findPieceCaptureMovesRecursive fuel b from piece [] ⇓ chains →
  m ∈ chains ↔ pieceChain piece b from m.
Proof.
  intros Hms. assert (clearedOf (getOpponent (player piece)) b []) as Hcl.
  { by intros ? ?%elem_of_nil. }
  unfold pieceChain. split.
  - intros (? & os & ? & Hcap & ?)%(capture_rec_sound _ _ _ _ _ _ _ Hcl Hms).
    cbn in Hcap. by subst os.
  - intros (<- & ? & ?). destruct m as [f t c].
    by apply (capture_rec_complete _ _ _ _ _ _ _ _ Hcl Hms).
Qed.

(** Longest chain per piece: [findPieceCaptureMoves] returns exactly
    the complete captures of the piece on [from] that no other complete
    capture of that piece exceeds in length. *)
Theorem findPieceCaptureMoves_spec b from piece ms :
  findPieceCaptureMoves b from piece ⇓ ms →
  ∀ m, m ∈ ms ↔
       pieceChain piece b from m ∧
       ∀ m', pieceChain piece b from m' → (capturedCount m' ≤ capturedCount m)%nat.
Proof.
  intros (chains & Hrec & ->)%findPieceCaptureMoves_Ok m.
  rewrite elem_of_keepMax_max. rewrite (capture_top_spec _ _ _ _ _ _ Hrec).
  apply and_iff_compat_l. apply forall_proper. intros m'.
  by rewrite (capture_top_spec _ _ _ _ _ _ Hrec).
Qed.

(** ** All pieces of a player *)

(** [m] is a complete capture of a piece of [pl] that no capture of the same
    piece exceeds: what one square contributes to [captureMoves]. *)
Definition isLongestOfPiece (b : Board) (pl : Player) (m : Move) : Prop :=
  ∃ piece, onBoard (Types.from m) ∧ b.[Types.from m] = Some piece ∧
           player piece = pl ∧ pieceChain piece b (Types.from m) m ∧
           ∀ m', pieceChain piece b (Types.from m) m' →
                 (capturedCount m' ≤ capturedCount m)%nat.

Lemma isLongestOfPiece_capture b pl m : isLongestOfPiece b pl m → isCaptureMove b pl m.
Proof. intros (piece & ? & ? & ? & ? & _). by exists piece. Qed.

Lemma findCaptureMoves_Ok b pl ms :
  findCaptureMoves b pl ⇓ ms ↔
  ∃ all, pushAllM (capturesAt b pl) allPositions ⇓ all
         ∧ ms = keepMax capturedCount all.
Proof.
  unfold findCaptureMoves. rewrite bind_Ok.
  apply exist_proper. intros all. apply and_iff_compat_l.
  destruct all; cbn; split; congruence.
Qed.

Section all_pieces.
Context (b : Board) (pl : Player) (all : list Move).
Context (Hall : pushAllM (capturesAt b pl) allPositions ⇓ all).

Lemma capturesAt_elem pos r m :
  onBoard pos → capturesAt b pl pos ⇓ r →
  m ∈ r ↔ Types.from m = pos ∧ isLongestOfPiece b pl m.
Proof.
  intros Hpos. unfold capturesAt, isLongestOfPiece.
  destruct (b.[pos]) as [piece|] eqn:Hpiece; [destruct (decide (player piece = pl))|].
  - intros (chains & Hrec & ->)%findPieceCaptureMoves_Ok.
    rewrite elem_of_keepMax_max, (capture_top_spec _ _ _ _ _ _ Hrec).
    setoid_rewrite (capture_top_spec _ _ _ _ _ _ Hrec). split.
    + intros [Hm Hmax]. pose proof Hm as [<- _]. eauto 10.
    + intros (<- & piece' & _ & Hp & _ & ? & ?). by simplify_eq.
  - intros [= <-]. split; [by intros ?%elem_of_nil|].
    intros (<- & piece' & _ & ? & ? & _). by simplify_eq.
  - intros [= <-]. split; [by intros ?%elem_of_nil|].
    intros (<- & piece' & _ & ? & _). by simplify_eq.
Qed.

(** The concatenation over the board holds the longest captures of every
    piece of the player. *)
Lemma captureMoves_elem m : m ∈ all ↔ isLongestOfPiece b pl m.
Proof using Hall.
  split.
  - intros (pos & r & Hpos%elem_of_allPositions & Hr & Hm)%(pushAllM_elem _ _ _ _ Hall).
    by apply (capturesAt_elem pos r m Hpos Hr).
  - intros Hm. pose proof Hm as (piece & Hpos & _).
    destruct (pushAllM_iteration _ _ _ (Types.from m) Hall) as (r & Hr & Hsub).
    { by apply elem_of_allPositions. }
    apply Hsub. by apply (capturesAt_elem _ r m Hpos Hr).
Qed.

(** Every complete capture is matched in length by a move of the list. *)
Lemma captureMoves_dominate m' :
  isCaptureMove b pl m' → ∃ y, y ∈ all ∧ (capturedCount m' ≤ capturedCount y)%nat.
Proof using Hall.
  intros (piece & Hpos & Hpiece & Hpl & Hchain).
  destruct (pushAllM_iteration _ _ _ (Types.from m') Hall) as (r & Hr & Hsub).
  { by apply elem_of_allPositions. }
  unfold capturesAt in Hr. rewrite Hpiece, decide_True in Hr by done.
  apply findPieceCaptureMoves_Ok in Hr as (chains & Hrec & ->).
  apply (capture_top_spec _ _ _ _ _ _ Hrec) in Hchain.
  destruct (maxOf_attained capturedCount chains) as (y & Hy & Hmax).
  { intros ->. by apply elem_of_nil in Hchain. }
  exists y. split; [apply Hsub; by apply elem_of_keepMax|].
  rewrite Hmax. by apply maxOf_ge.
Qed.

Lemma keepMax_captureMoves m :
  m ∈ keepMax capturedCount all ↔
  isCaptureMove b pl m ∧
  ∀ m', isCaptureMove b pl m' → (capturedCount m' ≤ capturedCount m)%nat.
Proof using Hall.
  rewrite elem_of_keepMax_max, captureMoves_elem. split.
  - intros [Hm Hmax]. split; [by apply isLongestOfPiece_capture|].
    intros m' (y & Hy & ?)%captureMoves_dominate. specialize (Hmax y Hy). lia.
  - intros [(piece & Hpos & Hpiece & Hpl & Hchain) Hmax]. split.
    + exists piece. split_and!; [done..|]. intros m' Hm'. apply Hmax.
      exists piece. destruct Hm' as [Hfrom ?]. rewrite Hfrom. done.
    + intros y Hy%captureMoves_elem. by apply Hmax, isLongestOfPiece_capture.
Qed.
End all_pieces.

Lemma elem_of_stepMoves b from piece m :
  m ∈ stepMoves b from piece ↔
  ∃ d, d ∈ directions piece ∧ m = mkMove from (offset from 1 d) [] ∧
       onBoard (offset from 1 d) ∧ b.[offset from 1 d] = None.
Proof.
  unfold stepMoves. rewrite list_elem_of_bind. apply exist_proper. intros d.
  unfold onBoard. destruct (isWithinBoard _ _); cbn; [case_bool_decide|].
  - rewrite list_elem_of_singleton. tauto.
  - rewrite elem_of_nil. tauto.
  - rewrite elem_of_nil. split; [tauto|]. by intros (_ & _ & ? & _).
Qed.

Lemma elem_of_findStandardMoves b pl m :
  m ∈ findStandardMoves b pl ↔ isStepMove b pl m.
Proof.
  unfold findStandardMoves, isStepMove. rewrite list_elem_of_bind. split.
  - intros (pos & Hm & Hpos%elem_of_allPositions).
    destruct (b.[pos]) as [piece|] eqn:Hpiece; [|by apply elem_of_nil in Hm].
    case_decide; [|by apply elem_of_nil in Hm].
    apply elem_of_stepMoves in Hm as (d & Hd & -> & ? & ?).
    exists piece, d. cbn. split_and!; done.
  - intros (piece & d & Hpos & Hpiece & Hpl & Hd & Hto & Hon & Hempty & Hcap).
    exists (Types.from m). split; [|by apply elem_of_allPositions].
    rewrite Hpiece, decide_True by done. apply elem_of_stepMoves.
    exists d. split_and!; [done| |by rewrite <-Hto..].
    destruct m as [f t c]; cbn in *. by subst.
Qed.

(** Partial correctness of the generator: what it returns is the set of
    legal moves. *)
Lemma getAllPlayerMoves_legal b pl ms :
  getAllPlayerMoves b pl ⇓ ms → ∀ m, m ∈ ms ↔ legalMove b pl m.
Proof.
  unfold getAllPlayerMoves, legalMove.
  intros (caps & (all & Hall & ->)%findCaptureMoves_Ok & Hms)%bind_Ok m.
  pose proof (keepMax_captureMoves b pl all Hall) as Hcaps.
  destruct (keepMax capturedCount all) as [|c caps] eqn:E; cbn in Hms;
    injection Hms as <-.
  - assert (∀ m', ¬ isCaptureMove b pl m') as Hnone.
    { intros m' (y & Hy & _)%(captureMoves_dominate b pl all Hall).
      eapply (keepMax_nonempty capturedCount all); [|done].
      intros ->. by apply elem_of_nil in Hy. }
    rewrite elem_of_findStandardMoves. split; [by right|].
    intros [[?%Hnone _]|[_ ?]]; done.
  - rewrite Hcaps. split; [by left|]. intros [?|[Hno _]]; [done|].
    destruct (Hno c). apply Hcaps. left.
Qed.

Lemma getAllPlayerMoves_Err b pl e : getAllPlayerMoves b pl ↯ e → e = TypeError.
Proof.
  unfold getAllPlayerMoves.
  intros [?%findCaptureMoves_Err|(ms & _ & ?)]%bind_Err; [done|]. by case_match.
Qed.

Lemma getValidMoves_Err b from e : getValidMoves b from ↯ e → e = TypeError.
Proof.
  unfold getValidMoves. case_match; [|done].
  intros [?%findCaptureMoves_Err|(ms & _ & ?)]%bind_Err; [done|]. by case_match.
Qed.

Lemma getAllPlayerMoves_wf b pl : wf_board b → is_Ok (getAllPlayerMoves b pl).
Proof.
  intros Hwf. unfold getAllPlayerMoves.
  destruct (findCaptureMoves_wf b pl Hwf) as [ms ->]. cbn. case_match; by eexists.
Qed.

Lemma getValidMoves_wf b from : wf_board b → is_Ok (getValidMoves b from).
Proof.
  intros Hwf. unfold getValidMoves. case_match; [|by eexists].
  destruct (findCaptureMoves_wf b (player p) Hwf) as [ms ->].
  cbn. case_match; by eexists.
Qed.

(** [C1] The move generator computes the legal moves of the rules, no more
    and no fewer: on a well-formed board [getAllPlayerMoves] returns a
    list, and a move is in the list iff it is legal for the player on that
    board, that is, a capture of maximal length among all the captures of
    all the player's pieces, or, when the player has no capture at all, a
    single diagonal step of one of the player's pieces onto an empty
    square. *)
Theorem getAllPlayerMoves_spec b pl :
  wf_board b →
  ∃ ms, getAllPlayerMoves b pl ⇓ ms ∧ ∀ m, m ∈ ms ↔ legalMove b pl m.
Proof.
  intros [ms Hms]%(getAllPlayerMoves_wf b pl). exists ms.
  split; [done|by apply getAllPlayerMoves_legal].
Qed.

(** [C37] The fuel of the capture search is never exhausted: on every board,
    well formed or not, [getAllPlayerMoves], [findCaptureMoves] and
    [getValidMoves] return a list of moves or throw a [TypeError]; they
    never stop for lack of fuel.  The recursion of the source therefore
    terminates. *)
Theorem moveGen_terminates b pl from :
  findCaptureMoves b pl ≠ Err OutOfFuel ∧
  getAllPlayerMoves b pl ≠ Err OutOfFuel ∧
  getValidMoves b from ≠ Err OutOfFuel.
Proof.
  split_and!; intros H;
    [apply findCaptureMoves_Err in H|apply getAllPlayerMoves_Err in H
    |apply getValidMoves_Err in H]; done.
Qed.

(** On a well-formed board the move generator throws no exception:
    [getAllPlayerMoves] and [getValidMoves] return a list of moves, for
    either player and for any square, on or off the board. *)
Theorem moveGen_no_exception b pl from :
  wf_board b →
  is_Ok (getAllPlayerMoves b pl) ∧ is_Ok (getValidMoves b from).
Proof.
  intros Hwf. split; [by apply getAllPlayerMoves_wf|by apply getValidMoves_wf].
Qed.

Lemma moveGen_no_exception_witness :
  is_Ok (getAllPlayerMoves initialBoard WHITE) ∧
  is_Ok (getValidMoves initialBoard (mkPosition 5 2)).
Proof.
  apply moveGen_no_exception. apply (bool_decide_unpack _). by vm_compute.
Defined.

(** ** Mandatory capture *)

(** A piece of [pl] stands next to an opposing piece with an empty square of
    the board behind it, in one of the piece's directions. *)
Definition captureAvailable (b : Board) (pl : Player) : Prop :=
  ∃ pos piece d,
    onBoard pos ∧ b.[pos] = Some piece ∧ player piece = pl ∧
    d ∈ directions piece ∧ onBoard (offset pos 2 d) ∧
    b.[offset pos 2 d] = None ∧
    player <$> b.[offset pos 1 d] = Some (getOpponent pl).

(** When the search returned, an available jump yields a complete capture. *)
Lemma captureAvailable_chain b pos piece d chains :
  d ∈ directions piece → onBoard (offset pos 2 d) →
  b.[offset pos 2 d] = None →
  player <$> b.[offset pos 1 d] = Some (getOpponent (player piece)) →
  findPieceCaptureMovesRecursive chainFuel b pos piece [] ⇓ chains →
  ∃ m, m ∈ chains.
Proof.
  intros Hd Hland Hempty Hopp Hrec. unfold chainFuel in Hrec.
  rewrite findPieceCaptureMovesRecursive_S in Hrec.
  destruct (pushAllM_iteration _ _ _ d Hrec Hd) as (r & Hr & Hsub).
  apply captureInDirection_Ok in Hr
    as [[_ [?|Hcan]]|(_ & _ & b' & chained & _ & _ & ->)]; [done| |].
  - rewrite (proj2 (canCapture_spec _ _ _ _ _)) in Hcan; [done|].
    split_and!; [done..|apply not_elem_of_nil].
  - case_decide; [eexists; apply Hsub; left|].
    destruct chained as [|m' ?]; [done|]. eexists. apply Hsub. left.
Qed.

Lemma captureAvailable_capture b pl all :
  pushAllM (capturesAt b pl) allPositions ⇓ all →
  captureAvailable b pl → ∃ m, isCaptureMove b pl m.
Proof.
  intros Hall (pos & piece & d & Hpos & Hpiece & <- & Hd & Hland & Hempty & Hopp).
  destruct (pushAllM_iteration _ _ _ pos Hall) as (r & Hr & _).
  { by apply elem_of_allPositions. }
  unfold capturesAt in Hr. rewrite Hpiece, decide_True in Hr by done.
  apply findPieceCaptureMoves_Ok in Hr as (chains & Hrec & _).
  destruct (captureAvailable_chain _ _ _ _ _ Hd Hland Hempty Hopp Hrec) as [m Hm].
  apply (capture_top_spec _ _ _ _ _ _ Hrec) in Hm. exists m, piece.
  destruct Hm as [Hfrom ?]. rewrite Hfrom. done.
Qed.

(** [C14] Forced-capture supremacy: when some piece of the player can jump,
    [getAllPlayerMoves] returns a non-empty list that holds only captures,
    all of the same length, and that length is the maximum over the
    complete captures of all the player's pieces.  No quiet move and no
    shorter capture is legal. *)
Theorem mandatory_capture b pl ms :
  getAllPlayerMoves b pl ⇓ ms → captureAvailable b pl →
  ms ≠ [] ∧
  ∀ m, m ∈ ms →
    captured m ≠ [] ∧
    (∀ m', m' ∈ ms → capturedCount m' = capturedCount m) ∧
    (∀ m', isCaptureMove b pl m' → (capturedCount m' ≤ capturedCount m)%nat).
Proof.
  unfold getAllPlayerMoves.
  intros (caps & (all & Hall & ->)%findCaptureMoves_Ok & Hms)%bind_Ok Hav.
  destruct (captureAvailable_capture b pl all Hall Hav) as [m0 Hm0].
  destruct (captureMoves_dominate b pl all Hall m0 Hm0) as (y & Hy & _).
  assert (keepMax capturedCount all ≠ []) as Hne.
  { apply keepMax_nonempty. intros ->. by apply elem_of_nil in Hy. }
  destruct (keepMax capturedCount all) as [|c caps] eqn:E; [done|].
  cbn in Hms. injection Hms as <-. split; [done|]. rewrite <-E. intros m Hm.
  pose proof (proj1 (keepMax_captureMoves b pl all Hall m) Hm) as [Hcap Hmax].
  split_and!; [|by intros; eapply keepMax_uniform|done].
  by destruct Hcap as (? & _ & _ & _ & _ & ? & _).
Qed.

(** The moves of one square are the player's legal moves that start
    on it: for a square of the board that holds a piece, [getValidMoves]
    returns the list [getAllPlayerMoves] returns for the piece's owner,
    filtered by origin, in the same order; for an empty square it returns
    the empty list. *)
Theorem getValidMoves_filter b from ms :
  onBoard from → getValidMoves b from ⇓ ms →
  match b.[from] with
  | None => ms = []
  | Some piece =>
      ∃ all, getAllPlayerMoves b (player piece) ⇓ all ∧
             ms = filter (λ m, Types.from m = from) all
  end.
Proof.
  intros Hfrom. unfold getValidMoves, getAllPlayerMoves.
  destruct (b.[from]) as [piece|] eqn:Hpiece; [|by intros [= <-]].
  intros (caps & -> & Hms)%bind_Ok. rewrite bind_Ok_l.
  destruct (decide (caps = [])) as [->|Hne]; last first.
  { assert ((0 <? length caps)%nat = true) as Hlen by by destruct caps.
    rewrite Hlen in Hms |- *. injection Hms as <-. eexists. split; [done|].
    apply list_filter_iff. intros m. apply samePos_spec. }
  injection Hms as <-. eexists. split; [done|].
  unfold findStandardMoves. rewrite (filter_bind_unique Types.from).
  - by rewrite Hpiece, decide_True.
  - apply NoDup_allPositions.
  - by apply elem_of_allPositions.
  - intros pos m Hm. repeat case_match; try by apply elem_of_nil in Hm.
    by apply elem_of_stepMoves in Hm as (d & _ & -> & _).
Qed.

(** ** Example boards *)

(** A white man on (5,2) next to a black man on (4,3), the square (3,4)
    behind it empty. *)
Definition simpleCaptureBoard : Board :=
  boardOf [(5, 2, mkPiece WHITE MAN); (4, 3, mkPiece BLACK MAN)].

(** A white man on (5,2) that can jump (4,3) and then either (2,3) or (2,5);
    the black man on (6,5) can be jumped by nothing. *)
Definition doubleJumpBoard : Board :=
  boardOf [(5, 2, mkPiece WHITE MAN); (4, 3, mkPiece BLACK MAN);
           (2, 3, mkPiece BLACK MAN); (2, 5, mkPiece BLACK MAN)].

(** A white king on (5,2) inside a diamond of four black men. *)
Definition ringBoard : Board :=
  boardOf [(5, 2, mkPiece WHITE KING); (4, 3, mkPiece BLACK MAN);
           (2, 3, mkPiece BLACK MAN); (2, 1, mkPiece BLACK MAN);
           (4, 1, mkPiece BLACK MAN)].

Lemma capture_chains_correct_witness :
  clearedOf BLACK doubleJumpBoard [] ∧
  findPieceCaptureMovesRecursive chainFuel doubleJumpBoard (mkPosition 5 2)
    (mkPiece WHITE MAN) []
  ⇓ [mkMove (mkPosition 5 2) (mkPosition 1 2) [mkPosition 4 3; mkPosition 2 3];
     mkMove (mkPosition 5 2) (mkPosition 1 6) [mkPosition 4 3; mkPosition 2 5]] ∧
  ∀ m, m ∈ [mkMove (mkPosition 5 2) (mkPosition 1 2) [mkPosition 4 3; mkPosition 2 3];
            mkMove (mkPosition 5 2) (mkPosition 1 6) [mkPosition 4 3; mkPosition 2 5]] ↔
       Types.from m = mkPosition 5 2 ∧
       ∃ os, os ≠ [] ∧ captured m = [] ++ os ∧
             maximalChain (mkPiece WHITE MAN) doubleJumpBoard (mkPosition 5 2) os (to m).
Proof.
  assert (clearedOf BLACK doubleJumpBoard []) as H1 by (by intros ? ?%elem_of_nil).
  split_and!; [done|by vm_compute|].
  apply (capture_chains_correct chainFuel doubleJumpBoard _ (mkPiece WHITE MAN) [] _ H1).
  by vm_compute.
Defined.

Lemma findPieceCaptureMoves_spec_witness :
  findPieceCaptureMoves ringBoard (mkPosition 5 2) (mkPiece WHITE KING)
  ⇓ [mkMove (mkPosition 5 2) (mkPosition 5 2)
       [mkPosition 4 1; mkPosition 2 1; mkPosition 2 3; mkPosition 4 3];
     mkMove (mkPosition 5 2) (mkPosition 5 2)
       [mkPosition 4 3; mkPosition 2 3; mkPosition 2 1; mkPosition 4 1]] ∧
  ∀ m, m ∈ [mkMove (mkPosition 5 2) (mkPosition 5 2)
              [mkPosition 4 1; mkPosition 2 1; mkPosition 2 3; mkPosition 4 3];
            mkMove (mkPosition 5 2) (mkPosition 5 2)
              [mkPosition 4 3; mkPosition 2 3; mkPosition 2 1; mkPosition 4 1]] ↔
       pieceChain (mkPiece WHITE KING) ringBoard (mkPosition 5 2) m ∧
       ∀ m', pieceChain (mkPiece WHITE KING) ringBoard (mkPosition 5 2) m' →
             (capturedCount m' ≤ capturedCount m)%nat.
Proof.
  split; [by vm_compute|].
  apply (findPieceCaptureMoves_spec ringBoard (mkPosition 5 2) (mkPiece WHITE KING)).
  by vm_compute.
Defined.

Lemma getAllPlayerMoves_spec_witness :
  ∃ ms, getAllPlayerMoves simpleCaptureBoard WHITE ⇓ ms ∧
        ∀ m, m ∈ ms ↔ legalMove simpleCaptureBoard WHITE m.
Proof.
  apply (getAllPlayerMoves_spec simpleCaptureBoard WHITE).
  apply (bool_decide_unpack _). by vm_compute.
Defined.

Lemma captureAvailable_simple : captureAvailable simpleCaptureBoard WHITE.
Proof.
  exists (mkPosition 5 2), (mkPiece WHITE MAN), (-1, 1).
  split_and!; try by vm_compute. unfold directions. simpl. set_solver.
Defined.

Lemma mandatory_capture_witness :
  getAllPlayerMoves simpleCaptureBoard WHITE
  ⇓ [mkMove (mkPosition 5 2) (mkPosition 3 4) [mkPosition 4 3]] ∧
  captureAvailable simpleCaptureBoard WHITE ∧
  [mkMove (mkPosition 5 2) (mkPosition 3 4) [mkPosition 4 3]] ≠ [] ∧
  ∀ m, m ∈ [mkMove (mkPosition 5 2) (mkPosition 3 4) [mkPosition 4 3]] →
    captured m ≠ [] ∧
    (∀ m', m' ∈ [mkMove (mkPosition 5 2) (mkPosition 3 4) [mkPosition 4 3]] →
           capturedCount m' = capturedCount m) ∧
    (∀ m', isCaptureMove simpleCaptureBoard WHITE m' →
           (capturedCount m' ≤ capturedCount m)%nat).
Proof.
  split_and!; [by vm_compute|apply captureAvailable_simple|..];
    apply (mandatory_capture simpleCaptureBoard WHITE);
    (by vm_compute) || apply captureAvailable_simple.
Defined.

Lemma getValidMoves_filter_witness :
  onBoard (mkPosition 5 2) ∧
  getValidMoves doubleJumpBoard (mkPosition 5 2)
  ⇓ [mkMove (mkPosition 5 2) (mkPosition 1 2) [mkPosition 4 3; mkPosition 2 3];
     mkMove (mkPosition 5 2) (mkPosition 1 6) [mkPosition 4 3; mkPosition 2 5]] ∧
  match doubleJumpBoard.[mkPosition 5 2] with
  | None =>
      [mkMove (mkPosition 5 2) (mkPosition 1 2) [mkPosition 4 3; mkPosition 2 3];
       mkMove (mkPosition 5 2) (mkPosition 1 6) [mkPosition 4 3; mkPosition 2 5]] = []
  | Some piece =>
      ∃ all, getAllPlayerMoves doubleJumpBoard (player piece) ⇓ all ∧
        [mkMove (mkPosition 5 2) (mkPosition 1 2) [mkPosition 4 3; mkPosition 2 3];
         mkMove (mkPosition 5 2) (mkPosition 1 6) [mkPosition 4 3; mkPosition 2 5]]
        = filter (λ m, Types.from m = mkPosition 5 2) all
  end.
Proof.
  split_and!; [by vm_compute..|].
  apply (getValidMoves_filter doubleJumpBoard (mkPosition 5 2)); by vm_compute.
Defined.
