(* ===== verification/Chains.v ===== *)
(** * Chains: what a capture chain does to the board

    Consequences of the specification [MoveGen.chain] that the move
    applicator and the game loop rely on: the squares of a chain are on the
    board, the captured squares are distinct and held opposing pieces, the
    landing square was empty unless the chain returns to its start, and the
    board at the end of the chain is known square by square.  The moves
    returned by [getAllPlayerMoves] inherit these facts. *)

From stdpp Require Import prelude.
From Stdlib Require Import ZArith Lia.
From S2P Require Import Prelude Types Board MoveGen.

Local Open Scope Z_scope.


(** Squares an even number of rows and of columns apart: the squares a
    jumping piece can stand on. *)
Definition evenApart (p q : Position) : Prop :=
  ∃ k l, row q = row p + 2 * k ∧ col q = col p + 2 * l.

(** Squares an odd number of rows and of columns apart: the squares a
    jumping piece can capture. *)
Definition oddApart (p o : Position) : Prop :=
  ∃ k l, row o = row p + 2 * k + 1 ∧ col o = col p + 2 * l + 1.

(** What the callers of the generator may assume of a move [m] of [pl] on
    [b]: its squares are on the board, [from] holds a piece of [pl], [to] is
    empty unless the move is a capture that returns to [from], and the
    captured squares are distinct squares of the board that hold opposing
    pieces. *)
Definition wellformedMove (b : Board) (pl : Player) (m : Move) : Prop :=
  onBoard (from m) ∧ onBoard (to m) ∧ player <$> b.[from m] = Some pl ∧
  (b.[to m] = None ∨ (to m = from m ∧ captured m ≠ [])) ∧
  NoDup (captured m) ∧
  ∀ o, o ∈ captured m →
       onBoard o ∧ o ≠ to m ∧ player <$> b.[o] = Some (getOpponent pl).

Lemma evenApart_oddApart_ne p q o : evenApart p q → oddApart p o → o ≠ q.
Proof. intros (k & l & ? & ?) (k' & l' & ? & ?) ->. lia. Qed.

Section chain_facts.
Context (piece : Piece).
Let op := getOpponent (player piece).
Implicit Types (b : Board) (p q o : Position) (os : list Position).

Lemma jump_inv b p o b' q :
  jump piece b p o b' q →
  ∃ d, d ∈ directions piece ∧ o = offset p 1 d ∧ q = offset p 2 d ∧
       onBoard q ∧ b.[q] = None ∧ player <$> b.[o] = Some op ∧
       jumpBoard b p piece o q ⇓ b'.
Proof. intros []. eauto 10. Qed.

Lemma jump_apart b p o b' q :
  jump piece b p o b' q → evenApart p q ∧ oddApart p o.
Proof.
  intros (d & (Hr & Hc)%directions_diagonal & -> & -> & _)%jump_inv.
  unfold evenApart, oddApart, offset. destruct d as [dr dc]. cbn in *. split.
  - exists dr, dc. lia.
  - exists (if decide (dr = 1) then 0 else -1), (if decide (dc = 1) then 0 else -1).
    repeat case_decide; lia.
Qed.

Lemma jump_ne b p o b' q : jump piece b p o b' q → o ≠ p ∧ q ≠ p ∧ q ≠ o.
Proof. intros (d & Hd & -> & -> & _)%jump_inv. by eapply offset_ne. Qed.

(** The board after one jump, square by square. *)
Lemma jump_getAt b p o b' q x :
  jump piece b p o b' q →
  b'.[x] = if decide (x = o) then None
           else if decide (x = p) then None
           else if decide (x = q) then Some piece else b.[x].
Proof.
  intros (d & _ & -> & -> & Hq%onBoard_spec & _ & _ & Hjb)%jump_inv.
  apply (jumpBoard_getAt _ _ _ _ _ _ Hjb). lia.
Qed.

Lemma jump_wf b p o b' q :
  jump piece b p o b' q → wf_board b → onBoard p → wf_board b' ∧ onBoard o.
Proof.
  intros (d & Hd & -> & -> & Hq & _ & _ & Hjb)%jump_inv Hwf Hp.
  pose proof (offset_between _ _ _ Hd Hp Hq) as Ho. split; [|done].
  destruct (jumpBoard_wf b p piece (offset p 1 d) (offset p 2 d)) as (b2 & ? & ?);
    [done..|]. congruence.
Qed.

Lemma chain_apart b p os b' q :
  chain piece b p os b' q → evenApart p q ∧ ∀ o, o ∈ os → oddApart p o.
Proof.
  induction 1 as [b p|b p o b1 p1 os b2 p2 Hj _ [IHq IHo]].
  { split; [exists 0, 0; lia|by intros ? ?%elem_of_nil]. }
  apply jump_apart in Hj as [(k & l & ? & ?) (k' & l' & ? & ?)].
  destruct IHq as (k2 & l2 & ? & ?). split; [exists (k + k2), (l + l2); lia|].
  intros o' [->|(k3 & l3 & ? & ?)%IHo]%elem_of_cons.
  - exists k', l'. lia.
  - exists (k + k3), (l + l3). lia.
Qed.

(** The captured squares are never the landing square. *)
Lemma chain_captured_ne b p os b' q o :
  chain piece b p os b' q → o ∈ os → o ≠ q.
Proof.
  intros [Hq Hos]%chain_apart Ho. by eapply evenApart_oddApart_ne, Hos.
Qed.

Lemma jump_chain_ne b p o b1 p1 os b2 p2 :
  jump piece b p o b1 p1 → chain piece b1 p1 os b2 p2 → o ≠ p2.
Proof.
  intros Hj Hrest. eapply chain_captured_ne; [by econstructor|left].
Qed.

(** A chain that starts on the board stays on it. *)
Lemma chain_onBoard b p os b' q :
  chain piece b p os b' q → onBoard p → onBoard q ∧ Forall onBoard os.
Proof.
  induction 1 as [b p|b p o b1 p1 os b2 p2 Hj _ IH]; intros Hp; [done|].
  pose proof Hj as (d & Hd & -> & -> & Hp1 & _)%jump_inv.
  destruct (IH Hp1) as [? ?]. split; [done|constructor; [|done]].
  by eapply offset_between.
Qed.

(** A chain keeps a well-formed board well formed. *)
Lemma chain_wf b p os b' q :
  chain piece b p os b' q → wf_board b → onBoard p → wf_board b'.
Proof.
  induction 1 as [b p|b p o b1 p1 os b2 p2 Hj _ IH]; intros Hwf Hp; [done|].
  destruct (jump_wf _ _ _ _ _ Hj Hwf Hp) as [Hwf1 Ho].
  pose proof Hj as (d & _ & _ & _ & Hp1 & _)%jump_inv. by apply IH.
Qed.

(** The squares a chain captures are distinct and held opposing pieces on
    the board the chain started from. *)
Lemma chain_captured b p os b' q :
  chain piece b p os b' q →
  NoDup os ∧ ∀ o, o ∈ os → player <$> b.[o] = Some op.
Proof.
  induction 1 as [b p|b p o b1 p1 os b2 p2 Hj _ [IHnd IHop]].
  { split; [constructor|by intros ? ?%elem_of_nil]. }
  assert (∀ o', o' ∈ os → o' ≠ o ∧ player <$> b.[o'] = Some op) as Hos.
  { intros o' Ho'%IHop. rewrite (jump_getAt _ _ _ _ _ _ Hj) in Ho'.
    repeat case_decide; try done. cbn in Ho'. injection Ho' as Ho'.
    by destruct (getOpponent_ne (player piece)). }
  split.
  - constructor; [|done]. intros ?%Hos. tauto.
  - intros o' [->|?%Hos]%elem_of_cons; [|tauto].
    by apply jump_inv in Hj as (d & _ & _ & _ & _ & _ & ? & _).
Qed.

(** The board at the end of a non-empty chain: the piece stands on the last
    landing square, the start and the captured squares are empty, every
    other square is as it was. *)
Lemma chain_getAt b p os b' q x :
  chain piece b p os b' q → os ≠ [] →
  b'.[x] = if decide (x = q) then Some piece
           else if decide (x ∈ os ∨ x = p) then None else b.[x].
Proof.
  induction 1 as [b p|b p o b1 p1 os b2 p2 Hj Hrest IH]; intros Hne; [done|].
  pose proof (jump_chain_ne _ _ _ _ _ _ _ _ Hj Hrest).
  pose proof (jump_ne _ _ _ _ _ Hj) as (? & ? & ?).
  destruct (decide (os = [])) as [->|Hne'].
  - inversion Hrest; subst. rewrite (jump_getAt _ _ _ _ _ _ Hj).
    repeat case_decide; simplify_eq; try done; set_unfold; tauto.
  - rewrite IH, (jump_getAt _ _ _ _ _ _ Hj) by done.
    pose proof Hj as (d & _ & _ & _ & _ & Hempty & _)%jump_inv.
    repeat case_decide; simplify_eq; try done; set_unfold; intuition congruence.
Qed.

(** The landing square of a chain was empty on the board the chain started
    from, unless the chain comes back to its start. *)
Lemma chain_landing b p os b' q :
  chain piece b p os b' q → os ≠ [] → b.[q] = None ∨ q = p.
Proof.
  induction 1 as [b p|b p o b1 p1 os b2 p2 Hj Hrest IH]; intros Hos; [done|].
  pose proof Hj as (d & _ & _ & _ & _ & Hempty & _)%jump_inv.
  destruct (decide (os = [])) as [->|Hne]; [inversion Hrest; subst; by left|].
  destruct (IH Hne) as [Hq| ->]; [|by left].
  pose proof (jump_chain_ne _ _ _ _ _ _ _ _ Hj Hrest).
  rewrite (jump_getAt _ _ _ _ _ _ Hj) in Hq.
  repeat case_decide; simplify_eq; auto.
Qed.
End chain_facts.


(** A jump depends on the squares of the board only. *)
Lemma jump_ext piece b1 b2 p o b1' q :
  (∀ x, b1.[x] = b2.[x]) → wf_board b2 → onBoard p →
  jump piece b1 p o b1' q → ∃ b2', jump piece b2 p o b2' q.
Proof.
  intros Hext Hwf Hp (d & Hd & -> & -> & Hq & Hempty & Hopp & _)%jump_inv.
  pose proof (offset_between _ _ _ Hd Hp Hq) as Ho.
  destruct (jumpBoard_wf b2 p piece (offset p 1 d) (offset p 2 d)) as (b2' & ? & _);
    [done..|].
  exists b2'. constructor; rewrite <-?Hext; done.
Qed.

(** ** The moves of the generator are well formed *)

Lemma isCaptureMove_wellformed b pl m : isCaptureMove b pl m → wellformedMove b pl m.
Proof.
  intros (piece & Hfrom & Hpiece & <- & _ & Hne & b' & Hchain & _).
  destruct (chain_captured _ _ _ _ _ _ Hchain) as [Hnd Hop].
  destruct (chain_onBoard _ _ _ _ _ _ Hchain Hfrom) as [Hto Hos].
  rewrite Forall_forall in Hos.
  split_and!; [done|done|by rewrite Hpiece| |done|].
  - destruct (chain_landing _ _ _ _ _ _ Hchain Hne); auto.
  - intros o Ho. split_and!; [by apply Hos| |by apply Hop].
    by eapply chain_captured_ne.
Qed.

Lemma isStepMove_wellformed b pl m : isStepMove b pl m → wellformedMove b pl m.
Proof.
  intros (piece & d & Hfrom & Hpiece & <- & _ & _ & Hto & Hempty & Hcap).
  unfold wellformedMove. rewrite Hcap, Hpiece.
  split_and!; [done|done|done|by left|constructor|by intros ? ?%elem_of_nil].
Qed.

Lemma legalMove_wellformed b pl m : legalMove b pl m → wellformedMove b pl m.
Proof.
  intros [[? _]|[_ ?]]; [by apply isCaptureMove_wellformed|by apply isStepMove_wellformed].
Qed.

(** A move of the list is a complete capture or a single step. *)
Lemma getAllPlayerMoves_elem b pl ms m :
  getAllPlayerMoves b pl ⇓ ms → m ∈ ms → isCaptureMove b pl m ∨ isStepMove b pl m.
Proof.
  unfold getAllPlayerMoves.
  intros (caps & (all & Hall & ->)%findCaptureMoves_Ok & Hms)%bind_Ok Hm.
  case_match; injection Hms as <-.
  - left. by apply (keepMax_captureMoves b pl all Hall) in Hm as [? _].
  - right. by apply elem_of_findStandardMoves.
Qed.

(** The moves offered for one square are legal moves of the owner of its
    piece. *)
Lemma getValidMoves_legal b pos piece ms m :
  onBoard pos → b.[pos] = Some piece → getValidMoves b pos ⇓ ms → m ∈ ms →
  legalMove b (player piece) m.
Proof.
  intros Hon Hp. unfold getValidMoves. rewrite Hp.
  intros (caps & Hcaps & Hms)%bind_Ok Hm.
  apply (getAllPlayerMoves_legal b (player piece)
           (if (0 <? length caps)%nat then caps else findStandardMoves b (player piece))).
  { unfold getAllPlayerMoves. rewrite Hcaps, bind_Ok_l. by case_match. }
  case_match; injection Hms as <-; [by apply list_elem_of_filter in Hm as [_ ?]|].
  apply elem_of_findStandardMoves. apply elem_of_stepMoves in Hm as (d & ? & -> & ? & ?).
  exists piece, d. cbn. split_and!; done.
Qed.

(** The captures of the generator, when there are any, are the legal
    moves. *)
Lemma findCaptureMoves_legal b pl caps m :
  findCaptureMoves b pl ⇓ caps → m ∈ caps → legalMove b pl m.
Proof.
  intros Hcaps Hm. apply (getAllPlayerMoves_legal b pl caps); [|done].
  unfold getAllPlayerMoves. rewrite Hcaps, bind_Ok_l.
  destruct caps; [by apply elem_of_nil in Hm|done].
Qed.

(** The moves of the generator are all captures or all steps. *)
Lemma getAllPlayerMoves_uniform b pl ms :
  getAllPlayerMoves b pl ⇓ ms →
  (∀ m, m ∈ ms → captured m ≠ []) ∨ (∀ m, m ∈ ms → captured m = []).
Proof.
  unfold getAllPlayerMoves.
  intros (caps & (all & Hall & ->)%findCaptureMoves_Ok & Hms)%bind_Ok.
  case_match; injection Hms as <-; [left|right]; intros m Hm.
  - by apply (keepMax_captureMoves b pl all Hall) in Hm
      as [(piece & _ & _ & _ & _ & ? & _) _].
  - by apply elem_of_findStandardMoves in Hm as (? & ? & _ & _ & _ & _ & _ & _ & _ & ?).
Qed.

(** The filter of [getMediumMove] keeps every move or none. *)
Lemma captureFilter_all_or_none b pl ms :
  getAllPlayerMoves b pl ⇓ ms →
  filter (λ m, (0 < length (captured m))%nat) ms = ms
  ∨ filter (λ m, (0 < length (captured m))%nat) ms = [].
Proof.
  intros [Hcap|Hstep]%getAllPlayerMoves_uniform; [left|right].
  - apply filter_all. intros m ?%Hcap. destruct (captured m); [done|cbn; lia].
  - apply filter_none. intros m ->%Hstep. cbn. lia.
Qed.

(** The moves of the generator all capture the same number of pieces. *)
Lemma getAllPlayerMoves_sameCount b pl ms x y :
  getAllPlayerMoves b pl ⇓ ms → x ∈ ms → y ∈ ms → capturedCount x = capturedCount y.
Proof.
  unfold getAllPlayerMoves.
  intros (caps & (all & Hall & ->)%findCaptureMoves_Ok & Hms)%bind_Ok.
  case_match; injection Hms as <-; [by apply keepMax_uniform|].
  intros (? & ? & _ & _ & _ & _ & _ & _ & _ & Hx)%elem_of_findStandardMoves
         (? & ? & _ & _ & _ & _ & _ & _ & _ & Hy)%elem_of_findStandardMoves.
  unfold capturedCount. by rewrite Hx, Hy.
Qed.

(** [C23] Every move returned by [getAllPlayerMoves] is well formed: [from]
    and [to] are squares of the board, [from] holds a piece of the player,
    [to] is empty before the move unless the move is a capture that comes
    back to the square it started from, and the captured squares are
    pairwise distinct squares of the board, different from [to], each
    holding an opposing piece before the move. *)
Theorem generated_moves_wellformed b pl ms m :
  getAllPlayerMoves b pl ⇓ ms → m ∈ ms → wellformedMove b pl m.
Proof.
  intros Hms [?|?]%(getAllPlayerMoves_elem _ _ _ _ Hms);
    [by apply isCaptureMove_wellformed|by apply isStepMove_wellformed].
Qed.

Lemma generated_moves_wellformed_witness :
  wellformedMove doubleJumpBoard WHITE
    (mkMove (mkPosition 5 2) (mkPosition 1 2) [mkPosition 4 3; mkPosition 2 3]).
Proof.
  eapply generated_moves_wellformed; [by vm_compute|]. set_solver.
Defined.

(** The moves of [findCaptureMoves] are complete captures. *)
Lemma findCaptureMoves_capture b pl caps m :
  findCaptureMoves b pl ⇓ caps → m ∈ caps → isCaptureMove b pl m.
Proof.
  intros (all & Hall & ->)%findCaptureMoves_Ok Hm.
  by apply (keepMax_captureMoves b pl all Hall) in Hm as [? _].
Qed.

(** [findCaptureMoves] returns the legal moves that capture. *)
Lemma elem_of_findCaptureMoves b pl caps m :
  findCaptureMoves b pl ⇓ caps → m ∈ caps ↔ legalMove b pl m ∧ isCaptureMove b pl m.
Proof.
  intros (all & Hall & ->)%findCaptureMoves_Ok.
  rewrite (keepMax_captureMoves b pl all Hall). unfold legalMove. split.
  - intros [Hcap Hmax]. split; [by left|done].
  - intros [[?|[Hnone _]] Hcap]; [done|by destruct (Hnone m)].
Qed.
