(* ===== verification/Apply.v ===== *)
(** * Apply: the move applicator

    Models [applyMove] (lines 105-128 of [src/src/game/logic.ts]).  The deep
    copy [JSON.parse(JSON.stringify(board))] is the board value itself; the
    three kinds of assignment of the source are [setAt], so that a target
    row that does not exist throws [TypeError] as it does in the source.  The
    guard [!move || !move.from || !move.to] is vacuous on the record [Move],
    whose fields are always present. *)

From stdpp Require Import prelude.
From Stdlib Require Import ZArith Lia.
From S2P Require Import Prelude Types Board MoveGen Chains.

Local Open Scope Z_scope.

(** The condition of the [if] at line 120: a man arrives on the far row of
    its owner. *)
Definition promotes (piece : Piece) (to : Position) : bool :=
  bool_decide (type piece = MAN)
  && ((bool_decide (player piece = WHITE) && (row to =? 0))
      || (bool_decide (player piece = BLACK) && (row to =? BOARD_SIZE - 1))).

(** The loop at lines 114-118: the captured squares of the board are
    cleared, the others are skipped. *)
Definition clearCaptured (board : Board) (captured : list Position) : res Board :=
  foldM (λ b capturedPos,
           if isWithinBoard (row capturedPos) (col capturedPos)
           then setAt b capturedPos None else Ok b)
        board captured.

(** Lines 120-126: the piece found on [to] after the clearing becomes a
    king. *)
Definition promoteAt (board : Board) (to : Position) : res ApplyMoveResult :=
  match board.[to] with
  | Some pieceToPromote =>
      newBoard ← setAt board to (Some (mkPiece (player pieceToPromote) KING));
      Ok (mkApplyMoveResult newBoard true)
  | None => Ok (mkApplyMoveResult board false)
  end.

Definition applyMove (board : Board) (move : Move) : res ApplyMoveResult :=
  match board.[from move] with
  | None => Ok (mkApplyMoveResult board false)
  | Some piece =>
      newBoard ← setAt board (to move) (Some piece);
      newBoard ← setAt newBoard (from move) None;
      newBoard ← clearCaptured newBoard (captured move);
      if promotes piece (to move) then promoteAt newBoard (to move)
      else Ok (mkApplyMoveResult newBoard false)
  end.

(** The piece that stands on [to] after the move. *)
Definition movedPiece (piece : Piece) (to : Position) : Piece :=
  if promotes piece to then mkPiece (player piece) KING else piece.

(** The square [x] is emptied by the move. *)
Definition vacated (m : Move) (x : Position) : Prop :=
  x = from m ∨ (x ∈ captured m ∧ onBoard x).

#[export] Instance vacated_dec m x : Decision (vacated m x).
Proof. unfold vacated. apply _. Defined.

Lemma movedPiece_player piece to : player (movedPiece piece to) = player piece.
Proof. unfold movedPiece. by case_match. Qed.

(** ** The clearing loop *)

Section clearCaptured.
Implicit Types (b : Board) (cs : list Position) (x : Position).

Lemma clearCaptured_cons b c cs :
  clearCaptured b (c :: cs) =
  b' ← (if isWithinBoard (row c) (col c) then setAt b c None else Ok b);
  clearCaptured b' cs.
Proof. done. Qed.

Lemma clearCaptured_getAt b cs b' x :
  clearCaptured b cs ⇓ b' →
  b'.[x] = if decide (x ∈ cs ∧ onBoard x) then None else b.[x].
Proof.
  revert b. induction cs as [|c cs IH]; intros b.
  { intros [= <-]. rewrite decide_False; [done|]. by intros [?%elem_of_nil _]. }
  rewrite clearCaptured_cons. intros (b1 & H1 & ->%IH)%bind_Ok.
  destruct (isWithinBoard (row c) (col c)) eqn:Hc.
  - rewrite (getAt_setAt_None _ _ _ _ H1).
    unfold onBoard. repeat case_decide; set_unfold; intuition congruence.
  - injection H1 as <-. apply not_true_iff_false in Hc.
    unfold onBoard. repeat case_decide; set_unfold; intuition congruence.
Qed.

Lemma clearCaptured_wf b cs :
  wf_board b → ∃ b', clearCaptured b cs ⇓ b' ∧ wf_board b'.
Proof.
  intros Hwf. apply (foldM_total wf_board); [done|].
  intros c b1 _ Hwf1. case_match; [by apply setAt_wf|by eexists].
Qed.

Lemma clearCaptured_Err b cs e : clearCaptured b cs ↯ e → e = TypeError.
Proof.
  intros (c & b1 & _ & Hc)%foldM_Err. case_match; [|done].
  by eapply setSquare_Err.
Qed.
End clearCaptured.

(** ** The applicator, square by square *)

Lemma promoteAt_Ok b to r :
  promoteAt b to ⇓ r → 0 ≤ col to →
  promoted r = bool_decide (is_Some (b.[to])) ∧
  ∀ x, (newBoard r).[x] =
       if decide (x = to) then (λ p, mkPiece (player p) KING) <$> b.[to] else b.[x].
Proof.
  unfold promoteAt. destruct (b.[to]) as [p|] eqn:Hp.
  - intros (b' & Hb' & [= <-])%bind_Ok Hcol. split; [done|]. intros x. cbn.
    rewrite (getAt_setAt _ _ _ _ _ Hb' Hcol). by case_decide.
  - intros [= <-] _. split; [done|]. intros x. cbn. case_decide; by subst.
Qed.

Section applyMove.
Context (b : Board) (m : Move) (piece : Piece) (r : ApplyMoveResult).
Context (Hpiece : b.[from m] = Some piece).
Context (Hr : applyMove b m ⇓ r).
Context (Hcol : 0 ≤ col (to m)).

(** The board before the promotion test: [to] holds the piece, then the
    vacated squares are cleared. *)
Lemma applyMove_steps :
  ∃ b3, (∀ x, b3.[x] = if decide (vacated m x) then None
                       else if decide (x = to m) then Some piece else b.[x]) ∧
        (if promotes piece (to m) then promoteAt b3 (to m)
         else Ok (mkApplyMoveResult b3 false)) ⇓ r.
Proof using Hpiece Hr Hcol.
  unfold applyMove in Hr. rewrite Hpiece in Hr.
  apply bind_Ok in Hr as (b1 & H1 & (b2 & H2 & (b3 & H3 & Hp)%bind_Ok)%bind_Ok).
  exists b3. split; [|done]. intros x.
  rewrite (clearCaptured_getAt _ _ _ _ H3), (getAt_setAt_None _ _ _ _ H2),
    (getAt_setAt _ _ _ _ _ H1 Hcol).
  unfold vacated. repeat case_decide; try done; tauto.
Qed.

Lemma applyMove_getAt x :
  (newBoard r).[x] =
  if decide (vacated m x) then None
  else if decide (x = to m) then Some (movedPiece piece (to m)) else b.[x].
Proof using Hpiece Hr Hcol.
  destruct applyMove_steps as (b3 & Hb3 & Hp). unfold movedPiece.
  destruct (promotes piece (to m)); [|injection Hp as <-; by rewrite Hb3].
  apply promoteAt_Ok in Hp as [_ ->]; [|done]. rewrite !Hb3.
  repeat case_decide; by simplify_eq.
Qed.

Lemma applyMove_promoted :
  promoted r = promotes piece (to m) && bool_decide (¬ vacated m (to m)).
Proof using Hpiece Hr Hcol.
  destruct applyMove_steps as (b3 & Hb3 & Hp).
  destruct (promotes piece (to m)); [|by injection Hp as <-].
  apply promoteAt_Ok in Hp as [-> _]; [|done]. rewrite Hb3. cbn.
  case_decide; [|rewrite decide_True by done];
    apply bool_decide_ext; split; by intros ?; try apply is_Some_None.
Qed.
End applyMove.

(** ** Exceptions *)

Lemma clearCaptured_length b cs b' : clearCaptured b cs ⇓ b' → length b' = length b.
Proof.
  revert b. induction cs as [|c cs IH]; intros b; [by intros [= <-]|].
  rewrite clearCaptured_cons. intros (b1 & H1 & ->%IH)%bind_Ok.
  case_match; [by eapply setSquare_length|by injection H1 as <-].
Qed.

(** The clearing loop throws exactly when a captured square of the 8x8
    window lies on a row the board does not have. *)
Lemma clearCaptured_throws b cs e :
  clearCaptured b cs ↯ e ↔
  e = TypeError ∧ ∃ c, c ∈ cs ∧ onBoard c ∧ Z.of_nat (length b) ≤ row c.
Proof.
  revert b. induction cs as [|c cs IH]; intros b.
  { split; [done|]. by intros (_ & c & ?%elem_of_nil & _). }
  rewrite clearCaptured_cons, bind_Err. unfold onBoard.
  destruct (isWithinBoard (row c) (col c)) eqn:Hc.
  - pose proof Hc as Hc'%isWithinBoard_spec.
    setoid_rewrite IH. split.
    + intros [He|(b1 & Hb1%setSquare_length & -> & c' & ? & ? & ?)].
      * pose proof (setSquare_Err _ _ _ _ _ He) as ->.
        apply setSquare_TypeError in He. split; [done|].
        exists c. split_and!; [left|done|lia].
      * split; [done|]. exists c'. split_and!; [by right|done|lia].
    + intros (-> & c' & [->|Hc'']%elem_of_cons & Hon & Hlen).
      * left. apply setSquare_TypeError. lia.
      * destruct (decide (row c < Z.of_nat (length b))).
        -- right. destruct (proj2 (setSquare_is_Ok b (row c) (col c) None)) as [b1 Hb1];
             [lia|]. exists b1. split; [done|]. split; [done|].
           exists c'. apply setSquare_length in Hb1. split_and!; [done..|lia].
        -- left. apply setSquare_TypeError. lia.
  - setoid_rewrite IH. split.
    + intros [?|(b1 & [= <-] & -> & c' & ? & ? & ?)]; [done|].
      split; [done|]. exists c'. split_and!; [by right|done..].
    + intros (-> & c' & [->|Hc'']%elem_of_cons & Hon & Hlen); [congruence|].
      right. exists b. split; [done|]. split; [done|]. by exists c'.
Qed.

Lemma clearCaptured_is_Ok b cs :
  is_Ok (clearCaptured b cs) ↔
  ∀ c, c ∈ cs → onBoard c → row c < Z.of_nat (length b).
Proof.
  split.
  - intros Hok c Hc Hon. destruct (decide (row c < Z.of_nat (length b))); [done|].
    apply not_is_Ok in Hok; [done|]. exists TypeError.
    apply clearCaptured_throws. split; [done|]. exists c. split_and!; [done..|lia].
  - intros Hall. destruct (is_Ok_dec (clearCaptured b cs)) as [|[e He]]; [done|].
    apply clearCaptured_throws in He as (_ & c & Hc & Hon & ?).
    specialize (Hall c Hc Hon). lia.
Qed.

Lemma promoteAt_is_Ok b to :
  0 ≤ row to < Z.of_nat (length b) → is_Ok (promoteAt b to).
Proof.
  intros Hrow. unfold promoteAt. case_match; [|by eexists].
  destruct (proj2 (setSquare_is_Ok b (row to) (col to)
    (Some (mkPiece (player p) KING))) Hrow) as [b' Hb']. unfold setAt.
  rewrite Hb'. by eexists.
Qed.

Lemma promoteAt_Err b to e : promoteAt b to ↯ e → e = TypeError.
Proof.
  unfold promoteAt. case_match; [|done].
  intros [?%setSquare_Err|(? & _ & ?)]%bind_Err; done.
Qed.

(** A piece can only be read on a row of the board. *)
Lemma getAt_Some_row b p piece :
  b.[p] = Some piece → 0 ≤ row p < Z.of_nat (length b).
Proof.
  intros Hp. apply getRow_is_Some. unfold getAt, getSquare in Hp.
  by destruct (getRow b (row p)).
Qed.

Lemma applyMove_is_Ok b m piece :
  b.[from m] = Some piece →
  is_Ok (applyMove b m) ↔
  0 ≤ row (to m) < Z.of_nat (length b) ∧
  ∀ c, c ∈ captured m → onBoard c → row c < Z.of_nat (length b).
Proof.
  intros Hpiece. pose proof (getAt_Some_row _ _ _ Hpiece) as Hfrom.
  unfold applyMove. rewrite Hpiece, is_Ok_bind.
  setoid_rewrite is_Ok_bind. setoid_rewrite is_Ok_bind. split.
  - intros (b1 & H1 & b2 & H2%setSquare_length & b3 & H3 & _).
    pose proof (setSquare_length _ _ _ _ _ H1) as Hlen.
    split; [apply (setSquare_is_Ok b _ (col (to m)) (Some piece)); by eexists|].
    rewrite <-Hlen, <-H2. apply clearCaptured_is_Ok. by eexists.
  - intros [Hto Hcap].
    destruct (proj2 (setSquare_is_Ok b _ (col (to m)) (Some piece)) Hto) as [b1 H1].
    pose proof (setSquare_length _ _ _ _ _ H1) as Hlen1.
    destruct (proj2 (setSquare_is_Ok b1 (row (from m)) (col (from m)) None))
      as [b2 H2]; [lia|].
    pose proof (setSquare_length _ _ _ _ _ H2) as Hlen2.
    destruct (proj2 (clearCaptured_is_Ok b2 (captured m))) as [b3 H3];
      [by rewrite Hlen2, Hlen1|].
    exists b1. split; [done|]. exists b2. split; [done|]. exists b3. split; [done|].
    case_match; [|by eexists]. apply promoteAt_is_Ok.
    apply clearCaptured_length in H3. lia.
Qed.

Lemma applyMove_Err b m e : applyMove b m ↯ e → e = TypeError.
Proof.
  unfold applyMove. case_match; [|done].
  intros [?%setSquare_Err|(? & _ & [?%setSquare_Err|(? & _ &
    [?%clearCaptured_Err|(? & _ & Hp)]%bind_Err)]%bind_Err)]%bind_Err; try done.
  case_match; [by eapply promoteAt_Err|done].
Qed.

(** ** Fixtures *)

(** A white man one step from its last row. *)
Definition promotionBoard : Board :=
  boardOf [(1, 2, mkPiece WHITE MAN); (6, 1, mkPiece BLACK MAN)].

(** The ring capture of [ringBoard]: the king takes the four men around it
    and lands on the square it left. *)
Definition ringMove : Move :=
  mkMove (mkPosition 5 2) (mkPosition 5 2)
    [mkPosition 4 3; mkPosition 2 3; mkPosition 2 1; mkPosition 4 1].

(** ** Properties of the applicator *)

(** [C3] What [applyMove] does, square by square: when [from] holds a
    piece, the column of [to] is not negative (a write at a negative
    column is the one case in which the array model differs from
    JavaScript) and the call returns, every vacated square ([from] and the
    captured squares of the board) is empty, [to] holds the moved piece
    unless it was vacated, a man arriving on its far row being a king, and
    every other square is unchanged; [promoted] is set exactly when the
    promotion test holds and [to] was not vacated. *)
Theorem applyMove_spec b m piece r :
  b.[from m] = Some piece → 0 ≤ col (to m) → applyMove b m ⇓ r →
  promoted r = promotes piece (to m) && bool_decide (¬ vacated m (to m)) ∧
  ∀ x, (newBoard r).[x] =
       if decide (vacated m x) then None
       else if decide (x = to m) then Some (movedPiece piece (to m)) else b.[x].
Proof.
  intros Hpiece Hcol Hr. split;
    [by eapply applyMove_promoted|intros x; by eapply applyMove_getAt].
Qed.

Lemma applyMove_spec_witness :
  let r := mkApplyMoveResult
             (boardOf [(0, 1, mkPiece WHITE KING); (6, 1, mkPiece BLACK MAN)]) true in
  promoted r = true ∧
  (newBoard r).[mkPosition 0 1] = Some (mkPiece WHITE KING).
Proof.
  intros r.
  destruct (applyMove_spec promotionBoard (mkMove (mkPosition 1 2) (mkPosition 0 1) [])
              (mkPiece WHITE MAN) r) as [Hp Hb]; [done..|].
  split; [exact Hp|exact (Hb (mkPosition 0 1))].
Defined.

(** [C36] When [applyMove] throws: exactly when [from] holds a piece and
    either the row of [to] does not exist on the board, or a captured
    square of the 8x8 window lies on a row the board does not have; the
    exception is a [TypeError].  In particular a move whose [from] is empty
    is a no-op, and a move whose [to] is off the rows of the board is not. *)
Theorem applyMove_throws b m e :
  applyMove b m ↯ e ↔
  e = TypeError ∧ is_Some (b.[from m]) ∧
  (¬ (0 ≤ row (to m) < Z.of_nat (length b)) ∨
   ∃ c, c ∈ captured m ∧ onBoard c ∧ Z.of_nat (length b) ≤ row c).
Proof.
  destruct (b.[from m]) as [piece|] eqn:Hpiece.
  2:{ unfold applyMove. rewrite Hpiece. split; [done|].
      by intros (_ & []%is_Some_None & _). }
  pose proof (applyMove_is_Ok b m piece Hpiece) as Hok. split.
  - intros He. pose proof (applyMove_Err _ _ _ He) as ->.
    split_and!; [done..|].
    destruct (decide (0 ≤ row (to m) < Z.of_nat (length b))) as [Hto|]; [right|by left].
    destruct (decide (Exists (λ c, onBoard c ∧ Z.of_nat (length b) ≤ row c) (captured m)))
      as [Hex%Exists_exists|Hno]; [done|].
    destruct (proj2 (not_is_Ok (applyMove b m))); [eauto|].
    apply Hok. split; [done|]. intros c Hc Hon.
    destruct (decide (row c < Z.of_nat (length b))); [done|].
    destruct Hno. apply Exists_exists. exists c. split_and!; [done..|lia].
  - intros (-> & _ & Hbad).
    destruct (is_Ok_dec (applyMove b m)) as [[Hto Hcap]%Hok|[e He]].
    + destruct Hbad as [?|(c & Hc & Hon & ?)]; [done|]. specialize (Hcap c Hc Hon). lia.
    + by rewrite (applyMove_Err _ _ _ He) in He.
Qed.

(** On a well-formed board, applying a move whose [to] is a square of the
    board throws no exception and returns a well-formed board, whatever
    the squares the move lists as captured. *)
Lemma applyMove_total b m :
  wf_board b → onBoard (to m) →
  ∃ r, applyMove b m ⇓ r ∧ wf_board (newBoard r).
Proof.
  intros Hwf Hto. unfold applyMove.
  destruct (b.[from m]) as [piece|] eqn:Hpiece; [|by eexists].
  pose proof (getAt_Some_onBoard _ _ _ Hwf Hpiece) as Hfrom.
  destruct (setAt_wf b (to m) (Some piece) Hwf Hto) as (b1 & -> & Hwf1).
  destruct (setAt_wf b1 (from m) None Hwf1 Hfrom) as (b2 & H2 & Hwf2).
  destruct (clearCaptured_wf b2 (captured m) Hwf2) as (b3 & H3 & Hwf3).
  cbn. rewrite H2. cbn. rewrite H3. cbn.
  case_match; [|by eexists]. unfold promoteAt. case_match; [|by eexists].
  destruct (setAt_wf b3 (to m) (Some (mkPiece (player p) KING)) Hwf3 Hto)
    as (b4 & -> & Hwf4). by eexists.
Qed.

(** [C30] Legal play keeps the board well formed: on a well-formed board
    every legal move of the rules is applied without exception, the board
    returned is well formed, and the piece that moved belongs to the
    player and stands on [to] unless the move came back to [from]. *)
Theorem applyMove_wf b pl m :
  wf_board b → legalMove b pl m →
  ∃ r, applyMove b m ⇓ r ∧ wf_board (newBoard r) ∧
       (to m ≠ from m → player <$> (newBoard r).[to m] = Some pl).
Proof.
  intros Hwf (Hfrom & Hto & Hpl & _ & _ & Hcap)%legalMove_wellformed.
  destruct (applyMove_total b m Hwf Hto) as (r & Hr & Hwfr). exists r.
  split_and!; [done..|]. intros Hne.
  destruct (b.[from m]) as [piece|] eqn:Hpiece; [|done].
  apply onBoard_spec in Hto.
  rewrite (applyMove_getAt b m piece r Hpiece Hr) by lia.
  rewrite decide_False, decide_True by (done || (intros [?|[?%Hcap _]]; tauto)).
  injection Hpl as <-. unfold movedPiece. by case_match.
Qed.

Lemma simpleCapture_legal :
  legalMove simpleCaptureBoard WHITE
    (mkMove (mkPosition 5 2) (mkPosition 3 4) [mkPosition 4 3]).
Proof.
  eapply getAllPlayerMoves_legal; [by vm_compute|]. set_solver.
Qed.

Lemma applyMove_wf_witness :
  ∃ r, applyMove simpleCaptureBoard
         (mkMove (mkPosition 5 2) (mkPosition 3 4) [mkPosition 4 3]) ⇓ r ∧
       wf_board (newBoard r) ∧
       (mkPosition 3 4 ≠ mkPosition 5 2 →
        player <$> (newBoard r).[mkPosition 3 4] = Some WHITE).
Proof.
  apply (applyMove_wf simpleCaptureBoard WHITE
           (mkMove (mkPosition 5 2) (mkPosition 3 4) [mkPosition 4 3]));
    [apply (bool_decide_unpack _); by vm_compute|apply simpleCapture_legal].
Defined.

(** No piece appears from nowhere and a king never reverts to a man:
    a piece that stands on a square after [applyMove] either stood there
    before, or is the moved piece on [to], with the same owner, and it is a
    king if the piece that moved was a king. *)
Theorem applyMove_pieces b m r x q :
  0 ≤ col (to m) → applyMove b m ⇓ r → (newBoard r).[x] = Some q →
  b.[x] = Some q ∨
  (x = to m ∧ ∃ piece, b.[from m] = Some piece ∧ player q = player piece ∧
                       (type piece = KING → type q = KING)).
Proof.
  intros Hcol Hr Hq. destruct (b.[from m]) as [piece|] eqn:Hpiece.
  2:{ unfold applyMove in Hr. rewrite Hpiece in Hr. injection Hr as <-. by left. }
  rewrite (applyMove_getAt b m piece r Hpiece Hr Hcol) in Hq.
  repeat case_decide; simplify_eq; [|by left]. right. split; [done|].
  exists piece. unfold movedPiece, promotes.
  split_and!; [done|by case_match|]. intros Hk.
  by rewrite bool_decide_false by congruence.
Qed.

Lemma applyMove_pieces_witness :
  promotionBoard.[mkPosition 0 1] = Some (mkPiece WHITE KING) ∨
  (mkPosition 0 1 = mkPosition 0 1 ∧
   ∃ piece, promotionBoard.[mkPosition 1 2] = Some piece ∧
            WHITE = player piece ∧ (type piece = KING → KING = KING)).
Proof.
  by apply (applyMove_pieces promotionBoard
    (mkMove (mkPosition 1 2) (mkPosition 0 1) []) _ (mkPosition 0 1) (mkPiece WHITE KING)
    ltac:(done) eq_refl).
Defined.

(** ** The applicator and the chains of the generator *)

Section capture.
Context (b : Board) (pl : Player) (m : Move).
Context (Hwf : wf_board b) (Hm : isCaptureMove b pl m).

(** A capture of the generator is applied without exception. *)
Lemma applyMove_capture_Ok : ∃ r, applyMove b m ⇓ r ∧ wf_board (newBoard r).
Proof using Hwf Hm.
  apply applyMove_total; [done|]. by apply isCaptureMove_wellformed in Hm as (_ & ? & _).
Qed.

(** On the squares other than [to], and on [to] up to promotion, the board
    of the applicator is the board the generator reached at the end of the
    chain, provided the chain does not end where it started. *)
Lemma applyMove_capture_getAt piece b' r x :
  b.[from m] = Some piece →
  chain piece b (from m) (captured m) b' (to m) →
  to m ≠ from m → applyMove b m ⇓ r →
  (newBoard r).[x] =
  if decide (x = to m) then Some (movedPiece piece (to m)) else b'.[x].
Proof using Hwf Hm.
  intros Hpiece Hchain Hne Hr.
  pose proof Hm as (_ & Hto%onBoard_spec & _ & _ & _ & Hcap)%isCaptureMove_wellformed.
  pose proof Hm as (piece' & _ & _ & _ & _ & Hnil & _).
  rewrite (applyMove_getAt b m piece r Hpiece Hr) by lia.
  rewrite (chain_getAt _ _ _ _ _ _ x Hchain Hnil). unfold vacated.
  pose proof (Hcap x). repeat case_decide; simplify_eq; try done; tauto.
Qed.
End capture.

(** The captures of the fixtures are captures of the rules. *)
Lemma generated_capture b pl ms m :
  getAllPlayerMoves b pl ⇓ ms → m ∈ ms → captured m ≠ [] → isCaptureMove b pl m.
Proof.
  intros Hms [?|Hstep]%(getAllPlayerMoves_elem _ _ _ _ Hms) Hne; [done|].
  by destruct Hstep as (? & ? & _ & _ & _ & _ & _ & _ & _ & ?).
Qed.

Lemma ringMove_capture : isCaptureMove ringBoard WHITE ringMove.
Proof. eapply generated_capture; [by vm_compute| |done]. set_solver. Qed.

Lemma doubleJump_capture :
  isCaptureMove doubleJumpBoard WHITE
    (mkMove (mkPosition 5 2) (mkPosition 1 2) [mkPosition 4 3; mkPosition 2 3]).
Proof. eapply generated_capture; [by vm_compute| |done]. set_solver. Qed.

(** [C7] The applicator plays the chain the generator found: for a
    complete capture of the rules on a well-formed board that does not end
    on the square it started from, [applyMove] returns, and its board is the
    board at the end of the chain of jumps, except that the piece on [to]
    is a king when a man has reached its far row. *)
Theorem applyMove_plays_chain b pl m :
  wf_board b → isCaptureMove b pl m → to m ≠ from m →
  ∃ piece b' r,
    b.[from m] = Some piece ∧
    chain piece b (from m) (captured m) b' (to m) ∧
    applyMove b m ⇓ r ∧
    ∀ x, (newBoard r).[x] =
         if decide (x = to m) then Some (movedPiece piece (to m)) else b'.[x].
Proof.
  intros Hwf Hm Hne. destruct (applyMove_capture_Ok b pl m Hwf Hm) as (r & Hr & _).
  pose proof Hm as (piece & _ & Hpiece & _ & _ & _ & b' & Hchain & _).
  exists piece, b', r. split_and!; [done..|]. intros x.
  by eapply applyMove_capture_getAt.
Qed.

Lemma applyMove_plays_chain_witness :
  ∃ piece b' r,
    doubleJumpBoard.[mkPosition 5 2] = Some piece ∧
    chain piece doubleJumpBoard (mkPosition 5 2) [mkPosition 4 3; mkPosition 2 3]
      b' (mkPosition 1 2) ∧
    applyMove doubleJumpBoard
      (mkMove (mkPosition 5 2) (mkPosition 1 2) [mkPosition 4 3; mkPosition 2 3]) ⇓ r ∧
    ∀ x, (newBoard r).[x] =
         if decide (x = mkPosition 1 2)
         then Some (movedPiece piece (mkPosition 1 2)) else b'.[x].
Proof.
  apply (applyMove_plays_chain doubleJumpBoard WHITE
           (mkMove (mkPosition 5 2) (mkPosition 1 2) [mkPosition 4 3; mkPosition 2 3]));
    [apply (bool_decide_unpack _); by vm_compute|apply doubleJump_capture|done].
Defined.

(** [C18] A capture that ends on the square it started from erases the
    capturing piece: [applyMove] writes the piece on [to] and then clears
    [from], which is the same square, so the square is empty afterwards and
    no promotion is reported.  The generator returns such captures (a king
    inside a diamond of four opposing pieces). *)
Theorem ring_capture_erases_piece b pl m r :
  isCaptureMove b pl m → to m = from m → applyMove b m ⇓ r →
  (newBoard r).[to m] = None ∧ promoted r = false.
Proof.
  intros Hm Heq Hr.
  pose proof Hm as (_ & Hto%onBoard_spec & _)%isCaptureMove_wellformed.
  pose proof Hm as (piece & _ & Hpiece & _).
  assert (vacated m (to m)) as Hv by (by left).
  rewrite (applyMove_getAt b m piece r Hpiece Hr), decide_True by (done || lia).
  rewrite (applyMove_promoted b m piece r Hpiece Hr) by lia.
  rewrite bool_decide_false by tauto. by rewrite andb_false_r.
Qed.

Lemma ring_capture_erases_piece_witness :
  ∃ r, applyMove ringBoard ringMove ⇓ r ∧
       (newBoard r).[to ringMove] = None ∧ promoted r = false ∧
       piecesOf (newBoard r) WHITE = [].
Proof.
  eexists. split; [reflexivity|].
  destruct (ring_capture_erases_piece ringBoard WHITE ringMove _
              ringMove_capture eq_refl eq_refl) as [? ?].
  split_and!; [done..|]. by vm_compute.
Defined.
