(* ===== verification/Terminal.v ===== *)
(** * Terminal: who has won

    Models [checkWinCondition] (lines 158-174 of [src/src/game/logic.ts]):
    the side to move loses when it has no move; otherwise it wins when the
    opponent has no piece in the 8x8 window, or has pieces and no move.  The
    counting loop is the length of [Board.piecesOf]. *)

From stdpp Require Import prelude.
From Stdlib Require Import ZArith Lia.
From S2P Require Import Prelude Types Board MoveGen Chains.

Local Open Scope Z_scope.

Definition checkWinCondition (board : Board) (currentPlayer : Player)
    : res (option Player) :=
  currentMoves ← getAllPlayerMoves board currentPlayer;
  if (length currentMoves =? 0)%nat then Ok (Some (getOpponent currentPlayer))
  else
    let opponent := getOpponent currentPlayer in
    let opponentPieces := length (piecesOf board opponent) in
    if (opponentPieces =? 0)%nat then Ok (Some currentPlayer)
    else
      opponentMoves ← getAllPlayerMoves board opponent;
      if (length opponentMoves =? 0)%nat then Ok (Some currentPlayer)
      else Ok None.

(** ** Specification *)

(** The player has a legal move. *)
Definition hasMove (b : Board) (pl : Player) : Prop := ∃ m, legalMove b pl m.

(** The verdict of the rules for the side to move [pl]. *)
Definition verdict (b : Board) (pl : Player) (w : option Player) : Prop :=
  (w = Some (getOpponent pl) ∧ ¬ hasMove b pl)
  ∨ (w = Some pl ∧ hasMove b pl ∧
     (piecesOf b (getOpponent pl) = [] ∨ ¬ hasMove b (getOpponent pl)))
  ∨ (w = None ∧ hasMove b pl ∧ hasMove b (getOpponent pl)).

(** ** Fixtures *)

(** Eight white pieces that block each other on rows 0 and 1, and no black
    piece. *)
Definition fortressBoard : Board :=
  boardOf [(0, 1, mkPiece WHITE KING); (0, 3, mkPiece WHITE KING);
           (0, 5, mkPiece WHITE KING); (0, 7, mkPiece WHITE KING);
           (1, 0, mkPiece WHITE MAN); (1, 2, mkPiece WHITE MAN);
           (1, 4, mkPiece WHITE MAN); (1, 6, mkPiece WHITE MAN)].

(** ** Moves and pieces *)

Lemma elem_of_piecesOf b pl p :
  p ∈ piecesOf b pl ↔ onBoard p ∧ player <$> b.[p] = Some pl.
Proof.
  unfold piecesOf, ownedBy. rewrite list_elem_of_filter, elem_of_allPositions.
  destruct (b.[p]) as [pc|]; cbn; [rewrite bool_decide_eq_true|];
    intuition congruence.
Qed.

(** The list of moves is non-empty exactly when the player has a legal
    move. *)
Lemma getAllPlayerMoves_hasMove b pl ms :
  getAllPlayerMoves b pl ⇓ ms →
  if (length ms =? 0)%nat then ¬ hasMove b pl else hasMove b pl.
Proof.
  intros Hms. pose proof (getAllPlayerMoves_legal b pl ms Hms) as Hlegal.
  destruct ms as [|m ms]; cbn.
  - intros [m Hm%Hlegal]. by apply elem_of_nil in Hm.
  - exists m. apply Hlegal. left.
Qed.

(** A player who moves has a piece on the board. *)
Lemma hasMove_piece b pl : hasMove b pl → piecesOf b pl ≠ [].
Proof.
  assert (∀ m, isCaptureMove b pl m ∨ isStepMove b pl m →
               from m ∈ piecesOf b pl) as Hfrom.
  { intros m [(? & _ & Hp & _)%isCaptureMove_wellformed
             |(? & _ & Hp & _)%isStepMove_wellformed];
      by apply elem_of_piecesOf. }
  intros [m [[Hm _]|[_ Hm]]] Hnil; specialize (Hfrom m); rewrite Hnil in Hfrom;
    eapply elem_of_nil, Hfrom; eauto.
Qed.

Lemma checkWinCondition_Ok b pl w :
  checkWinCondition b pl ⇓ w → verdict b pl w.
Proof.
  unfold checkWinCondition, verdict.
  intros (ms & Hms & Hw)%bind_Ok. pose proof (getAllPlayerMoves_hasMove _ _ _ Hms).
  destruct (length ms =? 0)%nat; [injection Hw as <-; by left|]. right.
  destruct (length (piecesOf b _) =? 0)%nat eqn:E.
  { apply Nat.eqb_eq, length_zero_iff_nil in E. injection Hw as <-. left. tauto. }
  apply bind_Ok in Hw as (ms' & Hms' & Hw).
  pose proof (getAllPlayerMoves_hasMove _ _ _ Hms').
  destruct (length ms' =? 0)%nat; injection Hw as <-; [left|right]; tauto.
Qed.

Lemma checkWinCondition_wf b pl : wf_board b → is_Ok (checkWinCondition b pl).
Proof.
  intros Hwf. unfold checkWinCondition.
  destruct (getAllPlayerMoves_wf b pl Hwf) as [ms ->]. cbn.
  repeat case_match; try by eexists.
  destruct (getAllPlayerMoves_wf b (getOpponent pl) Hwf) as [ms' ->]. cbn.
  case_match; by eexists.
Qed.

Lemma checkWinCondition_Err b pl e : checkWinCondition b pl ↯ e → e = TypeError.
Proof.
  unfold checkWinCondition.
  intros [?%getAllPlayerMoves_Err|(ms & _ & Hw)]%bind_Err; [done|].
  repeat case_match; try done.
  by apply bind_Err in Hw as [?%getAllPlayerMoves_Err|(ms' & _ & ?)]; [|case_match].
Qed.

(** The verdicts exclude each other. *)
Lemma verdict_unique b pl w w' : verdict b pl w → verdict b pl w' → w = w'.
Proof.
  pose proof (getOpponent_ne pl). pose proof (hasMove_piece b (getOpponent pl)).
  unfold verdict. intros [[-> ?]|[(-> & ? & ?)|(-> & ? & ?)]]
    [[-> ?]|[(-> & ? & ?)|(-> & ? & ?)]]; tauto.
Qed.

(** [C5] The terminal test implements the rule: on a well-formed board
    [checkWinCondition] returns; the opponent of the side to move wins when
    the side to move has no legal move; otherwise the side to move wins
    when the opponent has no piece or no legal move; otherwise nobody has
    won.  The three cases exclude each other, so the result is determined
    by the rules. *)
Theorem checkWinCondition_spec b pl :
  wf_board b →
  ∃ w, checkWinCondition b pl ⇓ w ∧ ∀ w', verdict b pl w' ↔ w' = w.
Proof.
  intros [w Hw]%(checkWinCondition_wf b pl). exists w. split; [done|].
  pose proof (checkWinCondition_Ok _ _ _ Hw). intros w'. split; [|by intros ->].
  intros ?. by eapply verdict_unique.
Qed.

Lemma checkWinCondition_spec_witness :
  ∃ w, checkWinCondition initialBoard WHITE ⇓ w ∧
       ∀ w', verdict initialBoard WHITE w' ↔ w' = w.
Proof.
  apply checkWinCondition_spec. apply (bool_decide_unpack _). by vm_compute.
Defined.

(** [C32] A side without pieces loses when it is to move, and when the
    other side is to move and can move; but when the other side is to move
    and cannot, the side without pieces is declared the winner.  On
    [fortressBoard] Black has no piece and Black wins with White to move. *)
Theorem terminal_symmetry b pl :
  piecesOf b pl = [] →
  (∀ w, checkWinCondition b pl ⇓ w → w = Some (getOpponent pl)) ∧
  (∀ w, checkWinCondition b (getOpponent pl) ⇓ w →
        if decide (w = Some (getOpponent pl)) then hasMove b (getOpponent pl)
        else w = Some pl ∧ ¬ hasMove b (getOpponent pl)).
Proof.
  intros Hnone. pose proof (hasMove_piece b pl) as Hpiece.
  pose proof (getOpponent_ne pl). split; intros w Hw%checkWinCondition_Ok.
  - destruct Hw as [[-> ?]|[(-> & ? & ?)|(-> & ? & ?)]]; tauto.
  - unfold verdict in Hw. rewrite getOpponent_involutive in Hw.
    destruct Hw as [[-> ?]|[(-> & ? & ?)|(-> & ? & ?)]];
      [by rewrite decide_False by congruence|by rewrite decide_True|tauto].
Qed.

Lemma terminal_symmetry_witness :
  piecesOf fortressBoard BLACK = [] ∧
  checkWinCondition fortressBoard WHITE ⇓ Some BLACK ∧
  ¬ hasMove fortressBoard WHITE.
Proof.
  split; [by vm_compute|]. split; [by vm_compute|].
  destruct (terminal_symmetry fortressBoard BLACK eq_refl) as [_ Hsym].
  specialize (Hsym (Some BLACK) eq_refl). by destruct Hsym.
Defined.
