(* ===== verification/Eval.v ===== *)
(** * Eval: the static evaluator

    Models [evaluateBoard] (lines 176-200 of [src/src/game/logic.ts]).  The
    source reads [board[r][c]] without optional chaining, so a missing row
    throws; [readSquare] is that read.  The source computes the distance of
    a king to the centre with the constant 3.5; the model keeps integers by
    computing twice the distance, which is even on integer coordinates, so
    the halving in [centreBonus] is exact ([centreBonus_exact]). *)

From stdpp Require Import prelude.
From Stdlib Require Import ZArith Lia.
From S2P Require Import Prelude Types Board.

Local Open Scope Z_scope.

(** [board[r][c]]: a [TypeError] when [board[r]] is undefined. *)
Definition readSquare (board : Board) (pos : Position) : res Square :=
  match getRow board (row pos) with
  | None => Err TypeError
  | Some _ => Ok (board.[pos])
  end.

(** Twice [Math.abs(r - 3.5) + Math.abs(c - 3.5)]. *)
Definition distToCenter2 (r c : Z) : Z := Z.abs (2 * r - 7) + Z.abs (2 * c - 7).

(** [(8 - distToCenter) * 5] *)
Definition centreBonus (r c : Z) : Z := (16 - distToCenter2 r c) * 5 / 2.

(** [c === 0 || c === BOARD_SIZE - 1 || r === 0 || r === BOARD_SIZE - 1] *)
Definition onEdge (r c : Z) : bool :=
  (c =? 0) || (c =? BOARD_SIZE - 1) || (r =? 0) || (r =? BOARD_SIZE - 1).

(** The variable [value] at the end of the loop body (lines 186-196). *)
Definition pieceValue (piece : Piece) (r c : Z) : Z :=
  let value := if decide (type piece = KING) then 500 else 100 in
  let value :=
    if decide (type piece = MAN) then
      let progress := if decide (player piece = WHITE) then BOARD_SIZE - 1 - r else r in
      value + progress * 10
    else value + centreBonus r c in
  if onEdge r c then value + 15 else value.

(** [isPlayer ? 1 : -1] *)
Definition multiplier (pl : Player) (piece : Piece) : Z :=
  if decide (player piece = pl) then 1 else -1.

Definition evaluateBoard (board : Board) (pl : Player) : res Z :=
  foldM (λ score pos,
           piece ← readSquare board pos;
           match piece with
           | None => Ok score
           | Some piece =>
               Ok (score + pieceValue piece (row pos) (col pos) * multiplier pl piece)
           end)
        0 allPositions.

(** ** Reference definition *)

(** The number of steps from a coordinate to the nearer edge of the
    board. *)
Definition stepsToEdge (x : Z) : Z := Z.min x (7 - x).

(** What a piece on the square [pos] of the board is worth, in whole
    numbers: a man 100 and 10 for every row it has advanced; a king 500
    and 5 for every half step by which its Manhattan distance to the
    centre of the board, which lies between the squares, is below 8, that
    is 5 and 5 for every step between it and the edges; any piece on the
    rim 15 more. *)
Definition worth (piece : Piece) (pos : Position) : Z :=
  match type piece with
  | MAN => 100 + 10 * (match player piece with WHITE => 7 - row pos | BLACK => row pos end)
  | KING => 500 + 5 * (1 + stepsToEdge (row pos) + stepsToEdge (col pos))
  end
  + (if decide (stepsToEdge (row pos) = 0 ∨ stepsToEdge (col pos) = 0) then 15 else 0).

(** What the piece on [pos], if any, is worth. *)
Definition worthAt (b : Board) (pos : Position) : Z :=
  match b.[pos] with
  | Some piece => worth piece pos
  | None => 0
  end.

(** The material of a player: the worth of its pieces. *)
Definition material (b : Board) (pl : Player) : Z := sumZ (worthAt b) (piecesOf b pl).

(** What the square [pos] adds to the score of [pl]. *)
Definition signedWorth (b : Board) (pl : Player) (pos : Position) : Z :=
  match b.[pos] with
  | Some piece => pieceValue piece (row pos) (col pos) * multiplier pl piece
  | None => 0
  end.

(** ** The value of a piece *)

Lemma centreBonus_exact r c : 2 * centreBonus r c = (16 - distToCenter2 r c) * 5.
Proof.
  unfold centreBonus, distToCenter2.
  assert (∃ k, (16 - (Z.abs (2 * r - 7) + Z.abs (2 * c - 7))) * 5 = 2 * k) as [k ->].
  { exists ((7 - (if decide (4 ≤ r) then r - 4 else 3 - r)
               - (if decide (4 ≤ c) then c - 4 else 3 - c)) * 5).
    repeat case_decide; lia. }
  rewrite (Z.mul_comm 2 k), Z.div_mul by done. lia.
Qed.

Lemma pieceValue_bounds piece p :
  onBoard p → 100 ≤ pieceValue piece (row p) (col p) ≤ 535.
Proof.
  intros Hp%onBoard_spec. unfold pieceValue, onEdge, BOARD_SIZE.
  pose proof (centreBonus_exact (row p) (col p)) as Hc. unfold distToCenter2 in Hc.
  destruct piece as [pl []]; cbn; repeat case_decide; try done;
    repeat case_match; lia.
Qed.

(** On the squares of the board the variable [value] of the code is the
    worth of the piece. *)
Lemma pieceValue_worth piece p :
  onBoard p → pieceValue piece (row p) (col p) = worth piece p.
Proof.
  intros Hp%onBoard_spec. unfold pieceValue, worth, stepsToEdge, onEdge, BOARD_SIZE.
  pose proof (centreBonus_exact (row p) (col p)) as Hc. unfold distToCenter2 in Hc.
  destruct piece as [[] []]; cbn; repeat case_decide; try done;
    repeat case_match; lia.
Qed.

(** ** The loop *)

Lemma readSquare_Ok b pos :
  0 ≤ row pos < Z.of_nat (length b) → readSquare b pos ⇓ b.[pos].
Proof.
  intros [sq Hsq]%getRow_is_Some. unfold readSquare. by rewrite Hsq.
Qed.

Lemma readSquare_is_Ok b pos :
  is_Ok (readSquare b pos) ↔ 0 ≤ row pos < Z.of_nat (length b).
Proof.
  rewrite <-getRow_is_Some. unfold readSquare, is_Ok, is_Some.
  destruct (getRow b (row pos)); split; intros [? ?]; eauto; done.
Qed.

(** The loop of [evaluateBoard], as a sum of what is read. *)
Lemma evaluateBoard_fold b pl :
  evaluateBoard b pl =
  foldM (λ s pos, v ← (sq ← readSquare b pos; Ok (signedWorth b pl pos)); Ok (s + v))
        0 allPositions.
Proof.
  apply foldM_ext. intros s pos _. unfold signedWorth, readSquare.
  destruct (getRow b (row pos)); cbn; [|done]. destruct (b.[pos]); cbn; f_equal. lia.
Qed.

Lemma evaluateBoard_sum b pl :
  (8 ≤ length b)%nat → evaluateBoard b pl ⇓ sumZ (signedWorth b pl) allPositions.
Proof.
  intros Hlen. rewrite evaluateBoard_fold.
  rewrite (foldM_sum _ (signedWorth b pl)); [done|].
  intros pos Hpos%elem_of_allPositions%onBoard_spec.
  rewrite readSquare_Ok by lia. done.
Qed.

Lemma evaluateBoard_is_Ok b pl : is_Ok (evaluateBoard b pl) ↔ (8 ≤ length b)%nat.
Proof.
  split; [|intros ?%(evaluateBoard_sum b pl); by eexists].
  intros [s Hs]. rewrite evaluateBoard_fold in Hs.
  destruct (foldM_Ok_elem _ _ _ _ (mkPosition 7 0) Hs) as (s1 & v & Hv);
    [by apply elem_of_allPositions|].
  apply bind_Ok in Hv as (? & (sq & Hsq & _)%bind_Ok & _).
  assert (is_Ok (readSquare b (mkPosition 7 0))) as Hok%readSquare_is_Ok by by eexists.
  cbn in Hok. lia.
Qed.

Lemma evaluateBoard_Err b pl e : evaluateBoard b pl ↯ e → e = TypeError.
Proof.
  intros (pos & s & _ & Hpos)%foldM_Err. unfold readSquare in Hpos.
  destruct (getRow b (row pos)); cbn in Hpos; [by case_match|congruence].
Qed.

(** The contribution of a square: the worth of a piece of the player, minus
    the worth of a piece of the opponent. *)
Lemma signedWorth_split b pl pos :
  onBoard pos →
  signedWorth b pl pos =
  (if decide (ownedBy b pl pos = true) then worthAt b pos else 0)
  - (if decide (ownedBy b (getOpponent pl) pos = true) then worthAt b pos else 0).
Proof.
  intros Hpos. unfold signedWorth, worthAt, ownedBy, multiplier.
  destruct (b.[pos]) as [piece|]; [|done]. rewrite (pieceValue_worth piece pos Hpos).
  generalize (worth piece pos). intros w. destruct piece as [pp ty].
  destruct pp, pl; simpl; repeat (case_decide || case_bool_decide); try done; lia.
Qed.

Lemma sumZ_signedWorth b pl :
  sumZ (signedWorth b pl) allPositions = material b pl - material b (getOpponent pl).
Proof.
  unfold material, piecesOf. rewrite !sumZ_filter, <-sumZ_sub.
  apply sumZ_ext. intros pos Hpos%elem_of_allPositions. by apply signedWorth_split.
Qed.

Lemma material_bounds b pl :
  100 * Z.of_nat (length (piecesOf b pl)) ≤ material b pl
  ≤ 535 * Z.of_nat (length (piecesOf b pl)).
Proof.
  apply sumZ_bounds. intros pos (Hown & Hpos%elem_of_allPositions)%list_elem_of_filter.
  unfold ownedBy in Hown.
  unfold worthAt. destruct (b.[pos]) as [piece|]; [|done].
  rewrite <-pieceValue_worth by done. by apply pieceValue_bounds.
Qed.

Lemma evaluateBoard_Ok b pl s :
  evaluateBoard b pl ⇓ s → s = material b pl - material b (getOpponent pl).
Proof.
  intros Hs. assert (is_Ok (evaluateBoard b pl)) as Hlen%evaluateBoard_is_Ok
    by by eexists.
  rewrite (evaluateBoard_sum b pl Hlen), sumZ_signedWorth in Hs. congruence.
Qed.

(** ** Properties of the evaluator *)

(** [C22] The evaluator computes material difference: when the board has
    its eight rows, [evaluateBoard] returns the worth of the pieces of the
    player minus the worth of the pieces of the opponent, where a man is
    worth 100 plus 10 per row of advance, a king 500 plus its
    centralisation bonus, and a piece on the rim 15 more ([worth], which
    is written without the code's running variable and its halves). *)
Theorem evaluateBoard_spec b pl :
  (8 ≤ length b)%nat →
  evaluateBoard b pl ⇓ material b pl - material b (getOpponent pl).
Proof. intros Hlen. by rewrite evaluateBoard_sum, sumZ_signedWorth. Qed.

Lemma evaluateBoard_spec_witness :
  evaluateBoard initialBoard WHITE
  ⇓ material initialBoard WHITE - material initialBoard (getOpponent WHITE).
Proof. apply evaluateBoard_spec. vm_compute. lia. Defined.

(** Antisymmetry: the score of a board for one side is the negation
    of its score for the other side, so the sign convention is the same on
    both levels of the minimax alternation. *)
Theorem evaluateBoard_antisymmetric b pl s :
  evaluateBoard b pl ⇓ s → evaluateBoard b (getOpponent pl) ⇓ - s.
Proof.
  intros Hs. pose proof (evaluateBoard_Ok _ _ _ Hs) as ->.
  assert (is_Ok (evaluateBoard b pl)) as Hlen%evaluateBoard_is_Ok by by eexists.
  rewrite (evaluateBoard_sum _ _ Hlen), sumZ_signedWorth, getOpponent_involutive.
  f_equal. lia.
Qed.

Lemma evaluateBoard_antisymmetric_witness :
  evaluateBoard initialBoard BLACK ⇓ - 0.
Proof. by apply (evaluateBoard_antisymmetric initialBoard WHITE 0). Defined.

(** The score is bounded by the number of pieces: every piece of the
    8x8 window is worth between 100 and 535, so the score lies between 100
    times the player's pieces minus 535 times the opponent's and 535 times
    the player's pieces minus 100 times the opponent's.  With at most
    twelve pieces a side its absolute value stays below the 10000 of a
    decided game. *)
Theorem evaluateBoard_bounds b pl s :
  evaluateBoard b pl ⇓ s →
  let own := Z.of_nat (length (piecesOf b pl)) in
  let opp := Z.of_nat (length (piecesOf b (getOpponent pl))) in
  100 * own - 535 * opp ≤ s ≤ 535 * own - 100 * opp ∧
  (own ≤ 12 → opp ≤ 12 → Z.abs s < 10000).
Proof.
  intros ->%evaluateBoard_Ok own opp.
  pose proof (material_bounds b pl). pose proof (material_bounds b (getOpponent pl)).
  subst own opp. lia.
Qed.

Lemma evaluateBoard_bounds_witness :
  100 * 12 - 535 * 12 ≤ 0 ≤ 535 * 12 - 100 * 12 ∧
  (12 ≤ 12 → 12 ≤ 12 → Z.abs 0 < 10000).
Proof. exact (evaluateBoard_bounds initialBoard WHITE 0 eq_refl). Defined.

(** [C40] The evaluator throws exactly on a board with fewer than eight
    rows, where [board[r]] is undefined for some row of the loop; the
    exception is a [TypeError]. *)
Theorem evaluateBoard_throws b pl e :
  evaluateBoard b pl ↯ e ↔ e = TypeError ∧ (length b < 8)%nat.
Proof.
  pose proof (evaluateBoard_is_Ok b pl) as Hok. split.
  - intros He. pose proof (evaluateBoard_Err _ _ _ He) as ->. split; [done|].
    destruct (decide (8 ≤ length b)%nat) as [[s Hs]%Hok|]; [congruence|lia].
  - intros [-> Hlen]. destruct (is_Ok_dec (evaluateBoard b pl)) as [?%Hok|[e He]]; [lia|].
    by rewrite (evaluateBoard_Err _ _ _ He) in He.
Qed.
