(* ===== verification/Game.v ===== *)
(** * Game: the positions of the game and what every one of them satisfies

    The positions that legal play can reach from the initial board of
    [createInitialBoard] ([played]), and the facts about [applyMove] on a
    legal move that bound them: the opponent loses exactly the captured
    pieces, the player keeps its pieces (but for a capture that returns to
    its start, see [Apply]), pieces stay on the dark squares.  Every
    position of the game is an 8x8 board with at most twelve pieces a side,
    all on dark squares, on which [evaluateBoard] returns a score below the
    10000 that [minimax] gives to a decided game.  The game screen keeps its
    history inside these positions ([GameScreen.inv]). *)

From stdpp Require Import prelude.
From Stdlib Require Import ZArith Lia.
From S2P Require Import Prelude Types Board MoveGen Chains Apply Terminal Eval.

Local Open Scope Z_scope.

(** The positions of the game: the initial board, and the board
    [applyMove] returns for a legal move of either side on a position of
    the game.  The side to move is left free: undo and the capture that
    follows a promotion let a side move twice. *)
Inductive played : Board → Prop :=
  | played_init : played initialBoard
  | played_move b pl m r :
      played b → legalMove b pl m → applyMove b m ⇓ r → played (newBoard r).

(** A dark square, the test of [createInitialBoard]:
    [(row + col) % 2 !== 0]. *)
Definition onDark (p : Position) : Prop := Z.odd (row p + col p) = true.

(** A board of the game's size with at most twelve pieces a side, as many
    as [createInitialBoard] places. *)
Definition fewPieces (b : Board) : Prop :=
  wf_board b ∧ (length (piecesOf b WHITE) ≤ 12)%nat ∧ (length (piecesOf b BLACK) ≤ 12)%nat.

#[export] Instance fewPieces_dec b : Decision (fewPieces b).
Proof. unfold fewPieces. apply _. Defined.

(** The opening moves of White: a step of each man of row 5 to each dark
    square of row 4 next to it. *)
Definition openingMoves : list Move :=
  (λ '(c, c'), mkMove (mkPosition 5 c) (mkPosition 4 c') []) <$>
  [(0, 1); (2, 1); (2, 3); (4, 3); (4, 5); (6, 5); (6, 7)].

(** ** The pieces after a legal move *)

Section move.
Context (b : Board) (pl : Player) (m : Move) (r : ApplyMoveResult).
Context (Hwf : wf_board b) (Hm : legalMove b pl m) (Hr : applyMove b m ⇓ r).

Lemma applyMove_legal_getAt :
  ∃ piece, b.[from m] = Some piece ∧ player piece = pl ∧
    ∀ x, (newBoard r).[x] =
         if decide (x = from m ∨ x ∈ captured m) then None
         else if decide (x = to m) then Some (movedPiece piece (to m)) else b.[x].
Proof using Hwf Hm Hr.
  pose proof Hm as (_ & Hto%onBoard_spec & Hpl & _ & _ & Hcap)%legalMove_wellformed.
  destruct (b.[from m]) as [piece|] eqn:Hpiece; [|done]. injection Hpl as Hpl.
  exists piece. split_and!; [done..|]. intros x.
  rewrite (applyMove_getAt b m piece r Hpiece Hr) by lia.
  unfold vacated. pose proof (Hcap x). repeat case_decide; try done; tauto.
Qed.

(** The opponent keeps the pieces that were not captured. *)
Lemma piecesOf_opponent :
  piecesOf (newBoard r) (getOpponent pl) =
  filter (λ p, ownedBy b (getOpponent pl) p = true ∧ p ∉ captured m) allPositions.
Proof using Hwf Hm Hr.
  destruct applyMove_legal_getAt as (piece & Hpiece & Hpl & Hget).
  pose proof Hm as (_ & _ & _ & Hto & _)%legalMove_wellformed.
  pose proof (getOpponent_ne pl) as Hne.
  apply filter_ext_elem. intros x _. rewrite !ownedBy_true, Hget.
  destruct (decide (x = from m ∨ x ∈ captured m)) as [[->|Hx]|Hx].
  - rewrite Hpiece. cbn. split; [done|]. intros [[= ?] _]. congruence.
  - split; [done|tauto].
  - destruct (decide (x = to m)) as [->|]; [|tauto]. cbn. rewrite movedPiece_player.
    split; [intros [= ?]; congruence|]. intros [Hopp _].
    destruct Hto as [Hto|[Hto _]]; [by rewrite Hto in Hopp|tauto].
Qed.

(** The player keeps every piece; the one that moved stands on [to],
    unless the move came back to [from]. *)
Lemma piecesOf_player :
  piecesOf (newBoard r) pl =
  filter (λ p, (p = to m ∧ to m ≠ from m) ∨ (ownedBy b pl p = true ∧ p ≠ from m))
    allPositions.
Proof using Hwf Hm Hr.
  destruct applyMove_legal_getAt as (piece & Hpiece & Hpl & Hget).
  pose proof Hm as (_ & _ & _ & Hto & _ & Hcap)%legalMove_wellformed.
  pose proof (getOpponent_ne pl) as Hne.
  apply filter_ext_elem. intros x _. rewrite !ownedBy_true, Hget.
  destruct (decide (x = from m ∨ x ∈ captured m)) as [[->|Hx]|Hx].
  - split; [done|intuition congruence].
  - destruct (Hcap x Hx) as (_ & ? & Hopp). rewrite Hopp.
    split; [done|]. intros [[? _]|[[= ?] _]]; congruence.
  - destruct (decide (x = to m)) as [->|]; [|tauto]. cbn. rewrite movedPiece_player, Hpl.
    split; [tauto|done].
Qed.
End move.

Section counts.
Context (b : Board) (pl : Player) (m : Move) (r : ApplyMoveResult).
Context (Hwf : wf_board b) (Hm : legalMove b pl m) (Hr : applyMove b m ⇓ r).

(** The opponent loses as many pieces as the move captures. *)
Lemma count_opponent :
  (length (piecesOf (newBoard r) (getOpponent pl)) + length (captured m)
   = length (piecesOf b (getOpponent pl)))%nat.
Proof using Hwf Hm Hr.
  rewrite (piecesOf_opponent b pl m r) by done.
  pose proof Hm as (_ & _ & _ & _ & Hnd & Hcap)%legalMove_wellformed.
  apply filter_remove_all_length; [apply NoDup_allPositions|done|].
  intros c (? & _ & ?)%Hcap. by rewrite elem_of_allPositions, ownedBy_true.
Qed.

(** The player keeps its pieces, but for the piece of a capture that came
    back to the square it started from. *)
Lemma count_player :
  length (piecesOf (newBoard r) pl) =
  (length (piecesOf b pl) - if decide (to m = from m) then 1 else 0)%nat.
Proof using Hwf Hm Hr.
  rewrite (piecesOf_player b pl m r) by done.
  pose proof Hm as (Hfrom & Hto & Hpl & Hempty & _)%legalMove_wellformed.
  unfold piecesOf.
  rewrite (filter_remove_length (λ p, ownedBy b pl p = true) allPositions (from m));
    [|apply NoDup_allPositions|by apply elem_of_allPositions|by apply ownedBy_true].
  case_decide as Hring.
  - rewrite Nat.sub_1_r. cbn. f_equal. apply filter_ext_elem. tauto.
  - rewrite Nat.sub_0_r, <-(filter_add_length _ allPositions (to m));
      [|apply NoDup_allPositions|by apply elem_of_allPositions|].
    + f_equal. apply filter_ext_elem. tauto.
    + rewrite ownedBy_true. destruct Hempty as [->|[? _]]; [|done]. by intros [? _].
Qed.
End counts.

(** ** Moves stay on the dark squares *)

Lemma onDark_shift p q k :
  row q + col q = row p + col p + 2 * k → onDark p → onDark q.
Proof. unfold onDark. intros ->. by rewrite Z.odd_add_mul_2. Qed.

Lemma legalMove_onDark b pl m : legalMove b pl m → onDark (from m) → onDark (to m).
Proof.
  intros [[(piece & _ & _ & _ & _ & _ & b' & Hchain & _) _]|[_ Hstep]].
  - apply chain_apart in Hchain as [(k & l & ? & ?) _].
    apply (onDark_shift _ _ (k + l)). lia.
  - destruct Hstep as (piece & [dr dc] & _ & _ & _ & (Hr & Hc)%directions_diagonal & -> & _).
    cbn in *. destruct Hr as [-> | ->], Hc as [-> | ->];
      [apply (onDark_shift _ _ 1)|apply (onDark_shift _ _ 0)..|apply (onDark_shift _ _ (-1))];
      cbn; lia.
Qed.

(** ** The positions of the game *)

Lemma played_wf b : played b → wf_board b.
Proof.
  induction 1 as [|b pl m r _ IH Hm Hr]; [apply initialBoard_wf|].
  pose proof Hm as (_ & Hto & _)%legalMove_wellformed.
  destruct (applyMove_total b m IH Hto) as (r' & Hr' & ?). congruence.
Qed.

Lemma fewPieces_count b pl : fewPieces b → (length (piecesOf b pl) ≤ 12)%nat.
Proof. intros (_ & ? & ?). by destruct pl. Qed.

(** Legal moves add no piece. *)
Lemma fewPieces_move b pl m r :
  fewPieces b → legalMove b pl m → applyMove b m ⇓ r → fewPieces (newBoard r).
Proof.
  intros Hb Hm Hr. pose proof Hb as (Hwf & _).
  pose proof Hm as (_ & Hto & _)%legalMove_wellformed.
  destruct (applyMove_total b m Hwf Hto) as (r' & Hr' & Hwfr).
  assert (r' = r) as -> by congruence.
  pose proof (count_opponent b pl m r Hwf Hm Hr).
  pose proof (count_player b pl m r Hwf Hm Hr).
  pose proof (fewPieces_count b pl Hb). pose proof (fewPieces_count b (getOpponent pl) Hb).
  assert (∀ pl', (length (piecesOf (newBoard r) pl') ≤ 12)%nat) as Hcount.
  { intros pl'. destruct (player_cases pl' pl) as [-> | ->]; lia. }
  by split_and!.
Qed.

Lemma played_fewPieces b : played b → fewPieces b.
Proof.
  induction 1 as [|b pl m r _ IH Hm Hr]; [|by eapply fewPieces_move].
  apply (bool_decide_unpack _). by vm_compute.
Qed.

Lemma played_count b pl : played b → (length (piecesOf b pl) ≤ 12)%nat.
Proof. intros ?%played_fewPieces. by apply fewPieces_count. Qed.

Lemma played_onDark b p piece : played b → b.[p] = Some piece → onDark p.
Proof.
  intros Hb. revert p piece. induction Hb as [|b pl m r Hb IH Hm Hr]; intros p q.
  { rewrite initialBoard_getAt. case_bool_decide as Hp; [intros _; apply Hp|done]. }
  destruct (applyMove_legal_getAt b pl m r (played_wf b Hb) Hm Hr)
    as (piece & Hpiece & _ & ->).
  repeat case_decide; [done| |by apply IH]. subst. intros _.
  eapply legalMove_onDark; [done|]. by eapply IH.
Qed.

(** With at most twelve pieces a side the heuristic stays below the
    score of a decided game. *)
Lemma fewPieces_score b pl : fewPieces b → ∃ s, evaluateBoard b pl ⇓ s ∧ Z.abs s < 10000.
Proof.
  intros Hb. pose proof Hb as ([Hlen _] & _).
  destruct (proj2 (evaluateBoard_is_Ok b pl)) as [s Hs]; [by rewrite Hlen|].
  exists s. split; [done|]. apply evaluateBoard_Ok in Hs as ->.
  pose proof (material_bounds b pl). pose proof (material_bounds b (getOpponent pl)).
  pose proof (fewPieces_count b pl Hb). pose proof (fewPieces_count b (getOpponent pl) Hb).
  lia.
Qed.

(** ** Properties *)

Lemma doubleJump_legal :
  legalMove doubleJumpBoard WHITE
    (mkMove (mkPosition 5 2) (mkPosition 1 2) [mkPosition 4 3; mkPosition 2 3]).
Proof. eapply getAllPlayerMoves_legal; [by vm_compute|]. set_solver. Qed.

Lemma opening_legal m : m ∈ openingMoves → legalMove initialBoard WHITE m.
Proof. intros Hm. eapply getAllPlayerMoves_legal; [by vm_compute|done]. Qed.

(** The opening moves: on the initial board the generator returns seven
    moves for White, in this order: each man of row 5 steps to each dark
    square of row 4 diagonally next to it (the man on the edge has one
    such square, the three others have two). *)
Example opening_moves : getAllPlayerMoves initialBoard PLAYER_ONE ⇓ openingMoves.
Proof. by vm_compute. Qed.

(** [C19] A legal move changes the number of pieces as the rules say: on a
    well-formed board, after [applyMove] of a legal move of [pl] the
    opponent has lost as many pieces as the move lists as captured, and
    [pl] has as many pieces as before, or one less when the capture ended
    on the square it started from. *)
Theorem applyMove_counts b pl m r :
  wf_board b → legalMove b pl m → applyMove b m ⇓ r →
  (length (piecesOf (newBoard r) (getOpponent pl)) + length (captured m)
   = length (piecesOf b (getOpponent pl)))%nat ∧
  length (piecesOf (newBoard r) pl) =
  (length (piecesOf b pl) - if decide (to m = from m) then 1 else 0)%nat.
Proof. intros. split; [by apply count_opponent|by apply count_player]. Qed.

Lemma applyMove_counts_witness :
  ∃ r, applyMove doubleJumpBoard
         (mkMove (mkPosition 5 2) (mkPosition 1 2) [mkPosition 4 3; mkPosition 2 3]) ⇓ r ∧
       (length (piecesOf (newBoard r) BLACK) + 2 = 3)%nat ∧
       length (piecesOf (newBoard r) WHITE) = 1%nat.
Proof.
  assert (wf_board doubleJumpBoard) as Hwf by (apply (bool_decide_unpack _); by vm_compute).
  destruct (applyMove_total doubleJumpBoard
    (mkMove (mkPosition 5 2) (mkPosition 1 2) [mkPosition 4 3; mkPosition 2 3]) Hwf)
    as (r & Hr & _); [done|].
  exists r. split; [done|].
  exact (applyMove_counts doubleJumpBoard WHITE _ r Hwf doubleJump_legal Hr).
Defined.

(** [C13] What every position of the game satisfies: a board reached from
    the initial board by legal moves, each applied by [applyMove], is an
    8x8 board, holds at most twelve pieces of each side, and has its
    pieces on dark squares only. *)
Theorem played_invariant b :
  played b →
  wf_board b ∧ (∀ pl, (length (piecesOf b pl) ≤ 12)%nat) ∧
  (∀ p piece, b.[p] = Some piece → onDark p).
Proof.
  intros Hb. split_and!; [by apply played_wf|intros; by apply played_count|].
  intros p piece. by apply played_onDark.
Qed.

Lemma played_opening m : m ∈ openingMoves → ∃ r, applyMove initialBoard m ⇓ r ∧ played (newBoard r).
Proof.
  intros Hm%opening_legal.
  pose proof Hm as (_ & Hto & _)%legalMove_wellformed.
  destruct (applyMove_total initialBoard m initialBoard_wf Hto) as (r & Hr & _).
  exists r. split; [done|]. by eapply played_move; [apply played_init|..].
Qed.

Lemma played_invariant_witness :
  ∃ r, applyMove initialBoard (mkMove (mkPosition 5 0) (mkPosition 4 1) []) ⇓ r ∧
       wf_board (newBoard r) ∧
       (∀ pl, (length (piecesOf (newBoard r) pl) ≤ 12)%nat) ∧
       (∀ p piece, (newBoard r).[p] = Some piece → onDark p).
Proof.
  destruct (played_opening (mkMove (mkPosition 5 0) (mkPosition 4 1) []))
    as (r & Hr & Hplayed); [by left|].
  exists r. split; [done|]. by apply played_invariant.
Defined.

(** The heuristic never reaches the score of a decided game: on every
    position of the game [evaluateBoard] returns, for either side, a score
    of absolute value below 10000, the least score [minimax] gives to a
    won or lost position. *)
Theorem played_score_below_win b pl :
  played b → ∃ s, evaluateBoard b pl ⇓ s ∧ Z.abs s < 10000.
Proof. intros ?%played_fewPieces. by apply fewPieces_score. Qed.

Lemma played_score_below_win_witness :
  ∃ s, evaluateBoard initialBoard BLACK ⇓ s ∧ Z.abs s < 10000.
Proof. apply played_score_below_win, played_init. Defined.

(** ** A complete capture leaves no capture to the piece *)

Section complete.
Context (b : Board) (pl : Player) (m : Move) (r : ApplyMoveResult).
Context (Hwf : wf_board b) (Hm : isCaptureMove b pl m) (Hr : applyMove b m ⇓ r).

(** Unless the moved man was promoted, the piece that captured has no
    capture left on the board [applyMove] returns. *)
Lemma capture_complete m' :
  promoted r = false → isCaptureMove (newBoard r) pl m' → from m' ≠ to m.
Proof using Hwf Hm Hr.
  intros Hprom (piece' & _ & Hpiece' & _ & _ & Hne' & b2 & Hchain' & _) Heq.
  pose proof Hm as (_ & Hto & _ & _ & _ & Hcap)%isCaptureMove_wellformed.
  pose proof Hm as (piece & Hfrom & Hpiece & _ & _ & Hne & b' & Hchain & Hstuck).
  pose proof Hto as Hcol%onBoard_spec.
  rewrite Heq, (applyMove_getAt b m piece r Hpiece Hr) in Hpiece' by lia.
  rewrite (applyMove_promoted b m piece r Hpiece Hr) in Hprom by lia.
  case_decide as Hvac; [done|]. rewrite decide_True in Hpiece' by done.
  rewrite bool_decide_true, andb_true_r in Hprom by done.
  unfold movedPiece in Hpiece'. rewrite Hprom in Hpiece'. injection Hpiece' as <-.
  inversion Hchain' as [|? ? o b1 p1 os ? ? Hjump]; subst; [done|].
  rewrite Heq in Hjump. destruct (jump_ext piece (newBoard r) b' (to m) o b1 p1) as [b1' Hj];
    [|by eapply chain_wf|done..|by eapply Hstuck].
  intros x. rewrite (applyMove_capture_getAt b pl m Hwf Hm piece b' r) by
    (done || intros ?; apply Hvac; by left).
  case_decide as Hx; [|done]. subst x. unfold movedPiece. rewrite Hprom.
  by rewrite (chain_getAt _ _ _ _ _ _ (to m) Hchain Hne), decide_True.
Qed.
End complete.
