(* ===== verification/Order.v ===== *)
(** * Order: the order in which the generator lists the moves

    The loops of [src/src/game/logic.ts] visit the squares row by row and
    each row from the left (lines 66-67 and 133-134), and try the
    directions of a piece in the order of the direction table (lines 15-17,
    93-95 and 136-138); the filters that keep the longest captures keep
    that order.  The levels of the AI depend on it: the easy and the
    medium level draw an index of the list, the hard level takes the first
    of the best moves.

    [moveLt] is the strict total order that compares two moves by their
    origins in reading order, then by the squares they capture, then by
    their targets.  The list of [getAllPlayerMoves] is strictly increasing
    for it; with the characterisation of its members ([MoveGen]) that
    determines the list. *)

From stdpp Require Import prelude sorting.
From Stdlib Require Import ZArith Lia.
From S2P Require Import Prelude Types Board MoveGen Chains Game.

Local Open Scope Z_scope.

(** ** The order of the moves *)

(** Pairs of integers, the first component first. *)
Definition pairLt (d d' : Z * Z) : Prop := d.1 < d'.1 ∨ (d.1 = d'.1 ∧ d.2 < d'.2).

(** Squares in reading order: row by row, each row from the left. *)
Definition posLt (p q : Position) : Prop := pairLt (row p, col p) (row q, col q).

(** Lists of squares, by the first square in which they differ. *)
Fixpoint pathLt (l1 l2 : list Position) : Prop :=
  match l1, l2 with
  | _, [] => False
  | [], _ :: _ => True
  | p :: l1, q :: l2 => posLt p q ∨ (p = q ∧ pathLt l1 l2)
  end.

(** Moves with the same origin, by what they capture. *)
Definition capturedLt (m1 m2 : Move) : Prop := pathLt (captured m1) (captured m2).

Definition moveLt (m1 m2 : Move) : Prop :=
  posLt (from m1) (from m2) ∨
  (from m1 = from m2 ∧
   (capturedLt m1 m2 ∨ (captured m1 = captured m2 ∧ posLt (to m1) (to m2)))).

#[export] Instance pairLt_dec : RelDecision pairLt.
Proof. intros d d'. unfold pairLt. apply _. Defined.

#[export] Instance posLt_dec : RelDecision posLt.
Proof. intros p q. unfold posLt. apply _. Defined.

#[export] Instance pathLt_dec : RelDecision pathLt.
Proof.
  intros l1. induction l1 as [|p l1 IH]; intros [|q l2]; cbn; apply _.
Defined.

#[export] Instance moveLt_dec : RelDecision moveLt.
Proof. intros m1 m2. unfold moveLt, capturedLt. apply _. Defined.

#[export] Instance pairLt_strict : StrictOrder pairLt.
Proof. unfold pairLt. split; [intros d ?|intros d1 d2 d3 ? ?]; lia. Qed.

#[export] Instance posLt_strict : StrictOrder posLt.
Proof.
  unfold posLt. split; [intros p; apply (irreflexivity pairLt)|].
  intros p q r. apply (transitivity (R:=pairLt)).
Qed.

#[export] Instance posLt_trichotomy : Trichotomy posLt.
Proof.
  intros [r c] [r' c']. unfold posLt, pairLt. cbn.
  destruct (Z.lt_total r r') as [?|[->|?]], (Z.lt_total c c') as [?|[->|?]]; auto.
Qed.

#[export] Instance pathLt_strict : StrictOrder pathLt.
Proof.
  split.
  - intros l Hl. induction l as [|p l IH]; cbn in Hl; [done|].
    destruct Hl as [?%(irreflexivity posLt)|[_ ?]]; auto.
  - intros l1. induction l1 as [|p l1 IH]; intros [|q l2] [|r l3]; cbn; try tauto.
    intros [?|[-> ?]] [?|[-> ?]]; [left; by etrans|by left..|right; eauto].
Qed.

#[export] Instance pathLt_trichotomy : Trichotomy pathLt.
Proof.
  intros l1. induction l1 as [|p l1 IH]; intros [|q l2]; cbn; auto.
  destruct (trichotomy posLt p q) as [?|[->|?]]; auto.
  destruct (IH l2) as [?|[->|?]]; auto.
Qed.

#[export] Instance moveLt_strict : StrictOrder moveLt.
Proof.
  unfold moveLt, capturedLt. split.
  - intros m [?%(irreflexivity posLt)|[_ [?%(irreflexivity pathLt)|[_ ?%(irreflexivity posLt)]]]];
      done.
  - intros m1 m2 m3 [?|[E1 H1]] [?|[E2 H2]];
      [left; by etrans|left; congruence..|right; split; [congruence|]].
    destruct H1 as [?|[C1 ?]], H2 as [?|[C2 ?]];
      [left; by etrans|left; congruence..|right; split; [congruence|by etrans]].
Qed.

#[export] Instance moveLt_trichotomy : Trichotomy moveLt.
Proof.
  intros [f t c] [f' t' c']. unfold moveLt, capturedLt. cbn.
  destruct (trichotomy posLt f f') as [?|[->|?]]; [auto| |auto].
  destruct (trichotomy pathLt c c') as [?|[->|?]]; [auto 6| |auto 8].
  destruct (trichotomy posLt t t') as [?|[->|?]]; auto 10.
Qed.

(** The squares captured after a common beginning decide. *)
Lemma pathLt_app cs l1 l2 : pathLt l1 l2 → pathLt (cs ++ l1) (cs ++ l2).
Proof. intros H. induction cs; cbn; auto. Qed.

(** Along one line from a square the squares come in the order of the
    directions. *)
Lemma posLt_offset p d d' : pairLt d d' → posLt (offset p 1 d) (offset p 1 d').
Proof. unfold posLt, pairLt, offset. cbn. lia. Qed.

(** ** Lists in strictly increasing order *)

Section sorted.
Context {A B : Type} (S : relation A) (R : relation B) (P : A → B → Prop).
Context (HR : ∀ x x' y y', S x x' → P x y → P x' y' → R y y').

(** The concatenation of sorted lists whose elements carry increasing
    keys is sorted. *)
Lemma StronglySorted_join l (rs : list (list B)) :
  StronglySorted S l →
  Forall2 (λ x r, StronglySorted R r ∧ ∀ y, y ∈ r → P x y) l rs →
  StronglySorted R (mjoin rs).
Proof using HR.
  intros Hl HF. induction HF as [|x r l rs [Hr HP] HF IH]; cbn; [constructor|].
  apply StronglySorted_cons in Hl as [Hx Hl].
  apply StronglySorted_app_2; [|done|by apply IH].
  intros y y' Hy (r' & Hy' & [i Hi]%list_elem_of_lookup)%list_elem_of_join.
  destruct (Forall2_lookup_r _ _ _ _ _ HF Hi) as (x' & Hx' & _ & HP').
  rewrite Forall_forall in Hx. eapply HR; [|by apply HP|by apply HP'].
  by eapply Hx, list_elem_of_lookup_2.
Qed.

Lemma StronglySorted_bind l (f : A → list B) :
  StronglySorted S l →
  (∀ x, StronglySorted R (f x) ∧ ∀ y, y ∈ f x → P x y) →
  StronglySorted R (l ≫= f).
Proof using HR.
  intros Hl Hf.
  induction Hl as [|x l Hl IH Hx]; cbn; [constructor|].
  apply StronglySorted_app_2; [|apply Hf|done].
  intros y y' Hy (x' & Hy' & Hx')%list_elem_of_bind.
  rewrite Forall_forall in Hx. eapply HR; [by apply Hx|by apply Hf..].
Qed.

(** The result of a push loop over sorted keys. *)
Lemma pushAllM_sorted (f : A → res (list B)) l out :
  StronglySorted S l →
  (∀ x r, f x ⇓ r → StronglySorted R r ∧ ∀ y, y ∈ r → P x y) →
  pushAllM f l ⇓ out → StronglySorted R out.
Proof using HR.
  intros Hl Hf (rs & HF & ->)%pushAllM_Ok.
  apply (StronglySorted_join l); [done|]. eapply Forall2_impl; [done|]. apply Hf.
Qed.
End sorted.

Section sorted_facts.
Context {A : Type} (R : relation A).

Lemma StronglySorted_filter (P : A → Prop) `{∀ x, Decision (P x)} l :
  StronglySorted R l → StronglySorted R (filter P l).
Proof.
  induction 1 as [|x l Hl IH Hx]; [constructor|].
  rewrite filter_cons. case_decide; [|done]. constructor; [done|].
  rewrite Forall_forall in Hx. apply Forall_forall. by intros y [_ ?%Hx]%list_elem_of_filter.
Qed.

(** Sortedness for a relation that holds between the elements of the list
    whenever the first does. *)
Lemma StronglySorted_weaken (R' : relation A) l :
  (∀ x y, x ∈ l → y ∈ l → R x y → R' x y) →
  StronglySorted R l → StronglySorted R' l.
Proof.
  intros HR Hl. induction Hl as [|x l Hl IH Hx]; [constructor|].
  constructor; [apply IH; intros; apply HR; by try right|].
  rewrite Forall_forall in Hx. apply Forall_forall. intros y Hy.
  apply HR; [left|by right|by apply Hx].
Qed.

Lemma StronglySorted_fmap {B} (f : B → A) l :
  StronglySorted (λ x y, R (f x) (f y)) l → StronglySorted R (f <$> l).
Proof.
  induction 1 as [|x l Hl IH Hx]; cbn; [constructor|].
  constructor; [done|]. by apply Forall_fmap.
Qed.

Lemma StronglySorted_NoDup `{!Irreflexive R} l : StronglySorted R l → NoDup l.
Proof.
  induction 1 as [|x l Hl IH Hx]; constructor; [|done].
  rewrite Forall_forall in Hx. by intros ?%Hx%(irreflexivity R).
Qed.

(** A strict order lists a set in one way only. *)
Lemma StronglySorted_elements `{!StrictOrder R} l1 l2 :
  StronglySorted R l1 → StronglySorted R l2 → (∀ x, x ∈ l1 ↔ x ∈ l2) → l1 = l2.
Proof.
  intros H1 H2 Helem. apply (StronglySorted_unique_strong R); [|done..|].
  - intros x y _ _ Hxy Hyx. by destruct (irreflexivity R x); etrans.
  - apply NoDup_Permutation; [by apply StronglySorted_NoDup..|done].
Qed.
End sorted_facts.

(** ** The order of the loops *)

Lemma directions_sorted piece : StronglySorted pairLt (directions piece).
Proof.
  unfold directions. repeat case_decide; repeat constructor; unfold pairLt; cbn; lia.
Qed.

Lemma allPositions_sorted : StronglySorted posLt allPositions.
Proof. apply (bool_decide_unpack _). by vm_compute. Qed.

(** Moves of one origin in the order of what they capture are in the
    order of the moves. *)
Lemma capturedLt_moveLt pos ms :
  (∀ m, m ∈ ms → from m = pos) →
  StronglySorted capturedLt ms → StronglySorted moveLt ms.
Proof.
  intros Hfrom. apply StronglySorted_weaken. intros m m' Hm Hm' ?.
  right. split; [by rewrite !Hfrom|by left].
Qed.

(** *** Captures *)

Section captures.
Context (piece : Piece).

(** What one direction contributes starts at [from] and captures the
    square next to it in that direction first. *)
Definition startsWith (from : Position) (cs : list Position) (d : Z * Z) (m : Move) : Prop :=
  Types.from m = from ∧ ∃ os, captured m = cs ++ offset from 1 d :: os.

Lemma captureInDirection_sorted rec b from cs d ms :
  (∀ b' from' ms', rec b' from' piece (cs ++ [offset from 1 d]) ⇓ ms' →
     StronglySorted capturedLt ms' ∧
     ∀ m, m ∈ ms' → ∃ os, captured m = (cs ++ [offset from 1 d]) ++ os) →
  captureInDirection rec b from piece cs d ⇓ ms →
  StronglySorted capturedLt ms ∧ ∀ m, m ∈ ms → startsWith from cs d m.
Proof.
  intros IH [[-> _]|(_ & _ & b' & chained & _ & Hrec & ->)]%captureInDirection_Ok.
  { split; [constructor|]. by intros m ?%elem_of_nil. }
  destruct (IH _ _ _ Hrec) as [Hsorted Hpre]. case_decide.
  - split; [repeat constructor|]. intros m ->%list_elem_of_singleton.
    split; [done|]. by exists [].
  - split; [by apply StronglySorted_fmap|].
    intros m (m' & -> & [os Hos]%Hpre)%list_elem_of_fmap. split; [done|].
    exists os. cbn. by rewrite Hos, <-app_assoc.
Qed.

(** The chains of a piece from one square, in the order of the squares
    they capture. *)
Lemma capture_rec_sorted fuel b from cs ms :
  findPieceCaptureMovesRecursive fuel b from piece cs ⇓ ms →
  StronglySorted capturedLt ms ∧
  ∀ m, m ∈ ms → Types.from m = from ∧ ∃ os, captured m = cs ++ os.
Proof.
  induction fuel as [|fuel IH] in b, from, cs, ms |- *; [done|].
  rewrite findPieceCaptureMovesRecursive_S. intros Hms.
  assert (∀ d r, captureInDirection (findPieceCaptureMovesRecursive fuel) b from piece cs d ⇓ r →
            StronglySorted capturedLt r ∧ ∀ m, m ∈ r → startsWith from cs d m) as Hdir.
  { intros d r. apply captureInDirection_sorted. intros b' from' ms' Hrec.
    destruct (IH _ _ _ _ Hrec) as [? Hpre]. split; [done|]. intros m Hm. by apply Hpre. }
  split.
  - apply (pushAllM_sorted pairLt capturedLt (startsWith from cs)) in Hms;
      [done| |apply directions_sorted|done].
    intros d d' m m' Hd (_ & os & Hos) (_ & os' & Hos'). unfold capturedLt.
    rewrite Hos, Hos'. apply pathLt_app. left. by apply posLt_offset.
  - intros m (d & r & _ & Hr & Hm)%(pushAllM_elem _ _ _ _ Hms).
    destruct (Hdir d r Hr) as [_ Hstart]. destruct (Hstart m Hm) as (? & os & ?). eauto.
Qed.
End captures.

(** The captures of the piece on one square. *)
Lemma capturesAt_sorted b pl pos ms :
  capturesAt b pl pos ⇓ ms →
  StronglySorted moveLt ms ∧ ∀ m, m ∈ ms → from m = pos.
Proof.
  unfold capturesAt.
  destruct (b.[pos]) as [piece|]; [case_decide|]; [|intros [= <-]; split;
    [constructor|by intros ? ?%elem_of_nil]..].
  intros (chains & [Hsorted Hfrom]%capture_rec_sorted & ->)%findPieceCaptureMoves_Ok.
  assert (∀ m, m ∈ keepMax capturedCount chains → Types.from m = pos) as Hpos.
  { intros m [Hm _]%elem_of_keepMax. by apply Hfrom. }
  split; [|done]. apply (capturedLt_moveLt pos); [done|]. by apply StronglySorted_filter.
Qed.

Lemma findCaptureMoves_sorted b pl ms :
  findCaptureMoves b pl ⇓ ms → StronglySorted moveLt ms.
Proof.
  intros (all & Hall & ->)%findCaptureMoves_Ok. apply StronglySorted_filter.
  apply (pushAllM_sorted posLt moveLt (λ pos m, from m = pos)) in Hall;
    [done| |apply allPositions_sorted|apply capturesAt_sorted].
  intros pos pos' m m' ? <- <-. by left.
Qed.

(** *** Steps *)

Lemma stepMoves_sorted b pos piece :
  StronglySorted moveLt (stepMoves b pos piece) ∧
  ∀ m, m ∈ stepMoves b pos piece → from m = pos.
Proof.
  split; [|by intros m (d & _ & -> & _)%elem_of_stepMoves].
  apply (StronglySorted_bind pairLt moveLt
           (λ d m, m = mkMove pos (offset pos 1 d) [])); [|apply directions_sorted|].
  - intros d d' m m' Hd -> ->. right. split; [done|]. right. split; [done|].
    by apply posLt_offset.
  - intros d. cbv beta zeta.
    destruct (_ && _); [|split; [constructor|by intros ? ?%elem_of_nil]].
    split; [repeat constructor|by intros m ->%list_elem_of_singleton].
Qed.

Lemma findStandardMoves_sorted b pl : StronglySorted moveLt (findStandardMoves b pl).
Proof.
  apply (StronglySorted_bind posLt moveLt (λ pos m, from m = pos)); [|apply allPositions_sorted|].
  - intros pos pos' m m' ? <- <-. by left.
  - intros pos. cbv beta.
    destruct (b.[pos]) as [piece|]; [case_decide|]; [apply stepMoves_sorted|..];
      (split; [constructor|by intros ? ?%elem_of_nil]).
Qed.

(** ** The list of the generator *)

Lemma getAllPlayerMoves_sorted b pl ms :
  getAllPlayerMoves b pl ⇓ ms → StronglySorted moveLt ms.
Proof.
  intros (caps & Hcaps%findCaptureMoves_sorted & Hms)%bind_Ok.
  case_match; injection Hms as <-; [done|apply findStandardMoves_sorted].
Qed.

(** No move is listed twice. *)
Lemma getAllPlayerMoves_NoDup b pl ms : getAllPlayerMoves b pl ⇓ ms → NoDup ms.
Proof. intros ?%getAllPlayerMoves_sorted. by apply (StronglySorted_NoDup moveLt). Qed.

(** [C39] The generator lists the legal moves in one fixed order.  The list
    [getAllPlayerMoves] returns is strictly increasing for [moveLt]: the
    moves come by origin, row by row from the top and each row from the
    left; the moves of one piece come by the squares they capture, the
    first square that differs deciding, and its steps by their targets.
    So no move is listed twice, and the list is the only strictly
    increasing list of the legal moves of the player. *)
Theorem generator_order b pl ms :
  getAllPlayerMoves b pl ⇓ ms →
  StronglySorted moveLt ms ∧
  ∀ ms', StronglySorted moveLt ms' → (∀ m, m ∈ ms' ↔ legalMove b pl m) → ms' = ms.
Proof.
  intros Hms. pose proof (getAllPlayerMoves_sorted b pl ms Hms) as Hsorted.
  split; [done|]. intros ms' Hsorted' Hlegal.
  apply (StronglySorted_elements moveLt); [done..|]. intros m.
  by rewrite Hlegal, (getAllPlayerMoves_legal b pl ms Hms).
Qed.

(** At the opening the seven moves of White, from the man on the left edge
    to the man on the right. *)
Lemma generator_order_witness :
  StronglySorted moveLt openingMoves ∧
  ∀ ms', StronglySorted moveLt ms' →
         (∀ m, m ∈ ms' ↔ legalMove initialBoard WHITE m) → ms' = openingMoves.
Proof. apply (generator_order initialBoard WHITE openingMoves). by vm_compute. Defined.
