(* ===== verification/Num.v ===== *)
(** * Num: the numbers of the search

    The search of [src/src/game/logic.ts] computes with JavaScript numbers
    that are integers or one of the two infinities ([-Infinity] and
    [Infinity] start the running maximum, the running minimum and the
    window of the alpha-beta search).  [num] is that set, with [Math.max],
    [Math.min] and the comparisons the source uses. *)

From stdpp Require Import prelude.
From Stdlib Require Import ZArith Lia Orders OrdersTac.
From S2P Require Import Prelude.

Local Open Scope Z_scope.

Inductive num : Set := NegInf | Fin (z : Z) | PosInf.

#[export] Instance num_eq_dec : EqDecision num.
Proof. solve_decision. Defined.

(** [x <= y] *)
Definition num_leb (x y : num) : bool :=
  match x, y with
  | NegInf, _ | _, PosInf => true
  | Fin a, Fin b => a <=? b
  | _, _ => false
  end.

(** [x > y], written [num_ltb y x] *)
Definition num_ltb (x y : num) : bool := negb (num_leb y x).

(** [Math.max(x, y)] *)
Definition num_max (x y : num) : num := if num_leb x y then y else x.

(** [Math.min(x, y)] *)
Definition num_min (x y : num) : num := if num_leb x y then x else y.

(** [-x] *)
Definition num_opp (x : num) : num :=
  match x with NegInf => PosInf | Fin a => Fin (- a) | PosInf => NegInf end.

Definition num_le (x y : num) : Prop := num_leb x y = true.

Definition num_lt (x y : num) : Prop := num_ltb x y = true.

Definition is_Fin (x : num) : Prop := ∃ z, x = Fin z.

Declare Scope num_scope.
Delimit Scope num_scope with num.
Infix "≤" := num_le : num_scope.
Infix "<" := num_lt : num_scope.

(** What a search with window [(α, β)] promises of its result [r] when the
    value of the position is [v]: inside the window the result is the
    value; at or below [α] it is an upper bound of the value; at or above
    [β] it is a lower bound. *)
Definition bounded (α β v r : num) : Prop :=
  ((r ≤ α)%num → (v ≤ r)%num) ∧
  ((α < r)%num → (r < β)%num → r = v) ∧
  ((β ≤ r)%num → (r ≤ v)%num).

(** [num_solve] decides a statement about the order of a few numbers by
    cases on the infinities. *)
Ltac num_unfold :=
  unfold num_lt, num_le, num_ltb, num_max, num_min, is_Fin in *.

Ltac num_solve :=
  intros; num_unfold;
  repeat match goal with x : num |- _ => destruct x end;
  cbn in *;
  repeat match goal with
         | |- context [?a <=? ?b] => destruct (Z.leb_spec a b); cbn in *
         | H : context [?a <=? ?b] |- _ => destruct (Z.leb_spec a b); cbn in *
         end;
  try done; try (f_equal; lia); try (intuition (congruence || lia)); eauto.

#[export] Instance num_le_dec x y : Decision (x ≤ y)%num.
Proof. unfold num_le. apply _. Defined.

#[export] Instance num_lt_dec x y : Decision (x < y)%num.
Proof. unfold num_lt. apply _. Defined.

#[export] Instance num_le_preorder : PreOrder num_le.
Proof. split; [intros x|intros x y z]; num_solve. Qed.

#[export] Instance num_le_antisym : AntiSymm (=) num_le.
Proof. intros x y. num_solve. Qed.

#[export] Instance num_le_total : Total num_le.
Proof. intros x y. num_solve. Qed.

Lemma num_lt_le_incl x y : (x < y)%num → (x ≤ y)%num.
Proof. num_solve. Qed.

Lemma num_lt_nle x y : (x < y)%num ↔ ¬ (y ≤ x)%num.
Proof. unfold num_lt, num_le, num_ltb. by destruct (num_leb y x). Qed.

Lemma num_le_lt_trans x y z : (x ≤ y)%num → (y < z)%num → (x < z)%num.
Proof. num_solve. Qed.

Lemma num_lt_le_trans x y z : (x < y)%num → (y ≤ z)%num → (x < z)%num.
Proof. num_solve. Qed.

Lemma num_max_le x y z : (num_max x y ≤ z)%num ↔ (x ≤ z)%num ∧ (y ≤ z)%num.
Proof. num_solve. Qed.

Lemma num_le_max x y z : (z ≤ num_max x y)%num ↔ (z ≤ x)%num ∨ (z ≤ y)%num.
Proof. num_solve. Qed.

Lemma num_min_le x y z : (z ≤ num_min x y)%num ↔ (z ≤ x)%num ∧ (z ≤ y)%num.
Proof. num_solve. Qed.

Lemma num_max_Fin x z : is_Fin (num_max x (Fin z)) ↔ x ≠ PosInf.
Proof.
  destruct x as [|a|]; unfold is_Fin, num_max; cbn; [|destruct (a <=? z)|];
    split; eauto; try done; by intros [? [=]].
Qed.

Lemma num_min_Fin x z : is_Fin (num_min x (Fin z)) ↔ x ≠ NegInf.
Proof.
  destruct x as [|a|]; unfold is_Fin, num_min; cbn; [|destruct (a <=? z)|];
    split; eauto; try done; by intros [? [=]].
Qed.

Lemma num_opp_involutive x : num_opp (num_opp x) = x.
Proof. destruct x; cbn; f_equal; lia. Qed.

Lemma num_opp_max x y : num_opp (num_max x y) = num_min (num_opp x) (num_opp y).
Proof. num_solve. Qed.

Lemma num_opp_le x y : (num_opp x ≤ num_opp y)%num ↔ (y ≤ x)%num.
Proof. num_solve. Qed.

(** ** The order tactic *)

Module NumOrd.
Definition t := num.
Definition eq := @Logic.eq num.
Definition lt := num_lt.
Definition le := num_le.
#[export] Instance eq_equiv : Equivalence eq.
Proof. unfold eq. apply _. Qed.
#[export] Instance lt_strorder : StrictOrder lt.
Proof. split; [intros x|intros x y z]; unfold complement, lt; num_solve. Qed.
#[export] Instance lt_compat : Proper (eq ==> eq ==> iff) lt.
Proof. by intros x x' -> y y' ->. Qed.
Lemma le_lteq x y : le x y ↔ lt x y ∨ eq x y.
Proof.
  unfold le, lt, eq, num_le, num_lt, num_ltb.
  destruct x as [|a|], y as [|b|]; cbn; rewrite ?negb_true_iff, ?Z.leb_le, ?Z.leb_gt;
    try tauto; try (split; [auto|by intros [?|?]]).
  split; [|intros [?|[= ->]]; lia].
  intros. destruct (decide (a = b)) as [->|]; [by right|left; lia].
Qed.
Lemma lt_total x y : lt x y ∨ eq x y ∨ lt y x.
Proof.
  unfold lt, eq, num_lt, num_ltb.
  destruct x as [|a|], y as [|b|]; cbn; rewrite ?negb_true_iff, ?Z.leb_gt; auto.
  destruct (Z.lt_total a b) as [?|[->|?]]; auto.
Qed.
End NumOrd.

Module NumOrderTac := MakeOrderTac NumOrd NumOrd.

Lemma num_leb_true x y : num_leb x y = true ↔ (x ≤ y)%num.
Proof. done. Qed.

Lemma num_leb_false x y : num_leb x y = false ↔ (y < x)%num.
Proof. unfold num_lt, num_ltb. by destruct (num_leb x y). Qed.

Lemma num_ltb_true x y : num_ltb x y = true ↔ (x < y)%num.
Proof. done. Qed.

Lemma num_ltb_false x y : num_ltb x y = false ↔ (y ≤ x)%num.
Proof. unfold num_le, num_ltb. by destruct (num_leb y x). Qed.

(** [num_order] closes a goal that follows from the order facts of the
    context by transitivity. *)
Ltac num_order :=
  repeat match goal with
         | H : num_leb ?x ?y = true |- _ => change (num_le x y) in H
         | H : num_leb ?x ?y = false |- _ => apply num_leb_false in H
         | H : num_ltb ?x ?y = true |- _ => change (num_lt x y) in H
         | H : num_ltb ?x ?y = false |- _ => apply num_ltb_false in H
         end;
  change num_lt with NumOrd.lt in *; change num_le with NumOrd.le in *;
  change (@Logic.eq num) with NumOrd.eq in *; NumOrderTac.order.

Lemma num_le_or_lt x y : {(x ≤ y)%num} + {(y < x)%num}.
Proof.
  destruct (num_leb x y) eqn:E; [left|right]; [done|by apply num_leb_false].
Defined.

Lemma num_max_r x y : (x ≤ y)%num → num_max x y = y.
Proof. unfold num_max, num_le. by intros ->. Qed.

Lemma num_max_l x y : (y ≤ x)%num → num_max x y = x.
Proof.
  intros. unfold num_max. destruct (num_leb x y) eqn:E; [|done]. num_order.
Qed.

Lemma num_min_l x y : (x ≤ y)%num → num_min x y = x.
Proof. unfold num_min, num_le. by intros ->. Qed.

Lemma num_min_r x y : (y ≤ x)%num → num_min x y = y.
Proof.
  intros. unfold num_min. destruct (num_leb x y) eqn:E; [|done]. num_order.
Qed.

(** [Math.max] is the least upper bound and one of its arguments. *)
Lemma num_max_spec x y :
  (x ≤ num_max x y)%num ∧ (y ≤ num_max x y)%num ∧
  (num_max x y = x ∨ num_max x y = y).
Proof.
  destruct (num_le_or_lt x y) as [H|H%num_lt_le_incl].
  - rewrite (num_max_r _ _ H). split_and!; [done|reflexivity|by right].
  - rewrite (num_max_l _ _ H). split_and!; [reflexivity|done|by left].
Qed.

Lemma num_min_spec x y :
  (num_min x y ≤ x)%num ∧ (num_min x y ≤ y)%num ∧
  (num_min x y = x ∨ num_min x y = y).
Proof.
  destruct (num_le_or_lt x y) as [H|H%num_lt_le_incl].
  - rewrite (num_min_l _ _ H). split_and!; [reflexivity|done|by left].
  - rewrite (num_min_r _ _ H). split_and!; [done|reflexivity|by right].
Qed.

(** [num_simpl] resolves the maxima and minima of the goal whose order
    follows from the context. *)
Ltac num_simpl :=
  repeat match goal with
         | |- context [num_max ?a ?b] =>
             first [rewrite (num_max_r a b) in * by num_order
                   |rewrite (num_max_l a b) in * by num_order]
         | |- context [num_min ?a ?b] =>
             first [rewrite (num_min_l a b) in * by num_order
                   |rewrite (num_min_r a b) in * by num_order]
         end.

(** [num_saturate] uses the implications of the context whose premises
    follow from its order facts, and drops the others. *)
Ltac num_saturate :=
  repeat match goal with
         | H : ?P → _ |- _ =>
             lazymatch P with
             | num_le _ _ => idtac
             | num_lt _ _ => idtac
             end;
             first [specialize (H ltac:(num_order))|clear H]
         end.

Ltac num_crush := intros; num_simpl; num_saturate; num_order.

Lemma num_max_assoc x y z : num_max (num_max x y) z = num_max x (num_max y z).
Proof.
  destruct (num_le_or_lt x y), (num_le_or_lt y z), (num_le_or_lt x z);
    num_simpl; num_order.
Qed.

Lemma num_opp_min x y : num_opp (num_min x y) = num_max (num_opp x) (num_opp y).
Proof.
  rewrite <-(num_opp_involutive (num_max _ _)), num_opp_max, !num_opp_involutive. done.
Qed.

Lemma num_opp_lt x y : (num_opp x < num_opp y)%num ↔ (y < x)%num.
Proof. by rewrite !num_lt_nle, num_opp_le. Qed.

Lemma num_opp_inj x y : num_opp x = num_opp y → x = y.
Proof. intros H. by rewrite <-(num_opp_involutive x), H, num_opp_involutive. Qed.

(** ** The window of a search *)

Section window.
Implicit Types (α β v r V M W e a : num).

Lemma bounded_opp α β v r :
  bounded α β v r ↔ bounded (num_opp β) (num_opp α) (num_opp v) (num_opp r).
Proof.
  unfold bounded. rewrite !num_opp_le, !num_opp_lt.
  split; intros (H1 & H2 & H3); split_and!; auto.
  - intros. f_equal. auto.
  - intros. apply num_opp_inj. auto.
Qed.

(** A full window returns the value. *)
Lemma bounded_full v r : bounded NegInf PosInf v r → r = v.
Proof.
  intros (H1 & H2 & H3). destruct r as [|z|]; [| |].
  - apply (anti_symm num_le); [done|]. by apply H1.
  - by apply H2.
  - apply (anti_symm num_le); [by apply H3|]. by destruct v.
Qed.

(** The maximising loop after one more child whose result [e] stays below
    [β]: the running maximum [M] is related to the true maximum [V] as
    before. *)
Lemma max_step_go α β V M v e :
  bounded α β V M → bounded (num_max α M) β v e →
  (num_max (num_max α M) e < β)%num →
  bounded α β (num_max V v) (num_max M e).
Proof.
  intros (H1 & H2 & H3) (H4 & H5 & H6) Hlt.
  destruct (num_max_spec α M) as (? & ? & Ha), (num_max_spec (num_max α M) e) as (? & ? & _).
  remember (num_max α M) as a eqn:Ea. clear Ea.
  assert (a < β)%num by num_order. assert (e < β)%num by num_order. clear Hlt.
  unfold bounded.
  destruct (num_le_or_lt V v), (num_le_or_lt e a), (num_le_or_lt e M),
    (num_le_or_lt M α), Ha as [Ha|Ha]; rewrite Ha in *; clear Ha;
    split_and!; num_crush.
Qed.

(** The maximising loop at a cut-off: the child's result [e] reaches [β],
    and so does every maximum [W] that includes the child's value. *)
Lemma max_step_cut α β V M v e W :
  (num_max α M < β)%num → bounded (num_max α M) β v e →
  (β ≤ num_max (num_max α M) e)%num → (v ≤ W)%num →
  bounded α β W (num_max M e).
Proof.
  intros Ha (_ & _ & H6) Hcut HW.
  destruct (num_max_spec α M) as (? & ? & _).
  assert (β ≤ e)%num.
  { destruct (num_max_spec (num_max α M) e) as (_ & _ & [Hm|Hm]);
      rewrite Hm in Hcut; num_order. }
  unfold bounded. split_and!; num_crush.
Qed.

(** The minimising loop is the maximising loop on the opposite numbers. *)
Lemma min_step_go α β V m v e :
  bounded α β V m → bounded α (num_min β m) v e →
  (α < num_min (num_min β m) e)%num →
  bounded α β (num_min V v) (num_min m e).
Proof.
  intros H1%bounded_opp H2%bounded_opp H3%num_opp_lt. apply bounded_opp.
  rewrite !num_opp_min in *. by apply max_step_go.
Qed.

Lemma min_step_cut α β V m v e W :
  (α < num_min β m)%num → bounded α (num_min β m) v e →
  (num_min (num_min β m) e ≤ α)%num → (W ≤ v)%num →
  bounded α β W (num_min m e).
Proof.
  intros H1%num_opp_lt H2%bounded_opp H3%num_opp_le H4%num_opp_le.
  apply bounded_opp. rewrite !num_opp_min in *. by eapply max_step_cut.
Qed.

Lemma num_min_assoc x y z : num_min (num_min x y) z = num_min x (num_min y z).
Proof.
  apply num_opp_inj. rewrite !num_opp_min. apply num_max_assoc.
Qed.
End window.
