(* ===== verification/Search.v ===== *)
(** * Search: the AI opponent

    Models [minimax], [getEasyMove], [getMediumMove], [getHardMove] and
    [getAIMove] (lines 202-274 of [src/src/game/logic.ts]).  The two [for]
    loops of [minimax] with their [break] are [maxLoop] and [minLoop]; the
    depth is a natural number, since the source only counts it down to 0
    from 3 or 5.  [Math.random()] is an argument of the functions that call
    it: a fraction [num/den] of the unit interval.

    The reference [plainMinimax] is the same search without the window; the
    file proves that the window never changes the result of the root call. *)

From stdpp Require Import prelude.
From Stdlib Require Import ZArith Lia.
From S2P Require Import Prelude Types Board MoveGen Chains Apply Terminal Eval Num.

Local Open Scope Z_scope.

(** The loop of the maximising branch (lines 211-217); [rec] is the
    recursive call on the board after the move, with the current window. *)
Fixpoint maxLoop (rec : Board → num → num → res num) (board : Board)
    (moves : list Move) (maxEval alpha beta : num) : res num :=
  match moves with
  | [] => Ok maxEval
  | move :: moves =>
      r ← applyMove board move;
      evaluation ← rec (newBoard r) alpha beta;
      let maxEval := num_max maxEval evaluation in
      let alpha := num_max alpha evaluation in
      if num_leb beta alpha then Ok maxEval
      else maxLoop rec board moves maxEval alpha beta
  end.

(** The loop of the minimising branch (lines 221-227). *)
Fixpoint minLoop (rec : Board → num → num → res num) (board : Board)
    (moves : list Move) (minEval alpha beta : num) : res num :=
  match moves with
  | [] => Ok minEval
  | move :: moves =>
      r ← applyMove board move;
      evaluation ← rec (newBoard r) alpha beta;
      let minEval := num_min minEval evaluation in
      let beta := num_min beta evaluation in
      if num_leb beta alpha then Ok minEval
      else minLoop rec board moves minEval alpha beta
  end.

Fixpoint minimax (depth : nat) (board : Board) (alpha beta : num)
    (isMaximizing : bool) (aiPlayer : Player) : res num :=
  let currentPlayer := if isMaximizing then aiPlayer else getOpponent aiPlayer in
  win ← checkWinCondition board currentPlayer;
  if decide (win = Some aiPlayer) then Ok (Fin (10000 + Z.of_nat depth))
  else if decide (win = Some (getOpponent aiPlayer))
  then Ok (Fin (-10000 - Z.of_nat depth))
  else
    match depth with
    | O => s ← evaluateBoard board aiPlayer; Ok (Fin s)
    | S depth' =>
        moves ← getAllPlayerMoves board currentPlayer;
        if isMaximizing
        then maxLoop (λ b a be, minimax depth' b a be false aiPlayer)
               board moves NegInf alpha beta
        else minLoop (λ b a be, minimax depth' b a be true aiPlayer)
               board moves PosInf alpha beta
    end.

(** [Math.random()]: a fraction of the unit interval. *)
Record Random : Set := mkRandom { rnum : nat; rden : nat }.

(** [list[Math.floor(Math.random() * list.length)]] *)
Definition pickRandom {A} (random : Random) (l : list A) : option A :=
  l !! (rnum random * length l / rden random)%nat.

Definition getEasyMove (random : Random) (board : Board) (pl : Player)
    : res (option Move) :=
  allMoves ← getAllPlayerMoves board pl;
  if (length allMoves =? 0)%nat then Ok None
  else Ok (pickRandom random allMoves).

Definition getMediumMove (random : Random) (board : Board) (pl : Player)
    : res (option Move) :=
  allMoves ← getAllPlayerMoves board pl;
  if (length allMoves =? 0)%nat then Ok None
  else
    let captureMoves := filter (λ m, (0 < length (captured m))%nat) allMoves in
    if (0 <? length captureMoves)%nat then Ok (pickRandom random captureMoves)
    else Ok (pickRandom random allMoves).

(** [board.forEach(row => row.forEach(sq => { if (sq) pieceCount++; }))] *)
Definition pieceCount (board : Board) : nat := length (allPieces board).

(** The loop at lines 256-262: the first move of the greatest value. *)
Fixpoint bestLoop (value : Move → res num) (moves : list Move)
    (bestMove : option Move) (bestValue : num) : res (option Move) :=
  match moves with
  | [] => Ok bestMove
  | move :: moves =>
      boardValue ← value move;
      if num_ltb bestValue boardValue
      then bestLoop value moves (Some move) boardValue
      else bestLoop value moves bestMove bestValue
  end.

Definition getHardMove (board : Board) (pl : Player) : res (option Move) :=
  allMoves ← getAllPlayerMoves board pl;
  if (length allMoves =? 0)%nat then Ok None
  else if (length allMoves =? 1)%nat then Ok (head allMoves)
  else
    let depth := if (pieceCount board <? 10)%nat
                 then AI_DEPTH_HARD_LATE_GAME else AI_DEPTH_HARD in
    bestLoop (λ move, r ← applyMove board move;
                      minimax (depth - 1) (newBoard r) NegInf PosInf false pl)
      allMoves None NegInf.

Definition getAIMove (random : Random) (board : Board) (aiPlayer : Player)
    (difficulty : Difficulty) : res (option Move) :=
  match difficulty with
  | easy => getEasyMove random board aiPlayer
  | medium => getMediumMove random board aiPlayer
  | hard => getHardMove board aiPlayer
  end.

(** ** Reference: the search without a window *)

Fixpoint plainLoop (sel : num → num → num) (rec : Board → res num) (board : Board)
    (moves : list Move) (acc : num) : res num :=
  match moves with
  | [] => Ok acc
  | move :: moves =>
      r ← applyMove board move;
      v ← rec (newBoard r);
      plainLoop sel rec board moves (sel acc v)
  end.

Fixpoint plainMinimax (depth : nat) (board : Board) (isMaximizing : bool)
    (aiPlayer : Player) : res num :=
  let currentPlayer := if isMaximizing then aiPlayer else getOpponent aiPlayer in
  win ← checkWinCondition board currentPlayer;
  if decide (win = Some aiPlayer) then Ok (Fin (10000 + Z.of_nat depth))
  else if decide (win = Some (getOpponent aiPlayer))
  then Ok (Fin (-10000 - Z.of_nat depth))
  else
    match depth with
    | O => s ← evaluateBoard board aiPlayer; Ok (Fin s)
    | S depth' =>
        moves ← getAllPlayerMoves board currentPlayer;
        if isMaximizing
        then plainLoop num_max (λ b, plainMinimax depth' b false aiPlayer)
               board moves NegInf
        else plainLoop num_min (λ b, plainMinimax depth' b true aiPlayer)
               board moves PosInf
    end.

(** ** The loops of the search *)

Section loops.
Context (board : Board).
Implicit Types (moves : list Move) (rec : Board → num → num → res num)
  (plain : Board → res num).

(** The running maximum only grows. *)
Lemma plainLoop_max_ge plain moves V Vf :
  plainLoop num_max plain board moves V ⇓ Vf → (V ≤ Vf)%num.
Proof.
  revert V. induction moves as [|m moves IH]; intros V; [by intros [= ->]|].
  cbn. intros (r & _ & (v & _ & ?%IH)%bind_Ok)%bind_Ok.
  destruct (num_max_spec V v) as (? & _). num_order.
Qed.

Lemma plainLoop_min_le plain moves V Vf :
  plainLoop num_min plain board moves V ⇓ Vf → (Vf ≤ V)%num.
Proof.
  revert V. induction moves as [|m moves IH]; intros V; [by intros [= ->]|].
  cbn. intros (r & _ & (v & _ & ?%IH)%bind_Ok)%bind_Ok.
  destruct (num_min_spec V v) as (? & _). num_order.
Qed.

(** What the loops need of the recursive call: on the board after a move
    of the list, if the reference returns [v] then the windowed search
    returns a result bounded by [v], for every window. *)
Definition recBounded rec plain moves : Prop :=
  ∀ m r α β v, m ∈ moves → applyMove board m ⇓ r → plain (newBoard r) ⇓ v →
    (α < β)%num → ∃ e, rec (newBoard r) α β ⇓ e ∧ bounded α β v e.

Lemma recBounded_cons rec plain m moves :
  recBounded rec plain (m :: moves) → recBounded rec plain moves.
Proof. intros H m' r α β v Hm'. apply H. by right. Qed.

Lemma maxLoop_bounded rec plain moves α β M V Vf :
  recBounded rec plain moves →
  bounded α β V M → (num_max α M < β)%num →
  plainLoop num_max plain board moves V ⇓ Vf →
  ∃ Mf, maxLoop rec board moves M (num_max α M) β ⇓ Mf ∧ bounded α β Vf Mf.
Proof.
  revert M V. induction moves as [|m moves IH]; intros M V Hrec HMV Hlt.
  { intros [= <-]. by exists M. }
  cbn. intros (r & Hr & (v & Hv & Hloop)%bind_Ok)%bind_Ok. rewrite Hr. cbn.
  destruct (Hrec m r (num_max α M) β v) as (e & -> & He); [left|done..|]. cbn.
  destruct (num_leb β _) eqn:Hcut.
  - eexists. split; [done|]. eapply max_step_cut; [done..|].
    apply plainLoop_max_ge in Hloop. destruct (num_max_spec V v) as (_ & ? & _).
    num_order.
  - apply num_leb_false in Hcut. rewrite num_max_assoc in Hcut |- *.
    eapply IH; [by eapply recBounded_cons| |done..].
    apply max_step_go; [done..|]. by rewrite num_max_assoc.
Qed.

Lemma minLoop_bounded rec plain moves α β M V Vf :
  recBounded rec plain moves →
  bounded α β V M → (α < num_min β M)%num →
  plainLoop num_min plain board moves V ⇓ Vf →
  ∃ Mf, minLoop rec board moves M α (num_min β M) ⇓ Mf ∧ bounded α β Vf Mf.
Proof.
  revert M V. induction moves as [|m moves IH]; intros M V Hrec HMV Hlt.
  { intros [= <-]. by exists M. }
  cbn. intros (r & Hr & (v & Hv & Hloop)%bind_Ok)%bind_Ok. rewrite Hr. cbn.
  destruct (Hrec m r α (num_min β M) v) as (e & -> & He); [left|done..|]. cbn.
  destruct (num_leb _ α) eqn:Hcut.
  - eexists. split; [done|]. eapply min_step_cut; [done..|].
    apply plainLoop_min_le in Hloop. destruct (num_min_spec V v) as (_ & ? & _).
    num_order.
  - apply num_leb_false in Hcut. rewrite num_min_assoc in Hcut |- *.
    eapply IH; [by eapply recBounded_cons| |done..].
    apply min_step_go; [done..|]. by rewrite num_min_assoc.
Qed.
End loops.

(** ** The window does not change the result *)

Lemma bounded_refl α β v : bounded α β v v.
Proof. unfold bounded. split_and!; intros; reflexivity. Qed.

Lemma bounded_NegInf α β : bounded α β NegInf NegInf.
Proof. apply bounded_refl. Qed.

Lemma num_max_NegInf x : num_max x NegInf = x.
Proof. by destruct x. Qed.

Lemma num_min_PosInf x : num_min x PosInf = x.
Proof. by destruct x. Qed.

(** The windowed search returns whenever the reference does, and its result
    is bounded by the value of the reference. *)
Lemma minimax_bounded ai depth b isMax α β v :
  (α < β)%num → plainMinimax depth b isMax ai ⇓ v →
  ∃ r, minimax depth b α β isMax ai ⇓ r ∧ bounded α β v r.
Proof.
  revert b isMax α β v. induction depth as [|depth IH]; intros b isMax α β v Hlt;
    cbn; intros (win & -> & Hv)%bind_Ok; cbn;
    repeat case_decide; try (eexists; split; [done|]; injection Hv as <-; apply bounded_refl).
  - apply bind_Ok in Hv as (s & -> & [= <-]). eexists. split; [done|apply bounded_refl].
  - apply bind_Ok in Hv as (moves & -> & Hv). cbn. destruct isMax.
    + destruct (maxLoop_bounded b (λ b a be, minimax depth b a be false ai)
                  (λ b, plainMinimax depth b false ai) moves α β NegInf NegInf v)
        as (r & Hr & ?); [|apply bounded_refl|by rewrite num_max_NegInf|done|].
      * intros m r α' β' v' _ _ Hv' Hlt'. by apply IH.
      * rewrite num_max_NegInf in Hr. eauto.
    + destruct (minLoop_bounded b (λ b a be, minimax depth b a be true ai)
                  (λ b, plainMinimax depth b true ai) moves α β PosInf PosInf v)
        as (r & Hr & ?); [|apply bounded_refl|by rewrite num_min_PosInf|done|].
      * intros m r α' β' v' _ _ Hv' Hlt'. by apply IH.
      * rewrite num_min_PosInf in Hr. eauto.
Qed.

(** ** The search returns *)

(** Applying a move of the generator on a well-formed board. *)
Lemma applyMove_generated b pl ms m :
  wf_board b → getAllPlayerMoves b pl ⇓ ms → m ∈ ms →
  ∃ r, applyMove b m ⇓ r ∧ wf_board (newBoard r).
Proof.
  intros Hwf Hms Hm. apply applyMove_total; [done|].
  by apply (getAllPlayerMoves_legal _ _ _ Hms), legalMove_wellformed in Hm as (_ & ? & _).
Qed.

(** A loop over children that return finite values returns a finite value,
    when there is a child. *)
Lemma plainLoop_Fin sel bad plain board moves acc :
  (∀ x z, is_Fin (sel x (Fin z)) ↔ x ≠ bad) → ¬ is_Fin bad →
  (∀ m, m ∈ moves → ∃ r z, applyMove board m ⇓ r ∧ plain (newBoard r) ⇓ Fin z) →
  moves ≠ [] → acc ≠ bad →
  ∃ z, plainLoop sel plain board moves acc ⇓ Fin z.
Proof.
  intros Hsel Hbad. revert acc.
  induction moves as [|m moves IH]; intros acc Hch Hne Hacc; [done|]. cbn.
  destruct (Hch m) as (r & z & Hr & Hz); [left|]. rewrite Hr. cbn. rewrite Hz. cbn.
  destruct (proj2 (Hsel acc z) Hacc) as [z' Hz']. rewrite Hz'.
  destruct moves as [|m' moves]; [by eexists|].
  apply IH; [|done|].
  - intros m'' ?. apply Hch. by right.
  - intros <-. apply Hbad. by eexists.
Qed.

Lemma plainMinimax_wf ai depth b isMax :
  wf_board b → ∃ z, plainMinimax depth b isMax ai ⇓ Fin z.
Proof.
  revert b isMax. induction depth as [|depth IH]; intros b isMax Hwf; cbn;
    set (pl := if isMax then ai else getOpponent ai);
    destruct (checkWinCondition_wf b pl Hwf) as [win Hwin]; rewrite Hwin; cbn;
    repeat case_decide; try by eexists.
  - destruct (proj2 (evaluateBoard_is_Ok b ai)) as [s Hs].
    { destruct Hwf as [-> _]. done. }
    rewrite Hs. by eexists.
  - destruct (getAllPlayerMoves_wf b pl Hwf) as [moves Hmoves]. rewrite Hmoves. cbn.
    assert (moves ≠ []) as Hne.
    { apply checkWinCondition_Ok in Hwin as [[-> _]|[(-> & _)|(_ & Hmove & _)]];
        [unfold pl in *; destruct isMax;
         rewrite ?getOpponent_involutive in *; done..|].
      pose proof (getAllPlayerMoves_hasMove _ _ _ Hmoves) as Hms.
      intros ->. by apply Hms. }
    assert (∀ isMax' m, m ∈ moves →
      ∃ r z, applyMove b m ⇓ r ∧ plainMinimax depth (newBoard r) isMax' ai ⇓ Fin z)
      as Hch.
    { intros isMax' m Hm.
      destruct (applyMove_generated b pl moves m) as (r & Hr & Hwfr); [done..|].
      destruct (IH (newBoard r) isMax' Hwfr) as [z Hz]. eauto. }
    destruct isMax;
      [apply (plainLoop_Fin num_max PosInf)|apply (plainLoop_Fin num_min NegInf)];
      try done; try apply num_max_Fin; try apply num_min_Fin; try by intros [? ?].
    all: intros m Hm; by apply Hch.
Qed.

(** The windowed search from the full window, on a board after a move. *)
Lemma minimax_full ai depth b isMax v :
  plainMinimax depth b isMax ai ⇓ v → minimax depth b NegInf PosInf isMax ai ⇓ v.
Proof.
  intros Hv. destruct (minimax_bounded ai depth b isMax NegInf PosInf v)
    as (r & Hr & ->%bounded_full); done.
Qed.

(** ** The root of the search *)

(** The value [getHardMove] gives to a move, with the reference search. *)
Definition hardValue (depth : nat) (board : Board) (pl : Player) (move : Move) : res num :=
  r ← applyMove board move; plainMinimax (depth - 1) (newBoard r) false pl.

(** [res] is the first move of [moves] whose value is the greatest. *)
Definition firstBest (value : Move → res num) (moves : list Move)
    (res : option Move) : Prop :=
  ∃ pre m post v,
    moves = pre ++ m :: post ∧ res = Some m ∧ value m ⇓ v ∧
    (∀ m', m' ∈ pre → ∃ v', value m' ⇓ v' ∧ (v' < v)%num) ∧
    (∀ m', m' ∈ post → ∃ v', value m' ⇓ v' ∧ (v' ≤ v)%num).

Lemma bestLoop_Ok value moves best bv res :
  bestLoop value moves best bv ⇓ res →
  (res = best ∧ ∀ m, m ∈ moves → ∃ v, value m ⇓ v ∧ (v ≤ bv)%num)
  ∨ (firstBest value moves res ∧
     ∃ m v, res = Some m ∧ value m ⇓ v ∧ (bv < v)%num).
Proof.
  revert best bv. induction moves as [|m moves IH]; intros best bv.
  { intros [= <-]. left. split; [done|]. by intros ? ?%elem_of_nil. }
  cbn. intros (v & Hv & Hres)%bind_Ok.
  destruct (num_ltb bv v) eqn:Hlt; apply IH in Hres as [[-> Hall]|[Hfirst Hbest]].
  - right. split; [|by eauto]. exists [], m, moves, v.
    split_and!; [done..|by intros ? ?%elem_of_nil|done].
  - right. destruct Hbest as (m1 & v1 & ? & ? & ?). split; [|exists m1, v1].
    + destruct Hfirst as (pre & m' & post & v' & -> & -> & Hv' & Hpre & Hpost).
      exists (m :: pre), m', post, v'. split_and!; [done..| |done].
      intros m'' [->|?]%elem_of_cons; [|by apply Hpre].
      exists v. split; [done|]. simplify_eq. assert (v' = v1) as -> by congruence.
    num_order.
    + split_and!; [done..|]. num_order.
  - left. split; [done|]. intros m' [->|?]%elem_of_cons; [|by apply Hall].
    exists v. split; [done|]. by apply num_ltb_false.
  - right. apply num_ltb_false in Hlt. destruct Hbest as (m1 & v1 & ? & ? & ?).
    split; [|by exists m1, v1].
    destruct Hfirst as (pre & m' & post & v' & -> & -> & Hv' & Hpre & Hpost).
    exists (m :: pre), m', post, v'. split_and!; [done..| |done].
    intros m'' [->|?]%elem_of_cons; [|by apply Hpre].
    exists v. split; [done|]. simplify_eq. assert (v' = v1) as -> by congruence.
    num_order.
Qed.

Lemma bestLoop_is_Ok value moves best bv :
  (∀ m, m ∈ moves → is_Ok (value m)) → is_Ok (bestLoop value moves best bv).
Proof.
  revert best bv. induction moves as [|m moves IH]; intros best bv Hval; [by eexists|].
  cbn. destruct (Hval m) as [v ->]; [left|]. cbn.
  case_match; apply IH; intros m' ?; apply Hval; by right.
Qed.

Lemma bestLoop_ext value value' moves best bv :
  (∀ m, m ∈ moves → value m = value' m) →
  bestLoop value moves best bv = bestLoop value' moves best bv.
Proof.
  revert best bv. induction moves as [|m moves IH]; intros best bv Hval; [done|].
  cbn. rewrite (Hval m) by left. destruct (value' m); cbn; [|done].
  case_match; apply IH; intros m' ?; apply Hval; by right.
Qed.

(** ** Random choices *)

Lemma pickRandom_elem {A} (random : Random) (l : list A) :
  (rnum random < rden random)%nat → l ≠ [] →
  ∃ x, pickRandom random l = Some x ∧ x ∈ l.
Proof.
  intros Hr Hl. unfold pickRandom.
  assert (rnum random * length l / rden random < length l)%nat as Hi.
  { apply Nat.Div0.div_lt_upper_bound. destruct l; [done|]. cbn [length]. nia. }
  apply lookup_lt_is_Some in Hi as [x Hx]. exists x. split; [done|].
  by eapply list_elem_of_lookup_2.
Qed.

Lemma pickRandom_Some {A} (random : Random) (l : list A) x :
  pickRandom random l = Some x → x ∈ l.
Proof. unfold pickRandom. apply list_elem_of_lookup_2. Qed.

Lemma getMediumMove_getEasyMove random b pl :
  getMediumMove random b pl = getEasyMove random b pl.
Proof.
  unfold getMediumMove, getEasyMove.
  destruct (getAllPlayerMoves b pl) as [ms|] eqn:Hms; [rewrite !bind_Ok_l|done].
  destruct (length ms =? 0)%nat eqn:E; [done|].
  destruct (captureFilter_all_or_none b pl ms Hms) as [Hf|Hf]; rewrite Hf; [|done].
  by rewrite (proj2 (Nat.ltb_lt 0 (length ms))) by (apply Nat.eqb_neq in E; lia).
Qed.

(** The depth [getHardMove] searches to. *)
Definition hardDepth (board : Board) : nat :=
  if (pieceCount board <? 10)%nat then AI_DEPTH_HARD_LATE_GAME else AI_DEPTH_HARD.

(** On a well-formed board the value of a generated move is finite, and
    the windowed search computes it. *)
Lemma hardValue_minimax b pl ms m depth :
  wf_board b → getAllPlayerMoves b pl ⇓ ms → m ∈ ms →
  ∃ z, hardValue depth b pl m ⇓ Fin z ∧
       (r ← applyMove b m; minimax (depth - 1) (newBoard r) NegInf PosInf false pl) ⇓ Fin z.
Proof.
  intros Hwf Hms Hm. unfold hardValue.
  destruct (applyMove_generated b pl ms m Hwf Hms Hm) as (r & -> & Hwfr). cbn.
  destruct (plainMinimax_wf pl (depth - 1) (newBoard r) false Hwfr) as [z Hz].
  exists z. split; [done|by apply minimax_full].
Qed.

Lemma getHardMove_unfold b pl ms :
  wf_board b → getAllPlayerMoves b pl ⇓ ms →
  getHardMove b pl =
  if (length ms =? 0)%nat then Ok None
  else if (length ms =? 1)%nat then Ok (head ms)
  else bestLoop (hardValue (hardDepth b) b pl) ms None NegInf.
Proof.
  intros Hwf Hms. unfold getHardMove. rewrite Hms, bind_Ok_l.
  do 2 (case_match; [done|]). apply bestLoop_ext. intros m Hm.
  destruct (hardValue_minimax b pl ms m (hardDepth b) Hwf Hms Hm) as (z & -> & Hz).
  apply Hz.
Qed.

(** ** Properties of the search *)

(** [C4] Alpha-beta pruning does not change the value: whenever the search
    without a window returns a value, [minimax] called with the full
    window returns the same value, at every depth and for either side to
    move; and on a well-formed board both return, with an integer. *)
Theorem alpha_beta_correct ai depth b isMax :
  (∀ v, plainMinimax depth b isMax ai ⇓ v →
        minimax depth b NegInf PosInf isMax ai ⇓ v) ∧
  (wf_board b → ∃ z, minimax depth b NegInf PosInf isMax ai ⇓ Fin z).
Proof.
  split; [intros v; apply minimax_full|].
  intros [z Hz]%(plainMinimax_wf ai depth b isMax). exists z. by apply minimax_full.
Qed.

Lemma alpha_beta_correct_witness :
  ∃ z, minimax 2 simpleCaptureBoard NegInf PosInf true WHITE ⇓ Fin z.
Proof.
  apply (alpha_beta_correct WHITE 2 simpleCaptureBoard true).
  apply (bool_decide_unpack _). by vm_compute.
Defined.

Lemma getHardMove_Ok b pl ms :
  wf_board b → getAllPlayerMoves b pl ⇓ ms →
  ∃ res, getHardMove b pl ⇓ res ∧
    match ms with
    | [] => res = None
    | [m] => res = Some m
    | _ => firstBest (hardValue (hardDepth b) b pl) ms res
    end.
Proof.
  intros Hwf Hms. rewrite (getHardMove_unfold b pl ms Hwf Hms).
  destruct ms as [|m [|m' ms]]; [by eexists..|]. cbn [length Nat.eqb].
  set (all := m :: m' :: ms) in *.
  destruct (bestLoop_is_Ok (hardValue (hardDepth b) b pl) all None NegInf) as [res Hres].
  { intros m1 Hm1. destruct (hardValue_minimax b pl all m1 (hardDepth b)) as (z & ? & _);
      [done..|by eexists]. }
  exists res. split; [done|].
  apply bestLoop_Ok in Hres as [[-> Hall]|[? _]]; [|done].
  assert (m ∈ all) as Hm by left.
  destruct (Hall m Hm) as (v & Hv & Hle).
  destruct (hardValue_minimax b pl all m (hardDepth b) Hwf Hms Hm) as (z & Hz & _).
  rewrite Hz in Hv. by injection Hv as <-.
Qed.

Lemma firstBest_elem value ms res : firstBest value ms res → ∃ m, res = Some m ∧ m ∈ ms.
Proof.
  intros (pre & m & post & v & -> & -> & _). exists m. split; [done|].
  apply elem_of_app. right. left.
Qed.

(** [C10] The hard level plays a best move of the search: on a
    well-formed board [getHardMove] returns; with no legal move it returns
    no move, with one legal move it returns it, and otherwise it returns
    the first legal move whose value under the search without a window, at
    depth 3 (5 when fewer than ten pieces remain) with the opponent to
    move, is the greatest. *)
Theorem getHardMove_spec b pl :
  wf_board b →
  ∃ ms res, getAllPlayerMoves b pl ⇓ ms ∧ getHardMove b pl ⇓ res ∧
    match ms with
    | [] => res = None
    | [m] => res = Some m
    | _ => firstBest (hardValue (hardDepth b) b pl) ms res
    end.
Proof.
  intros Hwf. destruct (getAllPlayerMoves_wf b pl Hwf) as [ms Hms].
  destruct (getHardMove_Ok b pl ms Hwf Hms) as (res & ? & ?). by exists ms, res.
Qed.

Lemma getHardMove_spec_witness :
  ∃ ms res, getAllPlayerMoves doubleJumpBoard WHITE ⇓ ms ∧
    getHardMove doubleJumpBoard WHITE ⇓ res ∧
    match ms with
    | [] => res = None
    | [m] => res = Some m
    | _ => firstBest (hardValue (hardDepth doubleJumpBoard) doubleJumpBoard WHITE) ms res
    end.
Proof.
  apply (getHardMove_spec doubleJumpBoard WHITE).
  apply (bool_decide_unpack _). by vm_compute.
Defined.

(** ** What the game loop is promised *)

(** A level of the AI as the game loop sees it: a chooser of moves that
    returns on well-formed boards, returns legal moves only, and finds a
    move whenever the player has one and the random number is one of the
    unit interval. *)
Class Strategy (choose : Random → Board → Player → res (option Move)) : Prop := {
  strategy_total random b pl : wf_board b → is_Ok (choose random b pl);
  strategy_legal random b pl m :
    wf_board b → choose random b pl ⇓ Some m → legalMove b pl m;
  strategy_some random b pl :
    wf_board b → (rnum random < rden random)%nat → hasMove b pl →
    ∃ m, choose random b pl ⇓ Some m
}.

(** How the levels meet the promise: they return a move of the list of the
    generator, and some move when the list is not empty. *)
Definition choosesFrom (choose : Random → Board → Player → res (option Move)) : Prop :=
  ∀ random b pl ms, wf_board b → getAllPlayerMoves b pl ⇓ ms →
    ∃ res, choose random b pl ⇓ res ∧ (∀ m, res = Some m → m ∈ ms) ∧
           ((rnum random < rden random)%nat → ms ≠ [] → is_Some res).

Lemma choosesFrom_strategy choose : choosesFrom choose → Strategy choose.
Proof.
  intros Hchoose. split; intros random b pl.
  - intros Hwf. destruct (getAllPlayerMoves_wf b pl Hwf) as [ms Hms].
    destruct (Hchoose random b pl ms Hwf Hms) as (res & ? & _). by exists res.
  - intros m Hwf Hm. destruct (getAllPlayerMoves_wf b pl Hwf) as [ms Hms].
    destruct (Hchoose random b pl ms Hwf Hms) as (res & Hres & Hin & _).
    apply (getAllPlayerMoves_legal b pl ms Hms), Hin. congruence.
  - intros Hwf Hr Hmove. destruct (getAllPlayerMoves_wf b pl Hwf) as [ms Hms].
    destruct (Hchoose random b pl ms Hwf Hms) as (res & Hres & _ & Hsome).
    pose proof (getAllPlayerMoves_hasMove b pl ms Hms) as Hne.
    destruct ms as [|m0 ms]; [done|]. destruct Hsome as [m ->]; [done..|]. by exists m.
Qed.

Lemma getEasyMove_choosesFrom : choosesFrom getEasyMove.
Proof.
  intros random b pl ms _ Hms. unfold getEasyMove. rewrite Hms, bind_Ok_l.
  destruct ms as [|m0 ms]; [by exists None|]. cbn [length Nat.eqb].
  eexists. split_and!; [done|by intros m ?%pickRandom_Some|].
  intros Hr Hne. destruct (pickRandom_elem random (m0 :: ms) Hr Hne) as (x & -> & _).
  by eexists.
Qed.

Lemma getHardMove_choosesFrom : choosesFrom (λ _, getHardMove).
Proof.
  intros random b pl ms Hwf Hms.
  destruct (getHardMove_Ok b pl ms Hwf Hms) as (res & Hres & Hbest). exists res.
  split; [done|]. destruct ms as [|m [|m' ms]].
  - subst. split; [done|by intros _ []].
  - subst. split; [intros ? [= <-]; left|by eexists].
  - apply firstBest_elem in Hbest as (x & -> & ?). split; [by intros ? [= <-]|by eexists].
Qed.

#[export] Instance getEasyMove_strategy : Strategy getEasyMove.
Proof. apply choosesFrom_strategy, getEasyMove_choosesFrom. Qed.

#[export] Instance getHardMove_strategy : Strategy (λ _, getHardMove).
Proof. apply choosesFrom_strategy, getHardMove_choosesFrom. Qed.

#[export] Instance getAIMove_strategy difficulty :
  Strategy (λ random b pl, getAIMove random b pl difficulty).
Proof.
  destruct difficulty; cbn [getAIMove]; [apply getEasyMove_strategy| |apply getHardMove_strategy].
  apply choosesFrom_strategy. intros random b pl.
  rewrite getMediumMove_getEasyMove. apply getEasyMove_choosesFrom.
Qed.

(** [C11] Every level plays a legal move: on a well-formed board, with a
    random number of the unit interval, [getAIMove] returns; it returns no
    move exactly when the player has no legal move, and any move it
    returns is a legal move of the player. *)
Theorem getAIMove_legal random b ai difficulty :
  wf_board b → (rnum random < rden random)%nat →
  ∃ res, getAIMove random b ai difficulty ⇓ res ∧
         (res = None ↔ ¬ hasMove b ai) ∧
         ∀ m, res = Some m → legalMove b ai m.
Proof.
  intros Hwf Hr. pose proof (getAIMove_strategy difficulty) as Hs.
  destruct (strategy_total random b ai Hwf) as [res Hres]. exists res.
  split_and!; [done| |intros m ->; by apply (strategy_legal random)].
  split.
  - intros -> Hmove. destruct (strategy_some random b ai Hwf Hr Hmove) as [m Hm].
    cbn beta in *. congruence.
  - destruct res as [m|]; [|done]. intros []. exists m. by apply (strategy_legal random).
Qed.

Lemma getAIMove_legal_witness :
  ∃ res, getAIMove (mkRandom 1 2) initialBoard WHITE easy ⇓ res ∧
         (res = None ↔ ¬ hasMove initialBoard WHITE) ∧
         ∀ m, res = Some m → legalMove initialBoard WHITE m.
Proof.
  apply getAIMove_legal; [apply (bool_decide_unpack _); by vm_compute|cbn; lia].
Defined.

(** [C35] The medium level is the easy level: because the legal moves are
    either all captures or all steps, the capture filter of
    [getMediumMove] keeps every move or none, and [getAIMove] returns the
    same move at both levels for the same random number. *)
Theorem medium_is_easy random b ai :
  getAIMove random b ai medium = getAIMove random b ai easy.
Proof. apply getMediumMove_getEasyMove. Qed.
