(* ===== verification/Winning.v ===== *)
(** * Winning: the values of the search, and the win in one move

    The value of [minimax] at a node lies between [-10000 - depth] and
    [10000 + depth] on a board with at most twelve pieces a side, and it is
    [10000 + depth] only when the node itself is decided for the AI: the
    heuristic of [evaluateBoard] stays below 10000 and deeper wins score
    less.  So [getHardMove] plays a move that wins at once whenever there
    is one. *)

From stdpp Require Import prelude.
From Stdlib Require Import ZArith Lia.
From S2P Require Import Prelude Types Board MoveGen Chains Apply Terminal Eval Game Num Search.

Local Open Scope Z_scope.

(** White to move can block the black man on (3,0) by stepping to (4,1). *)
Definition blockBoard : Board :=
  boardOf [(3, 0, mkPiece BLACK MAN); (5, 0, mkPiece WHITE MAN); (5, 2, mkPiece WHITE MAN)].

(** ** The loops return the value of a child *)

Lemma plainLoop_pick sel plain board moves acc V :
  (∀ x y, sel x y = x ∨ sel x y = y) →
  plainLoop sel plain board moves acc ⇓ V →
  V = acc ∨ ∃ m r, m ∈ moves ∧ applyMove board m ⇓ r ∧ plain (newBoard r) ⇓ V.
Proof.
  intros Hsel. revert acc. induction moves as [|m moves IH]; intros acc; cbn.
  { intros [= ->]. by left. }
  intros (r & Hr & (v & Hv & [->|(m' & r' & ? & ? & ?)]%IH)%bind_Ok)%bind_Ok.
  - destruct (Hsel acc v) as [-> | ->]; [by left|]. right. exists m, r. by split_and!; [left|..].
  - right. exists m', r'. by split_and!; [right|..].
Qed.

(** ** The range of the values *)

Lemma plainMinimax_range ai depth b isMax z :
  fewPieces b → plainMinimax depth b isMax ai ⇓ Fin z →
  -10000 - Z.of_nat depth ≤ z ≤ 10000 + Z.of_nat depth ∧
  (z = 10000 + Z.of_nat depth →
   checkWinCondition b (if isMax then ai else getOpponent ai) ⇓ Some ai).
Proof.
  revert b isMax z. induction depth as [|depth IH]; intros b isMax z Hb; cbn;
    set (pl := if isMax then ai else getOpponent ai);
    intros (win & Hwin & Hz)%bind_Ok; revert Hz;
    repeat case_decide; subst; try (intros [= <-]; split; [lia|done || lia]).
  - intros (s & Hs & [= <-])%bind_Ok.
    destruct (fewPieces_score b ai Hb) as (s' & Hs' & ?).
    assert (s' = s) as -> by congruence. lia.
  - intros (moves & Hmoves & Hloop)%bind_Ok.
    assert (∃ m r isMax', m ∈ moves ∧ applyMove b m ⇓ r ∧
              plainMinimax depth (newBoard r) isMax' ai ⇓ Fin z) as (m & r & isMax' & Hm & Hr & Hv).
    { destruct isMax; apply plainLoop_pick in Hloop as [?|(m & r & ?)];
        try done; try (by eauto); intros x y;
        [apply num_max_spec|apply num_min_spec]. }
    apply IH in Hv as [? _]; [lia|].
    eapply fewPieces_move; [done| |done]. by eapply getAllPlayerMoves_legal.
Qed.

(** ** The win in one move *)

(** The move [m] of [pl] wins at once: on the board after it the opponent,
    who is to move, has no legal move. *)
Definition winsAtOnce (b : Board) (pl : Player) (m : Move) : Prop :=
  ∃ r, applyMove b m ⇓ r ∧ ¬ hasMove (newBoard r) (getOpponent pl).

Section root.
Context (b : Board) (pl : Player) (ms : list Move) (depth : nat).
Context (Hb : fewPieces b) (Hms : getAllPlayerMoves b pl ⇓ ms).

Let win : num := Fin (10000 + Z.of_nat (depth - 1)).

(** No move is worth more than a win at once. *)
Lemma hardValue_le m v : m ∈ ms → hardValue depth b pl m ⇓ v → (v ≤ win)%num.
Proof using Hb Hms.
  intros Hm (r & Hr & Hv)%bind_Ok. pose proof Hb as [Hwf _].
  assert (fewPieces (newBoard r)) as Hbr.
  { eapply fewPieces_move; [done| |done]. by eapply getAllPlayerMoves_legal. }
  destruct (plainMinimax_wf pl (depth - 1) (newBoard r) false (proj1 Hbr)) as [z Hz].
  assert (v = Fin z) as -> by congruence.
  apply plainMinimax_range in Hz as [? _]; [|done]. unfold win. apply Z.leb_le. lia.
Qed.

Lemma hardValue_win m : m ∈ ms → winsAtOnce b pl m → hardValue depth b pl m ⇓ win.
Proof using Hb Hms.
  intros Hm (r & Hr & Hstuck). unfold hardValue. rewrite Hr, bind_Ok_l.
  destruct (applyMove_generated b pl ms m (proj1 Hb) Hms Hm) as (r' & Hr' & Hwfr).
  assert (r' = r) as -> by congruence.
  destruct (checkWinCondition_wf (newBoard r) (getOpponent pl) Hwfr) as [w Hw].
  assert (w = Some pl) as ->.
  { apply checkWinCondition_Ok in Hw as [[-> _]|[(_ & ? & _)|(_ & ? & _)]]; [|done..].
    by rewrite getOpponent_involutive. }
  unfold win. destruct (depth - 1)%nat; cbn; rewrite Hw; cbn; by rewrite decide_True.
Qed.

(** Only a win at once is worth that much. *)
Lemma hardValue_wins m : m ∈ ms → hardValue depth b pl m ⇓ win → winsAtOnce b pl m.
Proof using Hb Hms.
  intros Hm (r & Hr & Hv)%bind_Ok. exists r. split; [done|].
  assert (fewPieces (newBoard r)) as Hbr.
  { eapply fewPieces_move; [done| |done]. by eapply getAllPlayerMoves_legal. }
  destruct (plainMinimax_range pl (depth - 1) (newBoard r) false _ Hbr Hv) as [_ Hwin].
  apply checkWinCondition_Ok in Hwin as [[_ ?]|[([= Hpl] & _)|([=] & _)]]; [done| |done].
  by destruct (getOpponent_ne pl).
Qed.

(** The first best move wins at once when some move does. *)
Lemma firstBest_wins m res :
  m ∈ ms → winsAtOnce b pl m → firstBest (hardValue depth b pl) ms res →
  ∃ m', res = Some m' ∧ m' ∈ ms ∧ winsAtOnce b pl m'.
Proof using Hb Hms.
  intros Hm Hwin%hardValue_win (pre & m' & post & v & Heq & -> & Hv & Hpre & Hpost); [|done].
  assert (m' ∈ ms) as Hm' by (rewrite Heq; apply elem_of_app; right; left).
  exists m'. split_and!; [done..|]. apply hardValue_wins; [done|].
  pose proof (hardValue_le m' v Hm' Hv) as Hle.
  assert (win ≤ v)%num as Hge.
  { rewrite Heq in Hm. apply elem_of_app in Hm as [Hin|[->|Hin]%elem_of_cons].
    - destruct (Hpre m Hin) as (v' & Hv' & ?). assert (v' = win) as -> by congruence.
      by apply num_lt_le_incl.
    - assert (v = win) as -> by congruence. done.
    - destruct (Hpost m Hin) as (v' & Hv' & ?). by assert (v' = win) as -> by congruence. }
  by rewrite (anti_symm num_le v win Hle Hge) in Hv.
Qed.
End root.

(** ** Properties *)

(** [C38] The values of the search: on a board with at most twelve pieces
    a side, the search without a window (and so [minimax] with the full
    window) returns a value between [-10000 - depth] and [10000 + depth],
    and the value is [10000 + depth] only when [checkWinCondition] declares
    the AI the winner at the node itself: deeper wins and the heuristic are
    worth less. *)
Theorem minimax_range ai depth b isMax :
  fewPieces b →
  ∃ z, minimax depth b NegInf PosInf isMax ai ⇓ Fin z ∧
       -10000 - Z.of_nat depth ≤ z ≤ 10000 + Z.of_nat depth ∧
       (z = 10000 + Z.of_nat depth →
        checkWinCondition b (if isMax then ai else getOpponent ai) ⇓ Some ai).
Proof.
  intros Hb. destruct (plainMinimax_wf ai depth b isMax (proj1 Hb)) as [z Hz].
  exists z. split; [by apply minimax_full|by apply plainMinimax_range].
Qed.

Lemma blockBoard_fewPieces : fewPieces blockBoard.
Proof. apply (bool_decide_unpack _). by vm_compute. Qed.

Lemma minimax_range_witness :
  ∃ z, minimax 2 blockBoard NegInf PosInf true WHITE ⇓ Fin z ∧
       -10000 - 2 ≤ z ≤ 10000 + 2 ∧
       (z = 10000 + 2 → checkWinCondition blockBoard WHITE ⇓ Some WHITE).
Proof. apply (minimax_range WHITE 2 blockBoard true), blockBoard_fewPieces. Defined.

(** [C12] The hard level takes a win in one move: on a board with at most
    twelve pieces a side, if some legal move of the player leaves the
    opponent without a legal move, [getHardMove] returns such a move. *)
Theorem hard_takes_win b pl ms m :
  fewPieces b → getAllPlayerMoves b pl ⇓ ms → m ∈ ms → winsAtOnce b pl m →
  ∃ m', getHardMove b pl ⇓ Some m' ∧ m' ∈ ms ∧ winsAtOnce b pl m'.
Proof.
  intros Hb Hms Hm Hwin.
  destruct (getHardMove_Ok b pl ms (proj1 Hb) Hms) as (res & Hres & Hbest).
  destruct ms as [|m1 [|m2 ms']]; [by apply elem_of_nil in Hm| |].
  - apply list_elem_of_singleton in Hm as ->. subst res. exists m1. by split_and!; [|left|].
  - destruct (firstBest_wins b pl _ (hardDepth b) Hb Hms m res Hm Hwin Hbest)
      as (m' & -> & ? & ?). by exists m'.
Qed.

Lemma hard_takes_win_witness :
  ∃ m', getHardMove blockBoard WHITE ⇓ Some m' ∧
        m' ∈ [mkMove (mkPosition 5 0) (mkPosition 4 1) [];
              mkMove (mkPosition 5 2) (mkPosition 4 1) [];
              mkMove (mkPosition 5 2) (mkPosition 4 3) []] ∧
        winsAtOnce blockBoard WHITE m'.
Proof.
  apply (hard_takes_win blockBoard WHITE _ (mkMove (mkPosition 5 0) (mkPosition 4 1) []));
    [apply blockBoard_fewPieces|by vm_compute|by left|].
  eexists. split; [reflexivity|].
  apply (getAllPlayerMoves_hasMove _ BLACK []). by vm_compute.
Defined.
