(* ===== verification/Suggest.v ===== *)
(** * Suggest: the hint engine

    Models [getSuggestedMoves] (lines 276-291 of [src/src/game/logic.ts]).
    [Math.max(...lengths)] over the non-empty list of capture moves is
    [maxOf], since lengths are not negative; the sort is the stable
    [sortDesc] by descending score. *)

From stdpp Require Import prelude.
From Stdlib Require Import ZArith Lia.
From S2P Require Import Prelude Types Board MoveGen Chains Apply Terminal Eval.

Local Open Scope Z_scope.

(** The element [{ move, score }] of [scoredMoves] (lines 285-288). *)
Definition scoreMove (board : Board) (pl : Player) (move : Move) : res (Move * Z) :=
  r ← applyMove board move;
  score ← evaluateBoard (newBoard r) pl;
  Ok (move, score).

Definition getSuggestedMoves (board : Board) (pl : Player) : res (list Move) :=
  allMoves ← getAllPlayerMoves board pl;
  if (length allMoves =? 0)%nat then Ok []
  else
    let captureMoves := filter (λ m, (0 < length (captured m))%nat) allMoves in
    if (0 <? length captureMoves)%nat then
      let maxCaptures := maxOf capturedCount captureMoves in
      Ok (filter (λ m, length (captured m) = maxCaptures) captureMoves)
    else
      scoredMoves ← mapM (scoreMove board pl) allMoves;
      let sorted := sortDesc snd scoredMoves in
      match sorted with
      | [] => Err TypeError
      | first :: _ =>
          let maxScore := first.2 in
          Ok ((filter (λ m, m.2 = maxScore) sorted).*1)
      end.

(** ** Specification *)

(** The score of a move one ply ahead. *)
Definition scoreOf (b : Board) (pl : Player) (m : Move) (s : Z) : Prop :=
  ∃ r, applyMove b m ⇓ r ∧ evaluateBoard (newBoard r) pl ⇓ s.

(** [res] is the moves of [ms] of the greatest score, in the order of
    [ms]. *)
Definition bestScored (b : Board) (pl : Player) (ms res : list Move) : Prop :=
  ∃ (score : Move → Z) (best : Z),
    (∀ m, m ∈ ms → scoreOf b pl m (score m)) ∧
    (∃ m, m ∈ ms ∧ score m = best) ∧
    (∀ m, m ∈ ms → score m ≤ best) ∧
    res = filter (λ m, score m = best) ms.

(** ** Scores *)

(** The score of a move, when it has one. *)
Definition scoreFn (b : Board) (pl : Player) (m : Move) : Z :=
  match scoreMove b pl m with Ok (_, s) => s | Err _ => 0 end.

Lemma scoreMove_Ok b pl m p :
  scoreMove b pl m ⇓ p ↔ p.1 = m ∧ scoreOf b pl m p.2.
Proof.
  unfold scoreMove, scoreOf. destruct p as [m' s]. cbn [fst snd]. split.
  - intros (r & Hr & (s' & Hs & [= <- <-])%bind_Ok)%bind_Ok. split; [done|].
    exists r. by split.
  - intros (-> & r & Hr & Hs). apply bind_Ok. exists r. split; [done|].
    apply bind_Ok. exists s. by split.
Qed.

Lemma scoreMove_scoreFn b pl m p : scoreMove b pl m ⇓ p → p = (m, scoreFn b pl m).
Proof.
  intros Hp. unfold scoreFn. rewrite Hp. destruct p as [m' s].
  by apply scoreMove_Ok in Hp as [[= ->] _].
Qed.

(** On a well-formed board every generated move has a score. *)
Lemma scoreMove_wf b pl ms m :
  wf_board b → getAllPlayerMoves b pl ⇓ ms → m ∈ ms →
  scoreMove b pl m ⇓ (m, scoreFn b pl m).
Proof.
  intros Hwf Hms Hm. unfold scoreFn, scoreMove.
  destruct (applyMove_total b m Hwf) as (r & -> & [Hlen _]).
  { by apply (getAllPlayerMoves_legal _ _ _ Hms), legalMove_wellformed in Hm
      as (_ & ? & _). }
  cbn. destruct (proj2 (evaluateBoard_is_Ok (newBoard r) pl)) as [s ->]; [|done].
  by rewrite Hlen.
Qed.

(** The list [scoredMoves] pairs each move with its score. *)
Lemma scoredMoves_Ok b pl ms sc :
  mapM (scoreMove b pl) ms ⇓ sc → sc = (λ m, (m, scoreFn b pl m)) <$> ms.
Proof.
  intros Hsc%mapM_Ok. induction Hsc as [|m p ms sc Hp _ IH]; [done|].
  cbn. by rewrite <-IH, <-(scoreMove_scoreFn _ _ _ _ Hp).
Qed.

Lemma filter_scored (score : Move → Z) (best : Z) (ms : list Move) :
  (filter (λ p : Move * Z, p.2 = best) ((λ m, (m, score m)) <$> ms)).*1
  = filter (λ m, score m = best) ms.
Proof.
  induction ms as [|m ms IH]; [done|]. cbn [fmap list_fmap].
  rewrite !filter_cons. cbn. case_decide; cbn; by rewrite IH.
Qed.

(** ** Properties of the hints *)

Lemma getSuggestedMoves_captures b pl ms :
  getAllPlayerMoves b pl ⇓ ms → (∀ m, m ∈ ms → captured m ≠ []) →
  getSuggestedMoves b pl ⇓ ms.
Proof.
  intros Hms Hcap. unfold getSuggestedMoves. rewrite Hms, bind_Ok_l.
  destruct ms as [|m0 ms']; [done|]. set (ms := m0 :: ms') in *.
  cbn [length Nat.eqb]. rewrite filter_all.
  2:{ intros m ?%Hcap. destruct (captured m); [done|cbn; lia]. }
  cbn [length Nat.ltb Nat.leb]. f_equal.
  apply (keepMax_const capturedCount). intros x y. by apply (getAllPlayerMoves_sameCount b pl).
Qed.

Lemma getSuggestedMoves_steps b pl ms :
  wf_board b → getAllPlayerMoves b pl ⇓ ms → ms ≠ [] →
  (∀ m, m ∈ ms → captured m = []) →
  ∃ res, getSuggestedMoves b pl ⇓ res ∧ bestScored b pl ms res.
Proof.
  intros Hwf Hms Hne Hstep. unfold getSuggestedMoves. rewrite Hms, bind_Ok_l.
  rewrite (proj2 (Nat.eqb_neq (length ms) 0)) by by destruct ms.
  rewrite filter_none by (intros m ->%Hstep; cbn; lia). cbn [length Nat.ltb Nat.leb].
  destruct (mapM_is_Ok (scoreMove b pl) ms) as [sc Hsc].
  { intros m Hm. eexists. by eapply scoreMove_wf. }
  rewrite Hsc, bind_Ok_l. apply scoredMoves_Ok in Hsc as ->.
  set (sc := (λ m, (m, scoreFn b pl m)) <$> ms).
  destruct (sortDesc snd sc) as [|[m1 s1] rest] eqn:Hsort.
  { apply sortDesc_nil, fmap_nil_inv in Hsort. done. }
  pose proof (sortDesc_head _ _ _ _ Hsort) as [Hin Hmax]. rewrite <-Hsort.
  eexists. split; [done|]. cbn [snd]. rewrite filter_sortDesc. unfold sc.
  rewrite filter_scored. exists (scoreFn b pl), s1.
  apply list_elem_of_fmap in Hin as (m & [= -> ->] & Hm). split_and!; [| |  |done].
  - intros m' Hm'. apply (scoreMove_Ok b pl m' (m', scoreFn b pl m')).
    by eapply scoreMove_wf.
  - by exists m.
  - intros m' Hm'. apply (Hmax (m', scoreFn b pl m')).
    apply list_elem_of_fmap. by exists m'.
Qed.

(** The hints are legal moves. *)
Lemma getSuggestedMoves_legal b pl res m :
  wf_board b → getSuggestedMoves b pl ⇓ res → m ∈ res → legalMove b pl m.
Proof.
  intros Hwf Hres Hm. destruct (getAllPlayerMoves_wf b pl Hwf) as [ms Hms].
  apply (getAllPlayerMoves_legal b pl ms Hms).
  destruct (decide (ms = [])) as [->|Hne].
  { unfold getSuggestedMoves in Hres. rewrite Hms in Hres. injection Hres as <-.
    by apply elem_of_nil in Hm. }
  destruct (getAllPlayerMoves_uniform b pl ms Hms) as [Hcap|Hstep].
  - pose proof (getSuggestedMoves_captures b pl ms Hms Hcap). congruence.
  - destruct (getSuggestedMoves_steps b pl ms Hwf Hms Hne Hstep)
      as (res' & Hres' & score & best & _ & _ & _ & Heq).
    assert (res = res') as -> by congruence. subst res'.
    by apply list_elem_of_filter in Hm as [_ ?].
Qed.

Lemma getSuggestedMoves_is_Ok b pl : wf_board b → is_Ok (getSuggestedMoves b pl).
Proof.
  intros Hwf. destruct (getAllPlayerMoves_wf b pl Hwf) as [ms Hms].
  destruct (decide (ms = [])) as [->|Hne].
  { exists []. unfold getSuggestedMoves. by rewrite Hms. }
  destruct (getAllPlayerMoves_uniform b pl ms Hms) as [Hcap|Hstep].
  - exists ms. by apply getSuggestedMoves_captures.
  - destruct (getSuggestedMoves_steps b pl ms Hwf Hms Hne Hstep) as (res & ? & _).
    by exists res.
Qed.

(** [C21] What the hint engine suggests: on a well-formed board
    [getSuggestedMoves] returns; without a legal move it suggests nothing;
    when the legal moves are captures it suggests all of them, in the
    order of the generator; otherwise it suggests the legal moves whose
    score one ply ahead is the greatest, in the order of the generator. *)
Theorem getSuggestedMoves_spec b pl :
  wf_board b →
  ∃ ms res, getAllPlayerMoves b pl ⇓ ms ∧ getSuggestedMoves b pl ⇓ res ∧
    match ms with
    | [] => res = []
    | m :: _ => if decide (captured m = []) then bestScored b pl ms res else res = ms
    end.
Proof.
  intros Hwf. destruct (getAllPlayerMoves_wf b pl Hwf) as [ms Hms]. exists ms.
  destruct ms as [|m ms'] eqn:E; [exists []; by unfold getSuggestedMoves; rewrite Hms|].
  rewrite <-E in *. assert (m ∈ ms) as Hm by (rewrite E; left).
  destruct (getAllPlayerMoves_uniform b pl ms Hms) as [Hcap|Hstep].
  - exists ms. rewrite decide_False by by apply Hcap.
    split_and!; [done| |done]. by apply getSuggestedMoves_captures.
  - destruct (getSuggestedMoves_steps b pl ms) as (res & ? & ?); [done..|by rewrite E|done|].
    exists res. by rewrite decide_True by by apply Hstep.
Qed.

Lemma getSuggestedMoves_spec_witness :
  ∃ ms res, getAllPlayerMoves initialBoard WHITE ⇓ ms ∧
    getSuggestedMoves initialBoard WHITE ⇓ res ∧
    match ms with
    | [] => res = []
    | m :: _ => if decide (captured m = []) then bestScored initialBoard WHITE ms res
                else res = ms
    end.
Proof.
  apply getSuggestedMoves_spec. apply (bool_decide_unpack _). by vm_compute.
Defined.
