(* ===== verification/GameScreen.v ===== *)
(** * GameScreen: the game loop

    Models the state and the handlers of the component [GameScreen]
    ([src/src/screens/GameScreen.tsx]): the [useState] cells are the fields
    of [State], the props [gameMode] and [difficulty] are arguments, and
    each handler, effect and timer is a function from state to state.
    The sounds and the stored preferences are in [Storage] and [System],
    what the component draws in [Views].  An exception caught
    by the [try] of [performMove] leaves the state as it was; an exception
    in the effect is a value of [res].

    [step] is the transition relation of the component: one constructor per
    event.  The invariant [inv] holds in every reachable state. *)

From stdpp Require Import prelude strings.
From Stdlib Require Import ZArith Lia.
From S2P Require Import Prelude Types Board MoveGen Chains Apply Terminal Eval Game Num Search Suggest.

Local Open Scope Z_scope.

(** [const AI_PLAYER = PLAYER_TWO] *)
Definition AI_PLAYER : Player := PLAYER_TWO.

(** The [useState] cells (lines 28-58). *)
Record State : Set := mkState {
  board : Board;
  currentPlayer : Player;
  selectedPiece : option Position;
  validMoves : list Move;
  winner : option Player;
  gameResult : option GameResult;
  showGameOverModal : bool;
  isPaused : bool;
  history : list Board;
  mandatoryCaptures : list Move;
  isMuted : bool;
  enableSuggestions : bool;
  showPlayerPaths : bool;
  (* not a cell of the component: the timers of line 169 that have been
     started and have not fired yet; no cleanup cancels them *)
  modalTimers : nat
}.

(** The state of the first render, for the three stored preferences. *)
Definition initialState (muted suggestions paths : bool) : State :=
  mkState initialBoard PLAYER_ONE None [] None None false false [initialBoard] []
    muted suggestions paths 0.

(** [gameMode === 'single' ? currentPlayer === PLAYER_ONE : true] *)
Definition isPlayerTurn (gameMode : GameMode) (s : State) : bool :=
  match gameMode with
  | single => bool_decide (currentPlayer s = PLAYER_ONE)
  | two => true
  end.

(** The memo [suggestedMoves] (lines 83-86). *)
Definition suggestedMoves (gameMode : GameMode) (s : State) : res (list Move) :=
  if negb (enableSuggestions s) || bool_decide (is_Some (winner s)) || isPaused s
     || negb (isPlayerTurn gameMode s)
  then Ok [] else getSuggestedMoves (board s) (currentPlayer s).

(** The memo [playerPaths] (lines 88-91). *)
Definition playerPaths (gameMode : GameMode) (s : State) : res (list Move) :=
  if negb (showPlayerPaths s) || bool_decide (is_Some (winner s)) || isPaused s
     || negb (isPlayerTurn gameMode s)
  then Ok [] else getAllPlayerMoves (board s) (currentPlayer s).

Definition calculateScore (winPlayer : Player) (movesCount : Z) (currentBoard : Board) : Z :=
  let own := filter (λ square : Piece, player square = winPlayer) (allPieces currentBoard) in
  let pieceCount := Z.of_nat (length own) in
  let kingCount := Z.of_nat (length (filter (λ square : Piece, type square = KING) own)) in
  let baseScore := pieceCount * 100 + kingCount * 200 in
  let penalty := movesCount * 5 in
  Z.max 0 (baseScore - penalty + 1000).

(** The body of the [try] of [performMove] (lines 114-142). *)
Definition performMoveTry (s : State) (move : Move) : res State :=
  r ← applyMove (board s) move;
  let nextPlayer := if decide (currentPlayer s = PLAYER_ONE) then PLAYER_TWO else PLAYER_ONE in
  captures ← findCaptureMoves (newBoard r) (currentPlayer s);
  let chainedCaptures := filter (λ m, samePos (from m) (to move) = true) captures in
  if (0 <? length (captured move))%nat && (0 <? length chainedCaptures)%nat then
    Ok (mkState (newBoard r) (currentPlayer s) (Some (to move)) chainedCaptures
          (winner s) (gameResult s) (showGameOverModal s) (isPaused s)
          (history s ++ [newBoard r]) chainedCaptures
          (isMuted s) (enableSuggestions s) (showPlayerPaths s) (modalTimers s))
  else
    Ok (mkState (newBoard r) nextPlayer None []
          (winner s) (gameResult s) (showGameOverModal s) (isPaused s)
          (history s ++ [newBoard r]) (mandatoryCaptures s)
          (isMuted s) (enableSuggestions s) (showPlayerPaths s) (modalTimers s)).

Definition performMove (s : State) (move : Move) : State :=
  catch (performMoveTry s move) (λ _, s).

(** [winnerName] of the game result (lines 161-163). *)
Definition winnerNameOf (gameMode : GameMode) (win : Player) : string :=
  match gameMode with
  | single => if decide (win = PLAYER_ONE) then "Player" else "CPU"
  | two => if decide (win = PLAYER_ONE) then "White" else "Black"
  end.

(** The synchronous part of the effect at lines 148-188: the game result
    when the game is decided, the mandatory captures otherwise. *)
Definition effect (gameMode : GameMode) (s : State) : res State :=
  if bool_decide (is_Some (winner s)) || isPaused s then Ok s
  else
    win ← checkWinCondition (board s) (currentPlayer s);
    match win with
    | Some win =>
        let movesCount := (Z.of_nat (length (history s)) - 1) / 2 in
        let score := calculateScore win movesCount (board s) in
        Ok (mkState (board s) (currentPlayer s) (selectedPiece s) (validMoves s)
              (Some win)
              (Some (mkGameResult win (winnerNameOf gameMode win) score movesCount gameMode))
              (showGameOverModal s) (isPaused s) (history s) (mandatoryCaptures s)
              (isMuted s) (enableSuggestions s) (showPlayerPaths s) (S (modalTimers s)))
    | None =>
        captures ← findCaptureMoves (board s) (currentPlayer s);
        Ok (mkState (board s) (currentPlayer s) (selectedPiece s) (validMoves s)
              (winner s) (gameResult s) (showGameOverModal s) (isPaused s)
              (history s) captures
              (isMuted s) (enableSuggestions s) (showPlayerPaths s) (modalTimers s))
    end.

(** The callback of a timer the effect started when the game was decided
    (lines 169-171). *)
Definition showModalTimer (s : State) : State :=
  mkState (board s) (currentPlayer s) (selectedPiece s) (validMoves s)
    (winner s) (gameResult s) true (isPaused s) (history s) (mandatoryCaptures s)
    (isMuted s) (enableSuggestions s) (showPlayerPaths s) (pred (modalTimers s)).

(** The effect reaches line 179 and starts the timer of the AI: the game
    is neither decided nor paused, the terminal test finds no winner, and
    it is the turn of the AI. *)
Definition aiTimerStarted (gameMode : GameMode) (s : State) : bool :=
  negb (bool_decide (is_Some (winner s)) || isPaused s)
  && bool_decide (checkWinCondition (board s) (currentPlayer s) = Ok None)
  && bool_decide (gameMode = single) && bool_decide (currentPlayer s = AI_PLAYER).

(** The callback of the timer of the AI (lines 179-185). *)
Definition aiTimer (random : Random) (difficulty : option Difficulty) (s : State) : State :=
  match difficulty with
  | None => s
  | Some difficulty =>
      match getAIMove random (board s) AI_PLAYER difficulty with
      | Ok (Some aiMove) => performMove s aiMove
      | _ => s
      end
  end.

(** [validMoves.find(move => move.to.row === row && move.to.col === col)] *)
Definition findClicked (moves : list Move) (pos : Position) : option Move :=
  head (filter (λ move, samePos (to move) pos = true) moves).

Definition select (s : State) (sel : option Position) (moves : list Move) : State :=
  mkState (board s) (currentPlayer s) sel moves
    (winner s) (gameResult s) (showGameOverModal s) (isPaused s)
    (history s) (mandatoryCaptures s)
    (isMuted s) (enableSuggestions s) (showPlayerPaths s) (modalTimers s).

Definition handleSquareClick (gameMode : GameMode) (s : State) (pos : Position)
    : res State :=
  if bool_decide (is_Some (winner s)) || isPaused s || negb (isPlayerTurn gameMode s)
  then Ok s
  else
    match findClicked (validMoves s) pos with
    | Some clickedMove => Ok (performMove s clickedMove)
    | None =>
        if bool_decide (player <$> (board s).[pos] = Some (currentPlayer s)) then
          if (0 <? length (mandatoryCaptures s))%nat
             && negb (existsb (λ m, samePos (from m) pos) (mandatoryCaptures s))
          then Ok s
          else
            newValidMoves ← getValidMoves (board s) pos;
            Ok (select s (Some pos) newValidMoves)
        else Ok (select s None [])
    end.

Definition handleRestart (s : State) : State :=
  mkState initialBoard PLAYER_ONE None [] None None false false [initialBoard] []
    (isMuted s) (enableSuggestions s) (showPlayerPaths s) (modalTimers s).

Definition handleUndo (gameMode : GameMode) (s : State) : State :=
  if bool_decide (is_Some (winner s)) || (length (history s) <=? 1)%nat then s
  else
    let movesToUndo :=
      if bool_decide (gameMode = single) && (2 <? length (history s))%nat
      then 2%nat else 1%nat in
    let newHistory := take (length (history s) - movesToUndo) (history s) in
    match last newHistory with
    | None => handleRestart s
    | Some lastBoard =>
        mkState lastBoard PLAYER_ONE None [] None (gameResult s)
          (showGameOverModal s) (isPaused s) newHistory []
          (isMuted s) (enableSuggestions s) (showPlayerPaths s) (modalTimers s)
    end.

Definition getTurnIndicator (gameMode : GameMode) (s : State) : string :=
  if bool_decide (is_Some (winner s)) then "Game Over"
  else if isPaused s then "Paused"
  else
    match gameMode with
    | single => if decide (currentPlayer s = PLAYER_ONE) then "Your Turn" else "AI Thinking..."
    | two => if decide (currentPlayer s = PLAYER_ONE) then "White's Turn" else "Black's Turn"
    end.

(** The toggles of the controls (lines 279, 328-330, 357). *)
Definition togglePause (s : State) : State :=
  mkState (board s) (currentPlayer s) (selectedPiece s) (validMoves s)
    (winner s) (gameResult s) (showGameOverModal s) (negb (isPaused s))
    (history s) (mandatoryCaptures s)
    (isMuted s) (enableSuggestions s) (showPlayerPaths s) (modalTimers s).

Definition togglePreference (mute suggestions paths : bool) (s : State) : State :=
  mkState (board s) (currentPlayer s) (selectedPiece s) (validMoves s)
    (winner s) (gameResult s) (showGameOverModal s) (isPaused s)
    (history s) (mandatoryCaptures s)
    (xorb mute (isMuted s)) (xorb suggestions (enableSuggestions s))
    (xorb paths (showPlayerPaths s)) (modalTimers s).

Definition dismissModal (s : State) : State :=
  mkState (board s) (currentPlayer s) (selectedPiece s) (validMoves s)
    (winner s) (gameResult s) false (isPaused s) (history s) (mandatoryCaptures s)
    (isMuted s) (enableSuggestions s) (showPlayerPaths s) (modalTimers s).

(** ** The transition relation *)

(** One event of the component in the mode [gameMode] against the level
    [difficulty]. *)
Inductive step (gameMode : GameMode) (difficulty : option Difficulty) :
    State → State → Prop :=
  | step_click s pos s' :
      handleSquareClick gameMode s pos ⇓ s' → step gameMode difficulty s s'
  | step_effect s s' :
      effect gameMode s ⇓ s' → step gameMode difficulty s s'
  | step_ai s random :
      aiTimerStarted gameMode s = true →
      step gameMode difficulty s (aiTimer random difficulty s)
  | step_modal s :
      (0 < modalTimers s)%nat → step gameMode difficulty s (showModalTimer s)
  | step_restart s : step gameMode difficulty s (handleRestart s)
  | step_undo s : step gameMode difficulty s (handleUndo gameMode s)
  | step_pause s : step gameMode difficulty s (togglePause s)
  | step_preference s mute suggestions paths :
      step gameMode difficulty s (togglePreference mute suggestions paths s)
  | step_dismiss s : step gameMode difficulty s (dismissModal s).

(** The states the component can be in. *)
Inductive reachable (gameMode : GameMode) (difficulty : option Difficulty) :
    State → Prop :=
  | reachable_init muted suggestions paths :
      reachable gameMode difficulty (initialState muted suggestions paths)
  | reachable_step s s' :
      reachable gameMode difficulty s → step gameMode difficulty s s' →
      reachable gameMode difficulty s'.

(** What holds of every state of the component: the board is well formed
    and is the last entry of the history, whose entries are positions of
    the game (boards reached from the initial board by legal moves); the
    moves offered to the player are legal moves of the side to move. *)
Record inv (s : State) : Prop := mkInv {
  inv_board : wf_board (board s);
  inv_last : last (history s) = Some (board s);
  inv_history : Forall played (history s);
  inv_validMoves : ∀ m, m ∈ validMoves s → legalMove (board s) (currentPlayer s) m
}.

(** ** The invariant *)

Section invariant.
Context (gameMode : GameMode) (difficulty : option Difficulty).

Lemma inv_initialState muted suggestions paths :
  inv (initialState muted suggestions paths).
Proof.
  split; cbn; [apply initialBoard_wf|done| |by intros ? ?%elem_of_nil].
  constructor; [apply played_init|constructor].
Qed.

(** The board shown is a position of the game. *)
Lemma inv_played s : inv s → played (board s).
Proof.
  intros [_ Hlast Hhist _]. rewrite Forall_forall in Hhist. apply Hhist.
  rewrite last_lookup in Hlast. by eapply list_elem_of_lookup_2.
Qed.

(** A legal move is performed without exception. *)
Lemma performMoveTry_legal s m :
  inv s → legalMove (board s) (currentPlayer s) m →
  ∃ s', performMoveTry s m ⇓ s' ∧ inv s' ∧
        ∃ r, applyMove (board s) m ⇓ r ∧ board s' = newBoard r ∧
             history s' = history s ++ [newBoard r].
Proof.
  intros Hinv Hm. pose proof Hinv as [Hwf Hlast Hhist Hvalid].
  pose proof Hm as (_ & Hto & _)%legalMove_wellformed. unfold performMoveTry.
  destruct (applyMove_total (board s) m Hwf Hto) as (r & Hr & Hwfr).
  rewrite Hr, bind_Ok_l.
  destruct (findCaptureMoves_wf (newBoard r) (currentPlayer s) Hwfr) as [caps Hcaps].
  rewrite Hcaps, bind_Ok_l.
  assert (Forall played (history s ++ [newBoard r])).
  { apply Forall_app. split; [done|]. constructor; [|done].
    by apply (played_move (board s) (currentPlayer s) m r); [apply inv_played|..]. }
  case_match; eexists; (split; [done|]); (split; [|by eauto]);
    split; cbn; rewrite ?last_snoc; try done; [|by intros ? ?%elem_of_nil].
  intros m' [_ Hm']%list_elem_of_filter. by eapply findCaptureMoves_legal.
Qed.

Lemma performMove_legal s m :
  inv s → legalMove (board s) (currentPlayer s) m →
  performMoveTry s m ⇓ performMove s m ∧ inv (performMove s m).
Proof.
  intros Hinv Hm. unfold performMove.
  destruct (performMoveTry_legal s m Hinv Hm) as (s' & Hs' & ? & _).
  rewrite Hs'. by split.
Qed.

Lemma inv_select s sel moves :
  inv s → (∀ m, m ∈ moves → legalMove (board s) (currentPlayer s) m) →
  inv (select s sel moves).
Proof. intros [? ? ? ?] ?. by split. Qed.

Lemma handleSquareClick_inv s pos s' :
  inv s → handleSquareClick gameMode s pos ⇓ s' → inv s'.
Proof.
  intros Hinv. unfold handleSquareClick. case_match; [by intros [= <-]|].
  destruct (findClicked (validMoves s) pos) as [m|] eqn:Hfind.
  { intros [= <-]. apply performMove_legal; [done|]. apply (inv_validMoves s Hinv).
    unfold findClicked in Hfind. apply head_Some_elem_of in Hfind.
    by apply list_elem_of_filter in Hfind as [_ ?]. }
  destruct (bool_decide (player <$> _ = _)) eqn:Hown;
    [apply bool_decide_eq_true in Hown
    |intros [= <-]; apply inv_select; [done|by intros ? ?%elem_of_nil]].
  case_match; [by intros [= <-]|]. intros (ms & Hms & [= <-])%bind_Ok.
  apply inv_select; [done|]. intros m Hm.
  destruct ((board s).[pos]) as [piece|] eqn:Hpiece; [|done].
  injection Hown as <-. eapply getValidMoves_legal; [|done..].
  eapply getAt_Some_onBoard; [apply (inv_board s Hinv)|done].
Qed.

Lemma effect_inv s s' : inv s → effect gameMode s ⇓ s' → inv s'.
Proof.
  intros [? ? ? ?]. unfold effect. case_match; [by intros [= <-]|].
  intros (win & _ & Hs')%bind_Ok. destruct win; [by injection Hs' as <-|].
  by apply bind_Ok in Hs' as (caps & _ & [= <-]).
Qed.

(** The timer of the AI, for any chooser of moves that keeps the promise
    of [Search.Strategy]. *)
Section strategy.
Context (choose : Random → Board → Player → res (option Move)) `{!Strategy choose}.

Definition playChosen (random : Random) (s : State) : State :=
  match choose random (board s) AI_PLAYER with
  | Ok (Some aiMove) => performMove s aiMove
  | _ => s
  end.

Lemma playChosen_inv random s :
  inv s → currentPlayer s = AI_PLAYER → inv (playChosen random s).
Proof using Type*.
  intros Hinv Hai. unfold playChosen.
  destruct (choose random (board s) AI_PLAYER) as [[m|]|] eqn:Hm; [|done..].
  apply performMove_legal; [done|]. rewrite Hai.
  by apply (strategy_legal random), Hm; apply (inv_board s Hinv).
Qed.

(** The chooser finds a move when the AI has one, and the move is
    performed. *)
Lemma playChosen_plays random s :
  inv s → currentPlayer s = AI_PLAYER → (rnum random < rden random)%nat →
  hasMove (board s) AI_PLAYER →
  ∃ m, choose random (board s) AI_PLAYER ⇓ Some m ∧
       legalMove (board s) AI_PLAYER m ∧ performMoveTry s m ⇓ playChosen random s.
Proof using Type*.
  intros Hinv Hai Hr Hmove. pose proof (inv_board s Hinv) as Hwf. unfold playChosen.
  destruct (strategy_some random (board s) AI_PLAYER Hwf Hr Hmove) as [m Hm].
  rewrite Hm. exists m.
  assert (legalMove (board s) AI_PLAYER m) by by apply (strategy_legal random).
  split_and!; [done..|]. apply performMove_legal; [done|by rewrite Hai].
Qed.
End strategy.

Lemma aiTimer_playChosen random d s :
  aiTimer random (Some d) s = playChosen (λ random b pl, getAIMove random b pl d) random s.
Proof. done. Qed.

Lemma aiTimer_inv random s :
  inv s → aiTimerStarted gameMode s = true → inv (aiTimer random difficulty s).
Proof.
  intros Hinv (_ & Hai%bool_decide_eq_true)%andb_true_iff.
  destruct difficulty as [d|]; [|done]. rewrite aiTimer_playChosen.
  by apply playChosen_inv; [apply _|..].
Qed.

Lemma handleRestart_inv s : inv (handleRestart s).
Proof.
  split; cbn; [apply initialBoard_wf|done| |by intros ? ?%elem_of_nil].
  constructor; [apply played_init|constructor].
Qed.

Lemma handleUndo_inv s : inv s → inv (handleUndo gameMode s).
Proof.
  intros Hinv. unfold handleUndo. case_match; [done|].
  destruct (last (take _ _)) as [lastBoard|] eqn:Hlast; [|apply handleRestart_inv].
  set (newHistory := take _ _) in *.
  assert (Forall played newHistory) as Hplayed by apply Forall_take, (inv_history s Hinv).
  split; cbn; [|done..|by intros ? ?%elem_of_nil].
  apply played_wf. rewrite Forall_forall in Hplayed. apply Hplayed.
  rewrite last_lookup in Hlast. by eapply list_elem_of_lookup_2.
Qed.

Lemma step_inv s s' : inv s → step gameMode difficulty s s' → inv s'.
Proof.
  intros Hinv Hstep. destruct Hstep.
  - by eapply handleSquareClick_inv.
  - by eapply effect_inv.
  - by apply aiTimer_inv.
  - by destruct Hinv.
  - apply handleRestart_inv.
  - by apply handleUndo_inv.
  - by destruct Hinv.
  - by destruct Hinv.
  - by destruct Hinv.
Qed.
End invariant.

(** ** Properties of the game loop *)

(** [C6] The invariant of the component: in every state reachable from
    the first render the board is a well-formed 8x8 board, it is the last
    entry of the history, every entry of the history is a position of the
    game (a board reached from the initial board by legal moves, each
    applied by [applyMove]), and every move offered to the player is a
    legal move of the side to move on the board shown. *)
Theorem reachable_inv gameMode difficulty s :
  reachable gameMode difficulty s → inv s.
Proof.
  induction 1 as [|s s' _ IH Hstep]; [apply inv_initialState|by eapply step_inv].
Qed.

Lemma reachable_inv_witness :
  inv (handleUndo two (performMove (initialState false false false)
                         (mkMove (mkPosition 5 0) (mkPosition 4 1) []))).
Proof.
  apply (reachable_inv two None). eapply reachable_step; [|apply step_undo].
  eapply (reachable_step _ _ (select (initialState false false false) (Some (mkPosition 5 0))
            [mkMove (mkPosition 5 0) (mkPosition 4 1) []])).
  - eapply reachable_step; [apply (reachable_init _ _ false false false)|].
    by apply (step_click _ _ _ (mkPosition 5 0)).
  - by apply (step_click _ _ _ (mkPosition 4 1)).
Defined.

(** [C8] Only legal moves are played: from a state that satisfies the
    invariant, an event leaves the board as it is, or applies a legal move
    of the side to move and appends the new board to the history, or goes
    back to a board of the history (undo), or resets the game (restart). *)
Theorem only_legal_moves gameMode difficulty s s' :
  inv s → step gameMode difficulty s s' →
  board s' = board s
  ∨ (∃ m r, legalMove (board s) (currentPlayer s) m ∧ applyMove (board s) m ⇓ r ∧
            board s' = newBoard r ∧ history s' = history s ++ [newBoard r])
  ∨ board s' ∈ history s
  ∨ s' = handleRestart s.
Proof.
  intros Hinv Hstep.
  assert (∀ m, legalMove (board s) (currentPlayer s) m →
    ∃ r, applyMove (board s) m ⇓ r ∧ board (performMove s m) = newBoard r ∧
         history (performMove s m) = history s ++ [newBoard r]) as Hperform.
  { intros m Hm. destruct (performMoveTry_legal s m Hinv Hm) as (s1 & Hs1 & _ & Hr).
    unfold performMove. by rewrite Hs1. }
  destruct Hstep as [s pos s' Hclick|s s' Heff|s random Hai| | | | | |]; auto.
  - unfold handleSquareClick in Hclick. repeat case_match; simplify_eq; auto.
    + right. left. exists m. assert (legalMove (board s) (currentPlayer s) m) as Hm.
      { apply (inv_validMoves s Hinv). unfold findClicked in *.
        match goal with H : head _ = Some m |- _ =>
          apply head_Some_elem_of, list_elem_of_filter in H as [_ ?] end. done. }
      destruct (Hperform m Hm) as (r & ?). by exists r.
    + by apply bind_Ok in Hclick as (? & _ & [= <-]); left.
  - left. unfold effect in Heff. case_match; [by injection Heff as <-|].
    apply bind_Ok in Heff as (win & _ & Heff). destruct win; [by injection Heff as <-|].
    by apply bind_Ok in Heff as (? & _ & [= <-]).
  - unfold aiTimer. repeat case_match; auto. right. left. exists m.
    assert (legalMove (board s) (currentPlayer s) m) as Hm.
    { apply andb_true_iff in Hai as [_ ->%bool_decide_eq_true].
      match goal with H : getAIMove ?r _ _ ?d = _ |- _ =>
        apply (strategy_legal (Strategy := getAIMove_strategy d) r _ _ _
                 (inv_board s Hinv) H) end. }
    destruct (Hperform m Hm) as (r & ?). by exists r.
  - unfold handleUndo. case_match; [by left|].
    destruct (last _) as [lastBoard|] eqn:Hlast; [|by do 3 right].
    right. right. left. cbn. rewrite last_lookup in Hlast.
    apply list_elem_of_lookup_2 in Hlast. by eapply subseteq_take.
Qed.

(** The state after White has selected the man on (5,0). *)
Definition selectedState : State :=
  select (initialState false false false) (Some (mkPosition 5 0))
    [mkMove (mkPosition 5 0) (mkPosition 4 1) []].

Lemma selectedState_inv : inv selectedState.
Proof.
  eapply (handleSquareClick_inv two (initialState false false false) (mkPosition 5 0));
    [apply inv_initialState|done].
Qed.

Lemma only_legal_moves_witness :
  let s' := performMove selectedState (mkMove (mkPosition 5 0) (mkPosition 4 1) []) in
  board s' = board selectedState
  ∨ (∃ m r, legalMove (board selectedState) (currentPlayer selectedState) m ∧
            applyMove (board selectedState) m ⇓ r ∧
            board s' = newBoard r ∧ history s' = history selectedState ++ [newBoard r])
  ∨ board s' ∈ history selectedState
  ∨ s' = handleRestart selectedState.
Proof.
  apply (only_legal_moves two None selectedState); [apply selectedState_inv|].
  by apply (step_click _ _ _ (mkPosition 4 1)).
Defined.

(** Once a winner is set the game stands still: every event leaves
    the board, the side to move, the history and the winner as they are,
    except a restart. *)
Theorem game_over_stable gameMode difficulty s s' :
  is_Some (winner s) → step gameMode difficulty s s' →
  s' = handleRestart s
  ∨ (board s' = board s ∧ currentPlayer s' = currentPlayer s ∧
     history s' = history s ∧ winner s' = winner s).
Proof.
  intros Hwin Hstep.
  assert (bool_decide (is_Some (winner s)) = true) as Hb by by apply bool_decide_eq_true.
  destruct Hstep as [s pos s' Hclick|s s' Heff|s random Hai| | | | | |]; auto.
  - right. unfold handleSquareClick in Hclick. rewrite Hb in Hclick. by injection Hclick as <-.
  - right. unfold effect in Heff. rewrite Hb in Heff. by injection Heff as <-.
  - unfold aiTimerStarted in Hai. by rewrite Hb in Hai.
  - right. unfold handleUndo. by rewrite Hb.
Qed.

(** A state in which White has won. *)
Definition wonState : State :=
  mkState simpleCaptureBoard WHITE None [] (Some WHITE) None false false
    [simpleCaptureBoard] [] false false false 1.

Lemma game_over_stable_witness :
  handleUndo two wonState = handleRestart wonState
  ∨ (board (handleUndo two wonState) = board wonState ∧
     currentPlayer (handleUndo two wonState) = currentPlayer wonState ∧
     history (handleUndo two wonState) = history wonState ∧
     winner (handleUndo two wonState) = winner wonState).
Proof.
  apply (game_over_stable two None wonState); [by eexists|apply step_undo].
Defined.

(** [C31] What undo does: while the game is undecided and a move has been
    played, [handleUndo] drops the last board of the history, or the last
    two against the AI when the history has more than two boards, shows
    the board that is now last, clears the selection, and gives the move
    to White, whichever side had played the board it goes back to. *)
Theorem handleUndo_spec gameMode s :
  winner s = None → (1 < length (history s))%nat →
  let k := if bool_decide (gameMode = single) && (2 <? length (history s))%nat
           then 2%nat else 1%nat in
  let s' := handleUndo gameMode s in
  history s' = take (length (history s) - k) (history s) ∧
  last (history s') = Some (board s') ∧
  currentPlayer s' = PLAYER_ONE ∧
  selectedPiece s' = None ∧ validMoves s' = [] ∧ winner s' = None.
Proof.
  intros Hwin Hlen k s'. subst s'. unfold handleUndo. rewrite Hwin.
  rewrite bool_decide_false by (by intros [? ?]).
  rewrite (proj2 (Nat.leb_gt _ _) Hlen). cbn [orb]. fold k.
  destruct (last (take (length (history s) - k) (history s))) as [b|] eqn:Hlast; [done|].
  apply last_None in Hlast. apply (f_equal length) in Hlast.
  rewrite length_take in Hlast. cbn in Hlast. subst k.
  destruct (bool_decide (gameMode = single)), (Nat.ltb_spec 2 (length (history s)));
    cbn in Hlast; lia.
Qed.

(** In two-player mode, after a move of White and a move of Black, undo
    shows the board after White's move with White to move again. *)
Lemma handleUndo_spec_witness :
  let s1 := performMove selectedState (mkMove (mkPosition 5 0) (mkPosition 4 1) []) in
  let s2 := performMove s1 (mkMove (mkPosition 2 1) (mkPosition 3 0) []) in
  let s' := handleUndo two s2 in
  (currentPlayer s1 = BLACK ∧ board s' = board s1) ∧
  history s' = take (length (history s2) - 1) (history s2) ∧
  last (history s') = Some (board s') ∧
  currentPlayer s' = WHITE ∧
  selectedPiece s' = None ∧ validMoves s' = [] ∧ winner s' = None.
Proof.
  intros s1 s2 s'. split; [by vm_compute|].
  apply (handleUndo_spec two s2); [done|vm_compute; lia].
Defined.

(** The effect declares the winner the terminal test finds: in a
    state of the invariant that is neither decided nor paused, the effect
    returns; when [checkWinCondition] finds a winner it records it with a
    game result that counts the moves played as half the boards added to
    the history and carries a score that is not negative; otherwise it
    stores the captures of the side to move as mandatory. *)
Theorem effect_spec gameMode s :
  inv s → winner s = None → isPaused s = false →
  ∃ w s', checkWinCondition (board s) (currentPlayer s) ⇓ w ∧
          effect gameMode s ⇓ s' ∧ winner s' = w ∧ board s' = board s ∧
          match w with
          | Some win =>
              ∃ g, gameResult s' = Some g ∧ Types.winner g = win ∧
                   moves g = (Z.of_nat (length (history s)) - 1) / 2 ∧ 0 ≤ score g
          | None => findCaptureMoves (board s) (currentPlayer s) ⇓ mandatoryCaptures s'
          end.
Proof.
  intros Hinv Hwin Hpause. unfold effect. rewrite Hwin, Hpause.
  rewrite bool_decide_false by (by intros [? ?]). cbn [orb].
  destruct (checkWinCondition_wf (board s) (currentPlayer s) (inv_board s Hinv)) as [w Hw].
  rewrite Hw, bind_Ok_l. exists w. destruct w as [win|].
  - eexists. split_and!; [done..|]. eexists. split_and!; [done..|].
    cbn. unfold calculateScore. lia.
  - destruct (findCaptureMoves_wf (board s) (currentPlayer s) (inv_board s Hinv))
      as [caps Hcaps]. rewrite Hcaps, bind_Ok_l. by eexists.
Qed.

Lemma effect_spec_witness :
  ∃ w s', checkWinCondition (board selectedState) (currentPlayer selectedState) ⇓ w ∧
          effect two selectedState ⇓ s' ∧ winner s' = w ∧ board s' = board selectedState ∧
          match w with
          | Some win =>
              ∃ g, gameResult s' = Some g ∧ Types.winner g = win ∧
                   moves g = (Z.of_nat (length (history selectedState)) - 1) / 2 ∧
                   0 ≤ score g
          | None => findCaptureMoves (board selectedState) (currentPlayer selectedState)
                    ⇓ mandatoryCaptures s'
          end.
Proof. by apply effect_spec; [apply selectedState_inv|..]. Defined.

(** ** Whose turn it is after a move *)

(** A white man on (2,1) that captures to the far row, next to a black man
    the king it becomes can capture backwards. *)
Definition promotionCaptureBoard : Board :=
  boardOf [(2, 1, mkPiece WHITE MAN); (1, 2, mkPiece BLACK MAN);
           (1, 4, mkPiece BLACK MAN); (0, 7, mkPiece BLACK MAN)].

(** The state of a game that shows [b] with [pl] to move. *)
Definition stateOf (b : Board) (pl : Player) : State :=
  mkState b pl None [] None None false false [b] [] false false false 0.

Lemma chainedCaptures_nil b pl m r caps :
  wf_board b → legalMove b pl m → applyMove b m ⇓ r → promoted r = false →
  findCaptureMoves (newBoard r) pl ⇓ caps →
  (0 <? length (captured m))%nat
  && (0 <? length (filter (λ m', samePos (from m') (to m) = true) caps))%nat = false.
Proof.
  intros Hwf Hm Hr Hprom Hcaps. apply andb_false_iff.
  destruct (captured m) as [|o os] eqn:Hcap; [by left|right].
  assert (isCaptureMove b pl m) as Hcapture.
  { destruct Hm as [[? _]|[_ (? & ? & _ & _ & _ & _ & _ & _ & _ & ?)]]; [done|congruence]. }
  rewrite filter_none; [done|]. intros m' Hm' Heq%samePos_spec.
  eapply (capture_complete b pl m r); [done..| |done].
  by eapply findCaptureMoves_capture.
Qed.

(** [C9] The turn passes with the move: from a state of the invariant,
    performing a legal move that promotes no man hands the move to the
    other side and clears the selection, however many pieces the move
    captured; the same side moves again only after a capture that made a
    king. *)
Theorem turn_passes s m r :
  inv s → legalMove (board s) (currentPlayer s) m →
  applyMove (board s) m ⇓ r → promoted r = false →
  let s' := performMove s m in
  board s' = newBoard r ∧ currentPlayer s' = getOpponent (currentPlayer s) ∧
  selectedPiece s' = None ∧ validMoves s' = [].
Proof.
  intros Hinv Hm Hr Hprom. cbn zeta. unfold performMove, performMoveTry.
  rewrite Hr, bind_Ok_l.
  assert (wf_board (newBoard r)) as Hwfr.
  { apply played_wf, (played_move (board s) (currentPlayer s) m r); [|done..].
    by apply inv_played. }
  destruct (findCaptureMoves_wf (newBoard r) (currentPlayer s) Hwfr) as [caps Hcaps].
  rewrite Hcaps, bind_Ok_l.
  rewrite (chainedCaptures_nil (board s) (currentPlayer s) m r caps)
    by (done || apply (inv_board s Hinv)).
  cbn. split_and!; [done| |done..]. by destruct (currentPlayer s).
Qed.

Lemma turn_passes_witness :
  let s' := performMove selectedState (mkMove (mkPosition 5 0) (mkPosition 4 1) []) in
  (∃ r, applyMove initialBoard (mkMove (mkPosition 5 0) (mkPosition 4 1) []) ⇓ r ∧
        board s' = newBoard r) ∧
  currentPlayer s' = BLACK ∧ selectedPiece s' = None ∧ validMoves s' = [].
Proof.
  destruct (turn_passes selectedState (mkMove (mkPosition 5 0) (mkPosition 4 1) []) _
    selectedState_inv ltac:(apply opening_legal; by left) eq_refl eq_refl)
    as (? & ? & ? & ?).
  split_and!; [by eexists|done..].
Defined.

(** The captures with which the turn goes on after a move that ended on
    [p] (lines 126-128): the legal captures on the new board that start
    on [p]. *)
Definition continuation (b : Board) (pl : Player) (p : Position) (m' : Move) : Prop :=
  legalMove b pl m' ∧ isCaptureMove b pl m' ∧ from m' = p.

Section continues.
Context (s : State) (m : Move) (r : ApplyMoveResult) (caps : list Move).
Context (Hwf : wf_board (board s)) (Hm : legalMove (board s) (currentPlayer s) m).
Context (Hr : applyMove (board s) m ⇓ r).
Context (Hcaps : findCaptureMoves (newBoard r) (currentPlayer s) ⇓ caps).

Let chainedCaptures := filter (λ m', samePos (from m') (to m) = true) caps.

Lemma elem_of_chainedCaptures m' :
  m' ∈ chainedCaptures ↔ continuation (newBoard r) (currentPlayer s) (to m) m'.
Proof using Hcaps.
  unfold chainedCaptures, continuation.
  rewrite list_elem_of_filter, samePos_spec, (elem_of_findCaptureMoves _ _ _ _ Hcaps). tauto.
Qed.

(** The test of line 130. *)
Lemma chained_test :
  (0 <? length (captured m))%nat && (0 <? length chainedCaptures)%nat = true ↔
  captured m ≠ [] ∧ ∃ m', continuation (newBoard r) (currentPlayer s) (to m) m'.
Proof using Hcaps.
  rewrite andb_true_iff, !Nat.ltb_lt, <-!length_zero_iff_nil.
  setoid_rewrite <-elem_of_chainedCaptures. split; intros [? Hch]; (split; [lia|]).
  - destruct chainedCaptures as [|m' ?]; [cbn in Hch; lia|]. exists m'. left.
  - destruct Hch as [m' Hm']. destruct chainedCaptures; [by apply elem_of_nil in Hm'|cbn; lia].
Qed.

(** The two branches of [performMove] (lines 130-142). *)
Lemma performMove_branches :
  performMove s m =
  if (0 <? length (captured m))%nat && (0 <? length chainedCaptures)%nat then
    mkState (newBoard r) (currentPlayer s) (Some (to m)) chainedCaptures
      (winner s) (gameResult s) (showGameOverModal s) (isPaused s)
      (history s ++ [newBoard r]) chainedCaptures
      (isMuted s) (enableSuggestions s) (showPlayerPaths s) (modalTimers s)
  else
    mkState (newBoard r) (getOpponent (currentPlayer s)) None []
      (winner s) (gameResult s) (showGameOverModal s) (isPaused s)
      (history s ++ [newBoard r]) (mandatoryCaptures s)
      (isMuted s) (enableSuggestions s) (showPlayerPaths s) (modalTimers s).
Proof using Hr Hcaps.
  clear Hwf Hm. unfold performMove, performMoveTry. rewrite Hr, bind_Ok_l, Hcaps, bind_Ok_l.
  fold chainedCaptures. case_match; cbn; [done|]. by destruct (currentPlayer s).
Qed.

(** A move after which [promoted] is set has left a king on its target. *)
Lemma promoted_king :
  promoted r = true → (newBoard r).[to m] = Some (mkPiece (currentPlayer s) KING).
Proof using Hwf Hm Hr.
  intros Hprom. pose proof Hm as (_ & Hto%onBoard_spec & _)%legalMove_wellformed.
  destruct (applyMove_legal_getAt _ _ m r Hwf Hm Hr) as (piece & Hpiece & <- & _).
  rewrite (applyMove_promoted _ m piece r Hpiece Hr) in Hprom by lia.
  apply andb_true_iff in Hprom as [Hprom Hvac%bool_decide_eq_true].
  rewrite (applyMove_getAt _ m piece r Hpiece Hr) by lia.
  rewrite decide_False, decide_True by done. unfold movedPiece. by rewrite Hprom.
Qed.
End continues.

(** [C20] When the same side moves again.  After [performMove] of a legal
    move the side that moved is to move again exactly when the move
    captured and the piece that moved has, where it stands now, a capture
    among the legal moves of the new board.  Then the move has made a king
    of a man, that king is selected, and the moves offered, which are also
    the mandatory captures, are exactly the legal captures of that king. *)
Theorem promotion_continues s m r :
  wf_board (board s) → legalMove (board s) (currentPlayer s) m →
  applyMove (board s) m ⇓ r →
  let pl := currentPlayer s in
  let s' := performMove s m in
  (currentPlayer s' = pl ↔
   captured m ≠ [] ∧ ∃ m', continuation (newBoard r) pl (to m) m') ∧
  (currentPlayer s' = pl →
   promoted r = true ∧ (board s').[to m] = Some (mkPiece pl KING) ∧
   selectedPiece s' = Some (to m) ∧ mandatoryCaptures s' = validMoves s' ∧
   ∀ m', m' ∈ validMoves s' ↔ continuation (newBoard r) pl (to m) m').
Proof.
  intros Hwf Hm Hr. cbn zeta.
  pose proof Hm as (_ & Hto & _)%legalMove_wellformed.
  destruct (applyMove_total (board s) m Hwf Hto) as (r' & Hr' & Hwfr).
  assert (r' = r) as -> by congruence.
  destruct (findCaptureMoves_wf (newBoard r) (currentPlayer s) Hwfr) as [caps Hcaps].
  rewrite (performMove_branches s m r caps Hr Hcaps), <-(chained_test s m r caps Hcaps).
  destruct (_ && _) eqn:Htest; cbn.
  - split; [done|]. intros _.
    assert (promoted r = true) as Hprom.
    { destruct (promoted r) eqn:Hprom; [done|].
      by rewrite (chainedCaptures_nil _ _ m r caps Hwf Hm Hr Hprom Hcaps) in Htest. }
    split_and!; [done|by apply promoted_king|done..|].
    intros m'. by apply elem_of_chainedCaptures.
  - pose proof (getOpponent_ne (currentPlayer s)). split; [split|]; done.
Qed.

Lemma promotionCapture_legal :
  legalMove promotionCaptureBoard WHITE
    (mkMove (mkPosition 2 1) (mkPosition 0 3) [mkPosition 1 2]).
Proof. eapply getAllPlayerMoves_legal; [by vm_compute|]. set_solver. Qed.

(** On [promotionCaptureBoard] the man on (2,1) captures into the far row;
    the king it becomes goes on with the capture backwards of the man on
    (1,4), which the rules did not give the man. *)
Lemma promotion_continues_witness :
  let m := mkMove (mkPosition 2 1) (mkPosition 0 3) [mkPosition 1 2] in
  let s' := performMove (stateOf promotionCaptureBoard WHITE) m in
  currentPlayer s' = WHITE ∧
  (board s').[mkPosition 0 3] = Some (mkPiece WHITE KING) ∧
  selectedPiece s' = Some (mkPosition 0 3) ∧
  validMoves s' = [mkMove (mkPosition 0 3) (mkPosition 2 5) [mkPosition 1 4]] ∧
  ∀ m', m' ∈ validMoves s' → legalMove (board s') WHITE m' ∧ from m' = mkPosition 0 3.
Proof.
  cbn zeta.
  destruct (promotion_continues (stateOf promotionCaptureBoard WHITE)
              (mkMove (mkPosition 2 1) (mkPosition 0 3) [mkPosition 1 2]) _
              ltac:(apply (bool_decide_unpack _); by vm_compute)
              promotionCapture_legal eq_refl) as [_ Hgo].
  destruct Hgo as (_ & Hking & Hsel & _ & Hvalid); [by vm_compute|].
  split_and!; [by vm_compute|exact Hking|exact Hsel|by vm_compute|].
  intros m' (Hlegal & _ & Hfrom)%Hvalid. by split.
Defined.

(** ** The timer of the game-over modal *)

(** [C34] The timer that opens the game-over modal outlives a restart: when
    the effect finds a winner it starts the timer of line 169, which no
    cleanup cancels; if the player restarts before it fires, the timer
    sets [showGameOverModal] in the new game, on the initial board and
    without a winner. *)
Theorem modal_survives_restart gameMode difficulty s w :
  winner s = None → isPaused s = false →
  checkWinCondition (board s) (currentPlayer s) ⇓ Some w →
  ∃ s1, effect gameMode s ⇓ s1 ∧ winner s1 = Some w ∧
    let s2 := handleRestart s1 in
    let s3 := showModalTimer s2 in
    step gameMode difficulty s1 s2 ∧ step gameMode difficulty s2 s3 ∧
    board s3 = initialBoard ∧ winner s3 = None ∧ showGameOverModal s3 = true.
Proof.
  intros Hwin Hpause Hw. unfold effect. rewrite Hwin, Hpause, Hw.
  rewrite bool_decide_false by (by intros [? ?]). cbn [orb]. rewrite bind_Ok_l.
  eexists. split_and!; [done|done|apply step_restart|apply step_modal; cbn; lia|done..].
Qed.

Lemma modal_survives_restart_witness :
  ∃ s1, effect two (stateOf fortressBoard WHITE) ⇓ s1 ∧ winner s1 = Some BLACK ∧
    let s2 := handleRestart s1 in
    let s3 := showModalTimer s2 in
    step two None s1 s2 ∧ step two None s2 s3 ∧
    board s3 = initialBoard ∧ winner s3 = None ∧ showGameOverModal s3 = true.
Proof.
  by apply (modal_survives_restart two None (stateOf fortressBoard WHITE) BLACK).
Defined.
