(* ===== verification/GameBoard.v ===== *)
(** * GameBoard: what the board component shows

    Models the component of [src/src/components/GameBoard.tsx]: its four
    highlight predicates and, for every square of the grid, which overlays
    are drawn ([squareView]), and the props the game screen passes to it
    (lines 312-320 of [src/src/screens/GameScreen.tsx]).  Styling and
    animation are left out.  The theorem shows that what is drawn
    agrees with the rules: pieces stand on playable squares, a highlighted
    target is the landing square of a legal move of the side to move, a
    highlighted origin holds a piece of that side. *)

From stdpp Require Import prelude strings.
From Stdlib Require Import ZArith Lia Ascii.
From S2P Require Import Prelude Types Board MoveGen Chains Apply Terminal Eval Game Num Search Suggest GameScreen.

Local Open Scope Z_scope.

(** What is drawn on one square. *)
Record SquareView : Set := mkSquareView {
  isPlayable : bool;        (* dark background *)
  isSelected : bool;        (* selection glow, lines 66-71 *)
  pathOriginShown : bool;   (* dashed border of a piece that can move, lines 73-75 *)
  startGlowShown : bool;    (* glow of a piece with a suggested move, lines 78-84 *)
  pathTargetShown : bool;   (* dashed border of a landing square, lines 101-107 *)
  suggestionShown : bool;   (* dot of a suggested landing square, lines 110-117 *)
  pieceShown : Square;      (* the piece, lines 120-124 *)
  cursorPointer : bool;     (* the square invites a click, line 61 *)
  rankHint : option Z;      (* the rank in the first column, lines 87-91 *)
  fileHint : option ascii   (* the file in the last row, lines 92-96 *)
}.

(** [String.fromCharCode(n)] for a code below 256, as it is here. *)
Definition fromCharCode (n : Z) : ascii := ascii_of_N (Z.to_N n).

Section component.
Context (board : Board) (selectedPiece : option Position).
Context (suggestedMoves playerPaths : list Move) (isPlayerTurn : bool).

Definition isSuggested (row col : Z) : bool :=
  existsb (λ move, samePos (to move) (mkPosition row col)) suggestedMoves.

Definition isPieceSuggested (row col : Z) : bool :=
  existsb (λ move, samePos (from move) (mkPosition row col)) suggestedMoves.

Definition isPathNode (row col : Z) : bool :=
  existsb (λ move, samePos (to move) (mkPosition row col)) playerPaths.

Definition isPathSource (row col : Z) : bool :=
  existsb (λ move, samePos (from move) (mkPosition row col)) playerPaths.

(** The body of the inner [map] (lines 47-126).  The indices of [map] are
    not negative, so [(rowIndex + colIndex) % 2 === 1] is oddness. *)
Definition squareView (rowIndex colIndex : Z) (square : Square) : SquareView :=
  let isPlayable := Z.odd (rowIndex + colIndex) in
  let isSelected :=
    match selectedPiece with
    | Some sp => samePos sp (mkPosition rowIndex colIndex)
    | None => false
    end in
  let isMoveSuggested := isSuggested rowIndex colIndex in
  let isStartSuggested := isPieceSuggested rowIndex colIndex in
  let isPathTarget := isPathNode rowIndex colIndex in
  let isPathOrigin := isPathSource rowIndex colIndex in
  mkSquareView isPlayable isSelected
    (negb isSelected && isPathOrigin && isPlayerTurn)
    (negb isSelected && isStartSuggested && negb isPathOrigin && isPlayerTurn)
    (isPathTarget && isPlayerTurn)
    (isMoveSuggested && negb isPathTarget && isPlayerTurn)
    square
    (isPlayable && isPlayerTurn)
    (if colIndex =? 0 then Some (8 - rowIndex) else None)
    (if rowIndex =? 7 then Some (fromCharCode (97 + colIndex)) else None).

(** [board.map((row, rowIndex) => row.map((square, colIndex) => ...))] *)
Definition render : list (list SquareView) :=
  imap (λ rowIndex row,
    imap (λ colIndex square,
      squareView (Z.of_nat rowIndex) (Z.of_nat colIndex) square) row) board.
End component.

(** The board the game screen draws (lines 312-320 of [GameScreen.tsx]). *)
Definition gameBoard (gameMode : GameMode) (s : State) : res (list (list SquareView)) :=
  sug ← suggestedMoves gameMode s;
  paths ← playerPaths gameMode s;
  Ok (render (board s) (selectedPiece s) sug paths
        (isPlayerTurn gameMode s && negb (bool_decide (is_Some (winner s))))).

(** The view of the square [p]. *)
Definition viewAt (view : list (list SquareView)) (p : Position) : option SquareView :=
  view !! Z.to_nat (row p) ≫= (.!! Z.to_nat (col p)).

(** ** The grid *)

Lemma existsb_samePos (f : Move → Position) moves p :
  existsb (λ move, samePos (f move) p) moves = true ↔ ∃ m, m ∈ moves ∧ f m = p.
Proof.
  rewrite existsb_exists. setoid_rewrite samePos_spec. by setoid_rewrite list_elem_of_In.
Qed.

Lemma viewAt_render b sel sug paths turn p v :
  onBoard p → viewAt (render b sel sug paths turn) p = Some v →
  v = squareView sel sug paths turn (row p) (col p) (b.[p]).
Proof.
  intros Hp. pose proof Hp as Hp'%onBoard_spec. unfold viewAt, render.
  rewrite (getAt_lookup b p Hp), list_lookup_imap.
  destruct (b !! Z.to_nat (row p)) as [r|]; [cbn|done]. rewrite list_lookup_imap.
  destruct (r !! Z.to_nat (col p)) as [sq|]; [cbn|done].
  rewrite !Z2Nat.id by lia. by intros [= <-].
Qed.

Lemma viewAt_is_Some b sel sug paths turn p :
  wf_board b → onBoard p → is_Some (viewAt (render b sel sug paths turn) p).
Proof.
  intros [Hlen Hrows] Hp%onBoard_spec. unfold viewAt, render. rewrite list_lookup_imap.
  destruct (lookup_lt_is_Some_2 b (Z.to_nat (row p))) as [r Hr];
    [rewrite Hlen; unfold BOARD_SIZE; lia|].
  rewrite Hr. cbn. rewrite list_lookup_imap.
  rewrite Forall_forall in Hrows. pose proof (Hrows r (list_elem_of_lookup_2 _ _ _ Hr)) as Hr'.
  destruct (lookup_lt_is_Some_2 r (Z.to_nat (col p))) as [sq ->];
    [rewrite Hr'; unfold BOARD_SIZE; lia|]. by eexists.
Qed.

(** The corner square (7,0) carries the labels 1 and a. *)
Example corner_hints :
  let v := squareView None [] [] true 7 0 None in
  rankHint v = Some 1 ∧ fileHint v = Some "a"%char.
Proof. done. Qed.

(** ** The moves the screen passes to the board *)

Lemma view_moves gameMode s :
  inv s →
  ∃ sug paths, suggestedMoves gameMode s ⇓ sug ∧ playerPaths gameMode s ⇓ paths ∧
    ∀ m, m ∈ sug ∨ m ∈ paths → legalMove (board s) (currentPlayer s) m.
Proof.
  intros Hinv. pose proof (inv_board s Hinv) as Hwf.
  destruct (getSuggestedMoves_is_Ok (board s) (currentPlayer s) Hwf) as [sug Hsug].
  destruct (getAllPlayerMoves_wf (board s) (currentPlayer s) Hwf) as [paths Hpaths].
  unfold suggestedMoves, playerPaths. rewrite Hsug, Hpaths.
  exists (if negb (enableSuggestions s) || bool_decide (is_Some (winner s)) || isPaused s
             || negb (isPlayerTurn gameMode s) then [] else sug),
         (if negb (showPlayerPaths s) || bool_decide (is_Some (winner s)) || isPaused s
             || negb (isPlayerTurn gameMode s) then [] else paths).
  split_and!; [by case_match..|]. intros m [Hm|Hm]; revert Hm; case_match;
    try (by intros ?%elem_of_nil); intros Hm.
  - by eapply getSuggestedMoves_legal.
  - by eapply getAllPlayerMoves_legal.
Qed.

(** The squares of a legal move on a position of the game are playable. *)
Lemma legalMove_playable b pl m :
  played b → legalMove b pl m → onDark (from m) ∧ onDark (to m).
Proof.
  intros Hb Hm. pose proof Hm as (_ & _ & Hpl & _)%legalMove_wellformed.
  destruct (b.[from m]) as [piece|] eqn:Hpiece; [|done].
  pose proof (played_onDark b (from m) piece Hb Hpiece). split; [done|].
  by eapply legalMove_onDark.
Qed.

Section view.
Context (gameMode : GameMode) (s : State) (Hinv : inv s).
Context (sel : option Position) (sug paths : list Move) (turn : bool).
Context (Hlegal : ∀ m, m ∈ sug ∨ m ∈ paths → legalMove (board s) (currentPlayer s) m).

Let v p := squareView sel sug paths turn (row p) (col p) ((board s).[p]).

Lemma squareView_piece p : is_Some (pieceShown (v p)) → isPlayable (v p) = true.
Proof using Hinv. intros [piece Hpiece]. by eapply played_onDark; [apply inv_played|]. Qed.

Lemma squareView_target p :
  pathTargetShown (v p) = true ∨ suggestionShown (v p) = true →
  isPlayable (v p) = true ∧ ∃ m, legalMove (board s) (currentPlayer s) m ∧ to m = p.
Proof using Hinv Hlegal.
  intros Hshown. assert (∃ m, (m ∈ sug ∨ m ∈ paths) ∧ to m = p) as (m & Hm%Hlegal & <-).
  { destruct p as [r c]. unfold v in Hshown. cbn in Hshown.
    destruct Hshown as [[(m & ? & ?)%existsb_samePos _]%andb_true_iff
      |[[(m & ? & ?)%existsb_samePos _]%andb_true_iff _]%andb_true_iff]; eauto. }
  split; [by eapply legalMove_playable; [apply inv_played|]|by exists m].
Qed.

Lemma squareView_origin p :
  pathOriginShown (v p) = true ∨ startGlowShown (v p) = true →
  player <$> (board s).[p] = Some (currentPlayer s).
Proof using Hinv Hlegal.
  intros Hshown. assert (∃ m, (m ∈ sug ∨ m ∈ paths) ∧ from m = p)
    as (m & (_ & _ & ? & _)%Hlegal%legalMove_wellformed & <-); [|done].
  destruct p as [r c]. unfold v in Hshown. cbn in Hshown.
  destruct Hshown as [[[_ (m & ? & ?)%existsb_samePos]%andb_true_iff _]%andb_true_iff
    |[[[_ (m & ? & ?)%existsb_samePos]%andb_true_iff _]%andb_true_iff _]%andb_true_iff];
    eauto.
Qed.
End view.

(** ** Properties *)

(** [C33] What the board shows agrees with the rules: in a state of the
    invariant the board is drawn without exception as a grid with a view
    of every square of the board; the piece drawn is the piece of the
    square and stands on a playable (dark) square; a square highlighted as
    the target of a path or of a suggestion is a playable square and the
    landing square of a legal move of the side to move; a square
    highlighted as an origin holds a piece of the side to move. *)
Theorem gameBoard_sound gameMode s :
  inv s →
  ∃ view, gameBoard gameMode s ⇓ view ∧
    ∀ p, onBoard p →
      ∃ v, viewAt view p = Some v ∧ pieceShown v = (board s).[p] ∧
        (is_Some (pieceShown v) → isPlayable v = true) ∧
        (pathTargetShown v = true ∨ suggestionShown v = true →
         isPlayable v = true ∧
         ∃ m, legalMove (board s) (currentPlayer s) m ∧ to m = p) ∧
        (pathOriginShown v = true ∨ startGlowShown v = true →
         player <$> (board s).[p] = Some (currentPlayer s)).
Proof.
  intros Hinv. destruct (view_moves gameMode s Hinv) as (sug & paths & Hsug & Hpaths & Hlegal).
  unfold gameBoard. rewrite Hsug, Hpaths. eexists. split; [done|]. intros p Hp.
  destruct (viewAt_is_Some (board s) (selectedPiece s) sug paths
    (isPlayerTurn gameMode s && negb (bool_decide (is_Some (winner s)))) p
    (inv_board s Hinv) Hp) as [v Hv].
  exists v. split; [done|]. apply viewAt_render in Hv as ->; [|done].
  split_and!; [done|by apply squareView_piece|by apply squareView_target
              |by apply squareView_origin].
Qed.

Lemma gameBoard_sound_witness :
  ∃ view, gameBoard two (initialState false true true) ⇓ view ∧
    ∀ p, onBoard p →
      ∃ v, viewAt view p = Some v ∧ pieceShown v = initialBoard.[p] ∧
        (is_Some (pieceShown v) → isPlayable v = true) ∧
        (pathTargetShown v = true ∨ suggestionShown v = true →
         isPlayable v = true ∧ ∃ m, legalMove initialBoard WHITE m ∧ to m = p) ∧
        (pathOriginShown v = true ∨ startGlowShown v = true →
         player <$> initialBoard.[p] = Some WHITE).
Proof. apply (gameBoard_sound two (initialState false true true)), inv_initialState. Defined.
