(* ===== verification/App.v ===== *)
(** * App: the menu and the screen switch

    Models the state of [App] ([src/src/App.tsx], lines 7-20) and of
    [MainMenu] ([src/src/screens/MainMenu.tsx], its [showDifficulty] cell
    and the four buttons): which screen is shown, in which mode and against
    which level the game screen is started.  The file ends with the
    property that ties the menu to the game loop: against the AI a level is
    always chosen, so the timer of the AI always plays. *)

From stdpp Require Import prelude strings.
From Stdlib Require Import ZArith Lia.
From S2P Require Import Prelude Types Board MoveGen Chains Apply Terminal Search GameScreen.

(** [useState<'menu' | 'playing'>] *)
Inductive GameState : Set := menu | playing.

#[export] Instance GameState_eq_dec : EqDecision GameState.
Proof. solve_decision. Defined.

(** The cells of [App] and the cell of [MainMenu]. *)
Record AppState : Set := mkAppState {
  gameState : GameState;
  gameMode : GameMode;
  difficulty : option Difficulty;
  showDifficulty : bool
}.

Definition initialApp : AppState := mkAppState menu two None false.

Definition handleSelectMode (a : AppState) (mode : GameMode)
    (difficultyLevel : option Difficulty) : AppState :=
  mkAppState playing mode difficultyLevel (showDifficulty a).

(** Going back mounts a new [MainMenu], whose cell starts at [false]. *)
Definition handleBackToMenu (a : AppState) : AppState :=
  mkAppState menu (gameMode a) (difficulty a) false.

Definition setShowDifficulty (a : AppState) (v : bool) : AppState :=
  mkAppState (gameState a) (gameMode a) (difficulty a) v.

(** The events of the two components: the buttons of the menu are there
    while the menu is shown, each in its panel. *)
Inductive appStep : AppState → AppState → Prop :=
  | app_single a :
      gameState a = menu → showDifficulty a = false →
      appStep a (setShowDifficulty a true)
  | app_two a :
      gameState a = menu → showDifficulty a = false →
      appStep a (handleSelectMode a two None)
  | app_level a d :
      gameState a = menu → showDifficulty a = true →
      appStep a (handleSelectMode a single (Some d))
  | app_back a :
      gameState a = menu → showDifficulty a = true →
      appStep a (setShowDifficulty a false)
  | app_menu a :
      gameState a = playing → appStep a (handleBackToMenu a).

Inductive appReachable : AppState → Prop :=
  | appReachable_init : appReachable initialApp
  | appReachable_step a a' : appReachable a → appStep a a' → appReachable a'.

(** ** The menu as it is drawn *)

(** The buttons that change the cells of [App] and of [MainMenu]. *)
Inductive AppEvent : Set :=
  | SinglePlayer            (* line 47 of MainMenu.tsx *)
  | Multiplayer             (* line 56 *)
  | Level (d : Difficulty)  (* line 75 *)
  | Back                    (* line 90 *)
  | BackToMenu.             (* the prop [onBackToMenu] of GameScreen *)

#[export] Instance AppEvent_eq_dec : EqDecision AppEvent.
Proof. solve_decision. Defined.

(** An entry of the list [difficulties] (lines 13-17), without its icon
    and colour. *)
Record Level_ : Set := mkLevel { id : Difficulty; label : string; desc : string }.

Definition difficulties : list Level_ :=
  [mkLevel easy "Easy" "Basic moves";
   mkLevel medium "Medium" "Strategic play";
   mkLevel hard "Hard" "Grandmaster level"].

(** The buttons of [MainMenu] with their texts (lines 38-96): the two
    modes, or the levels and the way back. *)
Definition mainMenu (showDifficulty : bool) : list (string * AppEvent) :=
  if negb showDifficulty
  then [("Single Player", SinglePlayer); ("Multiplayer", Multiplayer)]
  else ((λ diff, (label diff, Level (id diff))) <$> difficulties) ++ [("Back", Back)].

(** What [App] draws (lines 25-51). *)
Inductive Screen : Set :=
  | MainMenuScreen (buttons : list (string * AppEvent))
  | GameScreenScreen (gameMode : GameMode) (difficulty : option Difficulty).

Definition app (a : AppState) : Screen :=
  if decide (gameState a = menu) then MainMenuScreen (mainMenu (showDifficulty a))
  else GameScreenScreen (gameMode a) (difficulty a).

(** The event has its button on the screen. *)
Definition appAvailable (a : AppState) (e : AppEvent) : bool :=
  match app a with
  | MainMenuScreen buttons => bool_decide (e ∈ buttons.*2)
  | GameScreenScreen _ _ => bool_decide (e = BackToMenu)
  end.

(** The handler the button calls. *)
Definition appHandler (e : AppEvent) (a : AppState) : AppState :=
  match e with
  | SinglePlayer => setShowDifficulty a true
  | Multiplayer => handleSelectMode a two None
  | Level d => handleSelectMode a single (Some d)
  | Back => setShowDifficulty a false
  | BackToMenu => handleBackToMenu a
  end.

(** ** The level is chosen *)

Lemma appReachable_level a :
  appReachable a → gameMode a = single → is_Some (difficulty a).
Proof.
  induction 1 as [|a a' _ IH Hstep]; [done|].
  destruct Hstep; cbn; done.
Qed.

(** ** The buttons and the relation agree *)

Lemma appAvailable_spec a e :
  appAvailable a e = true ↔
  match e with
  | SinglePlayer | Multiplayer => gameState a = menu ∧ showDifficulty a = false
  | Level _ | Back => gameState a = menu ∧ showDifficulty a = true
  | BackToMenu => gameState a = playing
  end.
Proof.
  unfold appAvailable, app, mainMenu.
  destruct a as [[] ? ? []], e as [| |[]| |]; cbn; by rewrite ?bool_decide_spec; vm_compute;
    intuition (try congruence; try discriminate; auto).
Qed.

Lemma appHandler_step a e : appAvailable a e = true → appStep a (appHandler e a).
Proof.
  intros Hav%appAvailable_spec.
  destruct e; [destruct Hav as [? ?]..|]; cbn; eauto using appStep.
Qed.

Lemma appStep_handler a a' :
  appStep a a' → ∃ e, appAvailable a e = true ∧ a' = appHandler e a.
Proof.
  intros [a0 ? ?|a0 ? ?|a0 d ? ?|a0 ? ?|a0 ?];
    [exists SinglePlayer|exists Multiplayer|exists (Level d)|exists Back|exists BackToMenu];
    by rewrite appAvailable_spec.
Qed.

(** The timer of the AI plays a legal move when a level is set and the AI
    has a move. *)
Lemma aiTimer_plays random d s :
  inv s → currentPlayer s = AI_PLAYER → (rnum random < rden random)%nat →
  hasMove (board s) AI_PLAYER →
  ∃ m, getAIMove random (board s) AI_PLAYER d ⇓ Some m ∧
       legalMove (board s) AI_PLAYER m ∧
       performMoveTry s m ⇓ aiTimer random (Some d) s.
Proof.
  rewrite aiTimer_playChosen.
  apply (playChosen_plays (λ random b pl, getAIMove random b pl d)).
Qed.

(** The AI answers: when the game screen was started from the menu
    against the AI, in every state of the game loop in which the timer of
    the AI is running, the timer plays a legal move of the AI: the board
    changes to the board after that move and the history grows by it. *)
Theorem ai_answers a s random :
  appReachable a → gameMode a = single →
  reachable (gameMode a) (difficulty a) s →
  aiTimerStarted (gameMode a) s = true → (rnum random < rden random)%nat →
  ∃ m r, legalMove (board s) AI_PLAYER m ∧ applyMove (board s) m ⇓ r ∧
         board (aiTimer random (difficulty a) s) = newBoard r ∧
         history (aiTimer random (difficulty a) s) = history s ++ [newBoard r].
Proof.
  intros Ha Hsingle Hs Hai Hr.
  destruct (appReachable_level a Ha Hsingle) as [d Hd]. rewrite Hd in *.
  assert (inv s) as Hinv.
  { clear Hai. induction Hs; [apply inv_initialState|by eapply step_inv]. }
  apply andb_true_iff in Hai as [[[_ Hwin%bool_decide_eq_true]%andb_true_iff _]%andb_true_iff
    Hcur%bool_decide_eq_true].
  assert (hasMove (board s) AI_PLAYER) as Hmove.
  { rewrite Hcur in Hwin.
    by apply checkWinCondition_Ok in Hwin as [[? _]|[(? & _)|(_ & ? & _)]]. }
  destruct (aiTimer_plays random d s Hinv Hcur Hr Hmove) as (m & _ & Hm & Hplay).
  destruct (performMoveTry_legal s m Hinv) as (s' & Hs' & _ & r & ? & ? & ?);
    [by rewrite Hcur|].
  exists m, r. assert (aiTimer random (Some d) s = s') as -> by congruence. done.
Qed.

(** The game against the easy level after White's first move. *)
Definition afterWhite : State :=
  performMove selectedState (mkMove (mkPosition 5 0) (mkPosition 4 1) []).

Lemma afterWhite_reachable : reachable single (Some easy) afterWhite.
Proof.
  eapply reachable_step;
    [eapply reachable_step; [apply (reachable_init _ _ false false false)|]|].
  - by apply (step_click _ _ _ (mkPosition 5 0)).
  - by apply (step_click _ _ _ (mkPosition 4 1)).
Qed.

Lemma ai_answers_witness :
  ∃ m r, legalMove (board afterWhite) AI_PLAYER m ∧
         applyMove (board afterWhite) m ⇓ r ∧
         board (aiTimer (mkRandom 1 2) (Some easy) afterWhite) = newBoard r ∧
         history (aiTimer (mkRandom 1 2) (Some easy) afterWhite)
         = history afterWhite ++ [newBoard r].
Proof.
  apply (ai_answers (handleSelectMode (setShowDifficulty initialApp true) single (Some easy))
           afterWhite (mkRandom 1 2)).
  - eapply appReachable_step;
      [eapply appReachable_step; [apply appReachable_init|by apply app_single]|].
    by apply app_level.
  - done.
  - apply afterWhite_reachable.
  - by vm_compute.
  - cbn. lia.
Defined.
