(* ===== verification/Storage.v ===== *)
(** * Storage: the browser around the game screen

    Models what the game screen keeps outside its own state: the three
    preferences in [localStorage] (their initialisers at lines 38-58 and
    their effects at lines 60-77 of [src/src/screens/GameScreen.tsx]) and
    the four sounds of the module (lines 12-17, muted at lines 64-66).
    [localStorage] is a table of strings that the browser may refuse to
    read or to write; every access of the source sits in a [try] block, so
    a refusal never leaves the function that met it. *)

From stdpp Require Import prelude strings gmap.
From S2P Require Import Prelude Types.

(** ** localStorage *)

(** The outcome of an access: the browser may answer with a
    [DOMException] (a [SecurityError], a [QuotaExceededError]). *)
Inductive access (A : Type) : Type :=
  | Granted (a : A)
  | Refused.

Arguments Granted {A} a.
Arguments Refused {A}.

Record Storage : Type := mkStorage {
  items : gmap string string;
  readable : bool;
  writable : bool
}.

(** [localStorage.getItem(key)]: [null] when the key is absent. *)
Definition getItem (st : Storage) (key : string) : access (option string) :=
  if readable st then Granted (items st !! key) else Refused.

(** [localStorage.setItem(key, value)] *)
Definition setItem (st : Storage) (key value : string) : access Storage :=
  if writable st
  then Granted (mkStorage (<[key := value]> (items st)) (readable st) (writable st))
  else Refused.

(** [String(b)] for a boolean [b]. *)
Definition stringOfBool (b : bool) : string := if b then "true" else "false".

(** The initialiser of a preference:
    [try { return localStorage.getItem(key) === 'true' } catch { return false }]. *)
Definition loadPreference (st : Storage) (key : string) : bool :=
  match getItem st key with
  | Granted v => bool_decide (v = Some "true")
  | Refused => false
  end.

(** The body of the effect of a preference:
    [try { localStorage.setItem(key, String(value)) } catch {}]. *)
Definition storePreference (st : Storage) (key : string) (value : bool) : Storage :=
  match setItem st key (stringOfBool value) with
  | Granted st' => st'
  | Refused => st
  end.

(** The keys of the three preferences (lines 40, 47 and 54). *)
Definition mutedKey : string := "dama-muted".
Definition suggestionsKey : string := "dama-suggestions".
Definition pathsKey : string := "dama-show-paths".

(** ** The sounds *)

(** The keys of the object [sounds]. *)
Inductive Sound : Set := moveSound | captureSound | winSound | promoteSound.

#[export] Instance Sound_eq_dec : EqDecision Sound.
Proof. solve_decision. Defined.

(** The four [Howl]s: whether each is muted, and the sounds played so far,
    each with whether it was muted when it played. *)
Record Audio : Set := mkAudio {
  moveMuted : bool;
  captureMuted : bool;
  winMuted : bool;
  promoteMuted : bool;
  heard : list (Sound * bool)
}.

(** A page that has just loaded the module. *)
Definition initialAudio : Audio := mkAudio false false false false [].

Definition isMutedSound (au : Audio) (snd : Sound) : bool :=
  match snd with
  | moveSound => moveMuted au
  | captureSound => captureMuted au
  | winSound => winMuted au
  | promoteSound => promoteMuted au
  end.

(** [Object.values(sounds).forEach(s => s.mute(isMuted))] *)
Definition muteAll (isMuted : bool) (au : Audio) : Audio :=
  mkAudio isMuted isMuted isMuted isMuted (heard au).

(** [sounds.x.play()] *)
Definition play (snd : Sound) (au : Audio) : Audio :=
  mkAudio (moveMuted au) (captureMuted au) (winMuted au) (promoteMuted au)
    (heard au ++ [(snd, isMutedSound au snd)]).

(** What the page keeps outside the components. *)
Record Browser : Type := mkBrowser {
  storage : Storage;
  audio : Audio
}.

(** ** Laws of the storage *)

Section storage.
Implicit Types (st : Storage) (key : string) (b : bool).

Lemma stringOfBool_true b : stringOfBool b = "true" ↔ b = true.
Proof. destruct b; split; intros ?; by simplify_eq. Qed.

Lemma stringOfBool_inj : Inj (=) (=) stringOfBool.
Proof. intros [] [] ?; by simplify_eq. Qed.

Lemma storePreference_readable st key b :
  readable (storePreference st key b) = readable st.
Proof. unfold storePreference, setItem. by destruct (writable st) eqn:E. Qed.

Lemma storePreference_writable st key b :
  writable (storePreference st key b) = writable st.
Proof. unfold storePreference, setItem. by destruct (writable st) eqn:E. Qed.

Lemma storePreference_items st key b :
  items (storePreference st key b) =
  if writable st then <[key := stringOfBool b]> (items st) else items st.
Proof. unfold storePreference, setItem. by destruct (writable st) eqn:E. Qed.

Lemma bool_decide_stringOfBool b :
  bool_decide (Some (stringOfBool b) = Some "true") = b.
Proof. destruct b; [by apply bool_decide_eq_true|by apply bool_decide_eq_false]. Qed.

(** What is read after a write, for the key written and for the others. *)
Lemma loadPreference_storePreference st key key' b :
  loadPreference (storePreference st key b) key' =
  if decide (key' = key) then
    if writable st then readable st && b else loadPreference st key
  else loadPreference st key'.
Proof.
  unfold loadPreference, getItem.
  rewrite storePreference_readable, storePreference_items.
  destruct (decide (key' = key)) as [->|Hne], (readable st), (writable st); try done.
  - etransitivity; [|apply bool_decide_stringOfBool]. apply bool_decide_ext.
    by rewrite lookup_insert_eq.
  - apply bool_decide_ext. by rewrite lookup_insert_ne.
Qed.

(** A refused read is the default [false]. *)
Lemma loadPreference_unreadable st key : readable st = false → loadPreference st key = false.
Proof. unfold loadPreference, getItem. by intros ->. Qed.

(** An absent key is [false]. *)
Lemma loadPreference_absent st key : items st !! key = None → loadPreference st key = false.
Proof.
  unfold loadPreference, getItem. intros ->.
  destruct (readable st); [by apply bool_decide_eq_false|done].
Qed.
End storage.

(** A storage that works, with nothing in it. *)
Definition emptyStorage : Storage := mkStorage ∅ true true.

(** Round trip of a preference: when the browser grants the accesses,
    a preference read back after it was stored is the value stored, and
    storing it leaves what is read under every other key as it was. *)
Theorem preference_roundtrip (st : Storage) (key : string) (b : bool) :
  readable st = true → writable st = true →
  loadPreference (storePreference st key b) key = b ∧
  ∀ key', key' ≠ key →
    loadPreference (storePreference st key b) key' = loadPreference st key'.
Proof.
  intros Hr Hw. split; [|intros key' Hne]; rewrite loadPreference_storePreference.
  - rewrite decide_True by done. by rewrite Hr, Hw.
  - by rewrite decide_False.
Qed.

Lemma preference_roundtrip_witness :
  loadPreference (storePreference emptyStorage mutedKey true) mutedKey = true ∧
  ∀ key', key' ≠ mutedKey →
    loadPreference (storePreference emptyStorage mutedKey true) key'
    = loadPreference emptyStorage key'.
Proof. by apply (preference_roundtrip emptyStorage mutedKey true). Defined.
