(* ===== verification/Ui.v ===== *)
(** * Ui: the game screen as the player drives it

    [GameScreen.step] lets any handler run in any state.  This file models
    the component as React runs it: an event of a widget that is on the
    screen calls its handler, and the board effect (lines 148-188 of
    [src/src/screens/GameScreen.tsx]) runs again before the next event when
    one of its dependencies changed.  The widgets are those of
    [GameControls] (with its disabled undo button), of the header, of
    [GameBoard] and of [GameOverModal] (drawn only while it is open and has
    a result); the timers are events too.  The file shows that this machine
    refines [GameScreen.step], so that its states satisfy [GameScreen.inv],
    and that between two events the state is settled: the winner and the
    mandatory captures shown are those of the board shown.  Two runs end
    the file: an undo pressed while the AI is thinking, and a turn in
    which White captures with two pieces. *)

From stdpp Require Import prelude strings.
From Stdlib Require Import ZArith Lia.
From S2P Require Import Prelude Types Board MoveGen Chains Apply Terminal Eval Game Num Search Suggest GameScreen GameBoard.

Local Open Scope Z_scope.

(** ** Events *)

Inductive GameEvent : Set :=
  | ClickSquare (row col : Z)   (* a square of GameBoard *)
  | ClickUndo                   (* GameControls *)
  | ClickSuggestions
  | ClickPaths
  | ClickPause
  | ClickRestart
  | ClickMute                   (* the header *)
  | ModalDismiss                (* GameOverModal: backdrop and close button *)
  | ModalRestart                (* GameOverModal: PLAY AGAIN *)
  | AiTimer (random : Random)   (* the timer of line 179 fires *)
  | ModalTimer.                 (* a timer of line 169 fires *)

(** [canUndo={history.length > 1 && !winner}] (line 333); the undo button
    is [disabled={!canUndo}]. *)
Definition canUndo (s : State) : bool :=
  (1 <? length (history s))%nat && negb (bool_decide (is_Some (winner s))).

(** The modal is drawn: [if (!result) return null] and [{isOpen && ...}]
    (lines 33 and 40 of [GameOverModal.tsx]). *)
Definition modalOpen (s : State) : bool :=
  bool_decide (is_Some (gameResult s)) && showGameOverModal s.

(** The grid of [GameBoard] has a square at [(row, col)]. *)
Definition hasSquare (b : Board) (row col : Z) : bool :=
  bool_decide (0 ≤ row ∧ 0 ≤ col ∧ is_Some (b !! Z.to_nat row ≫= (.!! Z.to_nat col))).

(** The widget or the timer of the event is there.  The timer of the AI
    is cleared whenever the effect runs again, and the effect runs again
    whenever the board changes, so it is pending exactly in the states in
    which the effect starts it; a timer that has fired without a move (no
    level) would change nothing if it fired again. *)
Definition available (gameMode : GameMode) (s : State) (e : GameEvent) : bool :=
  match e with
  | ClickSquare row col => hasSquare (board s) row col
  | ClickUndo => canUndo s
  | ModalDismiss | ModalRestart => modalOpen s
  | AiTimer _ => aiTimerStarted gameMode s
  | ModalTimer => (0 <? modalTimers s)%nat
  | ClickSuggestions | ClickPaths | ClickPause | ClickRestart | ClickMute => true
  end.

(** The handler the event calls (lines 312-331, 279 and 350-357). *)
Definition handler (gameMode : GameMode) (difficulty : option Difficulty)
    (e : GameEvent) (s : State) : res State :=
  match e with
  | ClickSquare row col => handleSquareClick gameMode s (mkPosition row col)
  | ClickUndo => Ok (handleUndo gameMode s)
  | ClickSuggestions => Ok (togglePreference false true false s)
  | ClickPaths => Ok (togglePreference false false true s)
  | ClickPause => Ok (togglePause s)
  | ClickRestart | ModalRestart => Ok (handleRestart s)
  | ClickMute => Ok (togglePreference true false false s)
  | ModalDismiss => Ok (dismissModal s)
  | AiTimer random => Ok (aiTimer random difficulty s)
  | ModalTimer => Ok (showModalTimer s)
  end.

(** The dependencies of the board effect (line 188) that are cells of the
    component.  [handleRestart] always stores a new board, which React
    takes for a change even when it equals the old one. *)
Definition effectDue (e : GameEvent) (s s' : State) : bool :=
  negb (bool_decide (board s' = board s ∧ currentPlayer s' = currentPlayer s ∧
                     winner s' = winner s ∧ isPaused s' = isPaused s ∧
                     length (history s') = length (history s)))
  || match e with ClickRestart | ModalRestart => true | _ => false end.

(** One event as React processes it: the handler, then the board effect
    when it is due.  An effect that sets the winner runs once more and
    returns at its first line. *)
Definition react (gameMode : GameMode) (difficulty : option Difficulty)
    (e : GameEvent) (s : State) : res State :=
  s' ← handler gameMode difficulty e s;
  if effectDue e s s' then effect gameMode s' else Ok s'.

(** The first render and its effect. *)
Definition mounted (gameMode : GameMode) (muted suggestions paths : bool) : res State :=
  effect gameMode (initialState muted suggestions paths).

Inductive uiStep (gameMode : GameMode) (difficulty : option Difficulty) :
    State → GameEvent → State → Prop :=
  | ui_step s e s' :
      available gameMode s e = true → react gameMode difficulty e s ⇓ s' →
      uiStep gameMode difficulty s e s'.

(** The states the player can bring the screen to, with the events that
    lead there. *)
Inductive uiReachable (gameMode : GameMode) (difficulty : option Difficulty) :
    list GameEvent → State → Prop :=
  | uiReachable_mount muted suggestions paths s :
      mounted gameMode muted suggestions paths ⇓ s →
      uiReachable gameMode difficulty [] s
  | uiReachable_step es s e s' :
      uiReachable gameMode difficulty es s → uiStep gameMode difficulty s e s' →
      uiReachable gameMode difficulty (es ++ [e]) s'.

(** A click on a widget that is not there, or a timer that was not
    started, does nothing. *)
Definition dispatch (gameMode : GameMode) (difficulty : option Difficulty)
    (s : State) (e : GameEvent) : res State :=
  if available gameMode s e then react gameMode difficulty e s else Ok s.

(** The screen after it was mounted and received the events [es]. *)
Definition session (gameMode : GameMode) (difficulty : option Difficulty)
    (muted suggestions paths : bool) (es : list GameEvent) : res State :=
  s ← mounted gameMode muted suggestions paths;
  foldM (dispatch gameMode difficulty) s es.

(** ** The machine refines the transition relation of the handlers *)

Section refinement.
Context (gameMode : GameMode) (difficulty : option Difficulty).
Local Abbreviation step := (GameScreen.step gameMode difficulty).

Lemma handler_step s e s' :
  available gameMode s e = true → handler gameMode difficulty e s ⇓ s' → step s s'.
Proof.
  destruct e; cbn; intros Hav Hs'; try injection Hs' as <-;
    eauto using step_click, step_undo, step_preference, step_pause, step_restart,
      step_dismiss, step_ai.
  apply step_modal. by apply Nat.ltb_lt.
Qed.

Lemma uiStep_steps s e s' : uiStep gameMode difficulty s e s' → rtc step s s'.
Proof.
  intros [s0 e0 s0' Hav (s1 & Hs1%(handler_step _ _ _ Hav) & Hs')%bind_Ok].
  destruct (effectDue e0 s0 s1); [|injection Hs' as <-; by apply rtc_once].
  eapply rtc_l; [done|]. by apply rtc_once, step_effect.
Qed.

Lemma reachable_rtc s s' :
  reachable gameMode difficulty s → rtc step s s' → reachable gameMode difficulty s'.
Proof. induction 2; [done|]. eauto using reachable_step. Qed.

Lemma uiReachable_reachable es s :
  uiReachable gameMode difficulty es s → reachable gameMode difficulty s.
Proof.
  induction 1 as [muted suggestions paths s Hs|es s e s' _ IH Hstep].
  - eapply reachable_step; [apply reachable_init|by apply step_effect].
  - eapply reachable_rtc; [done|by eapply uiStep_steps].
Qed.

Lemma uiReachable_inv es s : uiReachable gameMode difficulty es s → inv s.
Proof.
  intros Hs%uiReachable_reachable.
  induction Hs; [apply inv_initialState|by eapply step_inv].
Qed.

Lemma uiStep_inv s e s' :
  uiStep gameMode difficulty s e s' ↔
  available gameMode s e = true ∧ react gameMode difficulty e s ⇓ s'.
Proof. split; [by intros []|intros []; by constructor]. Qed.

(** A session is a run of the machine on the events that found their
    widget. *)
Lemma session_uiReachable muted suggestions paths es s :
  session gameMode difficulty muted suggestions paths es ⇓ s →
  ∃ es', sublist es' es ∧ uiReachable gameMode difficulty es' s.
Proof.
  intros (s0 & Hs0 & Hs)%bind_Ok. revert Hs.
  apply (foldM_ind (λ es s, ∃ es', sublist es' es ∧ uiReachable gameMode difficulty es' s)).
  { exists []. split; [done|]. by eapply uiReachable_mount. }
  intros done_ e s1 s2 _ (es' & Hsub & Hs1). unfold dispatch.
  destruct (available gameMode s1 e) eqn:Hav.
  - exists (es' ++ [e]). split; [by apply sublist_app|].
    eapply uiReachable_step; [done|by constructor].
  - intros [= <-]. exists es'. split; [|done]. by apply sublist_inserts_r.
Qed.

Lemma uiReachable_inv_step s e s' : inv s → uiStep gameMode difficulty s e s' → inv s'.
Proof.
  intros Hinv Hstep%uiStep_steps. induction Hstep; [done|]. eauto using step_inv.
Qed.

Lemma uiReachable_session es s :
  uiReachable gameMode difficulty es s →
  ∃ muted suggestions paths, session gameMode difficulty muted suggestions paths es ⇓ s.
Proof.
  induction 1 as [muted suggestions paths s Hs|es s e s' _ IH [Hav Hs']%uiStep_inv].
  { exists muted, suggestions, paths. unfold session. by rewrite Hs. }
  destruct IH as (muted & suggestions & paths & (s0 & Hs0 & Hs)%bind_Ok).
  exists muted, suggestions, paths. unfold session.
  rewrite Hs0, bind_Ok_l, foldM_app, Hs, bind_Ok_l. cbn. unfold dispatch.
  by rewrite Hav, Hs'.
Qed.
End refinement.

(** ** Between two events the state is settled *)

(** The game result is the result of the winner: its name, the moves
    played and the score of the board shown. *)
Definition resultOf (gameMode : GameMode) (s : State) (w : Player) : Prop :=
  ∃ g, gameResult s = Some g ∧ Types.winner g = w ∧
       winnerName g = winnerNameOf gameMode w ∧ mode g = gameMode ∧ 0 ≤ score g ∧
       moves g = (Z.of_nat (length (history s)) - 1) / 2 ∧
       score g = calculateScore w (moves g) (board s).

(** What the handlers keep: the winner stored is the winner of the board
    shown, with its result; without a winner there is no result. *)
Record decided (gameMode : GameMode) (s : State) : Prop := mkDecided {
  decided_won w :
    winner s = Some w →
    checkWinCondition (board s) (currentPlayer s) ⇓ Some w ∧ resultOf gameMode s w;
  decided_open : winner s = None → gameResult s = None
}.

(** While an open game is paused the mandatory captures stored are those
    of the side to move, or none: an undo or a restart made during the
    pause clears them and the effect does not compute them. *)
Definition quiet (s : State) : Prop :=
  winner s = None → isPaused s = true →
  mandatoryCaptures s = [] ∨
  findCaptureMoves (board s) (currentPlayer s) ⇓ mandatoryCaptures s.

(** What the effect adds: while the game is open and not paused, the board
    shown has no winner and the mandatory captures stored are the captures
    of the side to move. *)
Record settled (gameMode : GameMode) (s : State) : Prop := mkSettled {
  settled_decided : decided gameMode s;
  settled_open :
    winner s = None → isPaused s = false →
    checkWinCondition (board s) (currentPlayer s) ⇓ None ∧
    findCaptureMoves (board s) (currentPlayer s) ⇓ mandatoryCaptures s;
  settled_paused : quiet s
}.

Section settled.
Context (gameMode : GameMode) (difficulty : option Difficulty).

(** The effect settles a state. *)
Lemma effect_settled s s' :
  decided gameMode s → quiet s → effect gameMode s ⇓ s' → settled gameMode s'.
Proof.
  intros [Hwon Hopen] Hquiet. unfold effect.
  destruct (winner s) as [w|] eqn:Hw.
  { rewrite bool_decide_true by done. intros [= <-].
    split; [split|..]; unfold quiet; rewrite ?Hw; done. }
  rewrite bool_decide_false by (by intros [? ?]). cbn [orb].
  destruct (isPaused s) eqn:Hp.
  { intros [= <-]. split; [split|..]; rewrite ?Hw, ?Hp; done. }
  intros (win & Hwin & Hs')%bind_Ok. destruct win as [win|].
  - injection Hs' as <-. split; [split|..]; unfold quiet; cbn; [|done..].
    intros w [= <-]. split; [done|]. eexists. split_and!; [done..| |done|done].
    cbn. unfold calculateScore. lia.
  - apply bind_Ok in Hs' as (caps & Hcaps & [= <-]).
    split; [split|..]; unfold quiet; cbn; rewrite ?Hw, ?Hp; [done|by apply Hopen|done..].
Qed.

Lemma effectDue_history e s s' :
  length (history s') ≠ length (history s) → effectDue e s s' = true.
Proof.
  intros Hne. unfold effectDue. rewrite bool_decide_false; [done|]. tauto.
Qed.

Lemma effectDue_paused e s s' : isPaused s' ≠ isPaused s → effectDue e s s' = true.
Proof.
  intros Hne. unfold effectDue. rewrite bool_decide_false; [done|]. tauto.
Qed.

(** A handler leaves the game as it is, or leaves an open game for the
    effect to settle. *)
Definition keepsGame (e : GameEvent) (s s' : State) : Prop :=
  (board s' = board s ∧ currentPlayer s' = currentPlayer s ∧ winner s' = winner s ∧
   gameResult s' = gameResult s ∧ mandatoryCaptures s' = mandatoryCaptures s ∧
   history s' = history s ∧
   (isPaused s' = isPaused s ∨ effectDue e s s' = true))
  ∨ (winner s' = None ∧ gameResult s' = None ∧ effectDue e s s' = true ∧
     (isPaused s' = true → mandatoryCaptures s' = [])).

Lemma keepsGame_refl e s : keepsGame e s s.
Proof. left. tauto. Qed.

Lemma performMove_keepsGame e s m :
  winner s = None → gameResult s = None → isPaused s = false →
  keepsGame e s (performMove s m).
Proof.
  intros Hw Hg Hp. unfold performMove.
  destruct (performMoveTry s m) as [s'|] eqn:Hs'; [|apply keepsGame_refl].
  right. unfold performMoveTry in Hs'.
  apply bind_Ok in Hs' as (r & _ & (caps & _ & Hs')%bind_Ok).
  cbn. case_match; injection Hs' as <-; cbn; (split_and!; [done..| |congruence]);
    apply effectDue_history; cbn; rewrite length_app, Nat.add_1_r;
    apply Nat.neq_succ_diag_l.
Qed.

Lemma handleUndo_keepsGame e s :
  decided gameMode s → keepsGame e s (handleUndo gameMode s).
Proof.
  intros [_ Hopen]. unfold handleUndo.
  destruct (winner s) as [w|] eqn:Hw; [rewrite bool_decide_true by done; apply keepsGame_refl|].
  rewrite bool_decide_false by (by intros [? ?]). cbn [orb].
  destruct (Nat.leb_spec (length (history s)) 1) as [|Hlen]; [apply keepsGame_refl|].
  set (k := if bool_decide (gameMode = single) && _ then 2%nat else 1%nat).
  assert (1 ≤ k ≤ 2)%nat by (unfold k; case_match; lia).
  right. destruct (last _) as [b|] eqn:Hlast;
    (split_and!; [done|by auto| |done]); apply effectDue_history; cbn [history handleRestart];
    rewrite ?length_take; cbn [length]; lia.
Qed.

Lemma handler_keepsGame s e s' :
  decided gameMode s → available gameMode s e = true →
  handler gameMode difficulty e s ⇓ s' → keepsGame e s s'.
Proof.
  intros Hdec Hav. pose proof Hdec as [_ Hopen].
  destruct e; cbn in *; try (intros [= <-]);
    try (by left; split_and!; auto); try by apply handleUndo_keepsGame.
  - unfold handleSquareClick. destruct (winner s) as [w|] eqn:Hw.
    { rewrite bool_decide_true by done. intros [= <-]. apply keepsGame_refl. }
    destruct (isPaused s) eqn:Hp; [rewrite orb_true_r; intros [= <-]; apply keepsGame_refl|].
    repeat case_match; try (intros [= <-]); try apply keepsGame_refl;
      try (by left; split_and!; auto); try (by apply performMove_keepsGame; auto).
    intros (ms & _ & [= <-])%bind_Ok. left. split_and!; auto.
  - left. split_and!; try done. right. apply effectDue_paused. cbn. by destruct (isPaused s).
  - right. split_and!; [done..| |done]. unfold effectDue. by rewrite orb_true_r.
  - right. split_and!; [done..| |done]. unfold effectDue. by rewrite orb_true_r.
  - unfold aiTimer. apply andb_true_iff in Hav as [[[Hw _]%andb_true_iff _]%andb_true_iff _].
    apply negb_true_iff, orb_false_iff in Hw as [Hw%bool_decide_eq_false Hp].
    assert (winner s = None) as Hnone by (destruct (winner s); [destruct Hw|]; done).
    repeat case_match; try apply keepsGame_refl. by apply performMove_keepsGame; auto.
Qed.

(** A handler leaves the stored captures of a paused game right or empty. *)
Lemma keepsGame_quiet e s s' : settled gameMode s → keepsGame e s s' → quiet s'.
Proof.
  intros [_ Hopen Hquiet] [(Hb & Hp & Hw & _ & Hm & _ & _)|(_ & _ & _ & Hnil)] Hw' Hp';
    [|by left; apply Hnil].
  rewrite Hb, Hp, Hm. rewrite Hw in Hw'.
  destruct (isPaused s) eqn:Hpaused; [by apply Hquiet|right; by apply Hopen].
Qed.

Lemma keepsGame_decided e s s' : decided gameMode s → keepsGame e s s' → decided gameMode s'.
Proof.
  intros [Hwon Hopen] [(Hb & Hp & Hw & Hg & _ & Hh & _)|(Hw & Hg & _)].
  - split; unfold resultOf; rewrite ?Hb, ?Hp, ?Hw, ?Hg, ?Hh; [apply Hwon|apply Hopen].
  - split; [by rewrite Hw|done].
Qed.

Lemma react_settled s e s' :
  settled gameMode s → available gameMode s e = true →
  react gameMode difficulty e s ⇓ s' → settled gameMode s'.
Proof.
  intros Hsettled Hav (s1 & Hs1 & Hs')%bind_Ok. pose proof Hsettled as [Hdec Hopen _].
  pose proof (handler_keepsGame s e s1 Hdec Hav Hs1) as Hkeep.
  pose proof (keepsGame_decided e s s1 Hdec Hkeep) as Hdec1.
  pose proof (keepsGame_quiet e s s1 Hsettled Hkeep) as Hquiet1.
  destruct (effectDue e s s1) eqn:Hdue; [by eapply effect_settled|].
  injection Hs' as <-. split; [done| |done].
  destruct Hkeep as [(Hb & Hp & Hw & _ & Hm & _ & [Hpause|?])|(_ & _ & ? & _)];
    [|congruence..].
  rewrite Hb, Hp, Hw, Hm, Hpause. apply Hopen.
Qed.

Lemma mounted_settled muted suggestions paths s :
  mounted gameMode muted suggestions paths ⇓ s → settled gameMode s.
Proof. apply effect_settled; [by split|by intros _ ?]. Qed.

Lemma uiReachable_settled es s : uiReachable gameMode difficulty es s → settled gameMode s.
Proof.
  induction 1 as [muted suggestions paths s Hs|es s e s' _ IH [Hav Hs']%(uiStep_inv _ difficulty)].
  - exact (mounted_settled _ _ _ _ Hs).
  - exact (react_settled _ _ _ IH Hav Hs').
Qed.

(** ** No event raises an exception *)

Lemma handler_is_Ok s e : inv s → is_Ok (handler gameMode difficulty e s).
Proof.
  intros Hinv. destruct e; cbn; try by eexists.
  unfold handleSquareClick. repeat case_match; try by eexists.
  destruct (getValidMoves_wf (board s) (mkPosition row col) (inv_board s Hinv)) as [ms ->].
  by eexists.
Qed.

Lemma effect_is_Ok s : inv s → is_Ok (effect gameMode s).
Proof.
  intros Hinv. pose proof (inv_board s Hinv) as Hwf. unfold effect.
  case_match; [by eexists|].
  destruct (checkWinCondition_wf (board s) (currentPlayer s) Hwf) as [[w|] ->];
    rewrite bind_Ok_l; [by eexists|].
  destruct (findCaptureMoves_wf (board s) (currentPlayer s) Hwf) as [caps ->]. by eexists.
Qed.

Lemma react_is_Ok s e :
  inv s → available gameMode s e = true → is_Ok (react gameMode difficulty e s).
Proof.
  intros Hinv Hav. destruct (handler_is_Ok s e Hinv) as [s1 Hs1].
  unfold react. rewrite Hs1, bind_Ok_l. case_match; [|by eexists].
  apply effect_is_Ok. eapply step_inv; [done|]. by eapply handler_step.
Qed.

Lemma dispatch_inv s e s' : inv s → dispatch gameMode difficulty s e ⇓ s' → inv s'.
Proof.
  unfold dispatch. intros Hinv. destruct (available gameMode s e) eqn:Hav; [|by intros [= <-]].
  intros Hs'. apply (uiReachable_inv_step gameMode difficulty s e s' Hinv). by constructor.
Qed.

Lemma dispatch_is_Ok s e : inv s → ∃ s', dispatch gameMode difficulty s e ⇓ s' ∧ inv s'.
Proof.
  intros Hinv. destruct (available gameMode s e) eqn:Hav.
  - destruct (react_is_Ok s e Hinv Hav) as [s' Hs']. exists s'.
    assert (dispatch gameMode difficulty s e ⇓ s') by (unfold dispatch; by rewrite Hav).
    eauto using dispatch_inv.
  - exists s. unfold dispatch. by rewrite Hav.
Qed.

(** No sequence of events makes the screen raise an exception. *)
Lemma session_is_Ok muted suggestions paths es :
  is_Ok (session gameMode difficulty muted suggestions paths es).
Proof.
  unfold session, mounted.
  pose proof (inv_initialState muted suggestions paths) as Hinit.
  destruct (effect_is_Ok _ Hinit) as [s0 Hs0]. rewrite Hs0, bind_Ok_l.
  assert (inv s0) as Hinv by (eapply (step_inv gameMode difficulty); [done|by apply step_effect]).
  destruct (foldM_total inv (dispatch gameMode difficulty) s0 es Hinv) as (s & Hs & _);
    [|by eexists].
  intros e s1 _. apply dispatch_is_Ok.
Qed.
End settled.

(** ** The screen in use *)

(** White selects the man on (5,0) and moves it to (4,1); the undo button
    is pressed, and a click on the modal, which is not there, is lost. *)
Definition openingEvents : list GameEvent :=
  [ClickSquare 5 0; ClickSquare 4 1; ModalDismiss; ClickUndo].

Definition afterOpening : State :=
  catch (session two None false false false openingEvents)
        (λ _, initialState false false false).

(** [C15] The screen as the player drives it refines the transition relation
    of the handlers: the state after the component was mounted and received
    any events, each handled by its handler and followed by the board
    effect when a dependency of the effect changed, is a state of
    [GameScreen.reachable]; so what is proved of those states holds of
    every screen the player can see. *)
Theorem session_refines gameMode difficulty muted suggestions paths es s :
  session gameMode difficulty muted suggestions paths es ⇓ s →
  reachable gameMode difficulty s ∧ inv s.
Proof.
  intros (es' & _ & Hs)%session_uiReachable.
  eauto using uiReachable_reachable, uiReachable_inv.
Qed.

Lemma session_refines_witness : reachable two None afterOpening ∧ inv afterOpening.
Proof.
  apply (session_refines two None false false false openingEvents). by vm_compute.
Defined.

(** [C17] Between two events the screen is settled: the winner stored is the
    winner [checkWinCondition] finds on the board shown and the game result
    is the result of that winner; without a winner there is no result, and
    unless the game is paused the board shown has no winner and the
    mandatory captures stored are the captures of the side to move on the
    board shown; while it is paused they are those captures or none. *)
Theorem session_settled gameMode difficulty muted suggestions paths es s :
  session gameMode difficulty muted suggestions paths es ⇓ s → settled gameMode s.
Proof. intros (es' & _ & Hs)%session_uiReachable. by eapply uiReachable_settled. Qed.

Lemma session_settled_witness : settled two afterOpening.
Proof.
  apply (session_settled two None false false false openingEvents). by vm_compute.
Defined.

(** ** Undo against the AI *)

(** White moves, the AI answers, White moves again and presses undo while
    the AI is thinking. *)
Definition undoEvents : list GameEvent :=
  [ClickSquare 5 0; ClickSquare 4 1; AiTimer (mkRandom 0 1);
   ClickSquare 5 2; ClickSquare 4 3; ClickUndo].

Definition stateAfter (es : list GameEvent) : State :=
  catch (session single (Some easy) false false false es)
        (λ _, initialState false false false).

(** The undo drops White's second move and the answer of the AI, and
    shows the board after White's first move, on which Black was to move,
    with White to move: White plays twice in a row. *)
Example undo_while_ai_thinks :
  currentPlayer (stateAfter (take 2 undoEvents)) = BLACK ∧
  aiTimerStarted single (stateAfter (take 5 undoEvents)) = true ∧
  board (stateAfter undoEvents) = board (stateAfter (take 2 undoEvents)) ∧
  currentPlayer (stateAfter undoEvents) = WHITE.
Proof. by vm_compute. Qed.

(** ** The turn after a capture that made a king *)

Section selectable.
Context (gameMode : GameMode) (s : State).
Context (Hwf : wf_board (board s)) (Hsettled : settled gameMode s).
Context (Hopen : winner s = None) (Hrunning : isPaused s = false).

(** The mandatory captures stored hold every legal capture. *)
Lemma mandatoryCaptures_complete m :
  legalMove (board s) (currentPlayer s) m → isCaptureMove (board s) (currentPlayer s) m →
  m ∈ mandatoryCaptures s.
Proof using Hsettled Hopen Hrunning.
  intros Hlegal Hcapture. destruct (settled_open _ _ Hsettled Hopen Hrunning) as [_ Hcaps].
  apply findCaptureMoves_Ok in Hcaps as (all & Hall & ->).
  apply (keepMax_captureMoves _ _ all Hall). split; [done|].
  by destruct Hlegal as [[_ ?]|[Hnone _]]; [|destruct (Hnone m)].
Qed.

(** The moves offered for the square of a legal move hold the move. *)
Lemma getValidMoves_offers m :
  legalMove (board s) (currentPlayer s) m →
  ∃ ms, getValidMoves (board s) (from m) ⇓ ms ∧ m ∈ ms.
Proof using Hwf.
  intros Hlegal. pose proof Hlegal as (Hfrom & _ & Hpl & _)%legalMove_wellformed.
  destruct (getValidMoves_wf (board s) (from m) Hwf) as [ms Hms]. exists ms. split; [done|].
  pose proof (getValidMoves_filter _ _ _ Hfrom Hms) as Hfilter.
  destruct ((board s).[from m]) as [piece|]; [|done]. injection Hpl as Hpl.
  destruct Hfilter as (all & Hall & ->). rewrite Hpl in Hall.
  apply list_elem_of_filter. split; [done|]. by apply (getAllPlayerMoves_legal _ _ _ Hall).
Qed.
End selectable.

(** A white man on (2,1) that captures into the far row and goes on as a
    king, and a second white man on (5,2) with a capture of its own. *)
Definition twoCapturesBoard : Board :=
  boardOf [(2, 1, mkPiece WHITE MAN); (1, 2, mkPiece BLACK MAN);
           (1, 4, mkPiece BLACK MAN); (0, 7, mkPiece BLACK MAN);
           (5, 2, mkPiece WHITE MAN); (4, 3, mkPiece BLACK MAN)].

(** The screen of a game for two that shows [b] with White to move,
    after the events [es]. *)
Definition playFrom (b : Board) (es : list GameEvent) : State :=
  catch (s ← effect two (stateOf b WHITE); foldM (dispatch two None) s es)
        (λ _, stateOf b WHITE).

(** The man on (2,1) has captured and is a king on (0,3). *)
Definition afterPromotion : State :=
  playFrom twoCapturesBoard [ClickSquare 2 1; ClickSquare 0 3].

Lemma afterPromotion_settled : settled two afterPromotion.
Proof.
  split; [split|..].
  - intros w Hw. vm_compute in Hw. discriminate.
  - intros _. by vm_compute.
  - intros _ _. split; by vm_compute.
  - intros _ Hp. vm_compute in Hp. discriminate.
Qed.

Lemma afterPromotion_captures :
  findCaptureMoves (board afterPromotion) (currentPlayer afterPromotion)
  ⇓ [mkMove (mkPosition 0 3) (mkPosition 2 5) [mkPosition 1 4];
     mkMove (mkPosition 5 2) (mkPosition 3 4) [mkPosition 4 3]].
Proof. by vm_compute. Qed.

(** [C28] The continuation of a turn is not bound to the piece that moved:
    between two events, while the game is open and it is the player's
    turn, a click on any piece of the side to move that has a legal
    capture selects the piece and offers the capture, unless the click
    lands on the target of a move already offered.  The effect stores the
    captures of all pieces as mandatory after every move, also after a
    capture that made a king and left the turn with the same side, so the
    player may then capture with another piece. *)
Theorem capturing_piece_selectable gameMode s m :
  wf_board (board s) → settled gameMode s →
  winner s = None → isPaused s = false → isPlayerTurn gameMode s = true →
  legalMove (board s) (currentPlayer s) m → isCaptureMove (board s) (currentPlayer s) m →
  findClicked (validMoves s) (from m) = None →
  ∃ ms, handleSquareClick gameMode s (from m) ⇓ select s (Some (from m)) ms ∧ m ∈ ms.
Proof.
  intros Hwf Hsettled Hopen Hrunning Hturn Hlegal Hcapture Hclicked.
  destruct (getValidMoves_offers s Hwf m Hlegal) as (ms & Hms & Hm). exists ms.
  split; [|done]. unfold handleSquareClick.
  rewrite Hopen, Hrunning, Hturn, Hclicked, Hms.
  rewrite bool_decide_false by (by intros [? ?]). cbn [orb negb].
  pose proof Hlegal as (_ & _ & Hpl & _)%legalMove_wellformed.
  rewrite bool_decide_true by done.
  assert (existsb (λ m', samePos (from m') (from m)) (mandatoryCaptures s) = true) as ->; [|by rewrite andb_false_r].
  apply existsb_exists. exists m. split; [|by apply samePos_spec].
  by apply list_elem_of_In, (mandatoryCaptures_complete gameMode).
Qed.

(** After the capture of the new king's man, White is still to move and
    selects the man on (5,2), whose capture is offered. *)
Lemma capturing_piece_selectable_witness :
  ∃ ms, handleSquareClick two afterPromotion (mkPosition 5 2)
        ⇓ select afterPromotion (Some (mkPosition 5 2)) ms ∧
        mkMove (mkPosition 5 2) (mkPosition 3 4) [mkPosition 4 3] ∈ ms.
Proof.
  apply (capturing_piece_selectable two afterPromotion
           (mkMove (mkPosition 5 2) (mkPosition 3 4) [mkPosition 4 3])).
  - apply (bool_decide_unpack _). by vm_compute.
  - apply afterPromotion_settled.
  - by vm_compute.
  - by vm_compute.
  - by vm_compute.
  - apply (findCaptureMoves_legal _ _ _ _ afterPromotion_captures). right. left.
  - apply (findCaptureMoves_capture _ _ _ _ afterPromotion_captures). right. left.
  - by vm_compute.
Defined.

(** White captures with two pieces in one turn: the man that becomes a
    king on (0,3), then the man that goes from (5,2) to (3,4); only then
    is it Black's turn. *)
Example turn_changes_piece :
  let s := playFrom twoCapturesBoard
             [ClickSquare 2 1; ClickSquare 0 3; ClickSquare 5 2; ClickSquare 3 4] in
  currentPlayer afterPromotion = WHITE ∧
  (board afterPromotion).[mkPosition 0 3] = Some (mkPiece WHITE KING) ∧
  (board s).[mkPosition 0 3] = Some (mkPiece WHITE KING) ∧
  (board s).[mkPosition 3 4] = Some (mkPiece WHITE MAN) ∧
  (board s).[mkPosition 4 3] = None ∧ (board s).[mkPosition 1 4] = Some (mkPiece BLACK MAN) ∧
  length (history s) = 3%nat ∧ currentPlayer s = BLACK.
Proof. by vm_compute. Qed.
