(* ===== verification/Views.v ===== *)
(** * Views: what the game screen shows

    Models what the components draw, as data: the piece of [GamePiece]
    ([src/src/components/GamePiece.tsx]), the five buttons of
    [GameControls] ([src/src/components/GameControls.tsx]), the window of
    [GameOverModal] ([src/src/components/GameOverModal.tsx]) and the
    screen of [GameScreen] (lines 260-360 of
    [src/src/screens/GameScreen.tsx]) that puts them together with the
    board of [GameBoard].  A view keeps the texts, the flags that decide
    what is drawn and the handler of every button; class names, icons and
    animations are left out.  The handlers are values of a type [H] the
    caller chooses, as the props of the components are.  The modal keeps
    the size of the window in a cell of its own, which only sizes the
    confetti and is not part of the states of [Ui] and [System].

    The theorems show that the widgets on the screen are the events
    [Ui.available] admits, and that between two events the screen tells
    the truth about the game: the modal names the winner the terminal test
    finds on the board shown, and the banner of the mandatory capture is
    there when the side to move has a capture. *)

From stdpp Require Import prelude strings.
From Stdlib Require Import ZArith Lia.
From S2P Require Import Prelude Types Board MoveGen Chains Apply Terminal Eval Game Num Search Suggest GameScreen GameBoard Ui.

Local Open Scope Z_scope.

(** ** GamePiece *)

Record PieceView : Set := mkPieceView {
  isWhite : bool;   (* the light gradient, line 15 *)
  crown : bool;     (* the crown, lines 37-48 *)
  raised : bool     (* the piece is drawn larger and higher, lines 25-31 *)
}.

(** [GamePiece] (lines 10-54); a piece always has a player. *)
Definition gamePiece (piece : Square) (isSelected : bool) : option PieceView :=
  match piece with
  | None => None
  | Some piece =>
      Some (mkPieceView (bool_decide (player piece = WHITE))
              (bool_decide (type piece = KING)) isSelected)
  end.

(** The piece [GameBoard] draws on a square (lines 120-124 of
    [GameBoard.tsx]). *)
Definition pieceView (v : SquareView) : option PieceView :=
  gamePiece (pieceShown v) (GameBoard.isSelected v).

(** ** Buttons *)

Record Button (H : Type) : Type := mkButton {
  title : string;
  text : string;
  disabled : bool;
  lit : bool;               (* drawn in its active colour *)
  onClick : option H
}.

Arguments mkButton {H} title text disabled lit onClick.
Arguments title {H} b.
Arguments text {H} b.
Arguments disabled {H} b.
Arguments lit {H} b.
Arguments onClick {H} b.

(** What a click on the button calls. *)
Definition click {H} (b : Button H) : option H :=
  if disabled b then None else onClick b.

(** ** GameControls *)

(** [GameControls] (lines 15-85): undo, hints, paths, pause, reset. *)
Definition gameControls {H} (onRestart onUndo onPause onTogglePaths onToggleSuggestions : H)
    (isPaused canUndo isPathHighlightingEnabled isSuggestionsEnabled : bool)
    : list (Button H) :=
  [mkButton "Undo Move" "Undo" (negb canUndo) false (Some onUndo);
   mkButton "Toggle Suggestions" "Hints" false isSuggestionsEnabled (Some onToggleSuggestions);
   mkButton "Show Player Paths" "Paths" false isPathHighlightingEnabled (Some onTogglePaths);
   mkButton (if isPaused then "Resume" else "Pause") (if isPaused then "Resume" else "Pause")
     false false (Some onPause);
   mkButton "Restart Game" "Reset" false false (Some onRestart)].

(** ** GameOverModal *)

Record ModalView (H : Type) : Type := mkModalView {
  confetti : bool;
  heading : string;
  subtext : string;
  finalScore : Z;
  totalMoves : Z;
  modalButtons : list (Button H)
}.

Arguments mkModalView {H} confetti heading subtext finalScore totalMoves modalButtons.
Arguments confetti {H} m.
Arguments heading {H} m.
Arguments subtext {H} m.
Arguments finalScore {H} m.
Arguments totalMoves {H} m.
Arguments modalButtons {H} m.

(** [GameOverModal] (lines 33-151): nothing without a result, nothing
    while it is closed; the backdrop and the cross dismiss it, the button
    STATS calls nothing. *)
Definition gameOverModal {H} (isOpen : bool) (result : option GameResult)
    (onRestart onBackToMenu onDismiss : H) : option (ModalView H) :=
  match result with
  | None => None
  | Some result =>
      let isVictory :=
        match mode result with
        | single => bool_decide (Types.winner result = WHITE)
        | two => true
        end in
      if isOpen then
        Some (mkModalView (isOpen && isVictory)
                (if decide (Types.winner result = WHITE) then "White Wins!" else "Black Wins!")
                (match mode result with single => winnerName result | two => "Victory" end)
                (score result) (moves result)
                [mkButton "" "" false false (Some onDismiss);
                 mkButton "" "" false false (Some onDismiss);
                 mkButton "" "PLAY AGAIN" false false (Some onRestart);
                 mkButton "" "MENU" false false (Some onBackToMenu);
                 mkButton "Scoreboard coming soon" "STATS" false false None])
      else None
  end.

(** The cell [windowSize] of the modal (lines 16-19): the size of the
    window when the modal was mounted. *)
Record WindowSize : Set := mkWindowSize { width : Z; height : Z }.

(** The listener of [resize] (lines 22-27) stores the size of the window. *)
Definition handleResize (window : WindowSize) (windowSize : WindowSize) : WindowSize :=
  mkWindowSize (width window) (height window).

(** The confetti is drawn over the size stored (lines 43-52). *)
Definition confettiSize {H} (windowSize : WindowSize) (m : ModalView H) : option WindowSize :=
  if confetti m then Some windowSize else None.

(** ** GameScreen *)

Record ScreenView (H : Type) : Type := mkScreenView {
  menuButton : Button H;                  (* lines 265-271 *)
  muteButton : Button H;                  (* lines 278-283, lit when muted *)
  turnIndicator : string;                 (* line 295 *)
  mustCapture : bool;                     (* lines 297-305 *)
  squares : list (list SquareView);       (* lines 312-320 *)
  controls : list (Button H);             (* lines 325-335 *)
  movesShown : Z;                         (* line 342 *)
  modeShown : string;                     (* line 346 *)
  modal : option (ModalView H)            (* lines 352-358 *)
}.

Arguments mkScreenView {H}.
Arguments menuButton {H} s.
Arguments muteButton {H} s.
Arguments turnIndicator {H} s.
Arguments mustCapture {H} s.
Arguments squares {H} s.
Arguments controls {H} s.
Arguments movesShown {H} s.
Arguments modeShown {H} s.
Arguments modal {H} s.

(** What [GameScreen] returns (lines 260-360).  [onBackToMenu] is its
    prop; [on e] stands for the closure over the cells that the event [e]
    of the component calls. *)
Definition gameScreen {H} (onBackToMenu : H) (on : GameEvent → H)
    (gameMode : GameMode) (s : State) : res (ScreenView H) :=
  grid ← gameBoard gameMode s;
  Ok (mkScreenView
        (mkButton "" "Menu" false false (Some onBackToMenu))
        (mkButton "" "" false (isMuted s) (Some (on ClickMute)))
        (getTurnIndicator gameMode s)
        ((0 <? length (mandatoryCaptures s))%nat && negb (bool_decide (is_Some (winner s))))
        grid
        (gameControls (on ClickRestart) (on ClickUndo) (on ClickPause) (on ClickPaths)
           (on ClickSuggestions) (isPaused s) (canUndo s) (showPlayerPaths s)
           (enableSuggestions s))
        ((Z.of_nat (length (history s)) - 1) / 2)
        (match gameMode with single => "AI" | two => "PvP" end)
        (gameOverModal (showGameOverModal s) (gameResult s)
           (on ModalRestart) onBackToMenu (on ModalDismiss))).

(** [onClick={() => onSquareClick(rowIndex, colIndex)}] for every square
    of the grid (line 57 of [GameBoard.tsx]). *)
Definition squareClicks {H} (on : GameEvent → H) (grid : list (list SquareView)) : list H :=
  mjoin (imap (λ rowIndex row,
    imap (λ colIndex _, on (ClickSquare (Z.of_nat rowIndex) (Z.of_nat colIndex))) row) grid).

(** What the buttons of the screen call. *)
Definition buttonClicks {H} (v : ScreenView H) : list H :=
  omap click (menuButton v :: muteButton v :: controls v
              ++ from_option modalButtons [] (modal v)).

(** Everything a click on the screen can call. *)
Definition clicks {H} (on : GameEvent → H) (v : ScreenView H) : list H :=
  buttonClicks v ++ squareClicks on (squares v).

(** The grid has a square at [(row, col)]. *)
Definition onGrid {A} (grid : list (list A)) (row col : Z) : Prop :=
  ∃ r c, row = Z.of_nat r ∧ col = Z.of_nat c ∧ is_Some (grid !! r ≫= (.!! c)).

(** The events of the screen: those of the component and the way back to
    the menu. *)
Inductive Action : Set :=
  | Local (e : GameEvent)
  | ToMenu.

(** The timers are not widgets. *)
Definition isTimer (e : GameEvent) : bool :=
  match e with AiTimer _ | ModalTimer => true | _ => false end.

(** ** The view is drawn *)

Lemma gameScreen_is_Ok {H} (onBackToMenu : H) on gameMode s :
  inv s → is_Ok (gameScreen onBackToMenu on gameMode s).
Proof.
  intros Hinv. destruct (view_moves gameMode s Hinv) as (sug & paths & Hsug & Hpaths & _).
  unfold gameScreen, gameBoard. rewrite Hsug, Hpaths. by eexists.
Qed.

Lemma gameScreen_Ok {H} (onBackToMenu : H) on gameMode s v :
  gameScreen onBackToMenu on gameMode s ⇓ v →
  ∃ sug paths, v = mkScreenView
    (mkButton "" "Menu" false false (Some onBackToMenu))
    (mkButton "" "" false (isMuted s) (Some (on ClickMute)))
    (getTurnIndicator gameMode s)
    ((0 <? length (mandatoryCaptures s))%nat && negb (bool_decide (is_Some (winner s))))
    (render (board s) (selectedPiece s) sug paths
       (isPlayerTurn gameMode s && negb (bool_decide (is_Some (winner s)))))
    (gameControls (on ClickRestart) (on ClickUndo) (on ClickPause) (on ClickPaths)
       (on ClickSuggestions) (isPaused s) (canUndo s) (showPlayerPaths s)
       (enableSuggestions s))
    ((Z.of_nat (length (history s)) - 1) / 2)
    (match gameMode with single => "AI" | two => "PvP" end)
    (gameOverModal (showGameOverModal s) (gameResult s)
       (on ModalRestart) onBackToMenu (on ModalDismiss)).
Proof.
  unfold gameScreen, gameBoard.
  intros (grid & (sug & _ & (paths & _ & [= <-])%bind_Ok)%bind_Ok & [= <-])%bind_Ok.
  by exists sug, paths.
Qed.

(** ** The widgets are the events the machine admits *)

Section clicks.
Context {H : Type} (on : GameEvent → H).

Lemma elem_of_squareClicks grid h :
  h ∈ squareClicks on grid ↔
  ∃ r c, h = on (ClickSquare (Z.of_nat r) (Z.of_nat c)) ∧ is_Some (grid !! r ≫= (.!! c)).
Proof.
  unfold squareClicks. rewrite list_elem_of_join. split.
  - intros (l & Hh & (r & row & -> & Hrow)%elem_of_lookup_imap).
    apply elem_of_lookup_imap in Hh as (c & sq & -> & Hsq).
    exists r, c. rewrite Hrow. cbn. by rewrite Hsq.
  - intros (r & c & -> & [sq Hsq]). destruct (grid !! r) as [row|] eqn:Hrow; [cbn in Hsq|done].
    eexists. split; [|apply elem_of_lookup_imap; by exists r, row].
    apply elem_of_lookup_imap. by exists c, sq.
Qed.

Lemma render_lookup b sel sug paths turn r c :
  is_Some (render b sel sug paths turn !! r ≫= (.!! c)) ↔ is_Some (b !! r ≫= (.!! c)).
Proof.
  unfold render. rewrite list_lookup_imap. destruct (b !! r) as [row|]; cbn; [|done].
  rewrite list_lookup_imap. destruct (row !! c); cbn; by rewrite <-?not_eq_None_Some.
Qed.

Lemma onGridspec b row col : hasSquare b row col = true ↔ onGrid b row col.
Proof.
  unfold hasSquare, onGrid. rewrite bool_decide_eq_true. split.
  - intros (? & ? & ?). exists (Z.to_nat row), (Z.to_nat col). split_and!; [lia..|done].
  - intros (r & c & -> & -> & ?). rewrite !Nat2Z.id. split_and!; [lia..|done].
Qed.
End clicks.

(** The buttons of the screen in the state [s]. *)
Lemma buttonClicks_gameScreen gameMode s v :
  gameScreen ToMenu Local gameMode s ⇓ v →
  buttonClicks v =
  [ToMenu; Local ClickMute] ++ (if canUndo s then [Local ClickUndo] else [])
  ++ [Local ClickSuggestions; Local ClickPaths; Local ClickPause; Local ClickRestart]
  ++ (if modalOpen s then [Local ModalDismiss; Local ModalDismiss; Local ModalRestart; ToMenu]
      else []).
Proof.
  intros (sug & paths & ->)%gameScreen_Ok. unfold buttonClicks, modalOpen. cbn.
  by destruct (canUndo s), (gameResult s), (showGameOverModal s).
Qed.

Lemma clicks_ToMenu gameMode s v :
  gameScreen ToMenu Local gameMode s ⇓ v → ToMenu ∈ clicks Local v.
Proof.
  intros Hv. unfold clicks. rewrite (buttonClicks_gameScreen _ _ _ Hv).
  apply elem_of_app. left. apply elem_of_app. left. left.
Qed.

Lemma elem_of_buttonClicks gameMode s v e :
  gameScreen ToMenu Local gameMode s ⇓ v →
  Local e ∈ buttonClicks v ↔
  match e with
  | ClickSquare _ _ | AiTimer _ | ModalTimer => False
  | _ => available gameMode s e = true
  end.
Proof.
  intros ->%buttonClicks_gameScreen.
  destruct e; cbn [available]; destruct (canUndo s), (modalOpen s); cbn;
    rewrite ?elem_of_cons, ?elem_of_nil; intuition (discriminate || auto).
Qed.

Lemma elem_of_squareClicks_Local grid e :
  Local e ∈ squareClicks Local grid ↔
  ∃ row col, e = ClickSquare row col ∧ onGrid grid row col.
Proof.
  rewrite elem_of_squareClicks. unfold onGrid. split.
  - intros (r & c & [= ->] & ?). exists (Z.of_nat r), (Z.of_nat c). eauto 10.
  - intros (row & col & -> & r & c & -> & -> & ?). eauto.
Qed.

Lemma clicks_available gameMode s v e :
  gameScreen ToMenu Local gameMode s ⇓ v → isTimer e = false →
  Local e ∈ clicks Local v ↔ available gameMode s e = true.
Proof.
  intros Hv Htimer. unfold clicks.
  rewrite elem_of_app, (elem_of_buttonClicks _ _ _ _ Hv), elem_of_squareClicks_Local.
  apply gameScreen_Ok in Hv as (sug & paths & ->). cbn [squares].
  unfold onGrid. setoid_rewrite render_lookup.
  destruct e; try discriminate Htimer; cbn [available]; rewrite ?onGridspec;
    try (split; [by intros [?|(? & ? & [=] & _)]|by left]).
  split; [intros [[]|(? & ? & [= <- <-] & ?)]; done|]. right. eauto.
Qed.

(** ** The captures of the side to move *)

Lemma findCaptureMoves_nonempty b pl caps :
  findCaptureMoves b pl ⇓ caps → caps ≠ [] ↔ ∃ m, isCaptureMove b pl m.
Proof.
  intros Hcaps. split.
  - destruct caps as [|m caps]; [done|]. intros _. exists m.
    eapply findCaptureMoves_capture; [done|left].
  - intros [m Hm]. apply findCaptureMoves_Ok in Hcaps as (all & Hall & ->).
    destruct (captureMoves_dominate b pl all Hall m Hm) as (y & Hy & _).
    apply keepMax_nonempty. intros ->. by apply elem_of_nil in Hy.
Qed.

(** ** What a settled screen says *)

Section truth.
Context (gameMode : GameMode) (s : State) (Hsettled : settled gameMode s).

Lemma settled_winner :
  match winner s with
  | Some w => checkWinCondition (board s) (currentPlayer s) ⇓ Some w
  | None => isPaused s = false → checkWinCondition (board s) (currentPlayer s) ⇓ None
  end.
Proof using Hsettled.
  destruct Hsettled as [[Hwon _] Hopen]. destruct (winner s) as [w|] eqn:Hw.
  - by apply Hwon.
  - intros Hp. by apply Hopen.
Qed.

(** The window names the winner of the board shown. *)
Lemma gameOverModal_settled {H} (onRestart onBackToMenu onDismiss : H) mv :
  gameOverModal (showGameOverModal s) (gameResult s) onRestart onBackToMenu onDismiss
    = Some mv →
  ∃ w, winner s = Some w ∧ checkWinCondition (board s) (currentPlayer s) ⇓ Some w ∧
       heading mv = (if decide (w = WHITE) then "White Wins!" else "Black Wins!") ∧
       subtext mv = match gameMode with
                    | single => if decide (w = WHITE) then "Player" else "CPU"
                    | two => "Victory"
                    end ∧
       confetti mv = match gameMode with single => bool_decide (w = WHITE) | two => true end ∧
       totalMoves mv = (Z.of_nat (length (history s)) - 1) / 2 ∧
       finalScore mv = calculateScore w (totalMoves mv) (board s) ∧ 0 ≤ finalScore mv.
Proof using Hsettled.
  destruct Hsettled as [[Hwon Hopen] _]. unfold gameOverModal.
  destruct (winner s) as [w|] eqn:Hw; [|by rewrite Hopen].
  destruct (Hwon w eq_refl) as (Hwin & g & -> & <- & Hname & Hmode & ? & ? & ?).
  destruct (showGameOverModal s); [|done]. intros [= <-]. exists (Types.winner g).
  cbn. rewrite Hname, Hmode. by destruct gameMode.
Qed.

(** The banner is there when the game is open and the side to move has a
    capture. *)
Lemma mustCapture_settled :
  isPaused s = false →
  (0 <? length (mandatoryCaptures s))%nat && negb (bool_decide (is_Some (winner s))) = true ↔
  checkWinCondition (board s) (currentPlayer s) ⇓ None ∧
  ∃ m, isCaptureMove (board s) (currentPlayer s) m.
Proof using Hsettled.
  intros Hp. pose proof settled_winner as Hwin. destruct Hsettled as [_ Hopen].
  destruct (winner s) as [w|] eqn:Hw.
  { rewrite bool_decide_true, andb_false_r by done. split; [done|]. intros [? _]. congruence. }
  destruct (Hopen eq_refl Hp) as [Hnone Hcaps].
  rewrite bool_decide_false, andb_true_r by (by intros [? ?]).
  rewrite <-(findCaptureMoves_nonempty _ _ _ Hcaps), Nat.ltb_lt.
  destruct (mandatoryCaptures s); cbn; intuition (done || lia).
Qed.

(** The banner never lies, paused or not. *)
Lemma mustCapture_sound :
  (0 <? length (mandatoryCaptures s))%nat && negb (bool_decide (is_Some (winner s))) = true →
  ∃ m, isCaptureMove (board s) (currentPlayer s) m.
Proof using Hsettled.
  intros [Hlen%Nat.ltb_lt Hw%negb_true_iff%bool_decide_eq_false]%andb_true_iff.
  assert (winner s = None) as Hnone by (destruct (winner s); [destruct Hw|]; done).
  assert (findCaptureMoves (board s) (currentPlayer s) ⇓ mandatoryCaptures s) as Hcaps.
  { destruct (isPaused s) eqn:Hp; [|by apply Hsettled].
    destruct (settled_paused _ _ Hsettled Hnone Hp) as [Hnil|?]; [|done].
    rewrite Hnil in Hlen. cbn in Hlen. lia. }
  apply (findCaptureMoves_nonempty _ _ _ Hcaps). intros Hnil. rewrite Hnil in Hlen.
  cbn in Hlen. lia.
Qed.
End truth.

Lemma getTurnIndicator_over gameMode s :
  getTurnIndicator gameMode s = "Game Over" ↔ is_Some (winner s).
Proof.
  unfold getTurnIndicator. destruct (winner s) as [w|].
  { rewrite bool_decide_true by done. split; eauto. }
  rewrite bool_decide_false by (by intros [? ?]).
  split; [|by intros [? ?]]. repeat case_match; discriminate.
Qed.

(** ** Properties *)

(** The widgets on the screen are the events the machine admits: in
    every state of the invariant the screen is drawn without exception, its
    way back to the menu is there, and a click on the screen calls the
    handler of an event exactly when [Ui.available] admits the event (the
    squares of the grid, the undo button unless it is disabled, the buttons
    of the modal while it is drawn, the other buttons always). *)
Theorem widgets_are_available gameMode s :
  inv s →
  ∃ v, gameScreen ToMenu Local gameMode s ⇓ v ∧ ToMenu ∈ clicks Local v ∧
    ∀ e, isTimer e = false → Local e ∈ clicks Local v ↔ available gameMode s e = true.
Proof.
  intros [v Hv]%(gameScreen_is_Ok ToMenu Local gameMode). exists v.
  eauto using clicks_ToMenu, clicks_available.
Qed.

Lemma widgets_are_available_witness :
  ∃ v, gameScreen ToMenu Local single (initialState false false false) ⇓ v ∧
    ToMenu ∈ clicks Local v ∧
    ∀ e, isTimer e = false →
      Local e ∈ clicks Local v ↔ available single (initialState false false false) e = true.
Proof. apply (widgets_are_available single), inv_initialState. Defined.

(** [C25] The screen tells the truth about the game: after any events the
    screen is drawn; when the window of the end of the game is drawn, the
    board shown is won by the side the heading names, the subtext names
    the player or the CPU accordingly in a game against the AI, confetti
    falls unless the AI won, the moves in the window are the moves the
    counter of the screen shows and the score is the score of the winner
    on the board shown, the turn indicator reads Game Over and the
    banner of the mandatory capture is gone; the banner is drawn only when
    the side to move has a capture on the board shown, and unless the game
    is paused it is drawn exactly when that board is undecided and the
    side to move has a capture. *)
Theorem screen_tells_truth gameMode difficulty muted suggestions paths es s :
  session gameMode difficulty muted suggestions paths es ⇓ s →
  ∃ v, gameScreen ToMenu Local gameMode s ⇓ v ∧
    (∀ mv, modal v = Some mv →
       ∃ w, checkWinCondition (board s) (currentPlayer s) ⇓ Some w ∧
            turnIndicator v = "Game Over" ∧ mustCapture v = false ∧
            heading mv = (if decide (w = WHITE) then "White Wins!" else "Black Wins!") ∧
            subtext mv = match gameMode with
                         | single => if decide (w = WHITE) then "Player" else "CPU"
                         | two => "Victory"
                         end ∧
            confetti mv = match gameMode with
                          | single => bool_decide (w = WHITE)
                          | two => true
                          end ∧
            totalMoves mv = movesShown v ∧
            finalScore mv = calculateScore w (movesShown v) (board s)) ∧
    (mustCapture v = true → ∃ m, isCaptureMove (board s) (currentPlayer s) m) ∧
    (isPaused s = false →
       mustCapture v = true ↔
       checkWinCondition (board s) (currentPlayer s) ⇓ None ∧
       ∃ m, isCaptureMove (board s) (currentPlayer s) m).
Proof.
  intros (es' & _ & Hs)%session_uiReachable.
  pose proof (uiReachable_settled _ _ _ _ Hs) as Hsettled.
  destruct (gameScreen_is_Ok ToMenu Local gameMode s (uiReachable_inv _ _ _ _ Hs)) as [v Hv].
  exists v. split; [done|]. apply gameScreen_Ok in Hv as (sug & pths & ->). cbn. split.
  - intros mv (w & Hw & ? & ? & ? & ? & Hmoves & Hscore & _)%(gameOverModal_settled _ _ Hsettled).
    exists w. rewrite <-Hmoves.
    split_and!; [done| |by rewrite Hw, bool_decide_true, andb_false_r|done..].
    apply getTurnIndicator_over. by rewrite Hw.
  - split; [by apply (mustCapture_sound gameMode)|by apply (mustCapture_settled gameMode)].
Qed.

Lemma screen_tells_truth_witness :
  ∃ v, gameScreen ToMenu Local two afterOpening ⇓ v ∧
    (∀ mv, modal v = Some mv →
       ∃ w, checkWinCondition (board afterOpening) (currentPlayer afterOpening) ⇓ Some w ∧
            turnIndicator v = "Game Over" ∧ mustCapture v = false ∧
            heading mv = (if decide (w = WHITE) then "White Wins!" else "Black Wins!") ∧
            subtext mv = "Victory" ∧ confetti mv = true ∧
            totalMoves mv = movesShown v ∧
            finalScore mv = calculateScore w (movesShown v) (board afterOpening)) ∧
    (mustCapture v = true →
     ∃ m, isCaptureMove (board afterOpening) (currentPlayer afterOpening) m) ∧
    (isPaused afterOpening = false →
       mustCapture v = true ↔
       checkWinCondition (board afterOpening) (currentPlayer afterOpening) ⇓ None ∧
       ∃ m, isCaptureMove (board afterOpening) (currentPlayer afterOpening) m).
Proof.
  apply (screen_tells_truth two None false false false openingEvents). by vm_compute.
Defined.

(** ** A game that is over *)

(** Black has lost its last piece. *)
Definition lastManBoard : Board := boardOf [(5, 0, mkPiece WHITE MAN)].

(** The screen against the AI after the effect has found the winner and
    the timer has opened the window. *)
Definition wonScreen : res (ScreenView Action) :=
  s ← effect single (stateOf lastManBoard BLACK);
  gameScreen ToMenu Local single (showModalTimer s).

Example wonScreen_modal :
  ∃ v mv, wonScreen ⇓ v ∧ modal v = Some mv ∧ turnIndicator v = "Game Over" ∧
    heading mv = "White Wins!" ∧ subtext mv = "Player" ∧ confetti mv = true ∧
    finalScore mv = 1100 ∧ totalMoves mv = 0 ∧
    click <$> modalButtons mv
    = [Some (Local ModalDismiss); Some (Local ModalDismiss); Some (Local ModalRestart);
       Some ToMenu; None].
Proof. eexists _, _. by vm_compute. Qed.
