(* ===== verification/System.v ===== *)
(** * System: the whole page

    Puts the components together: the cells of [App] and [MainMenu]
    ([App.v]), the game screen while it is mounted ([GameScreen.v] as the
    player drives it, [Ui.v]) and the browser around them ([Storage.v]).
    Selecting a mode mounts a new game screen, whose preferences are read
    from [localStorage] (lines 38-58 of [src/src/screens/GameScreen.tsx]);
    its effects write them back and mute the sounds (lines 60-79); its
    handlers and its board effect play the sounds (lines 118-124 and 154);
    the way back to the menu unmounts it.

    The theorems show that the page never raises an exception, that its
    parts stay consistent (the screen is a screen of [Ui.uiReachable] for
    the mode and the level of [App], the sounds are muted as the screen
    says, the storage holds the preferences of the screen), that the
    preferences survive the way through the menu when the browser grants
    the accesses and what happens when it does not, and that a muted game
    makes no sound. *)

From stdpp Require Import prelude strings gmap.
From Stdlib Require Import ZArith Lia.
From S2P Require Import Prelude Types Board MoveGen Chains Apply Terminal Eval Game Num Search Suggest GameScreen GameBoard App Storage Ui.

Local Open Scope Z_scope.

(** ** Preferences *)

Record Preferences : Set := mkPreferences {
  muted : bool;
  suggestions : bool;
  paths : bool
}.

Definition preferencesOf (s : State) : Preferences :=
  mkPreferences (isMuted s) (enableSuggestions s) (showPlayerPaths s).

(** The three initialisers (lines 38-58). *)
Definition loadPreferences (st : Storage) : Preferences :=
  mkPreferences (loadPreference st mutedKey) (loadPreference st suggestionsKey)
    (loadPreference st pathsKey).

(** The cells of a game screen at its first render. *)
Definition firstRender (st : Storage) : State :=
  let p := loadPreferences st in initialState (muted p) (suggestions p) (paths p).

(** The effect of [isMuted] (lines 60-67). *)
Definition muteEffect (s : State) (br : Browser) : Browser :=
  mkBrowser (storePreference (storage br) mutedKey (isMuted s))
    (muteAll (isMuted s) (audio br)).

(** The effect of [enableSuggestions] (lines 69-73). *)
Definition suggestionsEffect (s : State) (br : Browser) : Browser :=
  mkBrowser (storePreference (storage br) suggestionsKey (enableSuggestions s)) (audio br).

(** The effect of [showPlayerPaths] (lines 75-79). *)
Definition pathsEffect (s : State) (br : Browser) : Browser :=
  mkBrowser (storePreference (storage br) pathsKey (showPlayerPaths s)) (audio br).

(** A dependency changed since the render before, or this is the first
    render. *)
Definition changed (f : State → bool) (old : option State) (s : State) : bool :=
  match old with
  | None => true
  | Some s0 => negb (eqb (f s0) (f s))
  end.

(** The three effects after a render, in the order of the source, each
    when its dependency changed. *)
Definition preferenceEffects (old : option State) (s : State) (br : Browser) : Browser :=
  let br := if changed isMuted old s then muteEffect s br else br in
  let br := if changed enableSuggestions old s then suggestionsEffect s br else br in
  if changed showPlayerPaths old s then pathsEffect s br else br.

(** ** Sounds *)

(** [sounds.x.play()] for each sound of the list. *)
Definition playAll (snds : list Sound) (br : Browser) : Browser :=
  mkBrowser (storage br) (foldl (λ au snd, play snd au) (audio br) snds).

(** The sound of [performMove] (lines 115-124): none when [applyMove]
    throws. *)
Definition performMoveSound (s : State) (move : Move) : list Sound :=
  match applyMove (board s) move with
  | Ok r =>
      [if (0 <? length (captured move))%nat then captureSound
       else if promoted r then promoteSound else moveSound]
  | Err _ => []
  end.

(** The move the handler of the event passes to [performMove]: the move
    clicked (lines 191-196) or the move of the AI (lines 180-184). *)
Definition moveOf (gameMode : GameMode) (difficulty : option Difficulty)
    (e : GameEvent) (s : State) : option Move :=
  match e with
  | ClickSquare row col =>
      if bool_decide (is_Some (winner s)) || isPaused s || negb (isPlayerTurn gameMode s)
      then None else findClicked (validMoves s) (mkPosition row col)
  | AiTimer random =>
      match difficulty with
      | Some difficulty =>
          match getAIMove random (board s) AI_PLAYER difficulty with
          | Ok aiMove => aiMove
          | Err _ => None
          end
      | None => None
      end
  | _ => None
  end.

Definition handlerSounds (gameMode : GameMode) (difficulty : option Difficulty)
    (e : GameEvent) (s : State) : list Sound :=
  match moveOf gameMode difficulty e s with
  | Some move => performMoveSound s move
  | None => []
  end.

(** The sound of the board effect (line 154). *)
Definition effectSounds (gameMode : GameMode) (s : State) : list Sound :=
  if bool_decide (is_Some (winner s)) || isPaused s then []
  else match checkWinCondition (board s) (currentPlayer s) with
       | Ok (Some _) => [winSound]
       | _ => []
       end.

(** The sounds of an event: those of its handler, then those of the board
    effect when it runs. *)
Definition stepSounds (gameMode : GameMode) (difficulty : option Difficulty)
    (e : GameEvent) (s : State) : list Sound :=
  handlerSounds gameMode difficulty e s
  ++ match handler gameMode difficulty e s with
     | Ok s1 => if effectDue e s s1 then effectSounds gameMode s1 else []
     | Err _ => []
     end.

(** What an event of the screen does to the preferences. *)
Definition togglePreferences (e : GameEvent) (p : Preferences) : Preferences :=
  match e with
  | ClickMute => mkPreferences (negb (muted p)) (suggestions p) (paths p)
  | ClickSuggestions => mkPreferences (muted p) (negb (suggestions p)) (paths p)
  | ClickPaths => mkPreferences (muted p) (suggestions p) (negb (paths p))
  | _ => p
  end.

(** ** The page *)

Record System : Type := mkSystem {
  appState : AppState;
  screen : option State;    (* the cells of the game screen while it is mounted *)
  browser : Browser
}.

Inductive Event : Set :=
  | OnApp (e : AppEvent)
  | OnGame (e : GameEvent).

(** The page when it has loaded. *)
Definition initialSystem (st : Storage) : System :=
  mkSystem initialApp None (mkBrowser st initialAudio).

(** A game screen is mounted: its first render, the three effects of the
    preferences and the board effect. *)
Definition mount (gameMode : GameMode) (br : Browser) : res (State * Browser) :=
  let s := firstRender (storage br) in
  let br := preferenceEffects None s br in
  s' ← effect gameMode s;
  Ok (s', playAll (effectSounds gameMode s) br).

(** An event of the game screen: the handler with its sound, then the
    effects whose dependencies changed. *)
Definition gameStep (gameMode : GameMode) (difficulty : option Difficulty)
    (e : GameEvent) (s : State) (br : Browser) : res (State * Browser) :=
  s1 ← handler gameMode difficulty e s;
  let br := playAll (handlerSounds gameMode difficulty e s) br in
  let br := preferenceEffects (Some s) s1 br in
  if effectDue e s s1 then
    s2 ← effect gameMode s1;
    Ok (s2, playAll (effectSounds gameMode s1) br)
  else Ok (s1, br).

(** One event of the page.  An event without its widget is lost. *)
Definition systemStep (sys : System) (ev : Event) : res System :=
  match ev with
  | OnApp e =>
      if appAvailable (appState sys) e then
        let a := appHandler e (appState sys) in
        if decide (gameState a = playing) then
          '(s, br) ← mount (gameMode a) (browser sys);
          Ok (mkSystem a (Some s) br)
        else Ok (mkSystem a None (browser sys))
      else Ok sys
  | OnGame e =>
      match screen sys with
      | Some s =>
          if available (gameMode (appState sys)) s e then
            '(s', br) ← gameStep (gameMode (appState sys)) (difficulty (appState sys))
                          e s (browser sys);
            Ok (mkSystem (appState sys) (Some s') br)
          else Ok sys
      | None => Ok sys
      end
  end.

Definition systemRun (sys : System) (evs : list Event) : res System :=
  foldM systemStep sys evs.

(** The states of the page. *)
Inductive systemReachable (st : Storage) : System → Prop :=
  | systemReachable_init : systemReachable st (initialSystem st)
  | systemReachable_step sys ev sys' :
      systemReachable st sys → systemStep sys ev ⇓ sys' → systemReachable st sys'.

(** The preferences of the page: those of the screen, or those a new
    screen would read. *)
Definition preferences (sys : System) : Preferences :=
  match screen sys with
  | Some s => preferencesOf s
  | None => loadPreferences (storage (browser sys))
  end.

(** The sounds of an event of the page. *)
Definition systemSounds (sys : System) (ev : Event) : list Sound :=
  match ev, screen sys with
  | OnGame e, Some s =>
      if available (gameMode (appState sys)) s e
      then stepSounds (gameMode (appState sys)) (difficulty (appState sys)) e s else []
  | _, _ => []
  end.

(** The event leaves the preferences alone. *)
Definition keepsPreferences (ev : Event) : bool :=
  match ev with
  | OnGame (ClickMute | ClickSuggestions | ClickPaths) => false
  | _ => true
  end.

(** The sounds are muted as the screen says. *)
Definition mutedAs (s : State) (au : Audio) : Prop :=
  ∀ snd, isMutedSound au snd = isMuted s.

(** The storage holds the preferences of the screen, when it can be
    written and read. *)
Definition remembers (st : Storage) (s : State) : Prop :=
  readable st = true → writable st = true → loadPreferences st = preferencesOf s.

(** What holds of every state of the page. *)
Record sysInv (sys : System) : Prop := mkSysInv {
  sysInv_app : appReachable (appState sys);
  sysInv_mounted : gameState (appState sys) = playing ↔ is_Some (screen sys);
  sysInv_screen s :
    screen sys = Some s →
    ∃ es, uiReachable (gameMode (appState sys)) (difficulty (appState sys)) es s;
  sysInv_muted s : screen sys = Some s → mutedAs s (audio (browser sys));
  sysInv_stored s : screen sys = Some s → remembers (storage (browser sys)) s
}.

(** ** Laws of the effects *)

Section effects.
Implicit Types (s : State) (br : Browser) (st : Storage) (au : Audio).

Lemma playAll_audio snds au snd :
  isMutedSound (foldl (λ au snd, play snd au) au snds) snd = isMutedSound au snd.
Proof. revert au. induction snds as [|x snds IH]; intros au; cbn; [done|]. by rewrite IH; destruct snd. Qed.

(** The sounds played join the log with the flag of their [Howl]. *)
Lemma playAll_heard snds au :
  heard (foldl (λ au snd, play snd au) au snds)
  = heard au ++ ((λ snd, (snd, isMutedSound au snd)) <$> snds).
Proof.
  revert au. induction snds as [|x snds IH]; intros au; cbn; [by rewrite app_nil_r|].
  rewrite IH. cbn. rewrite <-app_assoc. cbn. do 2 f_equal.
Qed.

Lemma preferenceEffects_audio old s br :
  audio (preferenceEffects old s br)
  = if changed isMuted old s then muteAll (isMuted s) (audio br) else audio br.
Proof. unfold preferenceEffects. by repeat case_match. Qed.

Lemma preferenceEffects_readable old s br :
  readable (storage (preferenceEffects old s br)) = readable (storage br).
Proof.
  unfold preferenceEffects. repeat case_match; cbn; by rewrite ?storePreference_readable.
Qed.

Lemma preferenceEffects_writable old s br :
  writable (storage (preferenceEffects old s br)) = writable (storage br).
Proof.
  unfold preferenceEffects. repeat case_match; cbn; by rewrite ?storePreference_writable.
Qed.

Lemma preferenceEffects_items old s br :
  writable (storage br) = false →
  items (storage (preferenceEffects old s br)) = items (storage br).
Proof.
  intros Hw. unfold preferenceEffects.
  repeat case_match; cbn;
    by rewrite ?storePreference_items, ?storePreference_writable, ?Hw.
Qed.

(** What is read after the effects, when the accesses are granted. *)
Lemma preferenceEffects_load old s br :
  readable (storage br) = true → writable (storage br) = true →
  loadPreferences (storage (preferenceEffects old s br)) =
  mkPreferences
    (if changed isMuted old s then isMuted s else loadPreference (storage br) mutedKey)
    (if changed enableSuggestions old s then enableSuggestions s
     else loadPreference (storage br) suggestionsKey)
    (if changed showPlayerPaths old s then showPlayerPaths s
     else loadPreference (storage br) pathsKey).
Proof.
  intros Hr Hw. unfold preferenceEffects, loadPreferences.
  repeat case_match; cbn;
    rewrite ?loadPreference_storePreference, ?storePreference_readable,
      ?storePreference_writable, ?Hr, ?Hw; done.
Qed.

Lemma changed_false f s0 s : changed f (Some s0) s = false → f s = f s0.
Proof. cbn. by destruct (f s0), (f s). Qed.

(** The effects bring the browser in line with the screen. *)
Lemma preferenceEffects_remembers old s br :
  (∀ s0, old = Some s0 → remembers (storage br) s0) →
  remembers (storage (preferenceEffects old s br)) s.
Proof.
  intros Hold. unfold remembers.
  rewrite preferenceEffects_readable, preferenceEffects_writable. intros Hr Hw.
  rewrite preferenceEffects_load by done. unfold preferencesOf.
  destruct old as [s0|]; [|done].
  pose proof (Hold s0 eq_refl Hr Hw) as [= Hm Hs Hp]. rewrite Hm, Hs, Hp.
  f_equal; (case_match eqn:E; [done|]); symmetry; by apply changed_false.
Qed.

Lemma preferenceEffects_mutedAs old s br :
  (∀ s0, old = Some s0 → mutedAs s0 (audio br)) →
  mutedAs s (audio (preferenceEffects old s br)).
Proof.
  intros Hold snd. rewrite preferenceEffects_audio.
  destruct (changed isMuted old s) eqn:E; [by destruct snd|].
  destruct old as [s0|]; [|done]. rewrite (changed_false _ _ _ E). by apply Hold.
Qed.

Lemma effect_preferences gameMode s s' :
  effect gameMode s ⇓ s' → preferencesOf s' = preferencesOf s.
Proof.
  unfold effect. case_match; [by intros [= <-]|].
  intros (win & _ & Hs')%bind_Ok. destruct win; [by injection Hs' as <-|].
  by apply bind_Ok in Hs' as (? & _ & [= <-]).
Qed.
End effects.

(** ** One event of the game screen *)

Section steps.
Context (gameMode : GameMode) (difficulty : option Difficulty).
Implicit Types (s : State) (br : Browser) (e : GameEvent).

Lemma performMove_preferences s m : preferencesOf (performMove s m) = preferencesOf s.
Proof.
  unfold performMove. destruct (performMoveTry s m) as [s'|] eqn:E; [cbn|done].
  unfold performMoveTry in E. apply bind_Ok in E as (r & _ & (caps & _ & E)%bind_Ok).
  by case_match; injection E as <-.
Qed.

Lemma handleUndo_preferences s : preferencesOf (handleUndo gameMode s) = preferencesOf s.
Proof. unfold handleUndo. by repeat case_match. Qed.

Lemma handler_preferences e s s1 :
  handler gameMode difficulty e s ⇓ s1 →
  preferencesOf s1 = togglePreferences e (preferencesOf s).
Proof.
  destruct e; cbn; try (by intros [= <-]).
  - unfold handleSquareClick. repeat case_match; try (by intros [= <-]).
    + intros [= <-]. apply performMove_preferences.
    + by intros (? & _ & [= <-])%bind_Ok.
  - intros [= <-]. apply handleUndo_preferences.
  - intros [= <-]. unfold aiTimer. repeat case_match; try done. apply performMove_preferences.
Qed.

(** The handler of an event with a move is [performMove] on that move;
    the handler of an event without one adds no board to the history. *)
Lemma handler_moveOf e s :
  history s ≠ [] →
  match moveOf gameMode difficulty e s with
  | Some move => handler gameMode difficulty e s = Ok (performMove s move)
  | None => ∀ s1, handler gameMode difficulty e s ⇓ s1 →
                  (length (history s1) ≤ length (history s))%nat
  end.
Proof.
  intros Hhist. assert (1 ≤ length (history s))%nat by (destruct (history s); cbn; [done|lia]).
  destruct e; cbn; try (intros ? [= <-]; cbn; lia).
  - unfold handleSquareClick.
    destruct (_ || negb (isPlayerTurn gameMode s)); [intros ? [= <-]; lia|].
    destruct (findClicked _ _); [done|].
    repeat case_match; intros s1 Hs1; try (apply bind_Ok in Hs1 as (? & _ & Hs1));
      injection Hs1 as <-; cbn; lia.
  - intros ? [= <-]. unfold handleUndo. repeat case_match; cbn; rewrite ?length_take; lia.
  - unfold aiTimer. destruct difficulty as [d|]; [|intros ? [= <-]; lia].
    destruct (getAIMove _ _ _ d) as [[m|]|]; [done|intros ? [= <-]; lia..].
Qed.

(** The mute button leaves the board effect alone, so the effect runs
    with the sounds muted as they were. *)
Lemma effectDue_isMuted e s s1 :
  handler gameMode difficulty e s ⇓ s1 → effectDue e s s1 = true → isMuted s1 = isMuted s.
Proof.
  intros Hs1 Hdue. pose proof (handler_preferences e s s1 Hs1) as Hp.
  destruct e; try (by injection Hp). injection Hs1 as <-.
  unfold effectDue in Hdue. cbn in Hdue. by rewrite bool_decide_true in Hdue.
Qed.

Lemma handlerSounds_mute e s :
  togglePreferences e (preferencesOf s) ≠ preferencesOf s → handlerSounds gameMode difficulty e s = [].
Proof. by destruct e. Qed.

Lemma gameStep_Ok e s br s' br' :
  gameStep gameMode difficulty e s br ⇓ (s', br') ↔
  ∃ s1, handler gameMode difficulty e s ⇓ s1 ∧
    let br1 := preferenceEffects (Some s) s1
                 (playAll (handlerSounds gameMode difficulty e s) br) in
    if effectDue e s s1
    then effect gameMode s1 ⇓ s' ∧ br' = playAll (effectSounds gameMode s1) br1
    else s' = s1 ∧ br' = br1.
Proof.
  unfold gameStep. rewrite bind_Ok. apply exist_proper. intros s1. apply and_iff_compat_l.
  cbn zeta. destruct (effectDue e s s1).
  - rewrite bind_Ok. split; [intros (s2 & ? & [= <- <-]); done|intros [? ->]; eauto].
  - split; [by intros [= <- <-]|by intros [-> ->]].
Qed.

(** The screen of the page is the screen of [Ui.react]. *)
Lemma gameStep_react e s br s' br' :
  gameStep gameMode difficulty e s br ⇓ (s', br') → react gameMode difficulty e s ⇓ s'.
Proof.
  intros (s1 & Hs1 & Hrest)%gameStep_Ok. unfold react. rewrite Hs1, bind_Ok_l.
  cbn zeta in Hrest. destruct (effectDue e s s1); [by destruct Hrest|]. by destruct Hrest as [-> _].
Qed.

Lemma react_gameStep e s br s' :
  react gameMode difficulty e s ⇓ s' → ∃ br', gameStep gameMode difficulty e s br ⇓ (s', br').
Proof.
  intros (s1 & Hs1 & Hs')%bind_Ok. unfold gameStep. rewrite Hs1, bind_Ok_l.
  destruct (effectDue e s s1); [rewrite Hs', bind_Ok_l|injection Hs' as <-]; by eexists.
Qed.

(** What an event does to the browser. *)
Lemma gameStep_browser e s br s' br' :
  mutedAs s (audio br) → remembers (storage br) s →
  gameStep gameMode difficulty e s br ⇓ (s', br') →
  mutedAs s' (audio br') ∧ remembers (storage br') s' ∧
  readable (storage br') = readable (storage br) ∧
  writable (storage br') = writable (storage br) ∧
  (writable (storage br) = false → items (storage br') = items (storage br)) ∧
  preferencesOf s' = togglePreferences e (preferencesOf s) ∧
  heard (audio br') =
  heard (audio br) ++ ((λ snd, (snd, isMuted s)) <$> stepSounds gameMode difficulty e s).
Proof.
  intros Hmuted Hstored (s1 & Hs1 & Hrest)%gameStep_Ok. cbn zeta in Hrest.
  set (br0 := playAll (handlerSounds gameMode difficulty e s) br) in *.
  set (br1 := preferenceEffects (Some s) s1 br0) in *.
  assert (mutedAs s1 (audio br1)) as Hmuted1.
  { apply preferenceEffects_mutedAs. intros ? [= <-] snd. cbn. by rewrite playAll_audio. }
  assert (remembers (storage br1) s1) as Hstored1.
  { apply preferenceEffects_remembers. by intros ? [= <-]. }
  assert (heard (audio br1) = heard (audio br)
            ++ ((λ snd, (snd, isMuted s)) <$> handlerSounds gameMode difficulty e s)) as Hheard1.
  { unfold br1. rewrite preferenceEffects_audio.
    assert (heard (audio br0) = heard (audio br)
              ++ ((λ snd, (snd, isMuted s)) <$> handlerSounds gameMode difficulty e s)) as <-.
    { cbn. rewrite playAll_heard. f_equal. apply list_fmap_ext. intros _ snd _.
      by rewrite Hmuted. }
    by destruct (changed _ _ _). }
  assert (readable (storage br1) = readable (storage br)) as Hr1
    by apply (preferenceEffects_readable (Some s) s1 br0).
  assert (writable (storage br1) = writable (storage br)) as Hw1
    by apply (preferenceEffects_writable (Some s) s1 br0).
  assert (writable (storage br) = false → items (storage br1) = items (storage br)) as Hi1
    by apply (preferenceEffects_items (Some s) s1 br0).
  pose proof (handler_preferences e s s1 Hs1) as Hprefs.
  unfold stepSounds. rewrite Hs1. clearbody br1 br0.
  destruct (effectDue e s s1) eqn:Hdue; [destruct Hrest as [Hs' ->]|destruct Hrest as [-> ->]];
    [|split_and!; try done; by rewrite app_nil_r].
  pose proof (effect_preferences _ _ _ Hs') as Hprefs'.
  pose proof Hprefs' as [= Hm Hsu Hpa]. cbn [playAll storage audio]. split_and!; try done.
  - intros snd. by rewrite playAll_audio, Hm.
  - unfold remembers. rewrite Hprefs'. apply Hstored1.
  - by rewrite Hprefs'.
  - rewrite playAll_heard, Hheard1, fmap_app, app_assoc. f_equal.
    apply list_fmap_ext. intros _ snd _.
    by rewrite Hmuted1, (effectDue_isMuted e s s1).
Qed.

Lemma mount_Ok br s br' :
  mount gameMode br ⇓ (s, br') ↔
  mounted gameMode (loadPreference (storage br) mutedKey)
    (loadPreference (storage br) suggestionsKey) (loadPreference (storage br) pathsKey) ⇓ s ∧
  br' = playAll (effectSounds gameMode (firstRender (storage br)))
          (preferenceEffects None (firstRender (storage br)) br).
Proof.
  unfold mount, mounted. rewrite bind_Ok.
  split; [intros (s' & ? & [= <- <-]); done|intros [? ->]; eauto].
Qed.

Lemma mount_browser br s br' :
  mount gameMode br ⇓ (s, br') →
  mutedAs s (audio br') ∧ remembers (storage br') s ∧
  readable (storage br') = readable (storage br) ∧
  writable (storage br') = writable (storage br) ∧
  (writable (storage br) = false → items (storage br') = items (storage br)) ∧
  preferencesOf s = loadPreferences (storage br) ∧
  heard (audio br') = heard (audio br).
Proof.
  intros [Hs ->]%mount_Ok. pose proof (effect_preferences _ _ _ Hs) as Hprefs.
  injection Hprefs as Hm Hsu Hpa. cbn [playAll storage audio].
  rewrite preferenceEffects_readable, preferenceEffects_writable. split_and!; try done.
  - intros snd. rewrite playAll_audio, Hm. by apply preferenceEffects_mutedAs.
  - unfold remembers, preferencesOf. rewrite Hm, Hsu, Hpa.
    by apply (preferenceEffects_remembers None (firstRender (storage br))).
  - apply preferenceEffects_items.
  - unfold preferencesOf. by rewrite Hm, Hsu, Hpa.
Qed.
End steps.

(** ** One event of the page *)

Section system.
Implicit Types (sys : System) (ev : Event) (st : Storage).

(** The outcomes of an event. *)
Inductive outcome sys : Event → System → Prop :=
  | outcome_lost ev :
      match ev with
      | OnApp e => appAvailable (appState sys) e = false
      | OnGame e =>
          ∀ s, screen sys = Some s → available (gameMode (appState sys)) s e = false
      end →
      outcome sys ev sys
  | outcome_menu e :
      appAvailable (appState sys) e = true →
      gameState (appHandler e (appState sys)) = menu →
      outcome sys (OnApp e) (mkSystem (appHandler e (appState sys)) None (browser sys))
  | outcome_mount e s br :
      appAvailable (appState sys) e = true →
      gameState (appHandler e (appState sys)) = playing →
      mount (gameMode (appHandler e (appState sys))) (browser sys) ⇓ (s, br) →
      outcome sys (OnApp e) (mkSystem (appHandler e (appState sys)) (Some s) br)
  | outcome_game e s s' br :
      screen sys = Some s → available (gameMode (appState sys)) s e = true →
      gameStep (gameMode (appState sys)) (difficulty (appState sys)) e s (browser sys)
        ⇓ (s', br) →
      outcome sys (OnGame e) (mkSystem (appState sys) (Some s') br).

Lemma systemStep_outcome sys ev sys' : systemStep sys ev ⇓ sys' → outcome sys ev sys'.
Proof.
  destruct ev as [e|e]; cbn.
  - destruct (appAvailable (appState sys) e) eqn:Hav;
      [|intros [= <-]; by apply outcome_lost].
    case_decide as Hplaying.
    + intros ([s br] & Hmount & [= <-])%bind_Ok. by constructor.
    + intros [= <-]. constructor; [done|]. by destruct (gameState _).
  - destruct (screen sys) as [s|] eqn:Hscreen;
      [|intros [= <-]; apply outcome_lost; intros ? ?; congruence].
    destruct (available _ s e) eqn:Hav;
      [|intros [= <-]; apply outcome_lost; intros ? ?; congruence].
    intros ([s' br] & Hstep & [= <-])%bind_Ok. by econstructor.
Qed.

(** The way back is the only button of [App] while a game is shown. *)
Lemma appAvailable_playing a e :
  appAvailable a e = true → gameState (appHandler e a) = playing → gameState a = menu.
Proof. intros Hav%appAvailable_spec. destruct e; cbn; [tauto..|done]. Qed.

Lemma systemStep_inv sys ev sys' : sysInv sys → systemStep sys ev ⇓ sys' → sysInv sys'.
Proof.
  intros [Happ Hmounted Hscreen Hmuted Hstored] Hstep%systemStep_outcome.
  destruct Hstep as [ev _|e Hav Hmenu|e s br Hav Hplaying Hmount|e s s' br Hs Hav Hstep];
    [done|..].
  - split; cbn; try done; [|by rewrite Hmenu; split; [|intros [? ?]]].
    eauto using appReachable_step, appHandler_step.
  - destruct (mount_browser _ _ _ _ Hmount) as (? & ? & _). apply mount_Ok in Hmount as [Hs _].
    split; cbn; try (by intros ? [= <-]); [|done|].
    + eauto using appReachable_step, appHandler_step.
    + intros ? [= <-]. exists []. by eapply uiReachable_mount.
  - destruct (gameStep_browser _ _ _ _ _ _ _ (Hmuted s Hs) (Hstored s Hs) Hstep) as (? & ? & _).
    split; cbn; try (by intros ? [= <-]); [done|by rewrite Hmounted|].
    intros ? [= <-]. destruct (Hscreen s Hs) as [es Hes]. exists (es ++ [e]).
    eapply uiReachable_step; [done|]. constructor; [done|by eapply gameStep_react].
Qed.

Lemma mount_is_Ok gameMode br : is_Ok (mount gameMode br).
Proof.
  unfold mount, firstRender.
  destruct (effect_is_Ok gameMode _ (inv_initialState (muted (loadPreferences (storage br)))
    (suggestions (loadPreferences (storage br))) (paths (loadPreferences (storage br)))))
    as [s ->].
  by eexists.
Qed.

Lemma systemStep_is_Ok sys ev : sysInv sys → is_Ok (systemStep sys ev).
Proof.
  intros Hinv. destruct ev as [e|e]; unfold systemStep.
  - destruct (appAvailable _ e); [|by eexists]. cbn zeta. case_decide; [|by eexists].
    destruct (mount_is_Ok (gameMode (appHandler e (appState sys))) (browser sys))
      as [[s br] ->]. by eexists.
  - destruct (screen sys) as [s|] eqn:Hs; [|by eexists].
    destruct (available _ s e) eqn:Hav; [|by eexists].
    destruct (sysInv_screen sys Hinv s Hs) as [es Hes%uiReachable_inv].
    destruct (react_is_Ok _ (difficulty (appState sys)) s e Hes Hav) as [s' Hs'].
    destruct (react_gameStep _ _ e s (browser sys) s' Hs') as [br ->]. by eexists.
Qed.

Lemma sysInv_initialSystem st : sysInv (initialSystem st).
Proof. split; cbn; try done. apply appReachable_init. Qed.

Lemma systemReachable_inv st sys : systemReachable st sys → sysInv sys.
Proof. induction 1; eauto using sysInv_initialSystem, systemStep_inv. Qed.

(** The browser keeps granting or refusing, and a storage that is not
    written keeps its entries. *)
Lemma systemStep_storage sys ev sys' :
  sysInv sys → systemStep sys ev ⇓ sys' →
  readable (storage (browser sys')) = readable (storage (browser sys)) ∧
  writable (storage (browser sys')) = writable (storage (browser sys)) ∧
  (writable (storage (browser sys)) = false →
   items (storage (browser sys')) = items (storage (browser sys))).
Proof.
  intros [_ _ _ Hmuted Hstored] Hstep%systemStep_outcome.
  destruct Hstep as [ev _|e Hav Hmenu|e s br Hav Hplaying Hmount|e s s' br Hs Hav Hstep];
    [done..| |].
  - by destruct (mount_browser _ _ _ _ Hmount) as (_ & _ & ? & ? & ? & _).
  - by destruct (gameStep_browser _ _ _ _ _ _ _ (Hmuted s Hs) (Hstored s Hs) Hstep)
      as (_ & _ & ? & ? & ? & _).
Qed.

Lemma systemReachable_storage st sys :
  systemReachable st sys →
  readable (storage (browser sys)) = readable st ∧
  writable (storage (browser sys)) = writable st ∧
  (writable st = false → items (storage (browser sys)) = items st).
Proof.
  induction 1 as [|sys ev sys' Hsys (IHr & IHw & IHi) Hstep]; [done|].
  destruct (systemStep_storage sys ev sys' (systemReachable_inv _ _ Hsys) Hstep)
    as (Hr & Hw & Hi).
  rewrite Hr, Hw. split_and!; [done..|]. intros Hst. rewrite Hi by congruence. auto.
Qed.

(** What an event does to the preferences of the page, when the browser
    grants the accesses. *)
Lemma systemStep_preferences sys ev sys' :
  sysInv sys → readable (storage (browser sys)) = true →
  writable (storage (browser sys)) = true → systemStep sys ev ⇓ sys' →
  preferences sys' =
  match ev, screen sys with
  | OnGame e, Some _ => togglePreferences e (preferences sys)
  | _, _ => preferences sys
  end.
Proof.
  intros [_ Hmounted _ Hmuted Hstored] Hr Hw Hstep%systemStep_outcome.
  destruct Hstep as [ev Hlost|e Hav Hmenu|e s br Hav Hplaying Hmount|e s s' br Hs Hav Hstep].
  - destruct ev as [e|e]; [done|]. destruct (screen sys) as [s|] eqn:Hs; [|done].
    specialize (Hlost s eq_refl). by destruct e.
  - unfold preferences. cbn. destruct (screen sys) as [s|] eqn:Hs; [|done].
    by apply Hstored.
  - destruct (mount_browser _ _ _ _ Hmount) as (_ & _ & _ & _ & _ & Hprefs & _).
    unfold preferences. cbn. rewrite Hprefs.
    apply appAvailable_playing in Hplaying; [|done].
    destruct (screen sys) as [s0|] eqn:Hs0; [|done].
    assert (gameState (appState sys) = playing) by (apply Hmounted; by eexists).
    congruence.
  - destruct (gameStep_browser _ _ _ _ _ _ _ (Hmuted s Hs) (Hstored s Hs) Hstep)
      as (_ & _ & _ & _ & _ & Hprefs & _).
    unfold preferences. cbn. by rewrite Hs.
Qed.

(** The sounds of an event join the log, muted as the screen says. *)
Lemma systemStep_heard sys ev sys' :
  sysInv sys → systemStep sys ev ⇓ sys' →
  heard (audio (browser sys')) =
  heard (audio (browser sys))
  ++ ((λ snd, (snd, muted (preferences sys))) <$> systemSounds sys ev).
Proof.
  intros [_ _ _ Hmuted Hstored] Hstep%systemStep_outcome. unfold systemSounds.
  destruct Hstep as [ev Hlost|e Hav Hmenu|e s br Hav Hplaying Hmount|e s s' br Hs Hav Hstep].
  - destruct ev as [e|e]; [by rewrite app_nil_r|].
    destruct (screen sys) as [s|]; [rewrite Hlost by done|]; by rewrite app_nil_r.
  - by rewrite app_nil_r.
  - destruct (mount_browser _ _ _ _ Hmount) as (_ & _ & _ & _ & _ & _ & Hheard).
    cbn. by rewrite Hheard, app_nil_r.
  - destruct (gameStep_browser _ _ _ _ _ _ _ (Hmuted s Hs) (Hstored s Hs) Hstep)
      as (_ & _ & _ & _ & _ & _ & Hheard).
    unfold preferences. cbn. by rewrite Hs, Hav, Hheard.
Qed.

Lemma systemRun_reachable st sys evs sys' :
  systemReachable st sys → systemRun sys evs ⇓ sys' → systemReachable st sys'.
Proof.
  revert sys. induction evs as [|ev evs IH]; intros sys Hsys; cbn; [by intros [= <-]|].
  intros (sys1 & Hsys1 & Hrun)%bind_Ok. eauto using systemReachable_step.
Qed.

Lemma keepsPreferences_toggle e p :
  keepsPreferences (OnGame e) = true → togglePreferences e p = p.
Proof. by destruct e. Qed.

Lemma systemRun_preferences st sys evs sys' :
  systemReachable st sys → readable st = true → writable st = true →
  Forall (λ ev, keepsPreferences ev = true) evs → systemRun sys evs ⇓ sys' →
  preferences sys' = preferences sys.
Proof.
  intros Hsys Hr Hw Hevs. revert sys Hsys.
  induction Hevs as [|ev evs Hev _ IH]; intros sys Hsys; cbn; [by intros [= <-]|].
  intros (sys1 & Hsys1 & Hrun)%bind_Ok.
  destruct (systemReachable_storage _ _ Hsys) as (Hr' & Hw' & _).
  rewrite (IH sys1) by eauto using systemReachable_step.
  rewrite (systemStep_preferences sys ev sys1) by eauto using systemReachable_inv with congruence.
  destruct ev as [e|e]; [done|]. destruct (screen sys); [|done].
  by apply keepsPreferences_toggle.
Qed.
End system.

(** ** The AI answers on the page *)

Lemma effect_board gameMode s s' :
  effect gameMode s ⇓ s' → board s' = board s ∧ history s' = history s.
Proof.
  unfold effect. case_match; [by intros [= <-]|].
  intros (win & _ & Hs')%bind_Ok. destruct win; [by injection Hs' as <-|].
  by apply bind_Ok in Hs' as (? & _ & [= <-]).
Qed.

(** The timer of the AI is on only against the AI, for Black, on a board
    on which Black has a move. *)
Lemma aiTimerStarted_spec gameMode s :
  aiTimerStarted gameMode s = true →
  gameMode = single ∧ currentPlayer s = AI_PLAYER ∧ hasMove (board s) AI_PLAYER.
Proof.
  intros [[[_ Hwin%bool_decide_eq_true]%andb_true_iff Hsingle%bool_decide_eq_true]%andb_true_iff
    Hcur%bool_decide_eq_true]%andb_true_iff.
  split_and!; [done..|]. rewrite Hcur in Hwin.
  by apply checkWinCondition_Ok in Hwin as [[? _]|[(? & _)|(_ & ? & _)]].
Qed.

(** [C24] The AI answers on the page: whenever the page, reached from its
    load by any clicks and timers, shows a game in which the timer of the
    AI is running and the random number drawn lies in the unit interval, a
    level was selected in the menu, and the firing of the timer returns
    and plays the move [getAIMove] chooses for Black at that level, which
    is a legal move; the screen then shows the board after that move and
    the history has grown by it. *)
Theorem page_ai_answers st sys s random :
  systemReachable st sys → screen sys = Some s →
  available (gameMode (appState sys)) s (AiTimer random) = true →
  (rnum random < rden random)%nat →
  ∃ sys' s' d m r,
    systemStep sys (OnGame (AiTimer random)) ⇓ sys' ∧ screen sys' = Some s' ∧
    difficulty (appState sys) = Some d ∧
    getAIMove random (board s) AI_PLAYER d ⇓ Some m ∧
    legalMove (board s) AI_PLAYER m ∧ applyMove (board s) m ⇓ r ∧
    board s' = newBoard r ∧ history s' = history s ++ [newBoard r].
Proof.
  intros Hsys%systemReachable_inv Hs Hav Hr.
  destruct (sysInv_screen sys Hsys s Hs) as [es Hinv%uiReachable_inv].
  destruct (aiTimerStarted_spec _ s Hav) as (Hsingle & Hcur & Hmove).
  destruct (appReachable_level _ (sysInv_app sys Hsys) Hsingle) as [d Hd].
  destruct (aiTimer_plays random d s Hinv Hcur Hr Hmove) as (m & Hchosen & Hm & Hplay).
  destruct (performMoveTry_legal s m Hinv) as (s1 & Hs1 & _ & r & Hr1 & Hb1 & Hh1);
    [by rewrite Hcur|].
  destruct (systemStep_is_Ok sys (OnGame (AiTimer random)) Hsys) as [sys' Hsys'].
  pose proof (systemStep_outcome _ _ _ Hsys') as Hout.
  inversion Hout as [? Hlost| | |e0 s0 s' br Hs0 _ Hstep]; simplify_eq.
  { rewrite (Hlost s Hs) in Hav. discriminate. }
  apply gameStep_react, bind_Ok in Hstep as (s2 & [= <-] & Hs').
  rewrite Hd in Hs'. assert (aiTimer random (Some d) s = s1) as Hs2 by congruence.
  rewrite Hs2 in Hs'. rewrite effectDue_history in Hs'
    by (rewrite Hh1, length_app, Nat.add_1_r; apply Nat.neq_succ_diag_l).
  apply effect_board in Hs' as [Hb Hh]. eexists _, s', d, m, r.
  split_and!; [done..|congruence|congruence].
Qed.

(** ** The page in use *)

(** A game for two is started, the sounds are muted and White selects the
    man on (5,0). *)
Definition firstEvents : list Event :=
  [OnApp Multiplayer; OnGame ClickMute; OnGame (ClickSquare 5 0)].

(** The way back to the menu and into a game against the hard level. *)
Definition wayBack : list Event :=
  [OnApp BackToMenu; OnApp SinglePlayer; OnApp (Level hard)].

Definition pageAfter (st : Storage) (evs : list Event) : System :=
  catch (systemRun (initialSystem st) evs) (λ _, initialSystem st).

Lemma pageAfter_reachable st evs : systemReachable st (pageAfter st evs).
Proof.
  unfold pageAfter. destruct (systemRun _ evs) as [sys|] eqn:Hrun; [cbn|constructor].
  eapply systemRun_reachable; [constructor|done].
Qed.

(** The screen of the page. *)
Definition screenAfter (st : Storage) (evs : list Event) : State :=
  default (initialState false false false) (screen (pageAfter st evs)).

(** A game against the easy level after White's first move. *)
Definition againstEasy : list Event :=
  [OnApp SinglePlayer; OnApp (Level easy);
   OnGame (ClickSquare 5 0); OnGame (ClickSquare 4 1)].

(** A browser that refuses to read the storage. *)
Definition unreadableStorage : Storage := mkStorage ∅ false true.

(** [C16] The page stays consistent and never raises an exception: in every
    state the page reaches from its load, by any clicks and timers, the
    cells of [App] are cells of [App.appReachable]; a game screen is
    mounted exactly while [App] shows the game; its cells are a state of
    [Ui.uiReachable] for the mode and the level [App] holds; the four
    sounds are muted exactly when the screen says so; the storage, when it
    can be read and written, holds the preferences of the screen; and
    every further event returns. *)
Theorem system_invariant st sys :
  systemReachable st sys → sysInv sys ∧ ∀ ev, is_Ok (systemStep sys ev).
Proof. intros Hinv%systemReachable_inv. eauto using systemStep_is_Ok. Qed.

Lemma system_invariant_witness :
  sysInv (pageAfter emptyStorage firstEvents) ∧
  ∀ ev, is_Ok (systemStep (pageAfter emptyStorage firstEvents) ev).
Proof. apply (system_invariant emptyStorage), pageAfter_reachable. Defined.

(** [C26] The preferences survive: when the browser grants reading and
    writing, the preferences of the page (those of the game screen, or
    those a new game screen would read from the storage) are the same
    after any events other than the three toggles; so a game started
    after the way back to the menu, in any mode, is muted and shows hints
    and paths as the game before did. *)
Theorem preferences_persist st sys evs sys' :
  systemReachable st sys → readable st = true → writable st = true →
  Forall (λ ev, keepsPreferences ev = true) evs → systemRun sys evs ⇓ sys' →
  preferences sys' = preferences sys.
Proof. apply systemRun_preferences. Qed.

Lemma preferences_persist_witness :
  preferences (pageAfter emptyStorage (firstEvents ++ wayBack))
  = preferences (pageAfter emptyStorage firstEvents).
Proof.
  apply (preferences_persist emptyStorage _ wayBack);
    [apply pageAfter_reachable|done..|by repeat constructor|by vm_compute].
Defined.

(** The game after the way back is muted, as the first game was. *)
Example wayBack_muted :
  preferences (pageAfter emptyStorage (firstEvents ++ wayBack))
  = mkPreferences true false false.
Proof. by vm_compute. Qed.

(** [C29] A browser that refuses loses the preferences: when it refuses to
    read or to write the storage, every new game screen starts with the
    preferences read from the storage as it was when the page loaded (all
    off when reading is refused), whatever was chosen in the games before;
    no exception reaches the page. *)
Theorem preferences_lost st sys e sys' s' :
  systemReachable st sys → readable st = false ∨ writable st = false →
  screen sys = None → systemStep sys (OnApp e) ⇓ sys' → screen sys' = Some s' →
  preferencesOf s' = loadPreferences st ∧
  (readable st = false → preferencesOf s' = mkPreferences false false false).
Proof.
  intros Hsys Hrefused Hnone Hstep Hs'.
  destruct (systemReachable_storage _ _ Hsys) as (Hr & Hw & Hitems).
  assert (loadPreferences (storage (browser sys)) = loadPreferences st) as Hload.
  { unfold loadPreferences, loadPreference, getItem. rewrite Hr.
    destruct Hrefused as [->| ->%Hitems]; done. }
  assert (preferencesOf s' = loadPreferences st) as Hprefs.
  { apply systemStep_outcome in Hstep. inversion Hstep; simplify_eq/=.
    match goal with H : mount _ _ ⇓ _ |- _ =>
      apply mount_browser in H as (_ & _ & _ & _ & _ & -> & _) end.
    unfold loadPreferences. congruence. }
  split; [done|]. intros Hunreadable. rewrite Hprefs.
  unfold loadPreferences. by rewrite !loadPreference_unreadable.
Qed.

Lemma preferences_lost_witness :
  preferencesOf (initialState false false false) = loadPreferences unreadableStorage ∧
  (readable unreadableStorage = false →
   preferencesOf (initialState false false false) = mkPreferences false false false).
Proof.
  apply (preferences_lost unreadableStorage
           (pageAfter unreadableStorage (firstEvents ++ [OnApp BackToMenu]))
           Multiplayer
           (pageAfter unreadableStorage (firstEvents ++ [OnApp BackToMenu; OnApp Multiplayer])));
    [apply pageAfter_reachable|by left|by vm_compute..].
Defined.

(** [C27] The sounds follow the mute button: an event of the page adds to
    the log of the sounds exactly the sounds of the event (the sound of
    the move its handler performs, then the sound of the win when the
    board effect finds one), each muted exactly when the game screen is
    muted before the event; so a muted game makes no sound. *)
Theorem sounds_follow_mute st sys ev sys' :
  systemReachable st sys → systemStep sys ev ⇓ sys' →
  heard (audio (browser sys')) =
  heard (audio (browser sys))
  ++ ((λ snd, (snd, muted (preferences sys))) <$> systemSounds sys ev).
Proof. intros Hinv%systemReachable_inv. by apply systemStep_heard. Qed.

Lemma sounds_follow_mute_witness :
  heard (audio (browser (pageAfter emptyStorage (firstEvents ++ [OnGame (ClickSquare 4 1)]))))
  = heard (audio (browser (pageAfter emptyStorage firstEvents)))
    ++ ((λ snd, (snd, muted (preferences (pageAfter emptyStorage firstEvents))))
          <$> systemSounds (pageAfter emptyStorage firstEvents) (OnGame (ClickSquare 4 1))).
Proof.
  apply (sounds_follow_mute emptyStorage); [apply pageAfter_reachable|by vm_compute].
Defined.

(** White's first move is heard as a move, muted. *)
Example firstMove_heard :
  heard (audio (browser (pageAfter emptyStorage (firstEvents ++ [OnGame (ClickSquare 4 1)]))))
  = [(moveSound, true)].
Proof. by vm_compute. Qed.

(** When the browser refuses to read, the game after the way back has
    forgotten that the first game was muted. *)
Example wayBack_forgets :
  preferences (pageAfter unreadableStorage (firstEvents ++ wayBack))
  = mkPreferences false false false.
Proof. by vm_compute. Qed.

Lemma page_ai_answers_witness :
  ∃ sys' s' d m r,
    systemStep (pageAfter emptyStorage againstEasy) (OnGame (AiTimer (mkRandom 1 2))) ⇓ sys' ∧
    screen sys' = Some s' ∧
    difficulty (appState (pageAfter emptyStorage againstEasy)) = Some d ∧
    getAIMove (mkRandom 1 2) (board (screenAfter emptyStorage againstEasy)) AI_PLAYER d ⇓ Some m ∧
    legalMove (board (screenAfter emptyStorage againstEasy)) AI_PLAYER m ∧
    applyMove (board (screenAfter emptyStorage againstEasy)) m ⇓ r ∧
    board s' = newBoard r ∧
    history s' = history (screenAfter emptyStorage againstEasy) ++ [newBoard r].
Proof.
  apply (page_ai_answers emptyStorage);
    [apply pageAfter_reachable|by vm_compute|by vm_compute|cbn; lia].
Defined.
