(* ===== verification/Ghost.v ===== *)
(** * Ghost: the counter of the pending timers is not a cell

    The field [modalTimers] of [GameScreen.State] counts the timers of
    line 169 of [src/src/screens/GameScreen.tsx] that have been started
    and have not fired; the component cannot read it.  This file shows
    that nothing the component computes depends on it.  Two states with
    the same cells are related by [sameCells], an equivalence; the
    handlers, the board effect, the step of [Ui.react] and the view are
    [Proper] for it: from states with the same cells they lead to states
    with the same cells and draw the same screen.  Only the firing of the
    timer itself asks whether a timer is pending. *)

From stdpp Require Import prelude strings.
From Stdlib Require Import ZArith Lia.
From S2P Require Import Prelude Types Board MoveGen Chains Apply Terminal Eval Game Num Search Suggest GameScreen GameBoard Ui Views.

Local Open Scope Z_scope.

(** The state with [n] pending timers. *)
Definition withTimers (n : nat) (s : State) : State :=
  mkState (board s) (currentPlayer s) (selectedPiece s) (validMoves s)
    (winner s) (gameResult s) (showGameOverModal s) (isPaused s)
    (history s) (mandatoryCaptures s)
    (isMuted s) (enableSuggestions s) (showPlayerPaths s) n.

(** The two states have the same cells. *)
Definition sameCells : relation State := λ s s', withTimers 0 s = withTimers 0 s'.

(** Results with the same cells, or the same exception. *)
Definition sameRes : relation (res State) := λ m m',
  match m, m' with
  | Ok s, Ok s' => sameCells s s'
  | Err e, Err e' => e = e'
  | _, _ => False
  end.

#[export] Instance sameCells_equivalence : Equivalence sameCells.
Proof.
  unfold sameCells. split; [by intros ?|by intros ? ?|intros ? ? ?; congruence].
Qed.

#[export] Instance sameRes_equivalence : Equivalence sameRes.
Proof.
  split.
  - by intros [s|e].
  - intros [s|e] [s'|e']; cbn; done.
  - intros [s|e] [s'|e'] [s''|e'']; cbn; try done; [apply transitivity|congruence].
Qed.

Lemma sameCells_withTimers n s : sameCells (withTimers n s) s.
Proof. done. Qed.

(** States with the same cells differ in the counter only. *)
Lemma sameCells_spec s s' : sameCells s s' ↔ ∃ n, s' = withTimers n s.
Proof.
  unfold sameCells. split; [|by intros [n ->]].
  destruct s, s'; cbn. intros [= -> -> -> -> -> -> -> -> -> -> -> -> ->]. by eexists.
Qed.

(** Rewrites the second of two states with the same cells into the first
    with another counter. *)
Ltac same_cells :=
  repeat match goal with
  | H : sameCells _ _ |- _ => apply sameCells_spec in H as [? ->]
  end;
  unfold sameRes, sameCells.

Section proper.
Context (gameMode : GameMode) (difficulty : option Difficulty).

#[export] Instance performMove_proper :
  Proper (sameCells ==> eq ==> sameCells) performMove.
Proof.
  intros s s' Hs m ? <-. same_cells. unfold performMove, performMoveTry. cbn.
  destruct (applyMove (board s) m) as [r|]; cbn; [|done].
  destruct (findCaptureMoves (newBoard r) (currentPlayer s)); cbn; [|done].
  by case_match.
Qed.

#[export] Instance effect_proper : Proper (sameCells ==> sameRes) (effect gameMode).
Proof.
  intros s s' Hs. same_cells. unfold effect. cbn.
  destruct (_ || isPaused s); [done|].
  destruct (checkWinCondition _ _) as [[w|]|]; cbn; [done| |done].
  by destruct (findCaptureMoves _ _).
Qed.

#[export] Instance handleSquareClick_proper :
  Proper (sameCells ==> eq ==> sameRes) (handleSquareClick gameMode).
Proof.
  intros s s' Hs pos ? <-. same_cells.
  unfold handleSquareClick, isPlayerTurn. cbn.
  destruct (_ || negb _); [done|].
  destruct (findClicked _ _); [by apply (performMove_proper s (withTimers _ s))|].
  destruct (bool_decide _); [|done]. destruct (_ && negb _); [done|].
  by destruct (getValidMoves _ _).
Qed.

#[export] Instance handleUndo_proper : Proper (sameCells ==> sameCells) (handleUndo gameMode).
Proof. intros s s' Hs. same_cells. unfold handleUndo. cbn. by repeat case_match. Qed.

#[export] Instance aiTimer_proper random :
  Proper (sameCells ==> sameCells) (aiTimer random difficulty).
Proof.
  intros s s' Hs. same_cells. unfold aiTimer. cbn.
  destruct difficulty as [d|]; [|done].
  destruct (getAIMove _ _ _ d) as [[m|]|]; [|done..].
  by apply (performMove_proper s (withTimers _ s)).
Qed.

#[export] Instance handler_proper e :
  Proper (sameCells ==> sameRes) (handler gameMode difficulty e).
Proof.
  intros s s' Hs. destruct e; cbn;
    try (by apply handleSquareClick_proper); try (by apply handleUndo_proper);
    try (by apply aiTimer_proper); by same_cells.
Qed.

#[export] Instance effectDue_proper e :
  Proper (sameCells ==> sameCells ==> eq) (effectDue e).
Proof. intros s s' Hs s1 s1' Hs1. by same_cells. Qed.

(** One event leads from states with the same cells to states with the
    same cells. *)
#[export] Instance react_proper e :
  Proper (sameCells ==> sameRes) (react gameMode difficulty e).
Proof.
  intros s s' Hs. unfold react. pose proof (handler_proper e s s' Hs) as Hh.
  destruct (handler _ _ e s) as [s1|], (handler _ _ e s') as [s1'|]; cbn in *; try done.
  rewrite (effectDue_proper e s s' Hs s1 s1' Hh).
  destruct (effectDue e s' s1'); [by apply effect_proper|done].
Qed.

(** Every event but the firing of the modal timer is there in both states
    or in neither. *)
Lemma available_proper e :
  e ≠ ModalTimer → Proper (sameCells ==> eq) (λ s, available gameMode s e).
Proof. intros He s s' Hs. same_cells. by destruct e. Qed.

(** States with the same cells draw the same screen. *)
#[export] Instance gameScreen_proper {H} (onBackToMenu : H) on :
  Proper (sameCells ==> eq) (gameScreen onBackToMenu on gameMode).
Proof. intros s s' Hs. by same_cells. Qed.
End proper.

(** The counter is never read: erasing it before an event and after it
    gives the same cells, whatever the event. *)
Theorem ghost_erasure gameMode difficulty e s :
  sameRes (react gameMode difficulty e (withTimers 0 s)) (react gameMode difficulty e s).
Proof. apply react_proper, sameCells_withTimers. Qed.

(** A timer that fires while the modal is open changes no cell. *)
Lemma showModalTimer_open s : showGameOverModal s = true → sameCells (showModalTimer s) s.
Proof. intros Hopen. unfold sameCells, showModalTimer, withTimers. cbn. by rewrite Hopen. Qed.

(** So the screen is drawn as before, and the next event leads to the same
    cells as if the timer had not fired. *)
Corollary late_timer_unseen gameMode difficulty e s :
  showGameOverModal s = true →
  gameScreen ToMenu Local gameMode (showModalTimer s) = gameScreen ToMenu Local gameMode s ∧
  sameRes (react gameMode difficulty e (showModalTimer s)) (react gameMode difficulty e s).
Proof. intros Hopen%showModalTimer_open. by rewrite Hopen. Qed.
